(** * FAST: data coherence of [Image2D] and the [GaussianSmoothingFilter] stage

    A shallow embedding of

    - [src/Data/Image2D.cpp]: the per-location coherence table of an image
      (host copy plus one OpenCL image per device) and its access methods;
    - [ImageData.cpp] (the getters of the image base class);
    - [GaussianSmoothingFilter.cpp]: the smoothing stage, its parameter
      setters, its output hand-over, its two caches (mask and OpenCL kernel)
      and [execute].

    C++ methods become functions in a small state-and-exception monad: a
    method that throws keeps the mutations it made before the throw, exactly
    as the C++ object does. *)

From Stdlib Require Import ZArith Bool Lia.
From Corelib Require Import SpecFloat.
From stdpp Require Import gmap strings list fin_maps.

Local Open Scope Z_scope.

(* ===================================================================== *)
(** ** Outcomes and the method monad *)
(* ===================================================================== *)

(** A call either returns, throws [fast::Exception(what)], or has no defined
    behaviour (a null or dangling pointer is dereferenced, an array is
    indexed out of bounds, an indeterminate value is read, an OpenCL call
    is handed a null host pointer). *)
Inductive outcome (S A : Type) : Type :=
| Return (a : A) (s : S)
| Throw (what : string) (s : S)
| Undefined.
Arguments Return {S A} a s.
Arguments Throw {S A} what s.
Arguments Undefined {S A}.

Definition M (S A : Type) : Type := S -> outcome S A.

Definition ret {S A} (a : A) : M S A := fun s => Return a s.

Definition bind {S A B} (m : M S A) (k : A -> M S B) : M S B :=
  fun s =>
    match m s with
    | Return a s' => k a s'
    | Throw what s' => Throw what s'
    | Undefined => Undefined
    end.

Definition throw {S A} (what : string) : M S A := fun s => Throw what s.
Definition undefined {S A} : M S A := fun _ => Undefined.
Definition get {S} : M S S := fun s => Return s s.
Definition gets {S A} (f : S -> A) : M S A := fun s => Return (f s) s.
Definition modify {S} (f : S -> S) : M S unit := fun s => Return tt (f s).

Notation "'let*' x ':=' m 'in' k" := (bind m (fun x => k))
  (at level 10, x pattern, m at level 100, k at level 200).
Notation "m '>>' k" := (bind m (fun _ => k))
  (at level 90, k at level 200).

(** [when c m]: the C++ [if (c) m;]. *)
Definition when {S} (c : bool) (m : M S unit) : M S unit :=
  if c then m else ret tt.

(** A [for] loop over the listed index values; a throw or undefined
    behaviour in the body ends the loop. *)
Fixpoint for_each {S I} (l : list I) (body : I -> M S unit) : M S unit :=
  match l with
  | [] => ret tt
  | i :: l' => body i >> for_each l' body
  end.

(** [range lo hi] lists lo, lo+1, ..., hi-1: the values a C++ loop
    [for (i = lo; i < hi; i++)] gives its body. *)
Definition range (lo hi : Z) : list Z := seqZ lo (hi - lo).

(** Unsigned 32-bit wrap-around ([unsigned int] arithmetic). *)
Definition u32 (z : Z) : Z := z mod 2 ^ 32.

(* ===================================================================== *)
(** ** Floating point: [float] and [double] *)
(* ===================================================================== *)

(** IEEE 754 binary32 ([float]) and binary64 ([double]), round to nearest
    even, over the Standard Library's executable specification. *)
Module F32.
Definition prec : Z := 24.
Definition emax : Z := 128.
Definition add := SFadd prec emax.
Definition mul := SFmul prec emax.
Definition div := SFdiv prec emax.
Definition opp := SFopp.
Definition leb := SFleb.
Definition of_int (z : Z) : spec_float := binary_normalize prec emax z 0 false.
Definition zero : spec_float := S754_zero false.
Definition one : spec_float := of_int 1.
Definition two : spec_float := of_int 2.
End F32.

Module F64.
Definition prec : Z := 53.
Definition emax : Z := 1024.
Definition add := SFadd prec emax.
Definition zero : spec_float := S754_zero false.
End F64.

(** [(double) f]: exact. *)
Definition double_of_float (f : spec_float) : spec_float :=
  match f with
  | S754_finite s m e => binary_round F64.prec F64.emax s m e
  | _ => f
  end.

(** [(float) d]: rounds to nearest even, overflows to infinity. *)
Definition float_of_double (d : spec_float) : spec_float :=
  match d with
  | S754_finite s m e => binary_round F32.prec F32.emax s m e
  | _ => d
  end.

(** The integer part of a finite [double], rounding toward zero. *)
Definition trunc_double (d : spec_float) : option Z :=
  match d with
  | S754_zero _ => Some 0
  | S754_finite s m e =>
      let a := if 0 <=? e then Z.shiftl (Zpos m) e else Z.shiftr (Zpos m) (- e) in
      Some (if s then - a else a)
  | _ => None
  end.

(* ===================================================================== *)
(** ** Data types of the image classes *)
(* ===================================================================== *)

Inductive DataType := TYPE_FLOAT | TYPE_UINT8 | TYPE_INT8 | TYPE_UINT16 | TYPE_INT16.

Global Instance DataType_eq_dec : EqDecision DataType.
Proof. solve_decision. Defined.

Inductive accessType := ACCESS_READ | ACCESS_READ_WRITE.

Global Instance accessType_eq_dec : EqDecision accessType.
Proof. solve_decision. Defined.

(** [ExecutionDevice::pointer]: the host, or the OpenCL device with the
    given identity. [OpenCLDevice::pointer] values are the identities. *)
Inductive ExecutionDevice := Host | OpenCLDevice (d : nat).

Global Instance ExecutionDevice_eq_dec : EqDecision ExecutionDevice.
Proof. solve_decision. Defined.

Definition isHost (device : ExecutionDevice) : bool :=
  match device with Host => true | OpenCLDevice _ => false end.

(** An element of an image buffer as the element type reads it. *)
Inductive pixel := PFloat (f : spec_float) | PInt (z : Z).

(** A buffer cell; [None] is a cell never written (indeterminate). *)
Definition cell : Type := option pixel.

(** What the devices and allocators are asked to do, in call order. *)
Inductive event :=
| NewHostArray (length : Z)
| NewCLImage (d : nat) (width height : Z)
| EnqueueWriteImage (d : nat)          (* host -> device d *)
| EnqueueReadImage (d : nat)           (* device d -> host *)
| NewMask (length : Z)
| NewCLBuffer (d : nat) (length : Z)
| CreateProgramFromSource (d : nat) (filename buildOptions : string)
| EnqueueNDRangeKernel (d : nat) (globalSize : list Z).

(* ===================================================================== *)
(** ** Elements in memory *)
(* ===================================================================== *)

(** [sizeof] of the C++ element type behind a [DataType]: [float], [uchar],
    [char], [ushort], [short]. *)
Definition sizeOf (T : DataType) : nat :=
  match T with
  | TYPE_FLOAT => 4
  | TYPE_UINT8 | TYPE_INT8 => 1
  | TYPE_UINT16 | TYPE_INT16 => 2
  end.

(** A [cl::ImageFormat]: the data type of a channel and the number of
    channels of the channel order ([CL_R] has one). A pixel of the image
    takes [pixelSize] bytes. *)
Record ImageFormat := mkImageFormat {
  channelType : DataType;
  channels : Z
}.

Definition pixelSize (format : ImageFormat) : nat :=
  Z.to_nat (channels format) * sizeOf (channelType format).

(** Modelled from its calls: [getOpenCLImageFormat] is declared in
    HelperFunctions.hpp, which is not under src/. The format it returns has
    the channel data type of [type] and one channel per component. *)
Definition getOpenCLImageFormat (type : DataType) (nrOfComponents : Z) : ImageFormat :=
  mkImageFormat type nrOfComponents.

(** A byte of memory; [None] is a byte never written (indeterminate). *)
Definition byte : Type := option Z.

Fixpoint little_endian (n : nat) (z : Z) : list Z :=
  match n with
  | O => []
  | S n' => z mod 256 :: little_endian n' (z / 256)
  end.

Fixpoint of_little_endian (l : list Z) : Z :=
  match l with
  | [] => 0
  | b :: l' => b + 256 * of_little_endian l'
  end.

(** The IEEE-754 binary32 encoding. [spec_float] has one NaN: every NaN is
    stored as the quiet NaN with an empty payload. *)
Definition bits_of_float (f : spec_float) : Z :=
  let sign (s : bool) := if s then 2 ^ 31 else 0 in
  match f with
  | S754_zero s => sign s
  | S754_infinity s => sign s + 255 * 2 ^ 23
  | S754_nan => 255 * 2 ^ 23 + 2 ^ 22
  | S754_finite s m e =>
      if Z.pos m <? 2 ^ 23 then sign s + Z.pos m
      else sign s + (e + 150) * 2 ^ 23 + (Z.pos m - 2 ^ 23)
  end.

Definition float_of_bits (z : Z) : spec_float :=
  let s := 0 <? z / 2 ^ 31 in
  let e := (z / 2 ^ 23) mod 256 in
  let m := z mod 2 ^ 23 in
  if e =? 0 then
    match m with Zpos p => S754_finite s p (-149) | _ => S754_zero s end
  else if e =? 255 then
    if m =? 0 then S754_infinity s else S754_nan
  else
    match m + 2 ^ 23 with Zpos p => S754_finite s p (e - 150) | _ => S754_nan end.

(** The object representation of an element of type [T]: little-endian,
    binary32 for [float], two's complement for the signed integers. A pixel
    that is not a value of [T] has no representation. *)
Definition bytes_of_pixel (T : DataType) (p : pixel) : option (list Z) :=
  match T, p with
  | TYPE_FLOAT, PFloat f => Some (little_endian 4 (bits_of_float f))
  | TYPE_FLOAT, PInt _ => None
  | _, PInt z => Some (little_endian (sizeOf T) (z mod 2 ^ (8 * Z.of_nat (sizeOf T))))
  | _, PFloat _ => None
  end.

Definition pixel_of_bytes (T : DataType) (bytes : list Z) : pixel :=
  let z := of_little_endian bytes in
  match T with
  | TYPE_FLOAT => PFloat (float_of_bits z)
  | TYPE_UINT8 | TYPE_UINT16 => PInt z
  | TYPE_INT8 | TYPE_INT16 =>
      PInt (if z <? 2 ^ (8 * Z.of_nat (sizeOf T) - 1) then z
            else z - 2 ^ (8 * Z.of_nat (sizeOf T)))
  end.

(** An array of elements of type [T] as bytes, and back. A cell never
    written is [sizeOf T] indeterminate bytes; an element with an
    indeterminate byte is indeterminate. *)
Definition bytes_of_cell (T : DataType) (c : cell) : list byte :=
  match c ≫= bytes_of_pixel T with
  | Some bytes => Some <$> bytes
  | None => replicate (sizeOf T) None
  end.

Definition cell_of_bytes (T : DataType) (bytes : list byte) : cell :=
  pixel_of_bytes T <$> mapM id bytes.

Definition bytes_of (T : DataType) (array : list cell) : list byte :=
  array ≫= bytes_of_cell T.

Fixpoint cells_of (T : DataType) (n : nat) (bytes : list byte) : list cell :=
  match n with
  | O => []
  | S n' => cell_of_bytes T (take (sizeOf T) bytes) :: cells_of T n' (drop (sizeOf T) bytes)
  end.

(** [n] bytes copied from the start of an array of [from] elements to the
    start of an array of [to] elements, as [memcpy] and the OpenCL image
    transfers do. [None]: the bytes do not lie inside both arrays. Whole
    elements copied between arrays of one element type keep their values;
    between arrays of different element types the bytes are reinterpreted:
    the [reached] elements of the target that the bytes reach are read back
    from their new bytes, the others are left as they are. *)
Definition copyBytes (from to : DataType) (n : nat) (source target : list cell)
  : option (list cell) :=
  if bool_decide (n <= length source * sizeOf from /\ n <= length target * sizeOf to)%nat
  then
    if bool_decide (from = to /\ n `mod` sizeOf to = 0)%nat
    then Some (take (n / sizeOf to) source ++ drop (n / sizeOf to) target)
    else
      let reached := ((n + sizeOf to - 1) / sizeOf to)%nat in
      Some (cells_of to reached
              (take n (bytes_of from source) ++ drop n (bytes_of to (take reached target)))
            ++ drop reached target)
  else None.

(* ===================================================================== *)
(** ** [Image2D] *)
(* ===================================================================== *)

(** The fields of [Image2D] (with those of its base [ImageData]).
    A pointer is an [option]: [None] is the null pointer. [mCLImages] maps a
    device to its [cl::Image2D*], which may be null. [mHostData] is a
    [void*]: [mHostDataType] is the element type of the array it points to,
    as the [new] expression that allocated it fixed it, and
    [mCLImageFormats] holds the format each [cl::Image2D] was constructed
    with; an array or image is a list of elements of that type. [mEvents]
    is a log of the allocations and transfers the object has issued. These
    three are ghost fields. *)
Record Image2D := mkImage2D {
  mWidth : Z;
  mHeight : Z;
  mDimensions : Z;
  mType : DataType;
  mComponents : Z;
  mHostData : option (list cell);
  mHostDataType : DataType;
  mHostHasData : bool;
  mHostDataIsUpToDate : bool;
  mHostDataIsBeingAccessed : bool;
  mCLImages : gmap nat (option (list cell));
  mCLImageFormats : gmap nat ImageFormat;
  mCLImagesIsUpToDate : gmap nat bool;
  mCLImagesAccess : gmap nat bool;
  mEvents : list event
}.

Definition set_mWidth v (i : Image2D) :=
  mkImage2D v (mHeight i) (mDimensions i) (mType i) (mComponents i) (mHostData i)
    (mHostDataType i) (mHostHasData i) (mHostDataIsUpToDate i)
    (mHostDataIsBeingAccessed i) (mCLImages i) (mCLImageFormats i)
    (mCLImagesIsUpToDate i) (mCLImagesAccess i) (mEvents i).
Definition set_mHeight v (i : Image2D) :=
  mkImage2D (mWidth i) v (mDimensions i) (mType i) (mComponents i) (mHostData i)
    (mHostDataType i) (mHostHasData i) (mHostDataIsUpToDate i)
    (mHostDataIsBeingAccessed i) (mCLImages i) (mCLImageFormats i)
    (mCLImagesIsUpToDate i) (mCLImagesAccess i) (mEvents i).
Definition set_mType v (i : Image2D) :=
  mkImage2D (mWidth i) (mHeight i) (mDimensions i) v (mComponents i) (mHostData i)
    (mHostDataType i) (mHostHasData i) (mHostDataIsUpToDate i)
    (mHostDataIsBeingAccessed i) (mCLImages i) (mCLImageFormats i)
    (mCLImagesIsUpToDate i) (mCLImagesAccess i) (mEvents i).
Definition set_mComponents v (i : Image2D) :=
  mkImage2D (mWidth i) (mHeight i) (mDimensions i) (mType i) v (mHostData i)
    (mHostDataType i) (mHostHasData i) (mHostDataIsUpToDate i)
    (mHostDataIsBeingAccessed i) (mCLImages i) (mCLImageFormats i)
    (mCLImagesIsUpToDate i) (mCLImagesAccess i) (mEvents i).
Definition set_mHostData v (i : Image2D) :=
  mkImage2D (mWidth i) (mHeight i) (mDimensions i) (mType i) (mComponents i) v
    (mHostDataType i) (mHostHasData i) (mHostDataIsUpToDate i)
    (mHostDataIsBeingAccessed i) (mCLImages i) (mCLImageFormats i)
    (mCLImagesIsUpToDate i) (mCLImagesAccess i) (mEvents i).
Definition set_mHostDataType v (i : Image2D) :=
  mkImage2D (mWidth i) (mHeight i) (mDimensions i) (mType i) (mComponents i)
    (mHostData i) v (mHostHasData i) (mHostDataIsUpToDate i)
    (mHostDataIsBeingAccessed i) (mCLImages i) (mCLImageFormats i)
    (mCLImagesIsUpToDate i) (mCLImagesAccess i) (mEvents i).
Definition set_mHostHasData v (i : Image2D) :=
  mkImage2D (mWidth i) (mHeight i) (mDimensions i) (mType i) (mComponents i)
    (mHostData i) (mHostDataType i) v (mHostDataIsUpToDate i)
    (mHostDataIsBeingAccessed i) (mCLImages i) (mCLImageFormats i)
    (mCLImagesIsUpToDate i) (mCLImagesAccess i) (mEvents i).
Definition set_mHostDataIsUpToDate v (i : Image2D) :=
  mkImage2D (mWidth i) (mHeight i) (mDimensions i) (mType i) (mComponents i)
    (mHostData i) (mHostDataType i) (mHostHasData i) v (mHostDataIsBeingAccessed i)
    (mCLImages i) (mCLImageFormats i) (mCLImagesIsUpToDate i) (mCLImagesAccess i)
    (mEvents i).
Definition set_mHostDataIsBeingAccessed v (i : Image2D) :=
  mkImage2D (mWidth i) (mHeight i) (mDimensions i) (mType i) (mComponents i)
    (mHostData i) (mHostDataType i) (mHostHasData i) (mHostDataIsUpToDate i) v
    (mCLImages i) (mCLImageFormats i) (mCLImagesIsUpToDate i) (mCLImagesAccess i)
    (mEvents i).
Definition set_mCLImages v (i : Image2D) :=
  mkImage2D (mWidth i) (mHeight i) (mDimensions i) (mType i) (mComponents i)
    (mHostData i) (mHostDataType i) (mHostHasData i) (mHostDataIsUpToDate i)
    (mHostDataIsBeingAccessed i) v (mCLImageFormats i) (mCLImagesIsUpToDate i)
    (mCLImagesAccess i) (mEvents i).
Definition set_mCLImageFormats v (i : Image2D) :=
  mkImage2D (mWidth i) (mHeight i) (mDimensions i) (mType i) (mComponents i)
    (mHostData i) (mHostDataType i) (mHostHasData i) (mHostDataIsUpToDate i)
    (mHostDataIsBeingAccessed i) (mCLImages i) v (mCLImagesIsUpToDate i)
    (mCLImagesAccess i) (mEvents i).
Definition set_mCLImagesIsUpToDate v (i : Image2D) :=
  mkImage2D (mWidth i) (mHeight i) (mDimensions i) (mType i) (mComponents i)
    (mHostData i) (mHostDataType i) (mHostHasData i) (mHostDataIsUpToDate i)
    (mHostDataIsBeingAccessed i) (mCLImages i) (mCLImageFormats i) v (mCLImagesAccess i)
    (mEvents i).
Definition set_mCLImagesAccess v (i : Image2D) :=
  mkImage2D (mWidth i) (mHeight i) (mDimensions i) (mType i) (mComponents i)
    (mHostData i) (mHostDataType i) (mHostHasData i) (mHostDataIsUpToDate i)
    (mHostDataIsBeingAccessed i) (mCLImages i) (mCLImageFormats i)
    (mCLImagesIsUpToDate i) v (mEvents i).
Definition emit (e : event) (i : Image2D) :=
  mkImage2D (mWidth i) (mHeight i) (mDimensions i) (mType i) (mComponents i)
    (mHostData i) (mHostDataType i) (mHostHasData i) (mHostDataIsUpToDate i)
    (mHostDataIsBeingAccessed i) (mCLImages i) (mCLImageFormats i)
    (mCLImagesIsUpToDate i) (mCLImagesAccess i) (mEvents i ++ [e]).

(** [Image2D::Image2D()]. The constructor leaves the size and type fields
    uninitialised; [createImage] sets them. The model starts them at 0 and
    [TYPE_FLOAT]. *)
Definition Image2D_new : Image2D :=
  mkImage2D 0 0 2 TYPE_FLOAT 0 None TYPE_FLOAT false false false ∅ ∅ ∅ ∅ [].

(** The getters of [ImageData]. *)
Definition getWidth (i : Image2D) : Z := mWidth i.
Definition getHeight (i : Image2D) : Z := mHeight i.
Definition getDimensions (i : Image2D) : Z := mDimensions i.
Definition getDataType (i : Image2D) : DataType := mType i.
Definition getNrOfComponents (i : Image2D) : Z := mComponents i.

(** The iteration of a [boost::unordered_map<OpenCLDevice::pointer, bool>]
    that stops at the first entry whose value is [true]. The order of an
    unordered map is unspecified; the model walks the entries in the order
    of [map_to_list]. *)
Fixpoint first_true (l : list (nat * bool)) : option nat :=
  match l with
  | [] => None
  | (d, b) :: l' => if b then Some d else first_true l'
  end.

Definition isDataModified (i : Image2D) : bool :=
  if negb (mHostDataIsUpToDate i) then true
  else existsb (fun e => negb (snd e)) (map_to_list (mCLImagesIsUpToDate i)).

Definition isAnyDataBeingAccessed (i : Image2D) : bool :=
  if mHostDataIsBeingAccessed i then true
  else existsb snd (map_to_list (mCLImagesAccess i)).

(** The region [oul::createRegion(mWidth, mHeight, 1)] in pixels. *)
Definition regionSize (i : Image2D) : nat := Z.to_nat (mWidth i * mHeight i).

(** [*mCLImages[device]]: [operator[]] on a missing key inserts a null
    pointer, and dereferencing a null pointer is undefined. The transfer
    moves the pixels of the region, in the format of the image, between the
    image and the memory at [mHostData]: [regionSize * pixelSize] bytes. A
    null host pointer, or an array or image that does not hold that many
    bytes, is outside the contract of the OpenCL call. *)
Definition transferCLImageFromHost (device : nat) : M Image2D unit :=
  fun i =>
    match mCLImages i !! device, mCLImageFormats i !! device, mHostData i with
    | Some (Some image), Some format, Some host =>
        match copyBytes (mHostDataType i) (channelType format)
                (regionSize i * pixelSize format) host image with
        | Some image' =>
            Return tt
              (emit (EnqueueWriteImage device)
                 (set_mCLImages (<[device := Some image']> (mCLImages i)) i))
        | None => Undefined
        end
    | _, _, _ => Undefined
    end.

Definition transferCLImageToHost (device : nat) : M Image2D unit :=
  fun i =>
    match mCLImages i !! device, mCLImageFormats i !! device, mHostData i with
    | Some (Some image), Some format, Some host =>
        match copyBytes (channelType format) (mHostDataType i)
                (regionSize i * pixelSize format) image host with
        | Some host' =>
            Return tt (emit (EnqueueReadImage device) (set_mHostData (Some host') i))
        | None => Undefined
        end
    | _, _, _ => Undefined
    end.

Definition coherence_message : string :=
  "Data was not updated because no data was marked as up to date".
Definition concurrent_access_message : string :=
  "Trying to get write access to an object that is already being accessed".
Definition already_initialized_message : string :=
  "Can not use createImage on an object that is already initialized.".

Definition updateOpenCLImageData (device : nat) : M Image2D unit :=
  let* i := get in
  (* If data exist on device and is up to date do nothing *)
  if bool_decide (mCLImagesIsUpToDate i !! device = Some true) then ret tt
  else
    when (bool_decide (mCLImagesIsUpToDate i !! device = None))
      (* Data is not on device, create it *)
      (modify (fun i =>
         emit (NewCLImage device (mWidth i) (mHeight i))
           (set_mCLImagesAccess (<[device := true]> (mCLImagesAccess i))
           (set_mCLImagesIsUpToDate (<[device := true]> (mCLImagesIsUpToDate i))
           (set_mCLImageFormats
              (<[device := mkImageFormat TYPE_FLOAT 1]> (mCLImageFormats i))
           (set_mCLImages (<[device := Some (replicate (regionSize i) None)]> (mCLImages i))
              i)))))) >>
    (* Find which data is up to date *)
    let* i := get in
    if mHostDataIsUpToDate i then
      (* Transfer host data to this device *)
      transferCLImageFromHost device
    else
      match first_true (map_to_list (mCLImagesIsUpToDate i)) with
      | Some src =>
          transferCLImageToHost src >>
          transferCLImageFromHost device >>
          modify (set_mHostDataIsUpToDate true)
      | None => throw coherence_message
      end.

Definition updateHostData : M Image2D unit :=
  let* i := get in
  (* It is the host data that has been modified, no need to update *)
  if mHostDataIsUpToDate i then ret tt
  else
    when (negb (mHostHasData i))
      (* Data is not initialized, do that first *)
      (modify (fun i =>
         emit (NewHostArray (u32 (mWidth i * mHeight i)))
           (set_mHostDataType TYPE_FLOAT
           (set_mHostData
              (Some (replicate (Z.to_nat (u32 (mWidth i * mHeight i))) None)) i)))) >>
    let* i := get in
    if bool_decide (0 < size (mCLImages i))%nat then
      (* Find which data is up to date *)
      match first_true (map_to_list (mCLImagesIsUpToDate i)) with
      | Some src => transferCLImageToHost src
      | None => throw coherence_message
      end
    else ret tt.

Definition setAllDataToOutOfDate : M Image2D unit :=
  modify (fun i =>
    set_mCLImagesIsUpToDate ((fun _ => false) <$> mCLImagesIsUpToDate i)
      (set_mHostDataIsUpToDate false i)).

(** What an accessor is built from: the data pointer handed to it (null, or
    the buffer behind it at the time of the call). The second constructor
    argument of the C++ accessors is the address of the location's
    being-accessed flag. *)
Record OpenCLImageAccess2D := mkOpenCLImageAccess2D {
  cl_access_device : nat;
  cl_access_image : option (list cell)
}.
Record ImageAccess2D := mkImageAccess2D {
  host_access_data : option (list cell)
}.

(** [mCLImages[device]] and [mCLImagesAccess[device]] as values:
    [operator[]] inserts a missing key with a null pointer, resp. [false]. *)
Definition index_mCLImages (device : nat) (i : Image2D) : Image2D :=
  match mCLImages i !! device with
  | None => set_mCLImages (<[device := None]> (mCLImages i)) i
  | Some _ => i
  end.

Definition index_mCLImagesAccess (device : nat) (i : Image2D) : Image2D :=
  match mCLImagesAccess i !! device with
  | None => set_mCLImagesAccess (<[device := false]> (mCLImagesAccess i)) i
  | Some _ => i
  end.

Definition getOpenCLImageAccess (type : accessType) (device : nat)
  : M Image2D OpenCLImageAccess2D :=
  (* Check for write access *)
  when (bool_decide (type = ACCESS_READ_WRITE))
    (let* i := get in
     if isAnyDataBeingAccessed i then throw concurrent_access_message
     else
       setAllDataToOutOfDate >>
       modify (fun i => set_mCLImagesIsUpToDate (<[device := true]> (mCLImagesIsUpToDate i)) i)) >>
  modify (fun i => set_mCLImagesAccess (<[device := true]> (mCLImagesAccess i)) i) >>
  updateOpenCLImageData device >>
  modify (index_mCLImages device) >>
  modify (index_mCLImagesAccess device) >>
  let* i := get in
  ret (mkOpenCLImageAccess2D device (default None (mCLImages i !! device))).

Definition getImageAccess (type : accessType) : M Image2D ImageAccess2D :=
  when (bool_decide (type = ACCESS_READ_WRITE))
    (let* i := get in
     if isAnyDataBeingAccessed i then throw concurrent_access_message
     else
       (* Set modified to true since it wants write access *)
       setAllDataToOutOfDate >>
       modify (set_mHostDataIsUpToDate true) >>
       modify (set_mHostDataIsBeingAccessed true)) >>
  updateHostData >>
  let* i := get in
  ret (mkImageAccess2D (mHostData i)).

Definition isInitialized (i : Image2D) : bool :=
  bool_decide (0 < size (mCLImages i))%nat || mHostHasData i.

(** [createImage(width, height, type, nrOfComponents, device)]. Every case
    of the switch allocates [width*height*nrOfComponents] elements. *)
Definition createImage (width height : Z) (type : DataType) (nrOfComponents : Z)
    (device : ExecutionDevice) : M Image2D unit :=
  let* i := get in
  if isInitialized i then throw already_initialized_message
  else
    modify (set_mWidth width) >>
    modify (set_mHeight height) >>
    modify (set_mType type) >>
    modify (set_mComponents nrOfComponents) >>
    match device with
    | Host =>
        modify (set_mHostHasData true) >>
        modify (fun i =>
          emit (NewHostArray (u32 (width * height * nrOfComponents)))
            (set_mHostDataType type
            (set_mHostData
               (Some (replicate (Z.to_nat (u32 (width * height * nrOfComponents))) None)) i)))
    | OpenCLDevice clDevice =>
        modify (fun i =>
          emit (NewCLImage clDevice width height)
            (set_mCLImagesAccess (<[clDevice := false]> (mCLImagesAccess i))
            (set_mCLImagesIsUpToDate (<[clDevice := true]> (mCLImagesIsUpToDate i))
            (set_mCLImageFormats
               (<[clDevice := getOpenCLImageFormat type nrOfComponents]> (mCLImageFormats i))
            (set_mCLImages
               (<[clDevice := Some (replicate (Z.to_nat (width * height * nrOfComponents)) None)]>
                  (mCLImages i))
               i)))))
    end.

(** Modelled from its call: [getSizeOfDataType] is declared in
    HelperFunctions.hpp, which is not under src/. The size in bytes of one
    pixel of [nrOfComponents] elements of [type]. *)
Definition getSizeOfDataType (type : DataType) (nrOfComponents : Z) : nat :=
  sizeOf type * Z.to_nat nrOfComponents.

(** [createImage(width, height, type, nrOfComponents, device, data)]: on the
    host it [memcpy]s [width*height] pixels from [data] to [mHostData],
    which it does not allocate; on a device the image is created from the
    [width*height] pixels at [data]. [data] is the array of [type] elements
    behind the pointer; an array shorter than what is read is undefined. *)
Definition createImage_data (width height : Z) (type : DataType) (nrOfComponents : Z)
    (device : ExecutionDevice) (data : list pixel) : M Image2D unit :=
  let* i := get in
  if isInitialized i then throw already_initialized_message
  else
    modify (set_mWidth width) >>
    modify (set_mHeight height) >>
    modify (set_mType type) >>
    modify (set_mComponents nrOfComponents) >>
    match device with
    | Host =>
        (let* i := get in
         match mHostData i with
         | Some host =>
             match copyBytes type (mHostDataType i)
                     (getSizeOfDataType type nrOfComponents * Z.to_nat (width * height))
                     (Some <$> data) host with
             | Some host' => modify (set_mHostData (Some host'))
             | None => undefined
             end
         | None => undefined
         end) >>
        modify (set_mHostHasData true) >>
        modify (set_mHostDataIsUpToDate true)
    | OpenCLDevice clDevice =>
        let n := Z.to_nat (width * height * nrOfComponents) in
        if bool_decide (n <= length data)%nat then
          modify (fun i =>
            emit (NewCLImage clDevice width height)
              (set_mCLImagesAccess (<[clDevice := false]> (mCLImagesAccess i))
              (set_mCLImagesIsUpToDate (<[clDevice := true]> (mCLImagesIsUpToDate i))
              (set_mCLImageFormats
                 (<[clDevice := getOpenCLImageFormat type nrOfComponents]> (mCLImageFormats i))
              (set_mCLImages (<[clDevice := Some (Some <$> take n data)]> (mCLImages i)) i)))))
        else undefined
    end.

(** Modelled from the spec: the accessor classes [ImageAccess2D] and
    [OpenCLImageAccess2D] are not under src/. "Releasing an accessor clears
    [locked] but leaves [upToDate] as last set": the accessor writes [false]
    through the flag address it was built with. *)
Definition releaseImageAccess (a : ImageAccess2D) : M Image2D unit :=
  modify (set_mHostDataIsBeingAccessed false).

Definition releaseOpenCLImageAccess (a : OpenCLImageAccess2D) : M Image2D unit :=
  modify (fun i =>
    set_mCLImagesAccess (<[cl_access_device a := false]> (mCLImagesAccess i)) i).

(** The spec's [acquireAccess(object, device, mode)]: [getImageAccess] for
    the host, [getOpenCLImageAccess] for a device. *)
Inductive accessor :=
| HostAccessor (a : ImageAccess2D)
| DeviceAccessor (a : OpenCLImageAccess2D).

Definition acquireAccess (device : ExecutionDevice) (mode : accessType)
  : M Image2D accessor :=
  match device with
  | Host => let* a := getImageAccess mode in ret (HostAccessor a)
  | OpenCLDevice d => let* a := getOpenCLImageAccess mode d in ret (DeviceAccessor a)
  end.

Definition releaseAccess (a : accessor) : M Image2D unit :=
  match a with
  | HostAccessor a => releaseImageAccess a
  | DeviceAccessor a => releaseOpenCLImageAccess a
  end.

(** The coherence table read as the spec reads it: one [upToDate] and one
    [locked] flag per location. *)
Definition upToDateAt (i : Image2D) (loc : ExecutionDevice) : Prop :=
  match loc with
  | Host => mHostDataIsUpToDate i = true
  | OpenCLDevice d => mCLImagesIsUpToDate i !! d = Some true
  end.

Definition lockedAt (i : Image2D) (loc : ExecutionDevice) : Prop :=
  match loc with
  | Host => mHostDataIsBeingAccessed i = true
  | OpenCLDevice d => mCLImagesAccess i !! d = Some true
  end.

Definition someUpToDate (i : Image2D) : Prop := exists loc, upToDateAt i loc.
Definition someLocked (i : Image2D) : Prop := exists loc, lockedAt i loc.

(* ===================================================================== *)
(** ** Data objects behind smart pointers *)
(* ===================================================================== *)

Global Instance ExecutionDevice_countable : Countable ExecutionDevice.
Proof.
  refine (inj_countable'
    (fun d => match d with Host => None | OpenCLDevice n => Some n end)
    (fun o => match o with None => Host | Some n => OpenCLDevice n end) _).
  intros []; reflexivity.
Defined.

(** An [ImageData] object is a static image or a dynamic one, a sequence of
    frames with a read position. *)
Inductive ImagePayload :=
| StaticData (image : Image2D)
| DynamicData (frames : list nat) (nextFrame : nat).

(** Modelled from the spec: the [DataObject] base class is not under src/.
    An object carries "a back-reference to the process stage that produced
    it", "a monotonically increasing modification timestamp" and, per
    device, "how many active pipeline edges need it resident there".
    [use_count] is the number of shared pointers that own the object. *)
Record ImageData := mkImageData {
  payload : ImagePayload;
  mParentObject : bool;
  mTimestamp : Z;
  mRetained : gmap ExecutionDevice nat;
  use_count : nat
}.

Definition set_payload v (o : ImageData) : ImageData :=
  mkImageData v (mParentObject o) (mTimestamp o) (mRetained o) (use_count o).
Definition set_mParentObject v (o : ImageData) : ImageData :=
  mkImageData (payload o) v (mTimestamp o) (mRetained o) (use_count o).
Definition set_mTimestamp v (o : ImageData) : ImageData :=
  mkImageData (payload o) (mParentObject o) v (mRetained o) (use_count o).
Definition set_mRetained v (o : ImageData) : ImageData :=
  mkImageData (payload o) (mParentObject o) (mTimestamp o) v (use_count o).
Definition set_use_count v (o : ImageData) : ImageData :=
  mkImageData (payload o) (mParentObject o) (mTimestamp o) (mRetained o) v.

(** The fields of [GaussianSmoothingFilter]. [mInput] and [mTempOutput] are
    shared pointers (null or the identity of the object they own), [mOutput]
    is a weak pointer. [mMask] is a [float*]; its cells are indeterminate
    until written. [mTypeCLCodeCompiledFor] is indeterminate until the first
    compilation. *)
Record GaussianSmoothingFilter := mkGaussianSmoothingFilter {
  mInput : option nat;
  mTempOutput : option nat;
  mOutput : option nat;
  mDevice : ExecutionDevice;
  mStdDev : spec_float;
  mMaskSize : Z;
  mIsModified : bool;
  mRecreateMask : bool;
  mDimensionCLCodeCompiledFor : Z;
  mTypeCLCodeCompiledFor : option DataType;
  mMask : option (list (option spec_float));
  mCLMask : option (list (option spec_float));
  mKernel : option nat;
  mParents : list nat
}.

Definition set_mInput v (f : GaussianSmoothingFilter) : GaussianSmoothingFilter :=
  mkGaussianSmoothingFilter v (mTempOutput f) (mOutput f) (mDevice f) (mStdDev f)
    (mMaskSize f) (mIsModified f) (mRecreateMask f) (mDimensionCLCodeCompiledFor f)
    (mTypeCLCodeCompiledFor f) (mMask f) (mCLMask f) (mKernel f) (mParents f).
Definition set_mTempOutput v (f : GaussianSmoothingFilter) : GaussianSmoothingFilter :=
  mkGaussianSmoothingFilter (mInput f) v (mOutput f) (mDevice f) (mStdDev f) (mMaskSize
    f) (mIsModified f) (mRecreateMask f) (mDimensionCLCodeCompiledFor f)
    (mTypeCLCodeCompiledFor f) (mMask f) (mCLMask f) (mKernel f) (mParents f).
Definition set_mOutput v (f : GaussianSmoothingFilter) : GaussianSmoothingFilter :=
  mkGaussianSmoothingFilter (mInput f) (mTempOutput f) v (mDevice f) (mStdDev f)
    (mMaskSize f) (mIsModified f) (mRecreateMask f) (mDimensionCLCodeCompiledFor f)
    (mTypeCLCodeCompiledFor f) (mMask f) (mCLMask f) (mKernel f) (mParents f).
Definition set_mDevice v (f : GaussianSmoothingFilter) : GaussianSmoothingFilter :=
  mkGaussianSmoothingFilter (mInput f) (mTempOutput f) (mOutput f) v (mStdDev f)
    (mMaskSize f) (mIsModified f) (mRecreateMask f) (mDimensionCLCodeCompiledFor f)
    (mTypeCLCodeCompiledFor f) (mMask f) (mCLMask f) (mKernel f) (mParents f).
Definition set_mStdDev v (f : GaussianSmoothingFilter) : GaussianSmoothingFilter :=
  mkGaussianSmoothingFilter (mInput f) (mTempOutput f) (mOutput f) (mDevice f) v
    (mMaskSize f) (mIsModified f) (mRecreateMask f) (mDimensionCLCodeCompiledFor f)
    (mTypeCLCodeCompiledFor f) (mMask f) (mCLMask f) (mKernel f) (mParents f).
Definition set_mMaskSize v (f : GaussianSmoothingFilter) : GaussianSmoothingFilter :=
  mkGaussianSmoothingFilter (mInput f) (mTempOutput f) (mOutput f) (mDevice f) (mStdDev
    f) v (mIsModified f) (mRecreateMask f) (mDimensionCLCodeCompiledFor f)
    (mTypeCLCodeCompiledFor f) (mMask f) (mCLMask f) (mKernel f) (mParents f).
Definition set_mIsModified v (f : GaussianSmoothingFilter) : GaussianSmoothingFilter :=
  mkGaussianSmoothingFilter (mInput f) (mTempOutput f) (mOutput f) (mDevice f) (mStdDev
    f) (mMaskSize f) v (mRecreateMask f) (mDimensionCLCodeCompiledFor f)
    (mTypeCLCodeCompiledFor f) (mMask f) (mCLMask f) (mKernel f) (mParents f).
Definition set_mRecreateMask v (f : GaussianSmoothingFilter) : GaussianSmoothingFilter :=
  mkGaussianSmoothingFilter (mInput f) (mTempOutput f) (mOutput f) (mDevice f) (mStdDev
    f) (mMaskSize f) (mIsModified f) v (mDimensionCLCodeCompiledFor f)
    (mTypeCLCodeCompiledFor f) (mMask f) (mCLMask f) (mKernel f) (mParents f).
Definition set_mDimensionCLCodeCompiledFor v (f : GaussianSmoothingFilter) :
    GaussianSmoothingFilter :=
  mkGaussianSmoothingFilter (mInput f) (mTempOutput f) (mOutput f) (mDevice f) (mStdDev
    f) (mMaskSize f) (mIsModified f) (mRecreateMask f) v (mTypeCLCodeCompiledFor f)
    (mMask f) (mCLMask f) (mKernel f) (mParents f).
Definition set_mTypeCLCodeCompiledFor v (f : GaussianSmoothingFilter) :
    GaussianSmoothingFilter :=
  mkGaussianSmoothingFilter (mInput f) (mTempOutput f) (mOutput f) (mDevice f) (mStdDev
    f) (mMaskSize f) (mIsModified f) (mRecreateMask f) (mDimensionCLCodeCompiledFor f) v
    (mMask f) (mCLMask f) (mKernel f) (mParents f).
Definition set_mMask v (f : GaussianSmoothingFilter) : GaussianSmoothingFilter :=
  mkGaussianSmoothingFilter (mInput f) (mTempOutput f) (mOutput f) (mDevice f) (mStdDev
    f) (mMaskSize f) (mIsModified f) (mRecreateMask f) (mDimensionCLCodeCompiledFor f)
    (mTypeCLCodeCompiledFor f) v (mCLMask f) (mKernel f) (mParents f).
Definition set_mCLMask v (f : GaussianSmoothingFilter) : GaussianSmoothingFilter :=
  mkGaussianSmoothingFilter (mInput f) (mTempOutput f) (mOutput f) (mDevice f) (mStdDev
    f) (mMaskSize f) (mIsModified f) (mRecreateMask f) (mDimensionCLCodeCompiledFor f)
    (mTypeCLCodeCompiledFor f) (mMask f) v (mKernel f) (mParents f).
Definition set_mKernel v (f : GaussianSmoothingFilter) : GaussianSmoothingFilter :=
  mkGaussianSmoothingFilter (mInput f) (mTempOutput f) (mOutput f) (mDevice f) (mStdDev
    f) (mMaskSize f) (mIsModified f) (mRecreateMask f) (mDimensionCLCodeCompiledFor f)
    (mTypeCLCodeCompiledFor f) (mMask f) (mCLMask f) v (mParents f).
Definition set_mParents v (f : GaussianSmoothingFilter) : GaussianSmoothingFilter :=
  mkGaussianSmoothingFilter (mInput f) (mTempOutput f) (mOutput f) (mDevice f) (mStdDev
    f) (mMaskSize f) (mIsModified f) (mRecreateMask f) (mDimensionCLCodeCompiledFor f)
    (mTypeCLCodeCompiledFor f) (mMask f) (mCLMask f) (mKernel f) v.

(** The stage together with the objects its pointers refer to. An object
    is in [heap] exactly while some shared pointer owns it. [trace] logs
    what the stage asks of its device. *)
Record World := mkWorld {
  heap : gmap nat ImageData;
  nextObject : nat;
  stage : GaussianSmoothingFilter;
  trace : list event;
  nextProgram : nat
}.

Definition set_heap v (w : World) : World :=
  mkWorld v (nextObject w) (stage w) (trace w) (nextProgram w).
Definition set_nextObject v (w : World) : World :=
  mkWorld (heap w) v (stage w) (trace w) (nextProgram w).
Definition set_stage v (w : World) : World :=
  mkWorld (heap w) (nextObject w) v (trace w) (nextProgram w).
Definition set_trace v (w : World) : World :=
  mkWorld (heap w) (nextObject w) (stage w) v (nextProgram w).
Definition set_nextProgram v (w : World) : World :=
  mkWorld (heap w) (nextObject w) (stage w) (trace w) v.

Definition modifyStage (f : GaussianSmoothingFilter -> GaussianSmoothingFilter)
  : M World unit :=
  modify (fun w => set_stage (f (stage w)) w).

Definition log (e : event) : M World unit :=
  modify (fun w => set_trace (trace w ++ [e]) w).

(** [p->method()] through a pointer to an [ImageData] object. *)
Definition onObject {A} (p : nat) (m : M ImageData A) : M World A :=
  fun w =>
    match heap w !! p with
    | Some o =>
        match m o with
        | Return a o' => Return a (set_heap (<[p := o']> (heap w)) w)
        | Throw what o' => Throw what (set_heap (<[p := o']> (heap w)) w)
        | Undefined => Undefined
        end
    | None => Undefined
    end.

(** A method of the static image class called on an [ImageData] object. *)
Definition asImage {A} (m : M Image2D A) : M ImageData A :=
  fun o =>
    match payload o with
    | StaticData image =>
        match m image with
        | Return a image' => Return a (set_payload (StaticData image') o)
        | Throw what image' => Throw what (set_payload (StaticData image') o)
        | Undefined => Undefined
        end
    | DynamicData _ _ => Undefined
    end.

Definition onImage {A} (p : nat) (m : M Image2D A) : M World A :=
  onObject p (asImage m).

(** Modelled from the spec: the pointer classes of [SmartPointers.hpp]
    are not under src/. A shared pointer owns its object together with the
    other shared pointers to it, and the object lives until its last owner
    lets go; a weak pointer owns nothing, and "resolves to nothing" once
    the object is gone.

    [X::New()]: a fresh object owned by one shared pointer. *)
Definition New (content : ImagePayload) : M World nat :=
  fun w =>
    Return (nextObject w)
      (set_nextObject (S (nextObject w))
         (set_heap (<[nextObject w := mkImageData content false 0 ∅ 1]> (heap w)) w)).

(** Copying a shared pointer. *)
Definition share (p : option nat) : M World unit :=
  match p with
  | None => ret tt
  | Some p => onObject p (modify (fun o => set_use_count (S (use_count o)) o))
  end.

(** Destroying or overwriting a shared pointer: the last owner deletes the
    object, and a deleted dynamic image lets go of its frames. *)
Definition unshare_one (p : nat) (h : gmap nat ImageData) : gmap nat ImageData :=
  match h !! p with
  | Some o =>
      match use_count o with
      | S (S n) => <[p := set_use_count (S n) o]> h
      | _ => delete p h
      end
  | None => h
  end.

Definition unshare (p : option nat) : M World unit :=
  match p with
  | None => ret tt
  | Some p =>
      fun w =>
        match heap w !! p with
        | Some o =>
            let h := unshare_one p (heap w) in
            match use_count o, payload o with
            | (0 | 1)%nat, DynamicData frames _ =>
                Return tt (set_heap (foldr unshare_one h frames) w)
            | _, _ => Return tt (set_heap h w)
            end
        | None => Undefined
        end
  end.

(** [weak.lock()]: the object if it is still owned by somebody, otherwise a
    null pointer; [execute] tests [mOutput.lock().isValid()], so an expired
    weak pointer locks to an invalid pointer. *)
Definition lock (p : option nat) (w : World) : option nat :=
  match p with
  | Some p => if bool_decide (is_Some (heap w !! p)) then Some p else None
  | None => None
  end.

(** Modelled from the spec: [DataObject::isDynamicData], [retain],
    [release], [setParent] and [updateModifiedTimestamp] are not under src/. *)
Definition isDynamicData (o : ImageData) : bool :=
  match payload o with StaticData _ => false | DynamicData _ _ => true end.

Definition retain (device : ExecutionDevice) : M ImageData unit :=
  modify (fun o =>
    set_mRetained (<[device := S (default 0%nat (mRetained o !! device))]> (mRetained o)) o).

Definition release (device : ExecutionDevice) : M ImageData unit :=
  modify (fun o =>
    set_mRetained (<[device := Nat.pred (default 0%nat (mRetained o !! device))]> (mRetained o)) o).

Definition setParent : M ImageData unit := modify (set_mParentObject true).

Definition updateModifiedTimestamp : M ImageData unit :=
  modify (fun o => set_mTimestamp (mTimestamp o + 1) o).

(** Modelled from the spec: [DynamicImage] is not under src/. A dynamic
    object is "an ordered, appendable sequence of frames"; consumers pull
    the next frame, and "pulling past the last available frame yields a
    deterministic no-more-data signal". *)
Definition no_more_data_message : string := "no more data".

Definition getNextFrame : M ImageData nat :=
  fun o =>
    match payload o with
    | DynamicData frames next =>
        match frames !! next with
        | Some frame => Return frame (set_payload (DynamicData frames (S next)) o)
        | None => Throw no_more_data_message o
        end
    | StaticData _ => Undefined
    end.

Definition addFrame (frame : nat) : M ImageData unit :=
  fun o =>
    match payload o with
    | DynamicData frames next =>
        Return tt (set_payload (DynamicData (frames ++ [frame]) next) o)
    | StaticData _ => Undefined
    end.

(* ===================================================================== *)
(** ** [GaussianSmoothingFilter] *)
(* ===================================================================== *)

Definition not_wired_message : string :=
  "Must call setInput before getOutput in GaussianSmoothingFilter".
Definition no_input_message : string :=
  "No input supplied to GaussianSmoothingFilter".
Definition mask_size_message : string :=
  "Mask size of GaussianSmoothingFilter must be odd.".
Definition std_dev_message : string :=
  "Standard deviation of GaussianSmoothingFilter can't be less than 0.".
Definition components_message : string :=
  "Running the gaussian smoothing filter on an image with more than 1 component on the host is currently not supported.".

(** [GaussianSmoothingFilter::GaussianSmoothingFilter()], given the default
    computation device of the device manager. *)
Definition GaussianSmoothingFilter_new (defaultDevice : ExecutionDevice)
  : GaussianSmoothingFilter :=
  mkGaussianSmoothingFilter None None None defaultDevice F32.one 3 true true 0 None
    None None None [].

Definition World_new (defaultDevice : ExecutionDevice) : World :=
  mkWorld ∅ 0 (GaussianSmoothingFilter_new defaultDevice) [] 0.

(** [setInput(input)]. Assigning [mInput] and [mTempOutput] lets go of the
    objects they owned before. Modelled from the spec: [addParent] is not
    under src/; the stage keeps the upstream object as an input port, a
    strong reference. *)
Definition setInput (input : option nat) : M World unit :=
  let* w := get in
  share input >>
  unshare (mInput (stage w)) >>
  modifyStage (set_mInput input) >>
  modifyStage (set_mIsModified true) >>
  match input with
  | None => undefined
  | Some p =>
      share input >>
      modifyStage (fun f => set_mParents (mParents f ++ [p]) f) >>
      let* w := get in
      match heap w !! p with
      | None => undefined
      | Some o =>
          (if isDynamicData o then
             let* fresh := New (DynamicData [] 0) in
             unshare (mTempOutput (stage w)) >>
             modifyStage (set_mTempOutput (Some fresh))
           else
             let* fresh := New (StaticData Image2D_new) in
             unshare (mTempOutput (stage w)) >>
             modifyStage (set_mTempOutput (Some fresh)) >>
             onObject p (retain (mDevice (stage w)))) >>
          modifyStage (fun f => set_mOutput (mTempOutput f) f)
      end
  end.

Definition setDevice (device : ExecutionDevice) : M World unit :=
  modifyStage (set_mDevice device) >>
  modifyStage (set_mIsModified true) >>
  modifyStage (set_mRecreateMask true).

(** [setMaskSize(unsigned char maskSize)]. *)
Definition setMaskSize (maskSize : Z) : M World unit :=
  if bool_decide (Z.rem maskSize 2 <> 1) then throw mask_size_message
  else
    modifyStage (set_mMaskSize maskSize) >>
    modifyStage (set_mIsModified true) >>
    modifyStage (set_mRecreateMask true).

Definition setStandardDeviation (stdDev : spec_float) : M World unit :=
  if F32.leb stdDev (F32.of_int 0) then throw std_dev_message
  else
    modifyStage (set_mStdDev stdDev) >>
    modifyStage (set_mIsModified true) >>
    modifyStage (set_mRecreateMask true).

(** [getOutput()]: the returned pointer is null or owns the object. The
    swap moves the stage's ownership into the returned pointer; [lock]
    makes a further owner. *)
Definition getOutput : M World (option nat) :=
  let* w := get in
  if bool_decide (mInput (stage w) = None) then throw not_wired_message
  else
    match mTempOutput (stage w) with
    | Some p =>
        onObject p setParent >>
        modifyStage (set_mTempOutput None) >>
        ret (Some p)
    | None =>
        let* w := get in
        share (lock (mOutput (stage w)) w) >>
        ret (lock (mOutput (stage w)) w)
    end.

(** The caller (or any other owner) lets go of a pointer it holds. *)
Definition reset (p : option nat) : M World unit := unshare p.

(** A loop that carries a local variable through its iterations. *)
Fixpoint for_fold {S I A} (l : list I) (body : I -> A -> M S A) (a : A) : M S A :=
  match l with
  | [] => ret a
  | i :: l' => let* a' := body i a in for_fold l' body a'
  end.

(** Array cells: an index outside the array, a null array and a read of
    an indeterminate cell are undefined. *)
Definition read_cell {S A} (array : option (list (option A))) (index : Z) : M S A :=
  match array with
  | Some l =>
      if bool_decide (0 <= index) then
        match l !! Z.to_nat index with
        | Some (Some v) => ret v
        | _ => undefined
        end
      else undefined
  | None => undefined
  end.

Definition write_cell {A} (array : option (list (option A))) (index : Z) (v : A)
  : option (list (option A)) :=
  match array with
  | Some l =>
      if bool_decide (0 <= index < Z.of_nat (length l))
      then Some (<[Z.to_nat index := Some v]> l)
      else None
  | None => None
  end.

(** C++ runs the destructors of the locals of a scope when the scope is
    left, also by an exception. *)
Definition finally {S A} (m : M S A) (cleanup : M S unit) : M S A :=
  fun s =>
    match m s with
    | Return a s' =>
        match cleanup s' with
        | Return _ s'' => Return a s''
        | Throw what s'' => Throw what s''
        | Undefined => Undefined
        end
    | Throw what s' =>
        match cleanup s' with
        | Return _ s'' => Throw what s''
        | _ => Undefined
        end
    | Undefined => Undefined
    end.

(** [*p] for a pointer to a static image. *)
Definition imageAt (p : nat) : M World Image2D :=
  fun w =>
    match heap w !! p with
    | Some o =>
        match payload o with
        | StaticData image => Return image w
        | DynamicData _ _ => Undefined
        end
    | None => Undefined
    end.

Definition objectAt (p : nat) : M World ImageData :=
  fun w =>
    match heap w !! p with
    | Some o => Return o w
    | None => Undefined
    end.

(** The element type [T] of [executeAlgorithmOnHost<T>]: how a buffer
    element enters the [float] product, and the cast [(T)sum] of the
    [double] sum. A cast to an integer type that cannot hold the value is
    undefined. *)
Definition float_of_pixel (T : DataType) (p : pixel) : option spec_float :=
  match T, p with
  | TYPE_FLOAT, PFloat f => Some f
  | (TYPE_UINT8 | TYPE_INT8 | TYPE_UINT16 | TYPE_INT16), PInt z => Some (F32.of_int z)
  | _, _ => None
  end.

Definition in_range (lo hi : Z) (d : spec_float) : option pixel :=
  match trunc_double d with
  | Some z => if bool_decide (lo <= z <= hi) then Some (PInt z) else None
  | None => None
  end.

Definition pixel_of_double (T : DataType) (d : spec_float) : option pixel :=
  match T with
  | TYPE_FLOAT => Some (PFloat (float_of_double d))
  | TYPE_UINT8 => in_range 0 255 d
  | TYPE_INT8 => in_range (-128) 127 d
  | TYPE_UINT16 => in_range 0 65535 d
  | TYPE_INT16 => in_range (-32768) 32767 d
  end.

(** [inputData[index]] and [outputData[index] = v] through the host
    pointers of the accessors. *)
Definition readInput (T : DataType) (input : nat) (index : Z) : M World spec_float :=
  let* image := imageAt input in
  let* p := read_cell (mHostData image) index in
  match float_of_pixel T p with
  | Some f => ret f
  | None => undefined
  end.

Definition writeOutput (output : nat) (index : Z) (v : pixel) : M World unit :=
  let* image := imageAt output in
  match write_cell (mHostData image) index v with
  | Some data => onImage output (modify (set_mHostData (Some data)))
  | None => undefined
  end.

Section Stage.

(** What the stage takes from outside the repository or from files that are
    not under src/: the [exp] of the C library at [float] arguments, the
    macro [FAST_ROOT_DIR], and the 3-D methods of the image class. *)
Variable expf : spec_float -> spec_float.
Variable FAST_ROOT_DIR : string.
Variable getDepth : Image2D -> Z.
Variable create3DImage :
  Z -> Z -> Z -> DataType -> Z -> ExecutionDevice -> M Image2D unit.
Variable getOpenCLImageAccess3D : accessType -> nat -> M Image2D OpenCLImageAccess2D.

(** Modelled from the spec: [Image::create2DImage] and
    [Image::getOpenCLImageAccess2D] are not under src/. The spec's [create]
    ("may be called exactly once per object") and [acquireAccess] are what
    [Image2D] implements under src/, so the model takes [createImage] and
    [getOpenCLImageAccess] of [Image2D] for them, and likewise
    [Image::getImageAccess]. *)
Definition create2DImage := createImage.
Definition getOpenCLImageAccess2D := getOpenCLImageAccess.

(** [exp(-(float)(n)/(2.0f*mStdDev*mStdDev))] for the integer [n]. *)
Definition gaussian (n : Z) (stdDev : spec_float) : spec_float :=
  expf (F32.div (F32.opp (F32.of_int n))
          (F32.mul (F32.mul F32.two stdDev) stdDev)).

Definition storeMask (index : Z) (value : spec_float) : M World unit :=
  let* w := get in
  match write_cell (mMask (stage w)) index value with
  | Some mask => modifyStage (set_mMask (Some mask))
  | None => undefined
  end.

(** [for (i = 0; i < n; i++) mMask[i] /= sum;] *)
Definition normalizeMask (n : Z) (sum : spec_float) : M World unit :=
  for_each (range 0 n) (fun i =>
    let* w := get in
    let* v := read_cell (mMask (stage w)) i in
    storeMask i (F32.div v sum)).

(** The loop nests of [createMask] that store the weights and add them
    up in [sum], for a 2-D and for a 3-D input. *)
Definition fillMask2D (maskSize halfSize : Z) (stdDev : spec_float)
  : M World spec_float :=
  for_fold (range (- halfSize) (halfSize + 1)) (fun x sum =>
  for_fold (range (- halfSize) (halfSize + 1)) (fun y sum =>
    let value := gaussian (x * x + y * y) stdDev in
    storeMask (x + halfSize + (y + halfSize) * maskSize) value >>
    ret (F32.add sum value)) sum) F32.zero.

Definition fillMask3D (maskSize halfSize : Z) (stdDev : spec_float)
  : M World spec_float :=
  for_fold (range (- halfSize) (halfSize + 1)) (fun x sum =>
  for_fold (range (- halfSize) (halfSize + 1)) (fun y sum =>
  for_fold (range (- halfSize) (halfSize + 1)) (fun z sum =>
    let value := gaussian (x * x + y * y + z * z) stdDev in
    storeMask (x + halfSize + (y + halfSize) * maskSize
               + (z + halfSize) * maskSize * maskSize) value >>
    ret (F32.add sum value)) sum) sum) F32.zero.

(** The copy of the mask into a read-only device buffer. *)
Definition uploadMask (device : nat) (bufferSize : Z) : M World unit :=
  let* w := get in
  match mMask (stage w) with
  | Some mask =>
      if bool_decide (bufferSize <= Z.of_nat (length mask)) then
        modifyStage (set_mCLMask (Some (take (Z.to_nat bufferSize) mask))) >>
        log (NewCLBuffer device bufferSize)
      else undefined
  | None => undefined
  end.

Definition createMask (input : nat) : M World unit :=
  let* w := get in
  if negb (mRecreateMask (stage w)) then ret tt
  else
    let maskSize := mMaskSize (stage w) in
    let stdDev := mStdDev (stage w) in
    let halfSize := Z.quot (maskSize - 1) 2 mod 256 in
    let* image := imageAt input in
    (if bool_decide (getDimensions image = 2) then
       modifyStage (set_mMask (Some (replicate (Z.to_nat (maskSize * maskSize)) None))) >>
       log (NewMask (maskSize * maskSize)) >>
       let* sum := fillMask2D maskSize halfSize stdDev in
       normalizeMask (maskSize * maskSize) sum
     else if bool_decide (getDimensions image = 3) then
       modifyStage
         (set_mMask (Some (replicate (Z.to_nat (maskSize * maskSize * maskSize)) None))) >>
       log (NewMask (maskSize * maskSize * maskSize)) >>
       let* sum := fillMask3D maskSize halfSize stdDev in
       normalizeMask (maskSize * maskSize * maskSize) sum
     else ret tt) >>
    (match mDevice (stage w) with
     | Host => ret tt
     | OpenCLDevice device =>
         uploadMask device
           (if bool_decide (getDimensions image = 2) then maskSize * maskSize
            else maskSize * maskSize * maskSize)
     end) >>
    modifyStage (set_mRecreateMask false).

Definition recompileOpenCLCode (input : nat) : M World unit :=
  let* w := get in
  let* image := imageAt input in
  (* Check if there is a need to recompile OpenCL code *)
  let* compiled :=
    if bool_decide (getDimensions image = mDimensionCLCodeCompiledFor (stage w)) then
      match mTypeCLCodeCompiledFor (stage w) with
      | Some type => ret (bool_decide (getDataType image = type))
      | None => undefined
      end
    else ret false in
  if (compiled : bool) then ret tt
  else
    match mDevice (stage w) with
    | Host => undefined
    | OpenCLDevice device =>
        let buildOptions :=
          if bool_decide (getDataType image = TYPE_FLOAT) then "-DTYPE_FLOAT"
          else if bool_decide (getDataType image = TYPE_INT8 \/ getDataType image = TYPE_INT16)
               then "-DTYPE_INT"
               else "-DTYPE_UINT" in
        let filename :=
          if bool_decide (getDimensions image = 2)
          then "Algorithms/GaussianSmoothingFilter2D.cl"
          else "Algorithms/GaussianSmoothingFilter3D.cl" in
        log (CreateProgramFromSource device (FAST_ROOT_DIR +:+ filename) buildOptions) >>
        let* w := get in
        modify (set_nextProgram (S (nextProgram w))) >>
        modifyStage (set_mKernel (Some (nextProgram w))) >>
        modifyStage (set_mDimensionCLCodeCompiledFor (getDimensions image)) >>
        modifyStage (set_mTypeCLCodeCompiledFor (Some (getDataType image)))
    end.

(** [executeAlgorithmOnHost<T>(input, output, mask, maskSize)]. The two
    accessors are locals: they are released when the function is left. *)
Definition executeAlgorithmOnHost (T : DataType) (input output : nat)
    (mask : option (list (option spec_float))) (maskSize : Z) : M World unit :=
  let* image := imageAt input in
  let nrOfComponents := getNrOfComponents image in
  if bool_decide (nrOfComponents <> 1) then throw components_message
  else
    let* inputAccess := onImage input (getImageAccess ACCESS_READ) in
    finally
      (let* outputAccess := onImage output (getImageAccess ACCESS_READ_WRITE) in
       finally
         (let halfSize := Z.quot (maskSize - 1) 2 mod 256 in
          let* image := imageAt input in
          let width := getWidth image in
          let height := getHeight image in
          if bool_decide (getDimensions image = 3) then
            let depth := getDepth image in
            for_each (range halfSize (u32 (depth - halfSize))) (fun z =>
            for_each (range halfSize (u32 (height - halfSize))) (fun y =>
            for_each (range halfSize (u32 (width - halfSize))) (fun x =>
              let* sum :=
                for_fold (range (- halfSize) (halfSize + 1)) (fun c sum =>
                for_fold (range (- halfSize) (halfSize + 1)) (fun b sum =>
                for_fold (range (- halfSize) (halfSize + 1)) (fun a sum =>
                  let* m := read_cell mask (a + halfSize + (b + halfSize) * maskSize
                                            + (c + halfSize) * maskSize * maskSize) in
                  let* v := readInput T input
                              (u32 (x + a + (y + b) * width + (z + c) * width * height)) in
                  ret (F64.add sum (double_of_float (F32.mul m v)))) sum) sum) F64.zero in
              match pixel_of_double T sum with
              | Some v => writeOutput output (u32 (x + y * width + z * width * height)) v
              | None => undefined
              end)))
          else
            for_each (range halfSize (u32 (height - halfSize))) (fun y =>
            for_each (range halfSize (u32 (width - halfSize))) (fun x =>
              let* sum :=
                for_fold (range (- halfSize) (halfSize + 1)) (fun b sum =>
                for_fold (range (- halfSize) (halfSize + 1)) (fun a sum =>
                  let* m := read_cell mask (a + halfSize + (b + halfSize) * maskSize) in
                  let* v := readInput T input (u32 (x + a + (y + b) * width)) in
                  ret (F64.add sum (double_of_float (F32.mul m v)))) sum) F64.zero in
              match pixel_of_double T sum with
              | Some v => writeOutput output (u32 (x + y * width)) v
              | None => undefined
              end)))
         (onImage output (releaseImageAccess outputAccess)))
      (onImage input (releaseImageAccess inputAccess)).

(** [mKernel.setArg(k, *access.get())]: the image pointer of the accessor
    is dereferenced. *)
Definition setArgImage (a : OpenCLImageAccess2D) : M World unit :=
  match cl_access_image a with
  | Some _ => ret tt
  | None => undefined
  end.

Definition execute : M World unit :=
  let* w := get in
  match mInput (stage w) with
  | None => throw no_input_message
  | Some pInput =>
      match lock (mOutput (stage w)) w with
      | None =>
          (* output object is no longer valid *)
          ret tt
      | Some pOutput =>
          let* inputObject := objectAt pInput in
          let dynamic := isDynamicData inputObject in
          let* input :=
            if dynamic then onObject pInput getNextFrame else ret pInput in
          let* output :=
            if dynamic then
              let* frame := New (StaticData Image2D_new) in
              onObject pOutput (addFrame frame) >>
              ret frame
            else ret pOutput in
          (* Initialize output image *)
          let* image := imageAt input in
          (if bool_decide (getDimensions image = 2) then
             onImage output
               (create2DImage (getWidth image) (getHeight image) (getDataType image)
                  (getNrOfComponents image) (mDevice (stage w)))
           else
             onImage output
               (create3DImage (getWidth image) (getHeight image) (getDepth image)
                  (getDataType image) (getNrOfComponents image) (mDevice (stage w)))) >>
          createMask input >>
          (match mDevice (stage w) with
           | Host =>
               let* w := get in
               let* image := imageAt input in
               executeAlgorithmOnHost (getDataType image) input output
                 (mMask (stage w)) (mMaskSize (stage w))
           | OpenCLDevice device =>
               recompileOpenCLCode input >>
               let* image := imageAt input in
               let access :=
                 if bool_decide (getDimensions image = 2) then getOpenCLImageAccess2D
                 else getOpenCLImageAccess3D in
               let globalSize :=
                 if bool_decide (getDimensions image = 2)
                 then [getWidth image; getHeight image]
                 else [getWidth image; getHeight image; getDepth image] in
               (let* inputAccess := onImage input (access ACCESS_READ device) in
                finally
                  (let* outputAccess := onImage output (access ACCESS_READ_WRITE device) in
                   finally
                     (setArgImage inputAccess >> setArgImage outputAccess)
                     (onImage output (releaseOpenCLImageAccess outputAccess)))
                  (onImage input (releaseOpenCLImageAccess inputAccess))) >>
               log (EnqueueNDRangeKernel device globalSize)
           end) >>
          when (negb dynamic) (onObject pInput (release (mDevice (stage w)))) >>
          (* Update the timestamp of the output data *)
          onObject output updateModifiedTimestamp
      end
  end.

End Stage.

(* ===================================================================== *)
(** ** States named in the statements *)
(* ===================================================================== *)

(** The state a granted write access leaves behind. *)
Definition written_at_host (i : Image2D) : Image2D :=
  set_mHostDataIsBeingAccessed true
    (set_mHostDataIsUpToDate true
       (set_mCLImagesIsUpToDate ((fun _ => false) <$> mCLImagesIsUpToDate i)
          (set_mHostDataIsUpToDate false i))).

Definition written_at_device (d : nat) (i : Image2D) : Image2D :=
  index_mCLImagesAccess d (index_mCLImages d
    (set_mCLImagesAccess (<[d := true]> (mCLImagesAccess i))
       (set_mCLImagesIsUpToDate
          (<[d := true]> ((fun _ => false) <$> mCLImagesIsUpToDate i))
          (set_mCLImagesIsUpToDate ((fun _ => false) <$> mCLImagesIsUpToDate i)
             (set_mHostDataIsUpToDate false i))))).

(** The state a call leaves behind, whether it returned or threw. *)
Definition state_after {S A} (o : outcome S A) (otherwise : S) : S :=
  match o with
  | Return _ s => s
  | Throw _ s => s
  | Undefined => otherwise
  end.

(** A 4x4 float image created on the host, resp. on device 0, by
    [createImage] without data. *)
Definition created_on_host : Image2D :=
  state_after (createImage 4 4 TYPE_FLOAT 1 Host Image2D_new) Image2D_new.

Definition created_on_device : Image2D :=
  state_after (createImage 4 4 TYPE_FLOAT 1 (OpenCLDevice 0) Image2D_new) Image2D_new.

(** Acquire and release at once. *)
Definition touch (target : ExecutionDevice) (mode : accessType) : M Image2D unit :=
  let* a := acquireAccess target mode in releaseAccess a.

(** A host image that is written on the host, read on device 0 and written
    on the host again: device 0 then holds a stale copy. *)
Definition stale_on_device : Image2D :=
  state_after
    ((touch Host ACCESS_READ_WRITE >>
      touch (OpenCLDevice 0) ACCESS_READ >>
      touch Host ACCESS_READ_WRITE) created_on_host)
    Image2D_new.

(** A [float] that compares less than or equal to zero: a zero of either
    sign, a negative finite number or minus infinity. *)
Definition nonpositive (f : spec_float) : Prop :=
  match f with
  | S754_zero _ => True
  | S754_infinity s => s = true
  | S754_finite s _ _ => s = true
  | S754_nan => False
  end.

(** A stage on the host with a fresh static image wired as its input, and
    the same stage after its output was fetched once and the pointer
    discarded by the caller. *)
Definition wired_world : World :=
  state_after
    ((let* input := New (StaticData Image2D_new) in setInput (Some input))
       (World_new Host))
    (World_new Host).

Definition discarded_world : World :=
  state_after ((let* output := getOutput in reset output) wired_world) wired_world.

(** The world after [getOutput] has moved the stage's ownership of [p] to
    the caller. *)
Definition handed_over (p : nat) (o : ImageData) (w : World) : World :=
  set_stage (set_mTempOutput None (stage w))
    (set_heap (<[p := set_mParentObject true o]> (heap w)) w).

(** The world after [getOutput] has made the caller a further owner of
    the object the weak pointer [mOutput] resolves to. *)
Definition locked_output (w : World) : World :=
  state_after (share (lock (mOutput (stage w)) w) w) w.

(** The caller writes [v] to every element through the host pointer of a
    read-write accessor. *)
Definition fill (v : pixel) : M Image2D unit :=
  modify (fun i => set_mHostData (fmap (M := list) (fun _ => Some v) <$> mHostData i) i).

(** The example of the specification: a 4x4 one-component float image
    on the host, filled with 1.0, wired into a stage on the host with mask
    size 3 and standard deviation 1.0; the output is fetched, kept, and
    pulled once. The result is the output pointer. *)
Definition smoothing_example (exec : M World unit) : M World (option nat) :=
  let* input := New (StaticData Image2D_new) in
  onImage input (createImage 4 4 TYPE_FLOAT 1 Host) >>
  onImage input
    (let* a := getImageAccess ACCESS_READ_WRITE in
     fill (PFloat F32.one) >> releaseImageAccess a) >>
  setDevice Host >>
  setInput (Some input) >>
  setMaskSize 3 >>
  setStandardDeviation F32.one >>
  let* output := getOutput in
  exec >>
  ret output.

(** The three arguments at which the example calls [exp], -0.0, -0.5 and
    -1.0, and the [float]s nearest to e^(-1/2) and e^(-1), 0x3F1B4598 and
    0x3EBC5AB2. *)
Definition minus_zero : spec_float := S754_zero true.
Definition minus_half : spec_float := S754_finite true 8388608 (-24).
Definition minus_one : spec_float := S754_finite true 8388608 (-23).
Definition exp_minus_half : spec_float := S754_finite false 10175896 (-24).
Definition exp_minus_one : spec_float := S754_finite false 12343986 (-25).

(** The nine weights of the example before they are normalised, in the
    order in which [createMask] adds them up, which is also their order in
    the mask: e^(-1) at the corners, e^(-1/2) at the edges, 1 at the
    centre; their [float] sum; and the weights divided by it. *)
Definition gaussian_weights : list spec_float :=
  [exp_minus_one; exp_minus_half; exp_minus_one;
   exp_minus_half; F32.one; exp_minus_half;
   exp_minus_one; exp_minus_half; exp_minus_one].

Definition gaussian_sum : spec_float := foldl F32.add F32.zero gaussian_weights.

Definition normalized_weights : list spec_float :=
  (fun value => F32.div value gaussian_sum) <$> gaussian_weights.

Global Instance spec_float_eq_dec : EqDecision spec_float.
Proof. solve_decision. Defined.

(** [expf] with its values at the three arguments written out. *)
Definition tabulated (expf : spec_float -> spec_float) (x : spec_float) : spec_float :=
  if decide (x = minus_zero) then F32.one
  else if decide (x = minus_half) then exp_minus_half
  else if decide (x = minus_one) then exp_minus_one
  else expf x.

(** How many masks were computed and how many programs were compiled so
    far, counted in the log of the stage. *)
Definition is_NewMask (e : event) : bool :=
  match e with NewMask _ => true | _ => false end.

Definition is_CreateProgram (e : event) : bool :=
  match e with CreateProgramFromSource _ _ _ => true | _ => false end.

Definition masksCreated (w : World) : nat :=
  length (List.filter is_NewMask (trace w)).

Definition kernelsCompiled (w : World) : nat :=
  length (List.filter is_CreateProgram (trace w)).

(** The kernel cache holds a kernel compiled for this image's
    dimensionality and element type. *)
Definition compiledFor (image : Image2D) (w : World) : Prop :=
  getDimensions image = mDimensionCLCodeCompiledFor (stage w) /\
  mTypeCLCodeCompiledFor (stage w) = Some (getDataType image).

Global Instance compiledFor_dec image w : Decision (compiledFor image w).
Proof. unfold compiledFor. apply _. Defined.

(** [n] pulls of the output in a row, each a call of [exec], the
    [execute] of the stage. A pull that throws leaves the stage and the
    data as they are at the throw, and the next pull starts from there.
    [None]: a pull has no defined behaviour. *)
Fixpoint pulls (exec : M World unit) (n : nat) (w : World) : option World :=
  match n with
  | O => Some w
  | S n' =>
      match exec w with
      | Return _ w' => pulls exec n' w'
      | Throw _ w' => pulls exec n' w'
      | Undefined => None
      end
  end.

(** The stage is wired for a pull on the OpenCL device [d]: its input
    [pIn] is a static 2-D image, [image], of which device [d] holds an
    up-to-date copy, and its output [pOut], another object, is a static
    image that is still referenced, not yet created and not being
    accessed. *)
Definition device_pull_ready (d pIn pOut : nat) (image : Image2D) (w : World) : Prop :=
  mDevice (stage w) = OpenCLDevice d /\
  mInput (stage w) = Some pIn /\ lock (mOutput (stage w)) w = Some pOut /\
  pIn <> pOut /\
  (exists oIn, heap w !! pIn = Some oIn /\ payload oIn = StaticData image) /\
  getDimensions image = 2 /\
  (exists buffer, mCLImages image !! d = Some (Some buffer)) /\
  mCLImagesIsUpToDate image !! d = Some true /\
  (exists oOut out,
     heap w !! pOut = Some oOut /\ payload oOut = StaticData out /\
     isInitialized out = false /\ isAnyDataBeingAccessed out = false).

(** Two worlds that differ at most in the contents of [mMask]. *)
Definition same_except_mask (w w' : World) : Prop :=
  heap w' = heap w /\ nextObject w' = nextObject w /\ trace w' = trace w /\
  nextProgram w' = nextProgram w /\
  set_mMask None (stage w') = set_mMask None (stage w).

(** A stage on OpenCL device 0 whose input is a 4x4 float image created on
    that device, after the mask size was set to 5. *)
Definition device_world : World :=
  state_after
    ((let* input := New (StaticData Image2D_new) in
      onImage input (createImage 4 4 TYPE_FLOAT 1 (OpenCLDevice 0)) >>
      setInput (Some input) >>
      setMaskSize 5)
       (World_new (OpenCLDevice 0)))
    (World_new (OpenCLDevice 0)).

(** The mask array is allocated with [n] cells, and every cell whose index
    satisfies [P] has been written. *)
Definition mask_ready (n : Z) (P : Z -> Prop) (w : World) : Prop :=
  exists l,
    mMask (stage w) = Some l /\ Z.of_nat (length l) = n /\
    forall index, 0 <= index -> P index ->
                  exists v, l !! Z.to_nat index = Some (Some v).

(** A call of the access protocol, and a run of calls. A call that throws
    leaves the state it had reached. *)
Inductive call :=
| Acquire (target : ExecutionDevice) (mode : accessType)
| Release (a : accessor).

Definition call_state (c : call) (i : Image2D) : option Image2D :=
  match c with
  | Acquire target mode =>
      match acquireAccess target mode i with
      | Return _ i' => Some i'
      | Throw _ i' => Some i'
      | Undefined => None
      end
  | Release a =>
      match releaseAccess a i with
      | Return _ i' => Some i'
      | Throw _ i' => Some i'
      | Undefined => None
      end
  end.

Fixpoint calls_state (calls : list call) (i : Image2D) : option Image2D :=
  match calls with
  | [] => Some i
  | c :: calls' =>
      match call_state c i with
      | Some i' => calls_state calls' i'
      | None => None
      end
  end.

(** Every method body is a chain of [bind]s over the primitives. *)
Ltac unfold_monad :=
  unfold when, bind, ret, get, gets, modify, throw, undefined in *.

(* ===================================================================== *)
(** ** Further states, runs and relations named in the statements *)
(* ===================================================================== *)

Definition stale_on_second_device : Image2D :=
  state_after
    ((touch Host ACCESS_READ >>
      touch (OpenCLDevice 1) ACCESS_READ >>
      touch (OpenCLDevice 0) ACCESS_READ_WRITE) created_on_device)
    Image2D_new.

(** A request to an image object: one of the two [createImage] overloads,
    or a call of the access protocol. *)
Inductive request :=
| CreateImage (width height : Z) (type : DataType) (nrOfComponents : Z)
    (device : ExecutionDevice)
| CreateImageData (width height : Z) (type : DataType) (nrOfComponents : Z)
    (device : ExecutionDevice) (data : list pixel)
| Access (c : call).

Definition request_outcome (r : request) (i : Image2D) : outcome Image2D unit :=
  match r with
  | CreateImage width height type nrOfComponents device =>
      createImage width height type nrOfComponents device i
  | CreateImageData width height type nrOfComponents device data =>
      createImage_data width height type nrOfComponents device data i
  | Access (Acquire target mode) => (acquireAccess target mode >> ret tt) i
  | Access (Release a) => releaseAccess a i
  end.

(** The exceptions a run of requests throws, in order, and the state it
    ends in; a request that throws leaves the state it had reached, and
    the run goes on. [None]: the run has no defined behaviour. *)
Fixpoint requests_thrown (rs : list request) (i : Image2D)
  : option (list string * Image2D) :=
  match rs with
  | [] => Some ([], i)
  | r :: rs' =>
      match request_outcome r i with
      | Return _ i' => requests_thrown rs' i'
      | Throw what i' =>
          match requests_thrown rs' i' with
          | Some (whats, i'') => Some (what :: whats, i'')
          | None => None
          end
      | Undefined => None
      end
  end.

(** No location is up to date and no device has an entry yet. *)
Definition untouched (i : Image2D) : Prop :=
  mCLImages i = ∅ /\ mCLImagesIsUpToDate i = ∅.

Definition created_with_data : Image2D :=
  state_after
    (createImage_data 2 2 TYPE_FLOAT 1 (OpenCLDevice 0)
       (replicate 4 (PFloat F32.one)) Image2D_new)
    Image2D_new.

(** The stage after a setter has stored a parameter. *)
Definition parameter_set (f : GaussianSmoothingFilter -> GaussianSmoothingFilter)
    (w : World) : World :=
  set_stage (set_mRecreateMask true (set_mIsModified true (f (stage w)))) w.

Definition compiled_world : World :=
  state_after
    (execute (fun _ => F32.one) "" (fun _ => 1)
       (fun _ _ _ _ _ _ => undefined) (fun _ _ => undefined) device_world)
    device_world.

(** That stage when, after its first pull, the input is wired again, which
    gives the stage a new output object, and the mask size is changed;
    the input is object 0 and the new output object 2. *)
Definition rewired_world : World :=
  state_after ((setInput (Some 0%nat) >> setMaskSize 3) compiled_world) compiled_world.

(** A call keeps a relation between the state it starts in and the state
    it leaves, whether it returns or throws. *)
Definition keeps {S A} (R : S -> S -> Prop) (m : M S A) : Prop :=
  forall s,
    match m s with
    | Return _ s' => R s s'
    | Throw _ s' => R s s'
    | Undefined => True
    end.

Definition keeps_at {S A} (R : S -> S -> Prop) (m : M S A) (s : S) : Prop :=
  match m s with
  | Return _ s' => R s s'
  | Throw _ s' => R s s'
  | Undefined => True
  end.

(** What [execute] leaves alone in the stage: its ports, its parameters
    and the modified flag. *)
Definition same_ports_and_parameters (w w' : World) : Prop :=
  mInput (stage w') = mInput (stage w) /\
  mTempOutput (stage w') = mTempOutput (stage w) /\
  mOutput (stage w') = mOutput (stage w) /\
  mParents (stage w') = mParents (stage w) /\
  mDevice (stage w') = mDevice (stage w) /\
  mStdDev (stage w') = mStdDev (stage w) /\
  mMaskSize (stage w') = mMaskSize (stage w) /\
  mIsModified (stage w') = mIsModified (stage w).

(** What no method of the image class undoes: the dimensionality of the
    image, that the host array counts as created, and that a device has an
    entry. *)
Definition image_kept (i i' : Image2D) : Prop :=
  mDimensions i' = mDimensions i /\
  (mHostHasData i = true -> mHostHasData i' = true) /\
  (forall d, is_Some (mCLImages i !! d) -> is_Some (mCLImages i' !! d)).

Definition object_kept (o o' : ImageData) : Prop :=
  match payload o, payload o' with
  | StaticData i, StaticData i' => image_kept i i'
  | DynamicData _ _, DynamicData _ _ => True
  | _, _ => False
  end.

(** Every object is still there, of the same kind, and keeps what
    [image_kept] lists. *)
Definition objects_kept (w w' : World) : Prop :=
  forall p o, heap w !! p = Some o ->
              exists o', heap w' !! p = Some o' /\ object_kept o o'.

(** The stage of the example of the specification, wired and with its
    output fetched, before the pull. *)
Definition example_before_pull : World :=
  state_after (smoothing_example (ret tt) (World_new Host)) (World_new Host).

(** Both relations at once. *)
Definition kept (w w' : World) : Prop :=
  same_ports_and_parameters w w' /\ objects_kept w w'.

(** The object behind [p] is a static image that counts as initialised. *)
Definition initializedAt (p : nat) (w : World) : Prop :=
  exists o image,
    heap w !! p = Some o /\ payload o = StaticData image /\ isInitialized image = true.

(** The object behind [p] is a static 2-D image. *)
Definition static2DAt (p : nat) (w : World) : Prop :=
  exists o image,
    heap w !! p = Some o /\ payload o = StaticData image /\ getDimensions image = 2.

(** The caller writes [data] to the elements, in order, through the host
    pointer of a read-write accessor. *)
Definition store (data : list pixel) : M Image2D unit :=
  modify (fun i => set_mHostData (Some (Some <$> data)) i).

(** The pixels 1.0, 2.0, ..., 16.0, and the pixels 1, 2, ..., 16. *)
Definition ramp : list pixel := (fun z => PFloat (F32.of_int z)) <$> seqZ 1 16.
Definition counting : list pixel := PInt <$> seqZ 1 16.

(** A 4x4 one-component image of element type [type] that was created on
    the host, written with [data] through a read-write accessor, and
    released. *)
Definition written_on_host (type : DataType) (data : list pixel) : Image2D :=
  state_after
    ((createImage 4 4 type 1 Host >>
      let* a := getImageAccess ACCESS_READ_WRITE in
      store data >> releaseImageAccess a) Image2D_new)
    Image2D_new.

(** A 4x4 one-component image of element type [type] created on device 0
    from [data]. *)
Definition loaded_on_device (type : DataType) (data : list pixel) : Image2D :=
  state_after (createImage_data 4 4 type 1 (OpenCLDevice 0) data Image2D_new) Image2D_new.

(** Such an image after it was read on the host and on device 1 and then
    written on device 0: the host and device 1 hold stale copies. *)
Definition loaded_stale_on_second_device (type : DataType) (data : list pixel) : Image2D :=
  state_after
    ((touch Host ACCESS_READ >>
      touch (OpenCLDevice 1) ACCESS_READ >>
      touch (OpenCLDevice 0) ACCESS_READ_WRITE) (loaded_on_device type data))
    Image2D_new.

(* ===================================================================== *)
(** ** The host algorithm as a function of the buffers *)
(* ===================================================================== *)

(** [array[index]] as a value: nothing when the index is outside the
    array or the cell was never written. *)
Definition cell_at {A} (array : list (option A)) (index : Z) : option A :=
  if bool_decide (0 <= index) then
    match array !! Z.to_nat index with
    | Some (Some v) => Some v
    | _ => None
    end
  else None.

(** The pairs [(b, a)] in the order the two inner loops of
    [executeAlgorithmOnHost] visit them, and the pairs [(y, x)] in the
    order of its two outer loops. *)
Definition taps (halfSize : Z) : list (Z * Z) :=
  flat_map (fun b => map (fun a => (b, a)) (range (- halfSize) (halfSize + 1)))
    (range (- halfSize) (halfSize + 1)).

Definition interior (halfSize width height : Z) : list (Z * Z) :=
  flat_map (fun y => map (fun x => (y, x)) (range halfSize (u32 (width - halfSize))))
    (range halfSize (u32 (height - halfSize))).

(** One step [sum += mask[...] * inputData[...]] for the pixel [(x, y)]. *)
Definition addTap (T : DataType) (mask : list (option spec_float)) (inputData : list cell)
    (maskSize halfSize width x y : Z) (sum : spec_float) (tap : Z * Z)
  : option spec_float :=
  let '(b, a) := tap in
  match cell_at mask (a + halfSize + (b + halfSize) * maskSize),
        cell_at inputData (u32 (x + a + (y + b) * width)) with
  | Some m, Some p =>
      match float_of_pixel T p with
      | Some v => Some (F64.add sum (double_of_float (F32.mul m v)))
      | None => None
      end
  | _, _ => None
  end.

(** The [double] that the two inner loops leave in [sum]. *)
Definition weightedSum (T : DataType) (mask : list (option spec_float))
    (inputData : list cell) (maskSize halfSize width x y : Z) : option spec_float :=
  foldl (fun sum tap =>
           match sum with
           | Some sum => addTap T mask inputData maskSize halfSize width x y sum tap
           | None => None
           end)
    (Some F64.zero) (taps halfSize).

(** The value stored for the pixel [(x, y)]: the sum cast to [T]. *)
Definition smoothedPixel (T : DataType) (mask : list (option spec_float))
    (inputData : list cell) (maskSize halfSize width x y : Z) : option pixel :=
  match weightedSum T mask inputData maskSize halfSize width x y with
  | Some sum => pixel_of_double T sum
  | None => None
  end.

(** [outputData[x+y*width] = (T)sum] for one pixel, and for all pixels in
    loop order. *)
Definition storePixel (T : DataType) (mask : list (option spec_float))
    (inputData : list cell) (maskSize halfSize width : Z)
    (outputData : list cell) (yx : Z * Z) : option (list cell) :=
  let '(y, x) := yx in
  match smoothedPixel T mask inputData maskSize halfSize width x y with
  | Some v => write_cell (Some outputData) (u32 (x + y * width)) v
  | None => None
  end.

Definition smoothed (T : DataType) (mask : list (option spec_float))
    (inputData : list cell) (maskSize halfSize width height : Z)
    (outputData : list cell) : option (list cell) :=
  foldl (fun data yx =>
           match data with
           | Some data => storePixel T mask inputData maskSize halfSize width data yx
           | None => None
           end)
    (Some outputData) (interior halfSize width height).

(** The world while [executeAlgorithmOnHost] holds both accessors and the
    output array holds [data]. *)
Definition host_held_world (input output : nat) (oIn oOut : ImageData)
    (inImage outImage : Image2D) (w : World) (data : list cell) : World :=
  set_heap
    (<[output :=
         set_payload
           (StaticData (set_mHostData (Some data) (written_at_host outImage))) oOut]>
       (<[input := set_payload (StaticData inImage) oIn]> (heap w)))
    w.

(** The world after [executeAlgorithmOnHost] has returned: the output
    image was written at the host and holds [data], and both accessors were
    released. *)
Definition host_smoothed_world (input output : nat) (oIn oOut : ImageData)
    (inImage outImage : Image2D) (data : list cell) (w : World) : World :=
  set_heap
    (<[input := set_payload (StaticData (set_mHostDataIsBeingAccessed false inImage)) oIn]>
       (<[output :=
            set_payload
              (StaticData
                 (set_mHostDataIsBeingAccessed false
                    (set_mHostData (Some data) (written_at_host outImage)))) oOut]>
          (heap w)))
    w.

(** The two images as [executeAlgorithmOnHost] needs them: different
    objects, the input a one-component image that is not 3-D and whose host
    copy is up to date, the output an image that nobody is accessing, both
    with a host array. *)
Definition host_ready (input output : nat) (w : World) (oIn oOut : ImageData)
    (inImage outImage : Image2D) (inputData outputData : list cell) : Prop :=
  input <> output /\
  heap w !! input = Some oIn /\ payload oIn = StaticData inImage /\
  heap w !! output = Some oOut /\ payload oOut = StaticData outImage /\
  getNrOfComponents inImage = 1 /\ getDimensions inImage <> 3 /\
  mHostDataIsUpToDate inImage = true /\ mHostData inImage = Some inputData /\
  ~ someLocked outImage /\ mHostData outImage = Some outputData.

(** A written cell that holds an element of type [T]. *)
Definition elementOf (T : DataType) (c : cell) : bool :=
  match c with
  | Some p => bool_decide (is_Some (float_of_pixel T p))
  | None => false
  end.

(** The buffers fit the image: the mask has the odd size [2*halfSize+1]
    and all its weights are written, the image is at least [halfSize] wide
    and high, both arrays hold at least [width*height] elements, and the
    input pixels are written elements of type [T]. *)
Definition buffers_fit (T : DataType) (mask : list (option spec_float))
    (maskSize halfSize width height : Z) (inputData outputData : list cell) : Prop :=
  maskSize = 2 * halfSize + 1 /\ 0 <= halfSize <= 127 /\
  halfSize <= width < 2 ^ 32 /\ halfSize <= height < 2 ^ 32 /\
  width * height <= 2 ^ 32 /\
  width * height <= Z.of_nat (length inputData) /\
  width * height <= Z.of_nat (length outputData) /\
  maskSize * maskSize <= Z.of_nat (length mask) /\
  forallb (fun c => bool_decide (is_Some c)) mask = true /\
  forallb (elementOf T) (take (Z.to_nat (width * height)) inputData) = true.

(** The example of the specification at the point where [execute] calls
    [executeAlgorithmOnHost]: the output image is created and the mask is
    built (with every weight 1/9). *)
Definition example_before_host_algorithm : World :=
  state_after
    ((onImage 1 (createImage 4 4 TYPE_FLOAT 1 Host) >> createMask (fun _ => F32.one) 0)
       example_before_pull)
    example_before_pull.

Definition example_mask : list (option spec_float) :=
  default [] (mMask (stage example_before_host_algorithm)).

(** An 8x1 image of ones and an 8x1 output, on a stage with mask size 5. *)
Definition flat_world : World :=
  state_after
    ((let* input := New (StaticData Image2D_new) in
      onImage input (createImage 8 1 TYPE_FLOAT 1 Host) >>
      onImage input
        (let* a := getImageAccess ACCESS_READ_WRITE in
         fill (PFloat F32.one) >> releaseImageAccess a) >>
      let* output := New (StaticData Image2D_new) in
      onImage output (createImage 8 1 TYPE_FLOAT 1 Host))
       (World_new Host))
    (World_new Host).

(* ===================================================================== *)
(** ** The OpenCL kernel [FilteringLocalMemory] *)
(* ===================================================================== *)

(** The result of an [int] operation: outside the 32 bits of [int] it is
    undefined. The ids of a work item are converted to [int] the same
    way. *)
Definition int {S} (z : Z) : M S Z :=
  fun s => if bool_decide (- 2 ^ 31 <= z < 2 ^ 31) then Return z s else Undefined.

(** An undefined value ends the run. *)
Definition defined {S A} (v : option A) : M S A :=
  match v with
  | Some a => ret a
  | None => undefined
  end.

(** The values the kernel is compiled with (its [-D] build options). *)
Record BuildOptions := mkBuildOptions {
  LOCAL_SIZE_X : Z;
  LOCAL_SIZE_Y : Z;
  LOCAL_WIDTH : Z;
  LOCAL_HEIGHT : Z;
  HALF_FILTER_SIZE : Z;
  FILTER_SIZE : Z;
  IMAGE_WIDTH : Z;
  IMAGE_HEIGHT : Z;
  DATA_TYPE : Z
}.

(** The channel data types of OpenCL C that the kernel names. *)
Definition CLK_UNSIGNED_INT8 : Z := 4314.
Definition CLK_UNSIGNED_INT16 : Z := 4315.
Definition CLK_FLOAT : Z := 4318.

(** The first component of a pixel. An image of a float format holds
    [TFloat], one of an unsigned integer format [TUnsigned], one of a signed
    integer format [TSigned]; the same three tag the colour that
    [write_imagef], [write_imageui] and [write_imagei] are given. *)
Inductive texel := TFloat (f : spec_float) | TUnsigned (n : Z) | TSigned (n : Z).

Record image2d_t := mkImage2d {
  image_width : Z;
  image_height : Z;
  image_texel : Z -> Z -> texel
}.

(** The kernel's [sampler]: integer coordinates that are not normalised,
    the nearest pixel, and [CLK_ADDRESS_CLAMP_TO_EDGE], which moves a
    coordinate outside the image to the nearest pixel of the border. *)
Definition clamp_to_edge (size z : Z) : Z := Z.max 0 (Z.min (size - 1) z).

Definition sample (image : image2d_t) (coord : Z * Z) : texel :=
  image_texel image (clamp_to_edge (image_width image) (fst coord))
    (clamp_to_edge (image_height image) (snd coord)).

(** [read_imagef(image, sampler, coord).x] and its two integer variants:
    each returns an undefined value on an image of another kind of
    format. *)
Definition read_imagef (image : image2d_t) (coord : Z * Z) : option spec_float :=
  match sample image coord with
  | TFloat f => Some f
  | _ => None
  end.

Definition read_imageui (image : image2d_t) (coord : Z * Z) : option Z :=
  match sample image coord with
  | TUnsigned n => Some n
  | _ => None
  end.

Definition read_imagei (image : image2d_t) (coord : Z * Z) : option Z :=
  match sample image coord with
  | TSigned n => Some n
  | _ => None
  end.

(** The three-way branch on [dataType] that the kernel repeats at each of
    its reads; the integer is converted to [float] by the assignment to
    [sharedMem]. *)
Definition fetch (o : BuildOptions) (input : image2d_t) (coord : Z * Z)
  : option spec_float :=
  let dataType := DATA_TYPE o in
  if bool_decide (dataType = CLK_FLOAT) then read_imagef input coord
  else if bool_decide (dataType = CLK_UNSIGNED_INT8 \/ dataType = CLK_UNSIGNED_INT16)
  then F32.of_int <$> read_imageui input coord
  else F32.of_int <$> read_imagei input coord.

(** [round(f)] as an integer: the nearest integer, halfway cases away from
    zero; nothing for an infinity or a NaN. *)
Definition round (f : spec_float) : option Z :=
  match f with
  | S754_zero _ => Some 0
  | S754_finite s m e =>
      let a := if 0 <=? e then Z.shiftl (Zpos m) e
               else Z.shiftr (Zpos m + Z.shiftl 1 (- e - 1)) (- e) in
      Some (if s then - a else a)
  | _ => None
  end.

(** The local memory of one work-group and the output image. The pixels
    of [output] are the colours that were written, by position. *)
Record WorkGroup := mkWorkGroup {
  sharedMem : list (option spec_float);
  output_width : Z;
  output_height : Z;
  output : gmap (Z * Z) texel
}.

Definition set_sharedMem v (g : WorkGroup) : WorkGroup :=
  mkWorkGroup v (output_width g) (output_height g) (output g).
Definition set_output v (g : WorkGroup) : WorkGroup :=
  mkWorkGroup (sharedMem g) (output_width g) (output_height g) v.

(** [sharedMem[index] = v]. *)
Definition store_local (index : Z) (v : spec_float) : M WorkGroup unit :=
  fun g =>
    match write_cell (Some (sharedMem g)) index v with
    | Some l => Return tt (set_sharedMem l g)
    | None => Undefined
    end.

(** [write_image*(output, coord, color)]: undefined outside the image. *)
Definition write_image (coord : Z * Z) (color : texel) : M WorkGroup unit :=
  fun g =>
    if bool_decide (0 <= fst coord < output_width g /\ 0 <= snd coord < output_height g)
    then Return tt (set_output (<[coord := color]> (output g)) g)
    else Undefined.

(** [get_global_id] and [get_local_id] of a work item. *)
Record WorkItem := mkWorkItem {
  global_id : Z * Z;
  local_id : Z * Z
}.

Global Instance WorkItem_eq_dec : EqDecision WorkItem.
Proof. solve_decision. Defined.

(** Lines 50 to 60 and 64 to 74: the pixel [posBase + {x, y}] is read into
    [sharedMem[x + y * LOCAL_WIDTH]]. *)
Definition fetch_into (o : BuildOptions) (input : image2d_t) (posBase : Z * Z)
    (x y : Z) : M WorkGroup unit :=
  let* rows := int (y * LOCAL_WIDTH o) in
  let* localIndex := int (x + rows) in
  let* coordX := int (fst posBase + x) in
  let* coordY := int (snd posBase + y) in
  let* v := defined (fetch o input (coordX, coordY)) in
  store_local localIndex v.

(** The kernel of one work item up to the barrier. *)
Definition before_barrier (o : BuildOptions) (input : image2d_t) (item : WorkItem)
  : M WorkGroup unit :=
  let* globalX := int (fst (global_id item)) in
  let* globalY := int (snd (global_id item)) in
  let* localX := int (fst (local_id item)) in
  let* localY := int (snd (local_id item)) in
  let* rows := int (localY * LOCAL_WIDTH o) in
  let* localFetchIndex := int (localX + rows) in
  let* coordX := int (globalX - HALF_FILTER_SIZE o) in
  let* coordY := int (globalY - HALF_FILTER_SIZE o) in
  let* v := defined (fetch o input (coordX, coordY)) in
  store_local localFetchIndex v >>
  when (bool_decide (localY = 0))
    (let* baseX := int (globalX - localX) in
     let* baseX := int (baseX - HALF_FILTER_SIZE o) in
     let* baseY := int (globalY - localY) in
     let* baseY := int (baseY - HALF_FILTER_SIZE o) in
     let posBase := (baseX, baseY) in
     for_each (range 0 (LOCAL_HEIGHT o)) (fun y =>
       let* x := if bool_decide (y < LOCAL_SIZE_Y o)
                 then int (localX + LOCAL_SIZE_X o)
                 else ret localX in
       when (bool_decide (x < LOCAL_WIDTH o)) (fetch_into o input posBase x y) >>
       let* next := int (x + LOCAL_SIZE_X o) in
       when (bool_decide (next < LOCAL_WIDTH o))
         (let* x := int (x + LOCAL_SIZE_X o) in
          fetch_into o input posBase x y))).

(** Line 98, [sum += sharedMem[index++] * mask[ySizeAdd++]], on the three
    locals [sum], [index] and [ySizeAdd]. [mad sum a b] is the device's
    [sum + a * b] in [float], which OpenCL C lets the compiler contract
    into one fused operation. *)
Definition accumulate (mad : spec_float -> spec_float -> spec_float -> spec_float)
    (mask : list (option spec_float)) (locals : spec_float * Z * Z)
  : M WorkGroup (spec_float * Z * Z) :=
  let '(sum, index, ySizeAdd) := locals in
  let* g := get in
  let* a := read_cell (Some (sharedMem g)) index in
  let* index := int (index + 1) in
  let* b := read_cell (Some mask) ySizeAdd in
  let* ySizeAdd := int (ySizeAdd + 1) in
  ret (mad sum a b, index, ySizeAdd).

(** Lines 93 to 102: the loop over [x] and the step of [index] to the
    next row of the tile. The loop counter runs to [last], which is
    [HALF_FILTER_SIZE + 1]. *)
Definition filter_row (o : BuildOptions)
    (mad : spec_float -> spec_float -> spec_float -> spec_float)
    (mask : list (option spec_float)) (last : Z) (locals : spec_float * Z * Z)
  : M WorkGroup (spec_float * Z * Z) :=
  let* (sum, index, ySizeAdd) :=
    for_fold (range (- HALF_FILTER_SIZE o) last) (fun x locals =>
      accumulate mad mask locals) locals in
  let* step := int (LOCAL_WIDTH o - FILTER_SIZE o) in
  let* index := int (index + step) in
  ret (sum, index, ySizeAdd).

(** Lines 110 to 118: [sum] is written to [output] at [pos]; the
    conversion of [round(sum)] to an integer outside the range of the
    integer type is undefined. *)
Definition write_sum (o : BuildOptions) (pos : Z * Z) (sum : spec_float)
  : M WorkGroup unit :=
  let outputDataType := DATA_TYPE o in
  if bool_decide (outputDataType = CLK_FLOAT) then write_image pos (TFloat sum)
  else if bool_decide (outputDataType = CLK_UNSIGNED_INT8 \/
                       outputDataType = CLK_UNSIGNED_INT16)
  then
    let* n := defined (round sum) in
    if bool_decide (0 <= n < 2 ^ 32) then write_image pos (TUnsigned n)
    else undefined
  else
    let* n := defined (round sum) in
    let* n := int n in
    write_image pos (TSigned n).

(** The kernel of one work item from the barrier on. *)
Definition after_barrier (o : BuildOptions)
    (mad : spec_float -> spec_float -> spec_float -> spec_float)
    (mask : list (option spec_float)) (item : WorkItem) : M WorkGroup unit :=
  let* globalX := int (fst (global_id item)) in
  let* globalY := int (snd (global_id item)) in
  let* localX := int (fst (local_id item)) in
  let* localY := int (snd (local_id item)) in
  let pos := (globalX, globalY) in
  let* rows := int (localY * LOCAL_WIDTH o) in
  let* index := int (localX + rows) in
  let* last := int (HALF_FILTER_SIZE o + 1) in
  let* (sum, _, _) :=
    for_fold (range (- HALF_FILTER_SIZE o) last) (fun y locals =>
      filter_row o mad mask last locals) (F32.zero, index, 0) in
  when (bool_decide (IMAGE_WIDTH o > globalX /\ IMAGE_HEIGHT o > globalY))
    (write_sum o pos sum).

(** One work-group runs the kernel: every work item reaches the barrier
    before any work item leaves it. [items] is the order in which the work
    items take their turns in each of the two phases; before the barrier
    they only write local memory and after it they only read it. *)
Definition FilteringLocalMemory (o : BuildOptions)
    (mad : spec_float -> spec_float -> spec_float -> spec_float)
    (input : image2d_t) (mask : list (option spec_float)) (items : list WorkItem)
  : M WorkGroup unit :=
  for_each items (before_barrier o input) >>
  for_each items (after_barrier o mad mask).

(** The work items of the group whose item (0, 0) has the global id
    [origin], row by row. *)
Definition work_items (o : BuildOptions) (origin : Z * Z) : list WorkItem :=
  flat_map (fun localY =>
    map (fun localX =>
           mkWorkItem (fst origin + localX, snd origin + localY) (localX, localY))
      (range 0 (LOCAL_SIZE_X o)))
    (range 0 (LOCAL_SIZE_Y o)).

(** *** What the kernel computes, as functions of the input image *)

(** One step [sum += input[pos + (x, y)] * mask[...]] over the image that
    the sampler extends beyond its border, and the sum over the mask row
    by row. *)
Definition addWeighted (o : BuildOptions)
    (mad : spec_float -> spec_float -> spec_float -> spec_float)
    (input : image2d_t) (mask : list (option spec_float)) (pos : Z * Z)
    (sum : spec_float) (tap : Z * Z) : option spec_float :=
  let '(y, x) := tap in
  match fetch o input (fst pos + x, snd pos + y),
        cell_at mask (x + HALF_FILTER_SIZE o + (y + HALF_FILTER_SIZE o) * FILTER_SIZE o) with
  | Some a, Some b => Some (mad sum a b)
  | _, _ => None
  end.

Definition filtered (o : BuildOptions)
    (mad : spec_float -> spec_float -> spec_float -> spec_float)
    (input : image2d_t) (mask : list (option spec_float)) (pos : Z * Z)
  : option spec_float :=
  foldl (fun sum tap =>
           match sum with
           | Some sum => addWeighted o mad input mask pos sum tap
           | None => None
           end)
    (Some F32.zero) (taps (HALF_FILTER_SIZE o)).

(** The colour that [sum] is written as. *)
Definition color (o : BuildOptions) (sum : spec_float) : option texel :=
  if bool_decide (DATA_TYPE o = CLK_FLOAT) then Some (TFloat sum)
  else if bool_decide (DATA_TYPE o = CLK_UNSIGNED_INT8 \/ DATA_TYPE o = CLK_UNSIGNED_INT16)
  then match round sum with
       | Some n => if bool_decide (0 <= n < 2 ^ 32) then Some (TUnsigned n) else None
       | None => None
       end
  else match round sum with
       | Some n => if bool_decide (- 2 ^ 31 <= n < 2 ^ 31) then Some (TSigned n) else None
       | None => None
       end.

(** The build options describe a tile that holds the work-group and a
    margin of [HALF_FILTER_SIZE] on each side. *)
Definition tile_fits (o : BuildOptions) : Prop :=
  0 <= HALF_FILTER_SIZE o /\ FILTER_SIZE o = 2 * HALF_FILTER_SIZE o + 1 /\
  0 < LOCAL_SIZE_X o /\ 0 < LOCAL_SIZE_Y o /\
  LOCAL_SIZE_X o + 2 * HALF_FILTER_SIZE o <= LOCAL_WIDTH o <= 2 ^ 14 /\
  LOCAL_SIZE_Y o + 2 * HALF_FILTER_SIZE o <= LOCAL_HEIGHT o <= 2 ^ 14.

(** A work-group at [origin] that runs on [items], with a local memory of
    at least the size of the tile. *)
Definition group_ready (o : BuildOptions) (origin : Z * Z) (items : list WorkItem)
    (g : WorkGroup) : Prop :=
  items ≡ₚ work_items o origin /\
  0 <= fst origin < 2 ^ 30 /\ 0 <= snd origin < 2 ^ 30 /\
  LOCAL_WIDTH o * LOCAL_HEIGHT o <= Z.of_nat (length (sharedMem g)).

(** The cells [(x, y)] of the tile that a work item reads from the image
    before the barrier, in its order: its own cell and, when it is in the
    first row of the group, up to two more in every row of the tile. *)
Definition columns (o : BuildOptions) (localX y : Z) : list Z :=
  let x := if bool_decide (y < LOCAL_SIZE_Y o) then localX + LOCAL_SIZE_X o else localX in
  (if bool_decide (x < LOCAL_WIDTH o) then [x] else []) ++
  (if bool_decide (x + LOCAL_SIZE_X o < LOCAL_WIDTH o) then [x + LOCAL_SIZE_X o] else []).

Definition cells (o : BuildOptions) (item : WorkItem) : list (Z * Z) :=
  local_id item ::
  (if bool_decide (snd (local_id item) = 0)
   then flat_map (fun y => map (fun x => (x, y)) (columns o (fst (local_id item)) y))
          (range 0 (LOCAL_HEIGHT o))
   else []).

(** The pixel that belongs in the cell [(x, y)] of the tile of the group
    at [origin], and the write of it into a local memory [mem]. *)
Definition tile (o : BuildOptions) (input : image2d_t) (origin c : Z * Z)
  : option spec_float :=
  fetch o input (fst origin - HALF_FILTER_SIZE o + fst c,
                 snd origin - HALF_FILTER_SIZE o + snd c).

Definition fill_cell (o : BuildOptions) (input : image2d_t) (origin : Z * Z)
    (mem : list (option spec_float)) (c : Z * Z) : option (list (option spec_float)) :=
  match tile o input origin c with
  | Some v => write_cell (Some mem) (fst c + snd c * LOCAL_WIDTH o) v
  | None => None
  end.

(** The sum of a work item as a function of the local memory. *)
Definition addLocal (o : BuildOptions)
    (mad : spec_float -> spec_float -> spec_float -> spec_float)
    (mem mask : list (option spec_float)) (index : Z)
    (sum : spec_float) (tap : Z * Z) : option spec_float :=
  let '(y, x) := tap in
  match cell_at mem (index + (x + HALF_FILTER_SIZE o)
                     + (y + HALF_FILTER_SIZE o) * LOCAL_WIDTH o),
        cell_at mask (x + HALF_FILTER_SIZE o + (y + HALF_FILTER_SIZE o) * FILTER_SIZE o) with
  | Some a, Some b => Some (mad sum a b)
  | _, _ => None
  end.

Definition local_sum (o : BuildOptions)
    (mad : spec_float -> spec_float -> spec_float -> spec_float)
    (mem mask : list (option spec_float)) (index : Z) : option spec_float :=
  foldl (fun sum tap =>
           match sum with
           | Some sum => addLocal o mad mem mask index sum tap
           | None => None
           end)
    (Some F32.zero) (taps (HALF_FILTER_SIZE o)).

(** The same sum row by row: one product of the row whose cells are
    [base + x] and whose weights are [weights + x], and the rows of the
    mask when [index] and [ySizeAdd] are [first + y * LOCAL_WIDTH] and
    [weights + y * FILTER_SIZE] at the start of the row [y]. *)
Definition addRow (mad : spec_float -> spec_float -> spec_float -> spec_float)
    (mem mask : list (option spec_float)) (base weights : Z)
    (acc : option spec_float) (x : Z) : option spec_float :=
  match acc with
  | Some sum =>
      match cell_at mem (base + x), cell_at mask (weights + x) with
      | Some a, Some b => Some (mad sum a b)
      | _, _ => None
      end
  | None => None
  end.

Definition addRows (o : BuildOptions)
    (mad : spec_float -> spec_float -> spec_float -> spec_float)
    (mem mask : list (option spec_float)) (first weights : Z)
    (acc : option spec_float) (y : Z) : option spec_float :=
  foldl (addRow mad mem mask (first + y * LOCAL_WIDTH o + HALF_FILTER_SIZE o)
           (weights + y * FILTER_SIZE o + HALF_FILTER_SIZE o))
    acc (range (- HALF_FILTER_SIZE o) (HALF_FILTER_SIZE o + 1)).

(** The image can be read the way [DATA_TYPE] says. *)
Definition readable (o : BuildOptions) (input : image2d_t) : Prop :=
  forall coord, is_Some (fetch o input coord).

(** The position is one that the kernel writes: line 108. *)
Definition inside (o : BuildOptions) (pos : Z * Z) : Prop :=
  IMAGE_WIDTH o > fst pos /\ IMAGE_HEIGHT o > snd pos.

(** The weights of the mask are written. *)
Definition mask_written (o : BuildOptions) (mask : list (option spec_float)) : Prop :=
  forall k, 0 <= k < FILTER_SIZE o * FILTER_SIZE o -> is_Some (cell_at mask k).

(** An example: work-groups of 2 by 2 work items on a 4 by 4 float image
    whose pixel [(x, y)] is [x + 4 * y], a 3 by 3 mask of ones with a tile
    of 4 by 4 cells, and a 5 by 5 mask with a tile of 6 by 6 cells. *)
Definition small_filter : BuildOptions := mkBuildOptions 2 2 4 4 1 3 4 4 CLK_FLOAT.
Definition wide_filter : BuildOptions := mkBuildOptions 2 2 6 6 2 5 4 4 CLK_FLOAT.

Definition ramp_image : image2d_t :=
  mkImage2d 4 4 (fun x y => TFloat (F32.of_int (x + 4 * y))).

Definition fresh_group (size : nat) : WorkGroup := mkWorkGroup (replicate size None) 4 4 ∅.

Definition multiply_add (sum a b : spec_float) : spec_float := F32.add sum (F32.mul a b).

(* ===================================================================== *)
(** ** Facts about the coherence table *)
(* ===================================================================== *)

Lemma existsb_snd_map_to_list (m : gmap nat bool) :
  existsb snd (map_to_list m) = true <-> exists d, m !! d = Some true.
Proof.
  rewrite existsb_exists. split.
  - intros [[d b] [Hin Hb]]. simpl in Hb. subst b.
    exists d. apply elem_of_map_to_list, list_elem_of_In, Hin.
  - intros [d Hd]. exists (d, true). split; [|reflexivity].
    apply list_elem_of_In, elem_of_map_to_list, Hd.
Qed.

Lemma isAnyDataBeingAccessed_true (i : Image2D) :
  isAnyDataBeingAccessed i = true <-> someLocked i.
Proof.
  unfold isAnyDataBeingAccessed, someLocked. split.
  - destruct (mHostDataIsBeingAccessed i) eqn:Hhost.
    + intros _. exists Host. exact Hhost.
    + intros [d Hd]%existsb_snd_map_to_list. exists (OpenCLDevice d). exact Hd.
  - intros [[|d] Hloc]; simpl in Hloc.
    + rewrite Hloc. reflexivity.
    + destruct (mHostDataIsBeingAccessed i); [reflexivity|].
      apply existsb_snd_map_to_list. exists d. exact Hloc.
Qed.

Lemma isAnyDataBeingAccessed_false (i : Image2D) :
  isAnyDataBeingAccessed i = false <-> ~ someLocked i.
Proof.
  rewrite <- isAnyDataBeingAccessed_true.
  destruct (isAnyDataBeingAccessed i); split; congruence.
Qed.

Lemma first_true_Some (l : list (nat * bool)) (d : nat) :
  first_true l = Some d -> (d, true) ∈ l.
Proof.
  induction l as [|[d' b] l IH]; simpl; [discriminate|].
  destruct b.
  - intros [= ->]. left.
  - intros H. right. apply IH, H.
Qed.

Lemma first_true_None (l : list (nat * bool)) :
  first_true l = None <-> forall d, (d, true) ∉ l.
Proof.
  induction l as [|[d' b] l IH]; simpl.
  - split; [intros _ d Hd; inversion Hd | reflexivity].
  - destruct b.
    + split; [discriminate|]. intros H. exfalso. apply (H d'). left.
    + rewrite IH. split.
      * intros H d Hd. inversion Hd; subst. apply (H d). assumption.
      * intros H d Hd. apply (H d). right. exact Hd.
Qed.

Lemma first_true_map_Some (m : gmap nat bool) (d : nat) :
  first_true (map_to_list m) = Some d -> m !! d = Some true.
Proof. intros H%first_true_Some. apply elem_of_map_to_list, H. Qed.

Lemma first_true_map_None (m : gmap nat bool) :
  first_true (map_to_list m) = None <-> forall d, m !! d <> Some true.
Proof.
  rewrite first_true_None. split; intros H d Hd; apply (H d).
  - apply elem_of_map_to_list, Hd.
  - apply elem_of_map_to_list, Hd.
Qed.

Lemma not_someUpToDate (i : Image2D) :
  ~ someUpToDate i <->
  mHostDataIsUpToDate i = false /\ first_true (map_to_list (mCLImagesIsUpToDate i)) = None.
Proof.
  rewrite first_true_map_None. unfold someUpToDate. split.
  - intros H. split.
    + destruct (mHostDataIsUpToDate i) eqn:E; [|reflexivity].
      exfalso. apply H. exists Host. exact E.
    + intros d Hd. apply H. exists (OpenCLDevice d). exact Hd.
  - intros [Hhost Hdev] [[|d] Hloc]; simpl in Hloc.
    + congruence.
    + apply (Hdev d Hloc).
Qed.

Lemma updateOpenCLImageData_up_to_date (d : nat) (i : Image2D) :
  mCLImagesIsUpToDate i !! d = Some true -> updateOpenCLImageData d i = Return tt i.
Proof.
  intros H. unfold updateOpenCLImageData. unfold_monad.
  rewrite bool_decide_eq_true_2 by exact H. reflexivity.
Qed.

Lemma updateHostData_up_to_date (i : Image2D) :
  mHostDataIsUpToDate i = true -> updateHostData i = Return tt i.
Proof. intros H. unfold updateHostData. unfold_monad. rewrite H. reflexivity. Qed.

Lemma getImageAccess_write (i : Image2D) :
  getImageAccess ACCESS_READ_WRITE i =
  if isAnyDataBeingAccessed i then Throw concurrent_access_message i
  else Return (mkImageAccess2D (mHostData i)) (written_at_host i).
Proof.
  unfold getImageAccess, setAllDataToOutOfDate. unfold_monad. simpl.
  destruct (isAnyDataBeingAccessed i); [reflexivity|].
  rewrite updateHostData_up_to_date by reflexivity. reflexivity.
Qed.

Lemma getOpenCLImageAccess_write (d : nat) (i : Image2D) :
  getOpenCLImageAccess ACCESS_READ_WRITE d i =
  if isAnyDataBeingAccessed i then Throw concurrent_access_message i
  else Return (mkOpenCLImageAccess2D d (default None (mCLImages i !! d)))
         (written_at_device d i).
Proof.
  unfold getOpenCLImageAccess, setAllDataToOutOfDate. unfold_monad. simpl.
  destruct (isAnyDataBeingAccessed i); [reflexivity|].
  rewrite updateOpenCLImageData_up_to_date by (simpl; apply lookup_insert_eq).
  unfold written_at_device. f_equal. f_equal.
  unfold index_mCLImagesAccess, index_mCLImages. simpl.
  destruct (mCLImages i !! d) eqn:E; simpl; rewrite !lookup_insert_eq; simpl.
  - rewrite E. reflexivity.
  - rewrite lookup_insert_eq. reflexivity.
Qed.

Lemma upToDateAt_written_at_host (i : Image2D) (loc : ExecutionDevice) :
  upToDateAt (written_at_host i) loc <-> loc = Host.
Proof.
  destruct loc as [|d]; simpl.
  - tauto.
  - rewrite lookup_fmap. destruct (mCLImagesIsUpToDate i !! d); simpl; split; congruence.
Qed.

Lemma upToDateAt_written_at_device (d : nat) (i : Image2D) (loc : ExecutionDevice) :
  upToDateAt (written_at_device d i) loc <-> loc = OpenCLDevice d.
Proof.
  unfold written_at_device, index_mCLImagesAccess, index_mCLImages. simpl.
  destruct (mCLImages i !! d); simpl; rewrite lookup_insert_eq;
    (destruct loc as [|d']; simpl; [split; congruence|]);
    (destruct (decide (d = d')) as [->|Hne];
      [rewrite lookup_insert_eq; tauto|]);
    rewrite lookup_insert_ne, lookup_fmap by exact Hne;
    destruct (mCLImagesIsUpToDate i !! d'); simpl; split; congruence.
Qed.

Lemma lockedAt_written_at_host (i : Image2D) (loc : ExecutionDevice) :
  ~ someLocked i -> lockedAt (written_at_host i) loc <-> loc = Host.
Proof.
  intros Hfree. destruct loc as [|d]; simpl; [tauto|]. split; [|discriminate].
  intros H. exfalso. apply Hfree. exists (OpenCLDevice d). exact H.
Qed.

Lemma lockedAt_written_at_device (d : nat) (i : Image2D) (loc : ExecutionDevice) :
  ~ someLocked i -> lockedAt (written_at_device d i) loc <-> loc = OpenCLDevice d.
Proof.
  intros Hfree.
  unfold written_at_device, index_mCLImagesAccess, index_mCLImages. simpl.
  destruct (mCLImages i !! d); simpl; rewrite lookup_insert_eq;
    (destruct loc as [|d']; simpl;
      [split; [|discriminate]; intros H; exfalso; apply Hfree; exists Host; exact H|]);
    (destruct (decide (d = d')) as [->|Hne];
      [rewrite lookup_insert_eq; tauto|]);
    rewrite lookup_insert_ne by exact Hne;
    (split; [|congruence]); intros H; exfalso; apply Hfree;
    exists (OpenCLDevice d'); exact H.
Qed.

Lemma getImageAccess_read (i : Image2D) :
  getImageAccess ACCESS_READ i =
  match updateHostData i with
  | Return _ i' => Return (mkImageAccess2D (mHostData i')) i'
  | Throw what i' => Throw what i'
  | Undefined => Undefined
  end.
Proof. reflexivity. Qed.

(** *** The transfers *)

Lemma sizeOf_pos (T : DataType) : (0 < sizeOf T)%nat.
Proof. destruct T; simpl; lia. Qed.

Lemma length_little_endian (n : nat) (z : Z) : length (little_endian n z) = n.
Proof. revert z. induction n as [|n IH]; intros z; simpl; [reflexivity|]. rewrite IH. reflexivity. Qed.

Lemma length_bytes_of_cell (T : DataType) (c : cell) :
  length (bytes_of_cell T c) = sizeOf T.
Proof.
  unfold bytes_of_cell. destruct (c ≫= bytes_of_pixel T) as [bytes|] eqn:E.
  - rewrite length_fmap. destruct c as [p|]; [|discriminate]. simpl in E.
    destruct T, p; try discriminate; injection E as <-; reflexivity.
  - apply length_replicate.
Qed.

Lemma length_bytes_of (T : DataType) (array : list cell) :
  length (bytes_of T array) = (length array * sizeOf T)%nat.
Proof.
  unfold bytes_of. induction array as [|c array IH]; [reflexivity|].
  rewrite bind_cons, length_app, length_bytes_of_cell, IH. simpl. lia.
Qed.

Lemma bytes_of_unwritten (T : DataType) (k : nat) (rest : list cell) :
  bytes_of T (replicate k None ++ rest) = replicate (k * sizeOf T) None ++ bytes_of T rest.
Proof.
  unfold bytes_of. induction k as [|k IH]; [reflexivity|].
  simpl replicate at 1. simpl app at 1. rewrite bind_cons, IH.
  change (bytes_of_cell T None) with (replicate (A := byte) (sizeOf T) None).
  rewrite app_assoc, <- replicate_add. reflexivity.
Qed.

Lemma cells_of_unwritten (T : DataType) (k : nat) (rest : list byte) :
  cells_of T k (replicate (k * sizeOf T) None ++ rest) = replicate k None.
Proof.
  pose proof (sizeOf_pos T) as Hpos.
  induction k as [|k IH]; [reflexivity|]. simpl cells_of.
  replace (S k * sizeOf T)%nat with (sizeOf T + k * sizeOf T)%nat by lia.
  rewrite replicate_add, <- app_assoc.
  rewrite take_app_length' by (symmetry; apply length_replicate).
  rewrite drop_app_length' by (symmetry; apply length_replicate).
  rewrite IH. simpl. f_equal.
  unfold cell_of_bytes. destruct (sizeOf T); [lia|]. reflexivity.
Qed.

(** Whole elements copied between arrays of one element type. *)
Lemma copyBytes_same (T : DataType) (k : nat) (source target : list cell) :
  (k <= length source)%nat -> (k <= length target)%nat ->
  copyBytes T T (k * sizeOf T) source target = Some (take k source ++ drop k target).
Proof.
  intros Hs Ht. pose proof (sizeOf_pos T) as Hpos. unfold copyBytes.
  rewrite bool_decide_eq_true_2 by (split; apply Nat.mul_le_mono_r; assumption).
  rewrite bool_decide_eq_true_2
    by (split; [reflexivity|apply Nat.Div0.mod_mul]).
  rewrite Nat.div_mul by lia. reflexivity.
Qed.

(** Elements never written, copied to an array of any element type, leave
    the elements they reach indeterminate. *)
Lemma copyBytes_unwritten (from to : DataType) (k m : nat) (rest target : list cell) :
  (m * sizeOf to <= k * sizeOf from)%nat -> (m <= length target)%nat ->
  copyBytes from to (m * sizeOf to) (replicate k None ++ rest) target
  = Some (replicate m None ++ drop m target).
Proof.
  intros Hk Hm. pose proof (sizeOf_pos to) as Hto. pose proof (sizeOf_pos from) as Hfrom.
  unfold copyBytes.
  rewrite bool_decide_eq_true_2
    by (rewrite length_app, length_replicate; split; nia).
  case_bool_decide as Hsame.
  - destruct Hsame as [-> _]. rewrite Nat.div_mul by lia.
    assert (m <= k)%nat by nia.
    rewrite take_app_le by (rewrite length_replicate; lia).
    rewrite take_replicate. do 3 f_equal. lia.
  - replace ((m * sizeOf to + sizeOf to - 1) / sizeOf to)%nat with m.
    2:{ apply Nat.div_unique with (sizeOf to - 1)%nat; lia. }
    rewrite bytes_of_unwritten.
    rewrite take_app_le by (rewrite length_replicate; lia).
    rewrite take_replicate.
    rewrite Nat.min_l by exact Hk.
    rewrite cells_of_unwritten. reflexivity.
Qed.

Lemma copyBytes_same_inv (T : DataType) (k : nat) (source target result : list cell) :
  copyBytes T T (k * sizeOf T) source target = Some result ->
  (k <= length source)%nat /\ (k <= length target)%nat /\
  result = take k source ++ drop k target /\ take k result = take k source.
Proof.
  intros Hcopy. pose proof (sizeOf_pos T) as Hpos.
  unfold copyBytes in Hcopy. case_bool_decide as Hlen; [|discriminate].
  assert (k <= length source)%nat as Hs by nia.
  assert (k <= length target)%nat as Ht by nia.
  rewrite bool_decide_eq_true_2 in Hcopy by (split; [reflexivity|apply Nat.Div0.mod_mul]).
  rewrite Nat.div_mul in Hcopy by lia. injection Hcopy as <-.
  repeat (split; [assumption || reflexivity|]).
  rewrite take_app_le by (rewrite length_take; lia).
  rewrite take_take. f_equal. lia.
Qed.

(** The bytes of a region of one-channel [float] pixels are whole elements
    of every element type. *)
Lemma float_region_elements (T : DataType) (r : nat) :
  (r * 4 = r * 4 / sizeOf T * sizeOf T)%nat.
Proof.
  destruct T; simpl sizeOf.
  - rewrite Nat.div_mul by lia. reflexivity.
  - rewrite Nat.div_1_r. lia.
  - rewrite Nat.div_1_r. lia.
  - replace (r * 4)%nat with (r * 2 * 2)%nat by lia. rewrite Nat.div_mul by lia. reflexivity.
  - replace (r * 4)%nat with (r * 2 * 2)%nat by lia. rewrite Nat.div_mul by lia. reflexivity.
Qed.

Lemma copyBytes_bounds (from to : DataType) (n : nat) (source target result : list cell) :
  copyBytes from to n source target = Some result ->
  (n <= length source * sizeOf from /\ n <= length target * sizeOf to)%nat.
Proof. unfold copyBytes. case_bool_decide; [auto|discriminate]. Qed.

Lemma copyBytes_fits (from to : DataType) (n : nat) (source target : list cell) :
  (n <= length source * sizeOf from)%nat -> (n <= length target * sizeOf to)%nat ->
  is_Some (copyBytes from to n source target).
Proof.
  intros Hs Ht. unfold copyBytes. rewrite bool_decide_eq_true_2 by auto.
  case_bool_decide; eauto.
Qed.

Lemma copyBytes_outside (from to : DataType) (n : nat) (source target : list cell) :
  (length source * sizeOf from < n \/ length target * sizeOf to < n)%nat ->
  copyBytes from to n source target = None.
Proof. intros H. unfold copyBytes. rewrite bool_decide_eq_false_2 by lia. reflexivity. Qed.

Lemma transferCLImageToHost_Return (d : nat) (i i' : Image2D) :
  transferCLImageToHost d i = Return tt i' <->
  exists image format host host',
    mCLImages i !! d = Some (Some image) /\
    mCLImageFormats i !! d = Some format /\
    mHostData i = Some host /\
    copyBytes (channelType format) (mHostDataType i)
      (regionSize i * pixelSize format) image host = Some host' /\
    i' = emit (EnqueueReadImage d) (set_mHostData (Some host') i).
Proof.
  unfold transferCLImageToHost. split.
  - destruct (mCLImages i !! d) as [[image|]|], (mCLImageFormats i !! d) as [format|],
      (mHostData i) as [host|]; try discriminate.
    destruct (copyBytes _ _ _ _ _) as [host'|] eqn:E; [|discriminate].
    intros [= <-]. exists image, format, host, host'. auto.
  - intros (image & format & host & host' & -> & -> & -> & -> & ->). reflexivity.
Qed.

Lemma transferCLImageFromHost_Return (d : nat) (i i' : Image2D) :
  transferCLImageFromHost d i = Return tt i' <->
  exists image format host image',
    mCLImages i !! d = Some (Some image) /\
    mCLImageFormats i !! d = Some format /\
    mHostData i = Some host /\
    copyBytes (mHostDataType i) (channelType format)
      (regionSize i * pixelSize format) host image = Some image' /\
    i' = emit (EnqueueWriteImage d)
           (set_mCLImages (<[d := Some image']> (mCLImages i)) i).
Proof.
  unfold transferCLImageFromHost. split.
  - destruct (mCLImages i !! d) as [[image|]|], (mCLImageFormats i !! d) as [format|],
      (mHostData i) as [host|]; try discriminate.
    destruct (copyBytes _ _ _ _ _) as [image'|] eqn:E; [|discriminate].
    intros [= <-]. exists image, format, host, image'. auto.
  - intros (image & format & host & image' & -> & -> & -> & -> & ->). reflexivity.
Qed.

Lemma transferCLImageToHost_no_throw (d : nat) (i i' : Image2D) (what : string) :
  transferCLImageToHost d i <> Throw what i'.
Proof.
  unfold transferCLImageToHost.
  destruct (mCLImages i !! d) as [[image|]|], (mCLImageFormats i !! d), (mHostData i);
    try discriminate.
  destruct (copyBytes _ _ _ _ _); discriminate.
Qed.

Lemma transferCLImageFromHost_no_throw (d : nat) (i i' : Image2D) (what : string) :
  transferCLImageFromHost d i <> Throw what i'.
Proof.
  unfold transferCLImageFromHost.
  destruct (mCLImages i !! d) as [[image|]|], (mCLImageFormats i !! d), (mHostData i);
    try discriminate.
  destruct (copyBytes _ _ _ _ _); discriminate.
Qed.

(** When [updateHostData] throws. *)
Lemma updateHostData_throws (i i' : Image2D) (what : string) :
  updateHostData i = Throw what i' <->
  what = coherence_message /\
  ~ someUpToDate i /\ (0 < size (mCLImages i))%nat /\
  i' = (if mHostHasData i then i
        else emit (NewHostArray (u32 (mWidth i * mHeight i)))
               (set_mHostDataType TYPE_FLOAT
               (set_mHostData
                  (Some (replicate (Z.to_nat (u32 (mWidth i * mHeight i))) None)) i))).
Proof.
  rewrite not_someUpToDate.
  unfold updateHostData. unfold_monad.
  destruct (mHostDataIsUpToDate i) eqn:Hhost.
  { split; [discriminate|]. intros (_ & [? _] & _). discriminate. }
  destruct (mHostHasData i) eqn:Hhas; simpl.
  - case_bool_decide as Hsize.
    + destruct (first_true _) as [src|] eqn:Hsrc.
      * split; [intros H; exfalso; exact (transferCLImageToHost_no_throw _ _ _ _ H)|].
        intros (_ & [_ ?] & _). discriminate.
      * split; [intros [= <- <-]; auto|]. intros (-> & _ & _ & ->). reflexivity.
    + split; [discriminate|]. intros (_ & _ & ? & _). contradiction.
  - case_bool_decide as Hsize.
    + destruct (first_true _) as [src|] eqn:Hsrc.
      * split; [intros H; exfalso; exact (transferCLImageToHost_no_throw _ _ _ _ H)|].
        intros (_ & [_ ?] & _). discriminate.
      * split; [intros [= <- <-]; auto|]. intros (-> & _ & _ & ->). reflexivity.
    + split; [discriminate|]. intros (_ & _ & ? & _). contradiction.
Qed.

Lemma updateOpenCLImageData_throws (d : nat) (i i' : Image2D) (what : string) :
  updateOpenCLImageData d i = Throw what i' <->
  what = coherence_message /\ ~ someUpToDate i /\
  is_Some (mCLImagesIsUpToDate i !! d) /\ i' = i.
Proof.
  rewrite not_someUpToDate.
  unfold updateOpenCLImageData. unfold_monad.
  destruct (mCLImagesIsUpToDate i !! d) as [[|]|] eqn:Hd.
  - rewrite bool_decide_eq_true_2 by reflexivity.
    split; [discriminate|]. intros (_ & [_ Hnone] & _).
    rewrite first_true_map_None in Hnone. destruct (Hnone d Hd).
  - rewrite bool_decide_eq_false_2 by discriminate.
    rewrite bool_decide_eq_false_2 by discriminate.
    destruct (mHostDataIsUpToDate i) eqn:Hhost.
    + split; [intros H; exfalso; exact (transferCLImageFromHost_no_throw _ _ _ _ H)|].
      intros (_ & [? _] & _). discriminate.
    + destruct (first_true _) as [src|] eqn:Hsrc.
      * split; [|intros (_ & [_ ?] & _); discriminate].
        destruct (transferCLImageToHost src i) as [[] i1| |] eqn:E1; try discriminate.
        -- destruct (transferCLImageFromHost d i1) as [[] i2| |] eqn:E2; try discriminate.
           intros [= -> ->]. exfalso. exact (transferCLImageFromHost_no_throw _ _ _ _ E2).
        -- intros [= -> ->]. exfalso. exact (transferCLImageToHost_no_throw _ _ _ _ E1).
      * split; [intros [= <- <-]; auto|]. intros (-> & _ & _ & ->). reflexivity.
  - rewrite bool_decide_eq_false_2 by discriminate.
    rewrite bool_decide_eq_true_2 by reflexivity.
    split; [|intros (_ & _ & [? ?] & _); discriminate].
    simpl. destruct (mHostDataIsUpToDate i).
    + intros H. exfalso. exact (transferCLImageFromHost_no_throw _ _ _ _ H).
    + destruct (first_true _) as [src|] eqn:Hsrc.
      * match goal with |- context [transferCLImageToHost src ?s] =>
          destruct (transferCLImageToHost src s) as [[] i1| |] eqn:E1 end; try discriminate.
        -- destruct (transferCLImageFromHost d i1) as [[] i2| |] eqn:E2; try discriminate.
           intros [= -> ->]. exfalso. exact (transferCLImageFromHost_no_throw _ _ _ _ E2).
        -- intros [= -> ->]. exfalso. exact (transferCLImageToHost_no_throw _ _ _ _ E1).
      * rewrite first_true_map_None in Hsrc. exfalso. apply (Hsrc d), lookup_insert_eq.
Qed.

Lemma getOpenCLImageAccess_read (d : nat) (i : Image2D) :
  getOpenCLImageAccess ACCESS_READ d i =
  match updateOpenCLImageData d
          (set_mCLImagesAccess (<[d := true]> (mCLImagesAccess i)) i) with
  | Return _ i' =>
      Return (mkOpenCLImageAccess2D d
                (default None (mCLImages (index_mCLImagesAccess d (index_mCLImages d i')) !! d)))
        (index_mCLImagesAccess d (index_mCLImages d i'))
  | Throw what i' => Throw what i'
  | Undefined => Undefined
  end.
Proof.
  unfold getOpenCLImageAccess. unfold_monad. simpl.
  destruct (updateOpenCLImageData d _); reflexivity.
Qed.

(** *** The up-to-date flags only grow under a read *)

Lemma transferCLImageToHost_flags (d : nat) (i i' : Image2D) :
  transferCLImageToHost d i = Return tt i' ->
  mHostDataIsUpToDate i' = mHostDataIsUpToDate i /\
  mCLImagesIsUpToDate i' = mCLImagesIsUpToDate i.
Proof.
  intros (image & format & host & result & _ & _ & _ & _ & ->)%transferCLImageToHost_Return.
  split; reflexivity.
Qed.

Lemma transferCLImageFromHost_flags (d : nat) (i i' : Image2D) :
  transferCLImageFromHost d i = Return tt i' ->
  mHostDataIsUpToDate i' = mHostDataIsUpToDate i /\
  mCLImagesIsUpToDate i' = mCLImagesIsUpToDate i.
Proof.
  intros (image & format & host & result & _ & _ & _ & _ & ->)%transferCLImageFromHost_Return.
  split; reflexivity.
Qed.

Lemma updateHostData_flags (i i' : Image2D) :
  updateHostData i = Return tt i' ->
  mHostDataIsUpToDate i' = mHostDataIsUpToDate i /\
  mCLImagesIsUpToDate i' = mCLImagesIsUpToDate i.
Proof.
  unfold updateHostData. unfold_monad.
  destruct (mHostDataIsUpToDate i) eqn:Hhost; [intros [= <-]; auto|].
  destruct (mHostHasData i); simpl;
    (case_bool_decide; [|intros [= <-]; auto]);
    (destruct (first_true _) as [src|]; [|discriminate]);
    intros [H1 H2]%transferCLImageToHost_flags; simpl in *; split; congruence.
Qed.

Lemma updateOpenCLImageData_grows (d : nat) (i i' : Image2D) (loc : ExecutionDevice) :
  updateOpenCLImageData d i = Return tt i' -> upToDateAt i loc -> upToDateAt i' loc.
Proof.
  unfold updateOpenCLImageData. unfold_monad.
  case_bool_decide as Hd; [intros [= <-]; auto|].
  case_bool_decide as Hnew; simpl.
  - destruct (mHostDataIsUpToDate i) eqn:Hhost.
    + intros [H1 H2]%transferCLImageFromHost_flags Hloc. simpl in *.
      destruct loc as [|d']; simpl in *; [congruence|]. rewrite H2.
      destruct (decide (d = d')) as [->|Hne]; [congruence|].
      rewrite lookup_insert_ne by exact Hne. exact Hloc.
    + destruct (first_true _) as [src|]; [|discriminate].
      match goal with |- context [transferCLImageToHost src ?s] =>
        destruct (transferCLImageToHost src s) as [[] i1| |] eqn:E1 end; try discriminate.
      destruct (transferCLImageFromHost d i1) as [[] i2| |] eqn:E2; try discriminate.
      intros [= <-] Hloc.
      apply transferCLImageToHost_flags in E1 as [_ H1].
      apply transferCLImageFromHost_flags in E2 as [_ H2]. simpl in *.
      destruct loc as [|d']; simpl in *; [reflexivity|]. rewrite H2, H1.
      destruct (decide (d = d')) as [->|Hne]; [congruence|].
      rewrite lookup_insert_ne by exact Hne. exact Hloc.
  - destruct (mHostDataIsUpToDate i) eqn:Hhost.
    + intros [H1 H2]%transferCLImageFromHost_flags Hloc.
      destruct loc; simpl in *; congruence.
    + destruct (first_true _) as [src|]; [|discriminate].
      destruct (transferCLImageToHost src i) as [[] i1| |] eqn:E1; try discriminate.
      destruct (transferCLImageFromHost d i1) as [[] i2| |] eqn:E2; try discriminate.
      intros [= <-] Hloc.
      apply transferCLImageToHost_flags in E1 as [_ H1].
      apply transferCLImageFromHost_flags in E2 as [_ H2].
      destruct loc; simpl in *; congruence.
Qed.

Lemma upToDateAt_index (d : nat) (i : Image2D) (loc : ExecutionDevice) :
  upToDateAt (index_mCLImagesAccess d (index_mCLImages d i)) loc <-> upToDateAt i loc.
Proof.
  unfold index_mCLImagesAccess, index_mCLImages.
  destruct (mCLImages i !! d); simpl;
    destruct (mCLImagesAccess i !! d); simpl; destruct loc; reflexivity.
Qed.

(** Once some location is up to date, every access request and every
    release leaves some location up to date, whether the request is
    granted or refused. *)
Lemma acquireAccess_keeps_someUpToDate (i : Image2D) (target : ExecutionDevice)
    (mode : accessType) :
  someUpToDate i ->
  match acquireAccess target mode i with
  | Return _ i' => someUpToDate i'
  | Throw _ i' => someUpToDate i'
  | Undefined => True
  end.
Proof.
  intros [loc Hloc]. destruct mode, target as [|d]; unfold acquireAccess, bind.
  - rewrite getImageAccess_read.
    destruct (updateHostData i) as [[] i1|what i1|] eqn:E; [| |exact I].
    + apply updateHostData_flags in E as [H1 H2]. exists loc.
      destruct loc; simpl in *; congruence.
    + apply updateHostData_throws in E as (_ & Hnone & _).
      destruct Hnone. exists loc. exact Hloc.
  - rewrite getOpenCLImageAccess_read.
    destruct (updateOpenCLImageData d _) as [[] i1|what i1|] eqn:E; [| |exact I].
    + exists loc. apply upToDateAt_index.
      apply (updateOpenCLImageData_grows _ _ _ loc) in E; [exact E|].
      destruct loc; exact Hloc.
    + apply updateOpenCLImageData_throws in E as (_ & _ & _ & ->).
      exists loc. destruct loc; exact Hloc.
  - rewrite getImageAccess_write. destruct (isAnyDataBeingAccessed i).
    + exists loc. exact Hloc.
    + exists Host. apply upToDateAt_written_at_host. reflexivity.
  - rewrite getOpenCLImageAccess_write. destruct (isAnyDataBeingAccessed i).
    + exists loc. exact Hloc.
    + exists (OpenCLDevice d). apply upToDateAt_written_at_device. reflexivity.
Qed.

Lemma releaseAccess_keeps_someUpToDate (i : Image2D) (a : accessor) :
  someUpToDate i -> someUpToDate (state_after (releaseAccess a i) i).
Proof. intros [loc Hloc]. exists loc. destruct a, loc; exact Hloc. Qed.

(** From a state with some location up to date, every run of access
    requests and releases, granted or refused, keeps some location up to
    date after every call. *)
Lemma calls_keep_someUpToDate (calls : list call) (i i' : Image2D) :
  someUpToDate i -> calls_state calls i = Some i' -> someUpToDate i'.
Proof.
  revert i. induction calls as [|c calls IH]; intros i Hup; simpl.
  - intros [= <-]. exact Hup.
  - destruct (call_state c i) as [i1|] eqn:E; [|discriminate].
    apply IH. destruct c as [target mode|a]; simpl in E.
    + pose proof (acquireAccess_keeps_someUpToDate i target mode Hup) as H.
      destruct (acquireAccess target mode i); try discriminate;
        injection E as <-; exact H.
    + pose proof (releaseAccess_keeps_someUpToDate i a Hup) as H.
      destruct a; simpl in *; injection E as <-; exact H.
Qed.

(** [createImage] on a device, and [createImage] with data on the host or
    on a device, mark the location they create up to date. *)
Lemma createImage_device_up_to_date width height type nrOfComponents d
    (i i' : Image2D) :
  createImage width height type nrOfComponents (OpenCLDevice d) i = Return tt i' ->
  upToDateAt i' (OpenCLDevice d).
Proof.
  unfold createImage. unfold_monad.
  destruct (isInitialized i); [discriminate|].
  intros [= <-]. simpl. apply lookup_insert_eq.
Qed.

Lemma createImage_data_up_to_date width height type nrOfComponents device data
    (i i' : Image2D) :
  createImage_data width height type nrOfComponents device data i = Return tt i' ->
  upToDateAt i' device.
Proof.
  unfold createImage_data. unfold_monad.
  destruct (isInitialized i); [discriminate|]. simpl.
  destruct device as [|d].
  - destruct (mHostData _); simpl; [|discriminate].
    destruct (copyBytes _ _ _ _ _); simpl; [|discriminate]. intros [= <-]. reflexivity.
  - case_bool_decide; simpl; [|discriminate]. intros [= <-]. simpl.
    apply lookup_insert_eq.
Qed.

(** A read at a device whose copy is stale, with the host up to date,
    moves the region from the host array into the device image, in the
    format of the image, and hands that image to the accessor. Where the
    image has one channel of the element type of the host array, the region
    of the image is a copy of the region of the host array. *)
Lemma read_at_device_copies_host (d : nat) (i i' : Image2D)
    (a : OpenCLImageAccess2D) (host : list cell) :
  mHostDataIsUpToDate i = true -> mHostData i = Some host ->
  mCLImagesIsUpToDate i !! d <> Some true ->
  getOpenCLImageAccess ACCESS_READ d i = Return a i' ->
  exists image format old,
    mCLImages i' !! d = Some (Some image) /\
    cl_access_image a = Some image /\
    mCLImageFormats i' !! d = Some format /\
    copyBytes (mHostDataType i) (channelType format)
      (regionSize i * pixelSize format) host old = Some image /\
    (mHostDataType i = channelType format -> channels format = 1 ->
     take (regionSize i) image = take (regionSize i) host).
Proof.
  intros Hup Hhost Hstale. rewrite getOpenCLImageAccess_read.
  destruct (updateOpenCLImageData d _) as [[] i1| |] eqn:E; try discriminate.
  intros [= <- <-].
  assert (exists image format old,
            mCLImages i1 !! d = Some (Some image) /\
            mCLImageFormats i1 !! d = Some format /\
            copyBytes (mHostDataType i) (channelType format)
              (regionSize i * pixelSize format) host old = Some image)
    as (image & format & old & Himage & Hformat & Hcopy).
  { revert E. unfold updateOpenCLImageData. unfold_monad. simpl.
    rewrite bool_decide_eq_false_2 by exact Hstale.
    case_bool_decide; simpl; rewrite Hup;
      intros (old & format & host' & image & Hold & Hformat & Hhost' & Hcopy & ->)
        %transferCLImageFromHost_Return;
      simpl in *; rewrite Hhost in Hhost'; injection Hhost' as <-;
      exists image, format, old; rewrite lookup_insert_eq; auto. }
  exists image, format, old.
  assert (mCLImages (index_mCLImagesAccess d (index_mCLImages d i1)) !! d
          = Some (Some image) /\
          mCLImageFormats (index_mCLImagesAccess d (index_mCLImages d i1)) !! d
          = Some format) as [Himage' Hformat'].
  { unfold index_mCLImagesAccess, index_mCLImages. rewrite Himage.
    destruct (mCLImagesAccess i1 !! d); simpl; auto. }
  rewrite Himage'. simpl. repeat (split; [auto; fail|]).
  intros Htype Hone. revert Hcopy. unfold pixelSize. rewrite Hone, <- Htype. simpl.
  rewrite Nat.add_0_r. intros Hcopy.
  pose proof (copyBytes_bounds _ _ _ _ _ _ Hcopy) as [Hs Ht].
  pose proof (sizeOf_pos (mHostDataType i)) as Hpos.
  rewrite copyBytes_same in Hcopy by nia. injection Hcopy as <-.
  rewrite take_app_le by (rewrite length_take; nia).
  rewrite take_take. f_equal. lia.
Qed.

(** A read at the host leaves the host's up-to-date flag and its
    being-accessed flag as they were, whatever it transfers. *)
Lemma host_read_marks_nothing (i i' : Image2D) (a : ImageAccess2D) :
  getImageAccess ACCESS_READ i = Return a i' ->
  mHostDataIsUpToDate i' = mHostDataIsUpToDate i /\
  mHostDataIsBeingAccessed i' = mHostDataIsBeingAccessed i.
Proof.
  rewrite getImageAccess_read.
  destruct (updateHostData i) as [[] i1| |] eqn:E; try discriminate.
  intros [= _ <-]. split; [apply (updateHostData_flags _ _ E)|].
  revert E. unfold updateHostData. unfold_monad.
  destruct (mHostDataIsUpToDate i); [intros [= <-]; reflexivity|].
  destruct (mHostHasData i); simpl;
    (case_bool_decide; [|intros [= <-]; reflexivity]);
    (destruct (first_true _) as [src|]; [|discriminate]);
    intros (image & format & host & result & _ & _ & _ & _ & ->)
      %transferCLImageToHost_Return; reflexivity.
Qed.

(** A read at a device whose entry exists and is stale leaves the entry
    stale. *)
Lemma device_read_leaves_entry_stale (d : nat) (i i' : Image2D)
    (a : OpenCLImageAccess2D) :
  mCLImagesIsUpToDate i !! d = Some false ->
  getOpenCLImageAccess ACCESS_READ d i = Return a i' ->
  mCLImagesIsUpToDate i' !! d = Some false.
Proof.
  intros Hstale. rewrite getOpenCLImageAccess_read.
  destruct (updateOpenCLImageData d _) as [[] i1| |] eqn:E; try discriminate.
  intros [= _ <-].
  assert (mCLImagesIsUpToDate i1 = mCLImagesIsUpToDate i) as Hsame.
  { revert E. unfold updateOpenCLImageData. unfold_monad. simpl.
    rewrite Hstale.
    rewrite bool_decide_eq_false_2 by discriminate.
    rewrite bool_decide_eq_false_2 by discriminate. simpl.
    destruct (mHostDataIsUpToDate i).
    - intros [_ H]%transferCLImageFromHost_flags. exact H.
    - destruct (first_true _) as [src|]; [|discriminate].
      match goal with |- context [transferCLImageToHost src ?s] =>
        destruct (transferCLImageToHost src s) as [[] i2| |] eqn:E1 end;
        try discriminate.
      destruct (transferCLImageFromHost d i2) as [[] i3| |] eqn:E2; try discriminate.
      intros [= <-].
      apply transferCLImageToHost_flags in E1 as [_ H1].
      apply transferCLImageFromHost_flags in E2 as [_ H2]. simpl in *. congruence. }
  unfold index_mCLImagesAccess, index_mCLImages.
  destruct (mCLImages i1 !! d); simpl;
    destruct (mCLImagesAccess i1 !! d); simpl; rewrite ?Hsame; try exact Hstale;
    destruct (_ !! d); simpl; rewrite ?Hsame; exact Hstale.
Qed.

(* ===================================================================== *)
(** ** The access protocol of [Image2D] *)
(* ===================================================================== *)

(** C2. A request for read-write access, at the host or at any device,
    while some location of the image is being accessed throws the
    concurrent-access exception and leaves the image as it was. With no
    location being accessed it returns an accessor, and afterwards the
    target is the one location marked up to date and the one location
    marked as being accessed. *)
Theorem ReadWrite_is_exclusive (i : Image2D) (target : ExecutionDevice) :
  (someLocked i ->
     acquireAccess target ACCESS_READ_WRITE i = Throw concurrent_access_message i) /\
  (~ someLocked i ->
     exists a i',
       acquireAccess target ACCESS_READ_WRITE i = Return a i' /\
       (forall loc, upToDateAt i' loc <-> loc = target) /\
       (forall loc, lockedAt i' loc <-> loc = target)).
Proof.
  split.
  - intros H%isAnyDataBeingAccessed_true.
    destruct target as [|d]; unfold acquireAccess, bind.
    + rewrite getImageAccess_write, H. reflexivity.
    + rewrite getOpenCLImageAccess_write, H. reflexivity.
  - intros Hfree. pose proof Hfree as H%isAnyDataBeingAccessed_false.
    destruct target as [|d]; unfold acquireAccess, bind.
    + rewrite getImageAccess_write, H. eexists _, _. split; [reflexivity|]. split.
      * apply upToDateAt_written_at_host.
      * intros loc. apply lockedAt_written_at_host, Hfree.
    + rewrite getOpenCLImageAccess_write, H. eexists _, _. split; [reflexivity|]. split.
      * apply upToDateAt_written_at_device.
      * intros loc. apply lockedAt_written_at_device, Hfree.
Qed.

(** An image locked at the host and an image with no lock, for the
    statement above. *)
Lemma ReadWrite_is_exclusive_witness :
  acquireAccess (OpenCLDevice 0) ACCESS_READ_WRITE (written_at_host created_on_host)
  = Throw concurrent_access_message (written_at_host created_on_host) /\
  exists a i',
    acquireAccess (OpenCLDevice 0) ACCESS_READ_WRITE created_on_host = Return a i' /\
    (forall loc, upToDateAt i' loc <-> loc = OpenCLDevice 0) /\
    (forall loc, lockedAt i' loc <-> loc = OpenCLDevice 0).
Proof.
  split.
  - apply (proj1 (ReadWrite_is_exclusive (written_at_host created_on_host)
                    (OpenCLDevice 0))).
    exists Host. reflexivity.
  - apply (proj2 (ReadWrite_is_exclusive created_on_host (OpenCLDevice 0))).
    intros [loc Hloc]. destruct loc; vm_compute in Hloc; discriminate Hloc.
Defined.

(** C10. A device that has no entry in [mCLImages] and is asked for
    read-write access: [getOpenCLImageAccess] sets the device's up-to-date
    flag before it calls [updateOpenCLImageData], which therefore returns at
    its first test without allocating. The call either is refused because
    some location is being accessed (nothing changes), or returns an
    accessor whose image pointer is null, the null pointer being the one
    [operator[]] inserted; the log of allocations and transfers is
    unchanged. *)
Theorem first_write_at_device_gets_null_image (i : Image2D) (d : nat) :
  mCLImages i !! d = None ->
  (forall j, mCLImagesIsUpToDate j !! d = Some true ->
             updateOpenCLImageData d j = Return tt j) /\
  match getOpenCLImageAccess ACCESS_READ_WRITE d i with
  | Return a i' =>
      ~ someLocked i /\
      cl_access_image a = None /\
      mCLImages i' !! d = Some None /\
      mCLImagesIsUpToDate i' !! d = Some true /\
      mEvents i' = mEvents i
  | Throw what i' => someLocked i /\ what = concurrent_access_message /\ i' = i
  | Undefined => False
  end.
Proof.
  intros Hnone. split; [intros j; apply updateOpenCLImageData_up_to_date|].
  rewrite getOpenCLImageAccess_write.
  destruct (isAnyDataBeingAccessed i) eqn:Hacc.
  - split; [apply isAnyDataBeingAccessed_true, Hacc|]. split; reflexivity.
  - split; [apply isAnyDataBeingAccessed_false, Hacc|].
    simpl. rewrite Hnone. split; [reflexivity|].
    unfold written_at_device, index_mCLImagesAccess, index_mCLImages. simpl.
    rewrite Hnone. simpl. rewrite !lookup_insert_eq. simpl.
    rewrite !lookup_insert_eq. repeat split.
Qed.

(** An image with one untouched device and no location in use, for the
    statement above. *)
Lemma first_write_at_device_gets_null_image_witness :
  exists i',
    getOpenCLImageAccess ACCESS_READ_WRITE 0 Image2D_new
    = Return (mkOpenCLImageAccess2D 0 None) i' /\
    mCLImages i' !! 0%nat = Some None.
Proof.
  pose proof (first_write_at_device_gets_null_image Image2D_new 0 eq_refl) as [_ H].
  destruct (getOpenCLImageAccess ACCESS_READ_WRITE 0 Image2D_new) as [[d a] i'| |] eqn:E.
  - exists i'. destruct H as (_ & Ha & Hi & _). simpl in Ha. subst a.
    split; [|exact Hi].
    vm_compute in E. injection E as <- _. reflexivity.
  - destruct H as ([loc Hloc] & _). destruct loc; discriminate Hloc.
  - destruct H.
Defined.



(** C1 at the failing input: [createImage] without data on the host
    initialises the object and marks no location up to date; a read at the
    host and its release succeed and still leave no location up to date. *)
Theorem created_on_host_nothing_up_to_date :
  createImage 4 4 TYPE_FLOAT 1 Host Image2D_new = Return tt created_on_host /\
  isInitialized created_on_host = true /\
  ~ someUpToDate created_on_host /\
  exists a i',
    acquireAccess Host ACCESS_READ created_on_host = Return a i' /\
    ~ someUpToDate i' /\
    exists i'', releaseAccess a i' = Return tt i'' /\ ~ someUpToDate i''.
Proof.
  split; [vm_compute; reflexivity|]. split; [vm_compute; reflexivity|].
  split; [apply not_someUpToDate; split; vm_compute; reflexivity|].
  eexists _, _. split; [vm_compute; reflexivity|].
  split; [apply not_someUpToDate; split; vm_compute; reflexivity|].
  eexists. split; [vm_compute; reflexivity|].
  apply not_someUpToDate; split; vm_compute; reflexivity.
Qed.

(** C4 at two failing inputs. A read at the host of an image that is up to
    date on device 0 only: the device image is read back, and the host is
    then neither marked up to date nor locked. A read at device 0 of an
    image whose device copy is stale and whose host copy is up to date: the
    host data is written to the device, the device is locked, and the
    device is still not marked up to date. *)
Theorem read_leaves_target_stale :
  (upToDateAt created_on_device (OpenCLDevice 0) /\
   ~ upToDateAt created_on_device Host /\
   exists a i',
     acquireAccess Host ACCESS_READ created_on_device = Return a i' /\
     mEvents i' = mEvents created_on_device
                    ++ [NewHostArray 16; EnqueueReadImage 0] /\
     ~ upToDateAt i' Host /\ ~ lockedAt i' Host) /\
  (upToDateAt stale_on_device Host /\
   mCLImagesIsUpToDate stale_on_device !! 0%nat = Some false /\
   exists a i',
     acquireAccess (OpenCLDevice 0) ACCESS_READ stale_on_device = Return a i' /\
     mEvents i' = mEvents stale_on_device ++ [EnqueueWriteImage 0] /\
     mCLImagesIsUpToDate i' !! 0%nat = Some false /\
     lockedAt i' (OpenCLDevice 0)).
Proof.
  split.
  - split; [vm_compute; reflexivity|]. split; [vm_compute; discriminate|].
    eexists _, _. split; [vm_compute; reflexivity|].
    split; [vm_compute; reflexivity|]. split; vm_compute; discriminate.
  - split; [vm_compute; reflexivity|]. split; [vm_compute; reflexivity|].
    eexists _, _. split; [vm_compute; reflexivity|].
    split; [vm_compute; reflexivity|]. split; vm_compute; reflexivity.
Qed.

(* ===================================================================== *)
(** ** The smoothing stage *)
(* ===================================================================== *)

(** C8. [setMaskSize] with an even size and [setStandardDeviation] with a
    value that is zero or negative throw, and the stage and everything it
    refers to are exactly as before the call: parameters, modified flag,
    mask and kernel caches. *)
Theorem setters_reject_bad_arguments (w : World) :
  (forall maskSize : Z,
      Z.even maskSize = true -> setMaskSize maskSize w = Throw mask_size_message w) /\
  (forall stdDev : spec_float,
      nonpositive stdDev -> setStandardDeviation stdDev w = Throw std_dev_message w).
Proof.
  split.
  - intros maskSize Heven. unfold setMaskSize.
    apply Z.even_spec in Heven as [k ->].
    rewrite bool_decide_eq_true_2; [reflexivity|].
    rewrite Z.mul_comm, Z.rem_mul by lia. lia.
  - intros stdDev Hle. unfold setStandardDeviation.
    destruct stdDev as [s|s| |s m e]; simpl in Hle; subst; try destruct s;
      try reflexivity; destruct Hle.
Qed.

Lemma setters_reject_bad_arguments_witness :
  setMaskSize 4 (World_new Host) = Throw mask_size_message (World_new Host) /\
  setStandardDeviation (S754_zero false) (World_new Host)
  = Throw std_dev_message (World_new Host).
Proof.
  split.
  - apply (proj1 (setters_reject_bad_arguments (World_new Host)) 4). reflexivity.
  - apply (proj2 (setters_reject_bad_arguments (World_new Host)) (S754_zero false)).
    exact I.
Defined.

Lemma unshare_one_absent (q p : nat) (h : gmap nat ImageData) :
  h !! p = None -> unshare_one q h !! p = None.
Proof.
  intros Hp. unfold unshare_one. destruct (h !! q) as [o|] eqn:Hq; [|exact Hp].
  assert (q <> p) as Hne by congruence.
  destruct (use_count o) as [|[|n]].
  - rewrite lookup_delete_ne by exact Hne. exact Hp.
  - rewrite lookup_delete_ne by exact Hne. exact Hp.
  - rewrite lookup_insert_ne by exact Hne. exact Hp.
Qed.

(** When the last owner of an object lets go of its pointer, every weak
    pointer to the object stops resolving. *)
Lemma reset_last_owner_expires (p : nat) (o : ImageData) (w w' : World) :
  heap w !! p = Some o -> (use_count o <= 1)%nat ->
  reset (Some p) w = Return tt w' -> lock (Some p) w' = None.
Proof.
  intros Hp Hcount. unfold reset, unshare. rewrite Hp.
  assert (unshare_one p (heap w) !! p = None) as Hgone.
  { unfold unshare_one. rewrite Hp.
    destruct (use_count o) as [|[|n]]; [apply lookup_delete_eq ..|lia]. }
  assert (forall frames, foldr unshare_one (unshare_one p (heap w)) frames !! p = None)
    as Hfold.
  { induction frames as [|q frames IH]; simpl; [exact Hgone|].
    apply unshare_one_absent, IH. }
  unfold lock.
  destruct (use_count o) as [|[|n]]; [| |lia];
    (destruct (payload o);
      intros [= <-]; simpl; rewrite ?Hfold, ?Hgone;
      rewrite bool_decide_eq_false_2 by (intros [? ?]; discriminate);
      reflexivity).
Qed.

(** C7 fails on the code where it says that [getOutput] fails when nobody
    retained the output: after the output was fetched once and discarded,
    the weak pointer no longer resolves, and [getOutput] returns a null
    pointer; nothing is thrown. *)
Lemma getOutput_expired_returns_null :
  mInput (stage discarded_world) = Some 0%nat /\
  mTempOutput (stage discarded_world) = None /\
  mOutput (stage discarded_world) = Some 1%nat /\
  lock (mOutput (stage discarded_world)) discarded_world = None /\
  getOutput discarded_world = Return None discarded_world /\
  ~ exists what w', getOutput discarded_world = Throw what w'.
Proof.
  assert (getOutput discarded_world = Return None discarded_world) as H
    by (vm_compute; reflexivity).
  do 4 (split; [vm_compute; reflexivity|]). split; [exact H|].
  intros (what & w' & Hthrow). rewrite H in Hthrow. discriminate Hthrow.
Qed.

(** C7, as amended. Without an input [getOutput] throws and changes
    nothing. With an input, while the stage still owns the placeholder
    [mTempOutput], the call returns that pointer and the stage's own
    pointer becomes null: the object keeps its owner count, the caller is
    now the owner, and the stage keeps the weak [mOutput] only. Afterwards
    the call returns what [mOutput] resolves to: a further owning pointer
    to the same object while somebody retains it, and a null pointer, with
    nothing changed, once nobody does. *)
Theorem getOutput_hands_over_once (w : World) :
  (mInput (stage w) = None -> getOutput w = Throw not_wired_message w) /\
  (forall p o,
      mInput (stage w) <> None -> mTempOutput (stage w) = Some p ->
      heap w !! p = Some o ->
      getOutput w = Return (Some p) (handed_over p o w) /\
      mTempOutput (stage (handed_over p o w)) = None /\
      mOutput (stage (handed_over p o w)) = mOutput (stage w) /\
      use_count <$> heap (handed_over p o w) !! p = Some (use_count o)) /\
  (mInput (stage w) <> None -> mTempOutput (stage w) = None ->
   match lock (mOutput (stage w)) w with
   | Some p =>
       mOutput (stage w) = Some p /\
       getOutput w = Return (Some p) (locked_output w) /\
       stage (locked_output w) = stage w /\
       use_count <$> heap (locked_output w) !! p
       = S <$> (use_count <$> heap w !! p)
   | None => getOutput w = Return None w
   end).
Proof.
  split; [|split].
  - intros Hin. unfold getOutput. unfold_monad. rewrite Hin. reflexivity.
  - intros p o Hin Htemp Hp. unfold getOutput. unfold_monad.
    rewrite bool_decide_eq_false_2 by exact Hin. rewrite Htemp.
    unfold onObject, modifyStage, modify. rewrite Hp. simpl.
    split; [reflexivity|]. split; [reflexivity|]. split; [reflexivity|].
    unfold handed_over. simpl. rewrite lookup_insert_eq. reflexivity.
  - intros Hin Htemp. unfold getOutput. unfold_monad.
    rewrite bool_decide_eq_false_2 by exact Hin. rewrite Htemp.
    unfold locked_output.
    destruct (lock (mOutput (stage w)) w) as [p|] eqn:Hlock; [|reflexivity].
    unfold lock in Hlock. destruct (mOutput (stage w)) as [q|]; [|discriminate].
    case_bool_decide as Halive; [|discriminate]. injection Hlock as ->.
    destruct Halive as [o Ho]. split; [reflexivity|].
    unfold share, onObject, modify. rewrite Ho. simpl.
    split; [reflexivity|]. split; [reflexivity|].
    rewrite lookup_insert_eq. reflexivity.
Qed.

Lemma getOutput_hands_over_once_witness :
  getOutput (World_new Host) = Throw not_wired_message (World_new Host) /\
  (exists o, getOutput wired_world = Return (Some 1%nat) (handed_over 1 o wired_world)) /\
  getOutput discarded_world = Return None discarded_world.
Proof.
  split; [|split].
  - apply (proj1 (getOutput_hands_over_once (World_new Host))). reflexivity.
  - eexists.
    apply (proj1 (proj2 (getOutput_hands_over_once wired_world)) 1%nat).
    + vm_compute. discriminate.
    + vm_compute. reflexivity.
    + vm_compute. reflexivity.
  - apply (proj2 (proj2 (getOutput_hands_over_once discarded_world))).
    + vm_compute. discriminate.
    + vm_compute. reflexivity.
Defined.

Section StageFacts.

Variable expf : spec_float -> spec_float.
Variable FAST_ROOT_DIR : string.
Variable getDepth : Image2D -> Z.
Variable create3DImage :
  Z -> Z -> Z -> DataType -> Z -> ExecutionDevice -> M Image2D unit.
Variable getOpenCLImageAccess3D : accessType -> nat -> M Image2D OpenCLImageAccess2D.

(** C5. When the weak pointer [mOutput] does not resolve, [execute] leaves
    the whole world as it was: the stage with its mask, kernel and flags,
    every data object with its buffers, timestamp and retain counts, and
    the log of device requests. With an input it returns; without one it
    throws, as it does before it looks at the output. *)
Theorem execute_skips_unreferenced_output (w : World) :
  lock (mOutput (stage w)) w = None ->
  execute expf FAST_ROOT_DIR getDepth create3DImage getOpenCLImageAccess3D w
  = match mInput (stage w) with
    | Some _ => Return tt w
    | None => Throw no_input_message w
    end.
Proof.
  intros Hlock. unfold execute. unfold_monad.
  destruct (mInput (stage w)); [|reflexivity].
  rewrite Hlock. reflexivity.
Qed.

End StageFacts.

Lemma execute_skips_unreferenced_output_witness :
  execute (fun _ => S754_nan) "" (fun _ => 1)
    (fun _ _ _ _ _ _ => undefined) (fun _ _ => undefined) discarded_world
  = Return tt discarded_world.
Proof.
  apply (execute_skips_unreferenced_output (fun _ => S754_nan) "" (fun _ => 1)
           (fun _ _ _ _ _ _ => undefined) (fun _ _ => undefined) discarded_world).
  vm_compute. reflexivity.
Defined.

(* ===================================================================== *)
(** ** The stage depends on [exp] only through its values *)
(* ===================================================================== *)

Lemma bind_congr {S A B} (m : M S A) (k1 k2 : A -> M S B) (s : S) :
  (forall a s', k1 a s' = k2 a s') -> bind m k1 s = bind m k2 s.
Proof. intros H. unfold bind. destruct (m s); [apply H|reflexivity|reflexivity]. Qed.

Lemma bind_congr_l {S A B} (m1 m2 : M S A) (k : A -> M S B) (s : S) :
  m1 s = m2 s -> bind m1 k s = bind m2 k s.
Proof. intros H. unfold bind. rewrite H. reflexivity. Qed.

Lemma for_fold_ext {S I A} (l : list I) (b1 b2 : I -> A -> M S A) :
  (forall i a s, b1 i a s = b2 i a s) ->
  forall a s, for_fold l b1 a s = for_fold l b2 a s.
Proof.
  intros H. induction l as [|i l IH]; intros a s; simpl; [reflexivity|].
  unfold bind. rewrite H. destruct (b2 i a s); [apply IH|reflexivity|reflexivity].
Qed.

Section Extensionality.

Variables f g : spec_float -> spec_float.
Hypothesis f_g : forall x, f x = g x.

Lemma fillMask2D_ext (maskSize halfSize : Z) (stdDev : spec_float) (w : World) :
  fillMask2D f maskSize halfSize stdDev w = fillMask2D g maskSize halfSize stdDev w.
Proof.
  unfold fillMask2D. apply for_fold_ext. intros x sum s.
  apply for_fold_ext. intros y sum' s'.
  unfold gaussian. rewrite f_g. reflexivity.
Qed.

Lemma fillMask3D_ext (maskSize halfSize : Z) (stdDev : spec_float) (w : World) :
  fillMask3D f maskSize halfSize stdDev w = fillMask3D g maskSize halfSize stdDev w.
Proof.
  unfold fillMask3D. apply for_fold_ext. intros x sum s.
  apply for_fold_ext. intros y sum' s'.
  apply for_fold_ext. intros z sum'' s''.
  unfold gaussian. rewrite f_g. reflexivity.
Qed.

Lemma createMask_ext (input : nat) (w : World) :
  createMask f input w = createMask g input w.
Proof.
  unfold createMask. apply bind_congr. intros w1 s1.
  destruct (negb (mRecreateMask (stage w1))); [reflexivity|].
  apply bind_congr. intros image s2. apply bind_congr_l.
  repeat case_bool_decide; try reflexivity.
  - do 2 (apply bind_congr; intros). apply bind_congr_l, fillMask2D_ext.
  - do 2 (apply bind_congr; intros). apply bind_congr_l, fillMask3D_ext.
Qed.

Lemma execute_ext (root : string) (getDepth : Image2D -> Z)
    (create3DImage : Z -> Z -> Z -> DataType -> Z -> ExecutionDevice -> M Image2D unit)
    (getOpenCLImageAccess3D : accessType -> nat -> M Image2D OpenCLImageAccess2D)
    (w : World) :
  execute f root getDepth create3DImage getOpenCLImageAccess3D w
  = execute g root getDepth create3DImage getOpenCLImageAccess3D w.
Proof.
  unfold execute. apply bind_congr. intros w1 s1.
  destruct (mInput (stage w1)); [|reflexivity].
  destruct (lock (mOutput (stage w1)) w1); [|reflexivity].
  do 5 (apply bind_congr; intros). apply bind_congr_l, createMask_ext.
Qed.

End Extensionality.

Section SmoothingExample.

Variable expf : spec_float -> spec_float.
Variable FAST_ROOT_DIR : string.
Variable getDepth : Image2D -> Z.
Variable create3DImage :
  Z -> Z -> Z -> DataType -> Z -> ExecutionDevice -> M Image2D unit.
Variable getOpenCLImageAccess3D : accessType -> nat -> M Image2D OpenCLImageAccess2D.

(** [exp] is exact at zero and rounds to nearest at -0.5 and -1.0. *)
Hypothesis exp_minus_zero_correct : expf minus_zero = F32.one.
Hypothesis exp_minus_half_correct : expf minus_half = exp_minus_half.
Hypothesis exp_minus_one_correct : expf minus_one = exp_minus_one.

(** With standard deviation 1.0 the weights of a 3x3 mask are [exp] at
    -0.0 (centre), -0.5 (edges) and -1.0 (corners). *)
Lemma gaussian_arguments :
  gaussian expf 0 F32.one = expf minus_zero /\
  gaussian expf 1 F32.one = expf minus_half /\
  gaussian expf 2 F32.one = expf minus_one.
Proof. repeat split. Qed.

Lemma expf_tabulated (x : spec_float) : expf x = tabulated expf x.
Proof.
  unfold tabulated. repeat case_decide; subst; auto.
Qed.


End SmoothingExample.


(* ===================================================================== *)
(** ** The mask cache and the kernel cache *)
(* ===================================================================== *)

Lemma same_except_mask_refl (w : World) : same_except_mask w w.
Proof. repeat split. Qed.

Lemma same_except_mask_trans (w1 w2 w3 : World) :
  same_except_mask w1 w2 -> same_except_mask w2 w3 -> same_except_mask w1 w3.
Proof.
  intros (A1 & B1 & C1 & D1 & E1) (A2 & B2 & C2 & D2 & E2).
  repeat split; congruence.
Qed.

Lemma for_fold_preserves {S I A} (R : S -> S -> Prop) (l : list I)
    (body : I -> A -> M S A) :
  (forall s, R s s) ->
  (forall s1 s2 s3, R s1 s2 -> R s2 s3 -> R s1 s3) ->
  (forall i a s a' s', body i a s = Return a' s' -> R s s') ->
  forall a s a' s', for_fold l body a s = Return a' s' -> R s s'.
Proof.
  intros Hrefl Htrans Hbody. induction l as [|i l IH]; intros a s a' s'; simpl.
  - intros [= _ <-]. apply Hrefl.
  - unfold bind. destruct (body i a s) as [a1 s1| |] eqn:E; try discriminate.
    intros H. eapply Htrans; [eapply Hbody, E | eapply IH, H].
Qed.

Lemma for_each_preserves {S I} (R : S -> S -> Prop) (l : list I)
    (body : I -> M S unit) :
  (forall s, R s s) ->
  (forall s1 s2 s3, R s1 s2 -> R s2 s3 -> R s1 s3) ->
  (forall i s s', body i s = Return tt s' -> R s s') ->
  forall s s', for_each l body s = Return tt s' -> R s s'.
Proof.
  intros Hrefl Htrans Hbody. induction l as [|i l IH]; intros s s'; simpl.
  - intros [= <-]. apply Hrefl.
  - unfold bind. destruct (body i s) as [[] s1| |] eqn:E; try discriminate.
    intros H. eapply Htrans; [eapply Hbody, E | eapply IH, H].
Qed.

Lemma storeMask_same_except_mask (index : Z) (value : spec_float) (w w' : World) :
  storeMask index value w = Return tt w' -> same_except_mask w w'.
Proof.
  unfold storeMask. unfold_monad.
  destruct (write_cell _ _ _); [|discriminate].
  intros [= <-]. repeat split.
Qed.

Lemma bind_Return_inv {S A B} (m : M S A) (k : A -> M S B) (s s' : S) (b : B) :
  bind m k s = Return b s' -> exists a s1, m s = Return a s1 /\ k a s1 = Return b s'.
Proof.
  unfold bind. destruct (m s) as [a s1| |]; try discriminate. eauto.
Qed.

Section CacheFacts.

Variable expf : spec_float -> spec_float.
Variable FAST_ROOT_DIR : string.

Lemma fillMask2D_same_except_mask maskSize halfSize stdDev (w w' : World) sum :
  fillMask2D expf maskSize halfSize stdDev w = Return sum w' -> same_except_mask w w'.
Proof.
  unfold fillMask2D.
  apply for_fold_preserves;
    [apply same_except_mask_refl | apply same_except_mask_trans|].
  intros x a s a' s'.
  apply for_fold_preserves;
    [apply same_except_mask_refl | apply same_except_mask_trans|].
  intros y b t b' t'. unfold bind.
  destruct (storeMask _ _ t) as [[] t1| |] eqn:E; try discriminate.
  intros [= _ <-]. eapply storeMask_same_except_mask, E.
Qed.

Lemma fillMask3D_same_except_mask maskSize halfSize stdDev (w w' : World) sum :
  fillMask3D expf maskSize halfSize stdDev w = Return sum w' -> same_except_mask w w'.
Proof.
  unfold fillMask3D.
  apply for_fold_preserves;
    [apply same_except_mask_refl | apply same_except_mask_trans|].
  intros x a s a' s'.
  apply for_fold_preserves;
    [apply same_except_mask_refl | apply same_except_mask_trans|].
  intros y b t b' t'.
  apply for_fold_preserves;
    [apply same_except_mask_refl | apply same_except_mask_trans|].
  intros z c u c' u'. unfold bind.
  destruct (storeMask _ _ u) as [[] u1| |] eqn:E; try discriminate.
  intros [= _ <-]. eapply storeMask_same_except_mask, E.
Qed.

Lemma normalizeMask_same_except_mask (n : Z) (sum : spec_float) (w w' : World) :
  normalizeMask n sum w = Return tt w' -> same_except_mask w w'.
Proof.
  unfold normalizeMask.
  apply for_each_preserves;
    [apply same_except_mask_refl | apply same_except_mask_trans|].
  intros i s s'. unfold_monad.
  destruct (read_cell _ _ s) as [v s1| |] eqn:E; try discriminate.
  assert (s1 = s) as ->.
  { unfold read_cell in E. unfold_monad.
    destruct (mMask (stage s)); [|discriminate].
    case_bool_decide; [|discriminate].
    destruct (_ !! _) as [[?|]|]; try discriminate. congruence. }
  apply storeMask_same_except_mask.
Qed.

Lemma masksCreated_log (w : World) (e : event) :
  masksCreated (set_trace (trace w ++ [e]) w)
  = (if is_NewMask e then S (masksCreated w) else masksCreated w).
Proof.
  unfold masksCreated. simpl. rewrite List.filter_app, length_app. simpl.
  destruct (is_NewMask e); simpl; lia.
Qed.

Lemma kernelsCompiled_log (w : World) (e : event) :
  kernelsCompiled (set_trace (trace w ++ [e]) w)
  = (if is_CreateProgram e then S (kernelsCompiled w) else kernelsCompiled w).
Proof.
  unfold kernelsCompiled. simpl. rewrite List.filter_app, length_app. simpl.
  destruct (is_CreateProgram e); simpl; lia.
Qed.

(** What a [createMask] that finds the flag set and a 2-D or 3-D input
    leaves behind. *)
Lemma createMask_recreates (input : nat) (w w' : World) (image : Image2D) :
  imageAt input w = Return image w ->
  getDimensions image = 2 \/ getDimensions image = 3 ->
  mRecreateMask (stage w) = true ->
  createMask expf input w = Return tt w' ->
  heap w' = heap w /\
  masksCreated w' = S (masksCreated w) /\
  kernelsCompiled w' = kernelsCompiled w /\
  mRecreateMask (stage w') = false /\
  mDevice (stage w') = mDevice (stage w) /\
  mDimensionCLCodeCompiledFor (stage w') = mDimensionCLCodeCompiledFor (stage w) /\
  mTypeCLCodeCompiledFor (stage w') = mTypeCLCodeCompiledFor (stage w).
Proof.
  intros Himage Hdims Hflag. unfold createMask. unfold_monad.
  rewrite Hflag. cbn [negb]. cbv beta iota. rewrite Himage.
  unfold modifyStage, log, modify.
  set (size2 := mMaskSize (stage w) * mMaskSize (stage w)).
  set (size3 := mMaskSize (stage w) * mMaskSize (stage w) * mMaskSize (stage w)).
  assert (forall (w1 w3 : World) (n buffer : Z),
    heap w1 = heap w -> trace w1 = trace w ++ [NewMask n] ->
    set_mMask None (stage w1) = set_mMask None (stage w) ->
    same_except_mask w1 w3 ->
    match
      match mDevice (stage w) with
      | Host => fun s => Return tt s
      | OpenCLDevice device => uploadMask device buffer
      end w3
    with
    | Return _ s' => Return tt (set_stage (set_mRecreateMask false (stage s')) s')
    | Throw what s' => Throw what s'
    | Undefined => Undefined
    end = Return tt w' ->
    heap w' = heap w /\
    masksCreated w' = S (masksCreated w) /\
    kernelsCompiled w' = kernelsCompiled w /\
    mRecreateMask (stage w') = false /\
    mDevice (stage w') = mDevice (stage w) /\
    mDimensionCLCodeCompiledFor (stage w') = mDimensionCLCodeCompiledFor (stage w) /\
    mTypeCLCodeCompiledFor (stage w') = mTypeCLCodeCompiledFor (stage w)) as Hrest.
  { intros w1 w3 n buffer Hheap Htrace Hstage (A & B & C & D & E).
    assert (set_mMask None (stage w3) = set_mMask None (stage w)) as E' by congruence.
    assert (masksCreated w3 = S (masksCreated w)) as Hm.
    { unfold masksCreated. rewrite C, Htrace, List.filter_app, length_app.
      simpl. lia. }
    assert (kernelsCompiled w3 = kernelsCompiled w) as Hk.
    { unfold kernelsCompiled. rewrite C, Htrace, List.filter_app, length_app.
      simpl. lia. }
    pose proof (f_equal mDevice E') as E1.
    pose proof (f_equal mDimensionCLCodeCompiledFor E') as E2.
    pose proof (f_equal mTypeCLCodeCompiledFor E') as E3. simpl in E1, E2, E3.
    destruct (mDevice (stage w)) as [|device].
    - intros [= <-]. unfold masksCreated, kernelsCompiled in *. simpl.
      repeat split; congruence.
    - unfold uploadMask. unfold_monad. unfold modifyStage, log, modify.
      destruct (mMask (stage w3)); [|discriminate].
      case_bool_decide; [|discriminate]. intros [= <-].
      unfold masksCreated, kernelsCompiled in *. simpl.
      rewrite !List.filter_app, !length_app. simpl.
      repeat split; try congruence; lia. }
  destruct Hdims as [Hdims|Hdims].
  - rewrite bool_decide_eq_true_2 by exact Hdims.
    match goal with |- context [fillMask2D _ _ _ _ ?s] => set (w1 := s) end.
    destruct (fillMask2D _ _ _ _ w1) as [sum w2| |] eqn:Hfill; try discriminate.
    destruct (normalizeMask _ sum w2) as [[] w3| |] eqn:Hnorm; try discriminate.
    intros Hend. apply (Hrest w1 w3 size2 size2); try reflexivity; [|exact Hend].
    eapply same_except_mask_trans;
      [eapply fillMask2D_same_except_mask, Hfill
      |eapply normalizeMask_same_except_mask, Hnorm].
  - rewrite bool_decide_eq_false_2 by lia.
    rewrite bool_decide_eq_true_2 by exact Hdims.
    match goal with |- context [fillMask3D _ _ _ _ ?s] => set (w1 := s) end.
    destruct (fillMask3D _ _ _ _ w1) as [sum w2| |] eqn:Hfill; try discriminate.
    destruct (normalizeMask _ sum w2) as [[] w3| |] eqn:Hnorm; try discriminate.
    intros Hend. apply (Hrest w1 w3 size3 size3); try reflexivity; [|exact Hend].
    eapply same_except_mask_trans;
      [eapply fillMask3D_same_except_mask, Hfill
      |eapply normalizeMask_same_except_mask, Hnorm].
Qed.

Lemma imageAt_heap (input : nat) (w w' : World) (image : Image2D) :
  heap w' = heap w -> imageAt input w = Return image w ->
  imageAt input w' = Return image w'.
Proof.
  unfold imageAt. intros ->.
  destruct (heap w !! input) as [o|]; [|discriminate].
  destruct (payload o); [|discriminate]. intros [= ->]. reflexivity.
Qed.

Lemma recompileOpenCLCode_compiled (input : nat) (w : World) (image : Image2D) :
  imageAt input w = Return image w -> compiledFor image w ->
  recompileOpenCLCode FAST_ROOT_DIR input w = Return tt w.
Proof.
  intros Himage [Hdims Htype]. unfold recompileOpenCLCode. unfold_monad.
  rewrite Himage. rewrite bool_decide_eq_true_2 by exact Hdims.
  rewrite Htype. rewrite bool_decide_eq_true_2 by reflexivity. reflexivity.
Qed.

Lemma recompileOpenCLCode_effect (input : nat) (w w' : World) (image : Image2D) :
  imageAt input w = Return image w ->
  recompileOpenCLCode FAST_ROOT_DIR input w = Return tt w' ->
  heap w' = heap w /\
  masksCreated w' = masksCreated w /\
  mRecreateMask (stage w') = mRecreateMask (stage w) /\
  compiledFor image w' /\
  kernelsCompiled w'
  = (kernelsCompiled w + if decide (compiledFor image w) then 0 else 1)%nat.
Proof.
  intros Himage.
  destruct (decide (compiledFor image w)) as [Hc|Hc].
  - rewrite (recompileOpenCLCode_compiled _ _ _ Himage Hc). intros [= <-].
    repeat split; try apply Hc. lia.
  - unfold recompileOpenCLCode. unfold_monad. rewrite Himage.
    case_bool_decide as Hdims;
      [destruct (mTypeCLCodeCompiledFor (stage w)) as [type|] eqn:Htype;
         [|discriminate];
       case_bool_decide as Heq; [exfalso; apply Hc; split; congruence|]|];
      destruct (mDevice (stage w)); try discriminate;
      unfold log, modifyStage, modify; intros [= <-];
      unfold masksCreated, kernelsCompiled, compiledFor; simpl;
      rewrite !List.filter_app, !length_app; simpl;
      repeat split; lia.
Qed.

(** [recompileOpenCLCode] leaves the rest of the stage alone. *)
Lemma recompileOpenCLCode_stage (input : nat) (w w' : World) :
  recompileOpenCLCode FAST_ROOT_DIR input w = Return tt w' ->
  mInput (stage w') = mInput (stage w) /\ mOutput (stage w') = mOutput (stage w) /\
  mDevice (stage w') = mDevice (stage w) /\
  mMask (stage w') = mMask (stage w) /\ mCLMask (stage w') = mCLMask (stage w).
Proof.
  unfold recompileOpenCLCode. unfold_monad.
  destruct (imageAt input w) as [image w0| |] eqn:Himage; try discriminate.
  assert (w0 = w) as ->.
  { revert Himage. unfold imageAt. destruct (heap w !! input) as [o|]; [|discriminate].
    destruct (payload o); [|discriminate]. congruence. }
  case_bool_decide as Hdims;
    [destruct (mTypeCLCodeCompiledFor (stage w)) as [type|]; [|discriminate];
     case_bool_decide; [intros [= <-]; auto|]|];
    destruct (mDevice (stage w)) eqn:Hdevice; try discriminate;
    unfold log, modifyStage, modify; intros [= <-]; simpl; auto.
Qed.

End CacheFacts.

(* ===================================================================== *)
(** ** [createMask] writes every cell of the mask *)
(* ===================================================================== *)

Lemma for_fold_total {S I A} (Inv : list I -> S -> Prop) (l : list I)
    (body : I -> A -> M S A) :
  (forall done i a s, i ∈ l -> Inv done s ->
                      exists a' s', body i a s = Return a' s' /\ Inv (done ++ [i]) s') ->
  forall done a s, Inv done s ->
                   exists a' s', for_fold l body a s = Return a' s' /\ Inv (done ++ l) s'.
Proof.
  induction l as [|i l IH]; intros Hbody done a s Hinv; simpl.
  - exists a, s. rewrite app_nil_r. split; [reflexivity|exact Hinv].
  - destruct (Hbody done i a s) as (a1 & s1 & E & Hinv1); [left|exact Hinv|].
    unfold bind. rewrite E.
    destruct (IH (fun done i a s Hi => Hbody done i a s (list_elem_of_further _ _ _ Hi))
                 (done ++ [i]) a1 s1 Hinv1) as (a2 & s2 & E2 & Hinv2).
    exists a2, s2. rewrite <- app_assoc in Hinv2. split; assumption.
Qed.

Lemma for_each_total {S I} (Inv : S -> Prop) (l : list I) (body : I -> M S unit) :
  (forall i s, i ∈ l -> Inv s -> exists s', body i s = Return tt s' /\ Inv s') ->
  forall s, Inv s -> exists s', for_each l body s = Return tt s' /\ Inv s'.
Proof.
  induction l as [|i l IH]; intros Hbody s Hinv; simpl.
  - exists s. split; [reflexivity|exact Hinv].
  - destruct (Hbody i s) as (s1 & E & Hinv1); [left|exact Hinv|].
    unfold bind. rewrite E.
    apply IH; [|exact Hinv1]. intros j t Hj. apply Hbody. right. exact Hj.
Qed.

Lemma mask_ready_impl (n : Z) (P Q : Z -> Prop) (w : World) :
  (forall index, 0 <= index -> Q index -> P index) ->
  mask_ready n P w -> mask_ready n Q w.
Proof.
  intros HPQ (l & Hl & Hlen & Hcells). exists l. split; [exact Hl|].
  split; [exact Hlen|]. intros index H0 HQ. apply Hcells; auto.
Qed.

Lemma storeMask_ready (n : Z) (P : Z -> Prop) (w : World) (index : Z)
    (value : spec_float) :
  mask_ready n P w -> 0 <= index < n ->
  exists w', storeMask index value w = Return tt w' /\
             same_except_mask w w' /\
             mask_ready n (fun j => P j \/ j = index) w'.
Proof.
  intros (l & Hl & Hlen & Hcells) Hindex.
  unfold storeMask, write_cell. unfold_monad. rewrite Hl.
  rewrite bool_decide_eq_true_2 by lia.
  eexists. split; [reflexivity|]. split; [repeat split|].
  exists (<[Z.to_nat index := Some value]> l). simpl.
  split; [reflexivity|]. split; [rewrite length_insert; exact Hlen|].
  intros j Hj [HP| ->].
  - destruct (decide (Z.to_nat index = Z.to_nat j)) as [Heq|Hne].
    + rewrite Heq. exists value. apply list_lookup_insert_eq.
      rewrite <- Heq. lia.
    + rewrite list_lookup_insert_ne by exact Hne. apply Hcells; assumption.
  - exists value. apply list_lookup_insert_eq. lia.
Qed.

Section MaskTotal.

Variable expf : spec_float -> spec_float.
Variable FAST_ROOT_DIR : string.

(** An odd mask size [2*halfSize + 1]. *)
Variables maskSize halfSize : Z.
Hypothesis halfSize_nonneg : 0 <= halfSize.
Hypothesis maskSize_odd : maskSize = 2 * halfSize + 1.

Lemma in_range_symmetric (x : Z) :
  x ∈ range (- halfSize) (halfSize + 1) <-> - halfSize <= x <= halfSize.
Proof. unfold range. rewrite elem_of_seqZ. lia. Qed.

Lemma fillMask2D_total (stdDev : spec_float) (w : World) :
  mask_ready (maskSize * maskSize) (fun _ => False) w ->
  exists sum w',
    fillMask2D expf maskSize halfSize stdDev w = Return sum w' /\
    mask_ready (maskSize * maskSize) (fun index => index < maskSize * maskSize) w'.
Proof.
  intros Hready. unfold fillMask2D.
  set (cell := fun x y : Z => x + halfSize + (y + halfSize) * maskSize).
  set (column := fun (done : list Z) index =>
         exists x y, x ∈ done /\ - halfSize <= y <= halfSize /\ index = cell x y).
  destruct (for_fold_total
              (fun done => mask_ready (maskSize * maskSize) (column done))
              (range (- halfSize) (halfSize + 1))
              (fun x sum =>
                 for_fold (range (- halfSize) (halfSize + 1)) (fun y sum =>
                   let value := gaussian expf (x * x + y * y) stdDev in
                   storeMask (x + halfSize + (y + halfSize) * maskSize) value >>
                   ret (F32.add sum value)) sum))
    with (done := @nil Z) (a := F32.zero) (s := w) as (sum & w' & E & Hdone).
  - intros done x a s Hx%in_range_symmetric Hinv.
    destruct (for_fold_total
                (fun done_y => mask_ready (maskSize * maskSize)
                   (fun index => column done index \/
                                 exists y, y ∈ done_y /\ index = cell x y))
                (range (- halfSize) (halfSize + 1))
                (fun y sum =>
                   let value := gaussian expf (x * x + y * y) stdDev in
                   storeMask (x + halfSize + (y + halfSize) * maskSize) value >>
                   ret (F32.add sum value)))
      with (done := @nil Z) (a := a) (s := s) as (sum' & s' & E & Hdone).
    + intros done_y y b t Hy%in_range_symmetric Hinv_y.
      destruct (storeMask_ready _ _ t (cell x y)
                  (gaussian expf (x * x + y * y) stdDev) Hinv_y)
        as (t' & Et & _ & Hready'); [unfold cell; nia|].
      cbv zeta. unfold bind. fold (cell x y). rewrite Et.
      eexists _, _. split; [reflexivity|].
      revert Hready'. apply mask_ready_impl.
      intros index _ [Hcol|(y' & [Hy'|Hy']%elem_of_app & ->)].
      * left. left. exact Hcol.
      * left. right. exists y'. split; [exact Hy'|reflexivity].
      * right. apply list_elem_of_singleton in Hy' as ->. reflexivity.
    + revert Hinv. apply mask_ready_impl.
      intros index _ [Hcol|(y & Hy & _)]; [exact Hcol|]. inversion Hy.
    + exists sum', s'. split; [exact E|].
      revert Hdone. apply mask_ready_impl.
      intros index _ (x' & y & [Hx'|Hx']%elem_of_app & Hy & ->).
      * left. exists x', y. auto.
      * right. apply list_elem_of_singleton in Hx' as ->. exists y.
        split; [apply in_range_symmetric; exact Hy|reflexivity].
  - revert Hready. apply mask_ready_impl.
    intros index _ (x & y & Hx & _). inversion Hx.
  - exists sum, w'. split; [exact E|].
    revert Hdone. apply mask_ready_impl. intros index H0 Hlt. simpl.
    exists (index mod maskSize - halfSize), (index / maskSize - halfSize).
    assert (0 < maskSize) as Hpos by lia.
    pose proof (Z.mod_pos_bound index maskSize Hpos).
    pose proof (Z.div_pos index maskSize H0 Hpos).
    assert (index / maskSize < maskSize)
      by (apply Z.div_lt_upper_bound; lia).
    split; [apply in_range_symmetric; lia|]. split; [lia|].
    unfold cell. pose proof (Z.div_mod index maskSize). lia.
Qed.

Lemma fillMask3D_total (stdDev : spec_float) (w : World) :
  mask_ready (maskSize * maskSize * maskSize) (fun _ => False) w ->
  exists sum w',
    fillMask3D expf maskSize halfSize stdDev w = Return sum w' /\
    mask_ready (maskSize * maskSize * maskSize)
      (fun index => index < maskSize * maskSize * maskSize) w'.
Proof.
  intros Hready. unfold fillMask3D.
  set (n := maskSize * maskSize * maskSize).
  set (cell := fun x y z : Z =>
         x + halfSize + (y + halfSize) * maskSize
         + (z + halfSize) * maskSize * maskSize).
  set (slab := fun (done : list Z) index =>
         exists x y z, x ∈ done /\ - halfSize <= y <= halfSize /\
                       - halfSize <= z <= halfSize /\ index = cell x y z).
  set (loop_z := fun x y : Z => fun (z : Z) (sum : spec_float) =>
         let value := gaussian expf (x * x + y * y + z * z) stdDev in
         storeMask (x + halfSize + (y + halfSize) * maskSize
                    + (z + halfSize) * maskSize * maskSize) value >>
         ret (F32.add sum value)).
  set (loop_y := fun x : Z => fun (y : Z) (sum : spec_float) =>
         for_fold (range (- halfSize) (halfSize + 1)) (loop_z x y) sum).
  set (loop_x := fun (x : Z) (sum : spec_float) =>
         for_fold (range (- halfSize) (halfSize + 1)) (loop_y x) sum).
  change (exists sum w',
    for_fold (range (- halfSize) (halfSize + 1)) loop_x F32.zero w = Return sum w' /\
    mask_ready n (fun index => index < n) w').
  destruct (for_fold_total (fun done => mask_ready n (slab done))
              (range (- halfSize) (halfSize + 1)) loop_x)
    with (done := @nil Z) (a := F32.zero) (s := w) as (sum & w' & E & Hdone).
  - intros done x a s Hx%in_range_symmetric Hinv.
    set (row := fun (done_y : list Z) index =>
           slab done index \/
           exists y z, y ∈ done_y /\ - halfSize <= z <= halfSize /\ index = cell x y z).
    destruct (for_fold_total (fun done_y => mask_ready n (row done_y))
                (range (- halfSize) (halfSize + 1)) (loop_y x))
      with (done := @nil Z) (a := a) (s := s) as (sum' & s' & E & Hdone).
    + intros done_y y b t Hy%in_range_symmetric Hinv_y.
      destruct (for_fold_total
                  (fun done_z => mask_ready n
                     (fun index => row done_y index \/
                                   exists z, z ∈ done_z /\ index = cell x y z))
                  (range (- halfSize) (halfSize + 1)) (loop_z x y))
        with (done := @nil Z) (a := b) (s := t) as (sum'' & t' & E & Hdone).
      * intros done_z z c u Hz%in_range_symmetric Hinv_z.
        destruct (storeMask_ready _ _ u (cell x y z)
                    (gaussian expf (x * x + y * y + z * z) stdDev) Hinv_z)
          as (u' & Eu & _ & Hready'); [unfold cell, n; nia|].
        unfold loop_z. cbv zeta. unfold bind. fold (cell x y z). rewrite Eu.
        eexists _, _. split; [reflexivity|].
        revert Hready'. apply mask_ready_impl.
        intros index _ [Hrow|(z' & [Hz'|Hz']%elem_of_app & ->)].
        -- left. left. exact Hrow.
        -- left. right. exists z'. split; [exact Hz'|reflexivity].
        -- right. apply list_elem_of_singleton in Hz' as ->. reflexivity.
      * revert Hinv_y. apply mask_ready_impl.
        intros index _ [Hrow|(z & Hz & _)]; [exact Hrow|]. inversion Hz.
      * exists sum'', t'. split; [exact E|].
        revert Hdone. apply mask_ready_impl.
        intros index _ [Hslab|(y' & z & [Hy'|Hy']%elem_of_app & Hz & ->)].
        -- left. left. exact Hslab.
        -- left. right. exists y', z. auto.
        -- right. apply list_elem_of_singleton in Hy' as ->. exists z.
           split; [apply in_range_symmetric; exact Hz|reflexivity].
    + revert Hinv. apply mask_ready_impl.
      intros index _ [Hslab|(y & z & Hy & _)]; [exact Hslab|]. inversion Hy.
    + exists sum', s'. split; [exact E|].
      revert Hdone. apply mask_ready_impl.
      intros index _ (x' & y & z & [Hx'|Hx']%elem_of_app & Hy & Hz & ->).
      * left. exists x', y, z. auto.
      * right. apply list_elem_of_singleton in Hx' as ->. exists y, z.
        split; [apply in_range_symmetric; exact Hy|]. split; [exact Hz|reflexivity].
  - revert Hready. apply mask_ready_impl.
    intros index _ (x & y & z & Hx & _). inversion Hx.
  - exists sum, w'. split; [exact E|].
    revert Hdone. apply mask_ready_impl. intros index H0 Hlt. simpl.
    assert (0 < maskSize) as Hpos by lia.
    set (q := index / maskSize).
    exists (index mod maskSize - halfSize), (q mod maskSize - halfSize),
           (q / maskSize - halfSize).
    pose proof (Z.mod_pos_bound index maskSize Hpos).
    pose proof (Z.div_pos index maskSize H0 Hpos) as Hq. fold q in Hq.
    pose proof (Z.mod_pos_bound q maskSize Hpos).
    pose proof (Z.div_pos q maskSize Hq Hpos).
    assert (q < maskSize * maskSize)
      by (apply Z.div_lt_upper_bound; unfold n in Hlt; lia).
    assert (q / maskSize < maskSize)
      by (apply Z.div_lt_upper_bound; lia).
    split; [apply in_range_symmetric; lia|]. split; [lia|]. split; [lia|].
    unfold cell. pose proof (Z.div_mod index maskSize). fold q in H5.
    pose proof (Z.div_mod q maskSize). nia.
Qed.

Lemma normalizeMask_total (n : Z) (sum : spec_float) (w : World) :
  mask_ready n (fun index => index < n) w ->
  exists w', normalizeMask n sum w = Return tt w' /\
             mask_ready n (fun index => index < n) w'.
Proof.
  unfold normalizeMask. apply for_each_total.
  intros i s Hi Hready. unfold range in Hi. apply elem_of_seqZ in Hi.
  pose proof Hready as (l & Hl & Hlen & Hcells).
  destruct (Hcells i) as (v & Hv); [lia|lia|].
  unfold bind, get, read_cell. rewrite Hl.
  rewrite bool_decide_eq_true_2 by lia. rewrite Hv. unfold ret.
  destruct (storeMask_ready _ _ s i (F32.div v sum) Hready) as (s' & E & _ & Hready');
    [lia|].
  exists s'. split; [exact E|].
  revert Hready'. apply mask_ready_impl. intros index _ Hlt. left. exact Hlt.
Qed.

End MaskTotal.

Section CachesTotal.

Variable expf : spec_float -> spec_float.
Variable FAST_ROOT_DIR : string.

Lemma replicate_mask_ready (n : Z) (w : World) :
  0 <= n -> mMask (stage w) = Some (replicate (Z.to_nat n) None) ->
  mask_ready n (fun _ => False) w.
Proof.
  intros Hn Hmask. eexists. split; [exact Hmask|].
  split; [rewrite length_replicate; lia|]. intros index _ [].
Qed.

(** With the flag set, a 2-D or 3-D input and an odd mask size that fits
    [unsigned char], [createMask] returns. *)
Lemma createMask_total (input : nat) (w : World) (image : Image2D) :
  imageAt input w = Return image w ->
  getDimensions image = 2 \/ getDimensions image = 3 ->
  mRecreateMask (stage w) = true ->
  Z.odd (mMaskSize (stage w)) = true -> 1 <= mMaskSize (stage w) <= 255 ->
  exists w', createMask expf input w = Return tt w'.
Proof.
  intros Himage Hdims Hflag Hodd Hsize.
  apply Z.odd_spec in Hodd as [h Hh].
  assert (Z.quot (mMaskSize (stage w) - 1) 2 mod 256 = h) as Hhalf.
  { rewrite Hh. replace (2 * h + 1 - 1) with (h * 2) by lia.
    rewrite Z.quot_mul by lia. apply Z.mod_small. lia. }
  assert (0 <= h) as Hh0 by lia.
  unfold createMask. unfold_monad. rewrite Hflag. cbn [negb]. cbv beta iota.
  rewrite Himage, Hhalf. unfold modifyStage, log, modify.
  assert (forall (n : Z) (w3 : World),
    mask_ready n (fun index => index < n) w3 ->
    exists w',
      match
        match mDevice (stage w) with
        | Host => fun s => Return tt s
        | OpenCLDevice device => uploadMask device n
        end w3
      with
      | Return _ s' => Return tt (set_stage (set_mRecreateMask false (stage s')) s')
      | Throw what s' => Throw what s'
      | Undefined => Undefined
      end = Return tt w') as Hrest.
  { intros n w3 (l & Hl & Hlen & _). destruct (mDevice (stage w)); [eauto|].
    unfold uploadMask. unfold_monad. unfold modifyStage, log, modify.
    rewrite Hl. rewrite bool_decide_eq_true_2 by lia. eauto. }
  destruct Hdims as [Hdims|Hdims].
  - rewrite bool_decide_eq_true_2 by exact Hdims.
    match goal with |- context [fillMask2D _ _ _ _ ?s] => set (w1 := s) end.
    destruct (fillMask2D_total expf _ h Hh0 Hh (mStdDev (stage w)) w1)
      as (sum & w2 & E2 & Hready2); [apply replicate_mask_ready; [nia|reflexivity]|].
    rewrite E2.
    destruct (normalizeMask_total _ sum w2 Hready2) as (w3 & E3 & Hready3).
    rewrite E3. apply (Hrest _ w3 Hready3).
  - rewrite bool_decide_eq_false_2 by lia.
    rewrite bool_decide_eq_true_2 by exact Hdims.
    match goal with |- context [fillMask3D _ _ _ _ ?s] => set (w1 := s) end.
    destruct (fillMask3D_total expf _ h Hh0 Hh (mStdDev (stage w)) w1)
      as (sum & w2 & E2 & Hready2); [apply replicate_mask_ready; [nia|reflexivity]|].
    rewrite E2.
    destruct (normalizeMask_total _ sum w2 Hready2) as (w3 & E3 & Hready3).
    rewrite E3. apply (Hrest _ w3 Hready3).
Qed.

(** On an OpenCL device [recompileOpenCLCode] returns, unless it has to
    compare with a type that was never set. *)
Lemma recompileOpenCLCode_total (input : nat) (w : World) (image : Image2D) (d : nat) :
  imageAt input w = Return image w ->
  mDevice (stage w) = OpenCLDevice d ->
  (getDimensions image = mDimensionCLCodeCompiledFor (stage w) ->
   mTypeCLCodeCompiledFor (stage w) <> None) ->
  exists w', recompileOpenCLCode FAST_ROOT_DIR input w = Return tt w'.
Proof.
  intros Himage Hdevice Htype. unfold recompileOpenCLCode. unfold_monad.
  rewrite Himage, Hdevice. unfold log, modifyStage, modify.
  case_bool_decide as Hdims.
  - destruct (mTypeCLCodeCompiledFor (stage w)) as [type|];
      [|destruct (Htype Hdims eq_refl)].
    case_bool_decide; eauto.
  - eauto.
Qed.

End CachesTotal.

(* ===================================================================== *)
(** ** [Image2D]: creation, transfers and locks *)
(* ===================================================================== *)

Lemma size_insert_pos {A} (d : nat) (v : A) (m : gmap nat A) :
  (0 < size (<[d := v]> m))%nat.
Proof.
  destruct (decide (size (<[d := v]> m) = 0%nat)) as [H|H]; [|lia].
  apply map_size_empty_iff in H. exfalso. exact (insert_non_empty _ _ _ H).
Qed.

Lemma createImage_initialized (i : Image2D) w h t c dev :
  isInitialized i = true ->
  createImage w h t c dev i = Throw already_initialized_message i.
Proof. intros H. unfold createImage. unfold_monad. rewrite H. reflexivity. Qed.

Lemma createImage_data_initialized (i : Image2D) w h t c dev data :
  isInitialized i = true ->
  createImage_data w h t c dev data i = Throw already_initialized_message i.
Proof. intros H. unfold createImage_data. unfold_monad. rewrite H. reflexivity. Qed.

Lemma createImage_returns (i : Image2D) w h t c dev :
  isInitialized i = false ->
  exists i', createImage w h t c dev i = Return tt i' /\
             mWidth i' = w /\ mHeight i' = h /\ mType i' = t /\ mComponents i' = c /\
             mDimensions i' = mDimensions i /\
             isInitialized i' = true.
Proof.
  intros H. unfold createImage. unfold_monad. rewrite H. simpl.
  destruct dev as [|d]; eexists; (split; [reflexivity|]); simpl;
    repeat (split; [reflexivity|]); unfold isInitialized; simpl.
  - apply orb_true_r.
  - rewrite bool_decide_eq_true_2 by apply size_insert_pos. reflexivity.
Qed.

(** X1. [createImage] works exactly once per object: on an object that is
    not initialised it returns, for every size, type and device, stores the
    four arguments and leaves the object initialised; from then on every
    call of either overload throws "already initialized" and changes
    nothing. *)
Theorem createImage_only_once (i : Image2D) width height type nrOfComponents device :
  isInitialized i = false ->
  exists i',
    createImage width height type nrOfComponents device i = Return tt i' /\
    getWidth i' = width /\ getHeight i' = height /\ getDataType i' = type /\
    getNrOfComponents i' = nrOfComponents /\
    isInitialized i' = true /\
    (forall w h t c dev,
       createImage w h t c dev i' = Throw already_initialized_message i') /\
    (forall w h t c dev data,
       createImage_data w h t c dev data i' = Throw already_initialized_message i').
Proof.
  intros H.
  destruct (createImage_returns i width height type nrOfComponents device H)
    as (i' & Hcall & Hw & Hh & Ht & Hc & _ & Hinit).
  exists i'. repeat (split; [assumption|]). split.
  - intros. apply createImage_initialized, Hinit.
  - intros. apply createImage_data_initialized, Hinit.
Qed.

Lemma createImage_only_once_witness :
  isInitialized Image2D_new = false /\
  exists i',
    createImage 4 4 TYPE_FLOAT 1 (OpenCLDevice 0) Image2D_new = Return tt i' /\
    isInitialized i' = true.
Proof.
  split; [reflexivity|].
  destruct (createImage_only_once Image2D_new 4 4 TYPE_FLOAT 1 (OpenCLDevice 0) eq_refl)
    as (i' & Hcall & _ & _ & _ & _ & Hinit & _).
  exists i'. split; assumption.
Defined.

(** X2. A write access at a device initialises the object as a side effect:
    on any object with no location being accessed the request is granted,
    and afterwards the object counts as initialised, so that [createImage]
    throws on it, also when the object had never been created before. *)
Theorem device_write_access_initializes (d : nat) (i : Image2D) :
  ~ someLocked i ->
  exists a i',
    getOpenCLImageAccess ACCESS_READ_WRITE d i = Return a i' /\
    isInitialized i' = true /\
    forall w h t c dev,
      createImage w h t c dev i' = Throw already_initialized_message i'.
Proof.
  intros Hfree. rewrite getOpenCLImageAccess_write.
  apply isAnyDataBeingAccessed_false in Hfree. rewrite Hfree.
  do 2 eexists. split; [reflexivity|].
  assert (isInitialized (written_at_device d i) = true) as Hinit.
  { unfold isInitialized, written_at_device, index_mCLImagesAccess, index_mCLImages.
    simpl. destruct (mCLImages i !! d) eqn:E; simpl; rewrite lookup_insert_eq; simpl.
    - rewrite bool_decide_eq_true_2; [reflexivity|].
      destruct (decide (size (mCLImages i) = 0%nat)) as [H|H]; [|lia].
      apply map_size_empty_iff in H. rewrite H, lookup_empty in E. discriminate.
    - rewrite bool_decide_eq_true_2 by apply size_insert_pos. reflexivity. }
  split; [exact Hinit|]. intros. apply createImage_initialized, Hinit.
Qed.

Lemma device_write_access_initializes_witness :
  ~ someLocked Image2D_new /\
  exists a i',
    getOpenCLImageAccess ACCESS_READ_WRITE 0 Image2D_new = Return a i' /\
    createImage 4 4 TYPE_FLOAT 1 (OpenCLDevice 0) i' = Throw already_initialized_message i'.
Proof.
  assert (~ someLocked Image2D_new) as Hfree.
  { apply isAnyDataBeingAccessed_false. reflexivity. }
  split; [exact Hfree|].
  destruct (device_write_access_initializes 0 Image2D_new Hfree) as (a & i' & Hcall & _ & Hthrow).
  exists a, i'. split; [exact Hcall|apply Hthrow].
Defined.

(** X3. A granted write access allocates and transfers nothing, at the host
    as at a device: the log of allocations and transfers, the host array
    and the device images that exist are as before, and the accessor is
    handed the pointer the location had, a null pointer if the location
    never had a buffer. *)
Theorem write_access_issues_nothing (target : ExecutionDevice) (i i' : Image2D)
    (a : accessor) :
  acquireAccess target ACCESS_READ_WRITE i = Return a i' ->
  mEvents i' = mEvents i /\
  mHostData i' = mHostData i /\ mHostHasData i' = mHostHasData i /\
  (forall d image, mCLImages i !! d = Some image -> mCLImages i' !! d = Some image) /\
  a = match target with
      | Host => HostAccessor (mkImageAccess2D (mHostData i))
      | OpenCLDevice d =>
          DeviceAccessor (mkOpenCLImageAccess2D d (default None (mCLImages i !! d)))
      end.
Proof.
  destruct target as [|d]; unfold acquireAccess, bind.
  - rewrite getImageAccess_write. destruct (isAnyDataBeingAccessed i); [discriminate|].
    intros [= <- <-]. simpl. auto.
  - rewrite getOpenCLImageAccess_write. destruct (isAnyDataBeingAccessed i); [discriminate|].
    intros [= <- <-].
    unfold written_at_device, index_mCLImagesAccess, index_mCLImages. simpl.
    destruct (mCLImages i !! d) eqn:E; simpl; rewrite lookup_insert_eq; simpl;
      repeat (split; [reflexivity|]); (split; [|reflexivity]); intros d' image Hd'.
    + exact Hd'.
    + rewrite lookup_insert_ne by congruence. exact Hd'.
Qed.

Lemma write_access_issues_nothing_witness :
  exists a i',
    acquireAccess Host ACCESS_READ_WRITE created_on_device = Return a i' /\
    a = HostAccessor (mkImageAccess2D None).
Proof.
  do 2 eexists. split; [vm_compute; reflexivity|].
  eapply (write_access_issues_nothing Host created_on_device). vm_compute. reflexivity.
Defined.

Lemma take_transfer {A} (n : nat) (from to : list A) :
  (n <= length from)%nat -> take n (take n from ++ drop n to) = take n from.
Proof.
  intros H. rewrite take_app_le by (rewrite length_take; lia).
  rewrite take_take. f_equal. lia.
Qed.

Lemma index_mCLImages_present (d : nat) (i : Image2D) v :
  mCLImages i !! d = Some v -> index_mCLImages d i = i.
Proof. intros H. unfold index_mCLImages. rewrite H. reflexivity. Qed.

Lemma index_mCLImagesAccess_present (d : nat) (i : Image2D) v :
  mCLImagesAccess i !! d = Some v -> index_mCLImagesAccess d i = i.
Proof. intros H. unfold index_mCLImagesAccess. rewrite H. reflexivity. Qed.

Lemma accessor_of_image (d : nat) (i : Image2D) (image : list cell) :
  mCLImages i !! d = Some (Some image) -> is_Some (mCLImagesAccess i !! d) ->
  index_mCLImagesAccess d (index_mCLImages d i) = i.
Proof.
  intros Himage [v Haccess].
  rewrite (index_mCLImages_present _ _ _ Himage).
  apply (index_mCLImagesAccess_present _ _ _ Haccess).
Qed.

(** X4. A read at the host whose copy is stale, on an object that has
    device images, fetches the data from a device that is marked up to
    date: the pixels of the region are moved, in the format of that
    device's image, into the host array (the array the object has, or a
    new [float] array of width*height elements), the accessor is handed
    the host array, and the last transfer issued is the read from that
    device. Where the channels of the image have the element type of the
    host array, the elements of the region in the host array equal those
    of the image. *)
Theorem host_read_copies_device (i i' : Image2D) (a : ImageAccess2D) :
  mHostDataIsUpToDate i = false -> (0 < size (mCLImages i))%nat ->
  getImageAccess ACCESS_READ i = Return a i' ->
  exists src image format array data,
    mCLImagesIsUpToDate i !! src = Some true /\
    mCLImages i !! src = Some (Some image) /\
    mCLImageFormats i !! src = Some format /\
    (if mHostHasData i then mHostData i
     else Some (replicate (Z.to_nat (u32 (mWidth i * mHeight i))) None)) = Some array /\
    mHostDataType i' = (if mHostHasData i then mHostDataType i else TYPE_FLOAT) /\
    copyBytes (channelType format) (mHostDataType i')
      (regionSize i * pixelSize format) image array = Some data /\
    host_access_data a = Some data /\ mHostData i' = Some data /\
    (channelType format = mHostDataType i' ->
     take (regionSize i * Z.to_nat (channels format)) data =
     take (regionSize i * Z.to_nat (channels format)) image) /\
    exists before, mEvents i' = before ++ [EnqueueReadImage src].
Proof.
  intros Hstale Hsize. rewrite getImageAccess_read.
  destruct (updateHostData i) as [[] i1| |] eqn:E; try discriminate.
  intros [= <- <-]. revert E. unfold updateHostData. unfold_monad. rewrite Hstale.
  destruct (mHostHasData i); simpl; rewrite bool_decide_eq_true_2 by exact Hsize;
    (destruct (first_true _) as [src|] eqn:Hsrc; [|discriminate]);
    apply first_true_map_Some in Hsrc;
    intros (image & format & array & data & Himage & Hformat & Harray & Hcopy & ->)
      %transferCLImageToHost_Return;
    simpl in *; exists src, image, format, array, data;
    (do 8 (split; [reflexivity || assumption|]));
    (split; [|eexists; reflexivity]);
    intros Htype; revert Hcopy; unfold pixelSize; rewrite Htype;
    rewrite Nat.mul_assoc; intros (_ & _ & _ & Htake)%copyBytes_same_inv; exact Htake.
Qed.

Lemma host_read_copies_device_witness :
  exists a i',
    getImageAccess ACCESS_READ (loaded_on_device TYPE_FLOAT ramp) = Return a i' /\
    host_access_data a = Some (Some <$> ramp).
Proof.
  do 2 eexists.
  assert (getImageAccess ACCESS_READ (loaded_on_device TYPE_FLOAT ramp)
          = Return ?[a] ?[i']) as Hcall
    by (vm_compute; reflexivity).
  destruct (host_read_copies_device (loaded_on_device TYPE_FLOAT ramp) _ _ eq_refl
              ltac:(vm_compute; lia) Hcall)
    as (src & image & format & array & data & _ & _ & _ & _ & _ & _ & Hdata & _).
  split; [exact Hcall|]. rewrite Hdata. vm_compute in Hdata. injection Hdata as <-.
  reflexivity.
Defined.

(** X5. The first read at a device, with the host copy up to date, creates
    a one-channel [float] image for the device and fills it from the host
    array: width*height*4 bytes. When the host array holds that many
    bytes the call returns, the device is marked up to date and being
    accessed, and exactly one allocation and one host-to-device transfer
    are issued; the image handed to the accessor is the region of the host
    array when that is an array of [float], and its bytes read as [float]
    otherwise. When the host array is shorter, the transfer reads past its
    end. *)
Theorem first_device_read_copies_host (d : nat) (i : Image2D) (host : list cell) :
  mHostDataIsUpToDate i = true -> mHostData i = Some host ->
  mCLImagesIsUpToDate i !! d = None ->
  ((regionSize i * 4 <= length host * sizeOf (mHostDataType i))%nat ->
   exists i' image,
     getOpenCLImageAccess ACCESS_READ d i =
       Return (mkOpenCLImageAccess2D d (Some image)) i' /\
     copyBytes (mHostDataType i) TYPE_FLOAT (regionSize i * 4) host
       (replicate (regionSize i) None) = Some image /\
     (mHostDataType i = TYPE_FLOAT -> image = take (regionSize i) host) /\
     mCLImages i' !! d = Some (Some image) /\
     mCLImageFormats i' !! d = Some (mkImageFormat TYPE_FLOAT 1) /\
     upToDateAt i' (OpenCLDevice d) /\ lockedAt i' (OpenCLDevice d) /\
     upToDateAt i' Host /\ mHostData i' = Some host /\
     mEvents i' =
       mEvents i ++ [NewCLImage d (mWidth i) (mHeight i); EnqueueWriteImage d]) /\
  ((length host * sizeOf (mHostDataType i) < regionSize i * 4)%nat ->
   getOpenCLImageAccess ACCESS_READ d i = Undefined).
Proof.
  intros Hup Hhost Hnew. rewrite getOpenCLImageAccess_read.
  unfold updateOpenCLImageData. unfold_monad. simpl. rewrite Hnew.
  rewrite bool_decide_eq_false_2 by discriminate.
  rewrite bool_decide_eq_true_2 by reflexivity. simpl. rewrite Hup.
  unfold transferCLImageFromHost. simpl. rewrite !lookup_insert_eq, Hhost.
  change (pixelSize (mkImageFormat TYPE_FLOAT 1)) with 4%nat.
  unfold regionSize. simpl. set (r := Z.to_nat (mWidth i * mHeight i)).
  split.
  - intros Hlen.
    destruct (copyBytes_fits (mHostDataType i) TYPE_FLOAT (r * 4) host
                (replicate r None) Hlen) as [image Hcopy].
    { rewrite length_replicate. simpl. lia. }
    rewrite Hcopy.
    erewrite accessor_of_image
      by (simpl; rewrite lookup_insert_eq; (reflexivity || (eexists; reflexivity))).
    simpl. rewrite !lookup_insert_eq. simpl.
    eexists _, image. split; [reflexivity|]. simpl. rewrite !lookup_insert_eq.
    rewrite <- app_assoc. split; [reflexivity|]. split; [|auto 10].
    intros Htype. rewrite Htype in Hcopy.
    apply (copyBytes_same_inv TYPE_FLOAT) in Hcopy as (_ & _ & -> & _).
    rewrite drop_replicate, Nat.sub_diag, app_nil_r. reflexivity.
  - intros Hshort. rewrite copyBytes_outside by (left; exact Hshort). reflexivity.
Qed.

Lemma first_device_read_copies_host_witness :
  (exists i',
     getOpenCLImageAccess ACCESS_READ 0 (written_on_host TYPE_FLOAT ramp) =
       Return (mkOpenCLImageAccess2D 0 (Some (Some <$> ramp))) i') /\
  getOpenCLImageAccess ACCESS_READ 0 (written_on_host TYPE_UINT8 counting) = Undefined.
Proof.
  split.
  - destruct (first_device_read_copies_host 0 (written_on_host TYPE_FLOAT ramp)
                (Some <$> ramp) eq_refl eq_refl eq_refl)
      as [Hfits _].
    destruct (Hfits ltac:(vm_compute; lia)) as (i' & image & Hcall & _ & Himage & _).
    exists i'. rewrite Hcall, (Himage eq_refl). reflexivity.
  - destruct (first_device_read_copies_host 0 (written_on_host TYPE_UINT8 counting)
                (Some <$> counting) eq_refl eq_refl eq_refl)
      as [_ Hshort].
    apply Hshort. vm_compute. lia.
Defined.

(** X6. A read at a device whose entry is stale, with the host copy stale
    as well, is served from another device through the host: the region
    of a device marked up to date is read into the host array in the
    format of the source image and written from there into the target's
    image in the format of the target image, the host is marked up to
    date, and the two transfers are the only operations issued. Where the
    source image has the element type of the host array, the host array
    holds the elements of the source region; where the target image has
    the format of the source image as well, so does the target image. *)
Theorem device_read_stages_through_host (d : nat) (i i' : Image2D)
    (a : OpenCLImageAccess2D) :
  mHostDataIsUpToDate i = false -> mCLImagesIsUpToDate i !! d = Some false ->
  getOpenCLImageAccess ACCESS_READ d i = Return a i' ->
  exists src image format old target host host' image',
    src <> d /\ mCLImagesIsUpToDate i !! src = Some true /\
    mCLImages i !! src = Some (Some image) /\
    mCLImageFormats i !! src = Some format /\
    mCLImages i !! d = Some (Some old) /\
    mCLImageFormats i !! d = Some target /\
    mHostData i = Some host /\
    copyBytes (channelType format) (mHostDataType i)
      (regionSize i * pixelSize format) image host = Some host' /\
    copyBytes (mHostDataType i) (channelType target)
      (regionSize i * pixelSize target) host' old = Some image' /\
    mCLImages i' !! d = Some (Some image') /\ cl_access_image a = Some image' /\
    mHostData i' = Some host' /\
    (channelType format = mHostDataType i ->
     take (regionSize i * Z.to_nat (channels format)) host' =
     take (regionSize i * Z.to_nat (channels format)) image) /\
    (channelType format = mHostDataType i -> target = format ->
     take (regionSize i * Z.to_nat (channels format)) image' =
     take (regionSize i * Z.to_nat (channels format)) image) /\
    mHostDataIsUpToDate i' = true /\
    mEvents i' = mEvents i ++ [EnqueueReadImage src; EnqueueWriteImage d].
Proof.
  intros Hhost Hstale. rewrite getOpenCLImageAccess_read.
  unfold updateOpenCLImageData. unfold_monad. simpl. rewrite Hstale.
  rewrite bool_decide_eq_false_2 by discriminate.
  rewrite bool_decide_eq_false_2 by discriminate. simpl. rewrite Hhost.
  destruct (first_true _) as [src|] eqn:Hsrc; [|discriminate].
  apply first_true_map_Some in Hsrc.
  assert (src <> d) as Hne by congruence.
  match goal with |- context [transferCLImageToHost src ?s] =>
    destruct (transferCLImageToHost src s) as [[] i1| |] eqn:E1 end; try discriminate.
  apply transferCLImageToHost_Return in E1
    as (image & format & host & host' & Himage & Hformat & Hdata & Hcopy & ->).
  destruct (transferCLImageFromHost d _) as [[] i2| |] eqn:E2; try discriminate.
  apply transferCLImageFromHost_Return in E2
    as (old & target & host'' & image' & Hold & Htarget & Hdata' & Hcopy' & ->).
  simpl in *. injection Hdata' as <-.
  erewrite accessor_of_image
    by (simpl; rewrite lookup_insert_eq; (reflexivity || (eexists; reflexivity))).
  simpl. rewrite !lookup_insert_eq. simpl.
  intros [= <- <-]. simpl. rewrite !lookup_insert_eq.
  exists src, image, format, old, target, host, host', image'.
  do 12 (split; [reflexivity || assumption|]).
  assert (channelType format = mHostDataType i ->
          take (regionSize i * Z.to_nat (channels format)) host' =
          take (regionSize i * Z.to_nat (channels format)) image) as Hstaged.
  { intros Htype. revert Hcopy. unfold pixelSize. rewrite Htype.
    rewrite Nat.mul_assoc. intros (_ & _ & _ & Htake)%copyBytes_same_inv. exact Htake. }
  split; [exact Hstaged|]. split.
  { intros Htype ->. rewrite <- (Hstaged Htype).
    revert Hcopy'. rewrite <- Htype. unfold pixelSize.
    rewrite Nat.mul_assoc. intros (_ & _ & _ & Htake)%copyBytes_same_inv. exact Htake. }
  split; [reflexivity|]. rewrite <- app_assoc. reflexivity.
Qed.

Lemma device_read_stages_through_host_witness :
  (exists a i',
     getOpenCLImageAccess ACCESS_READ 1 (loaded_stale_on_second_device TYPE_FLOAT ramp) =
       Return a i' /\
     cl_access_image a = Some (Some <$> ramp) /\
     mHostDataIsUpToDate i' = true) /\
  (exists a i' image',
     getOpenCLImageAccess ACCESS_READ 1
       (loaded_stale_on_second_device TYPE_UINT8 counting) = Return a i' /\
     cl_access_image a = Some image' /\
     image' <> (Some <$> counting)).
Proof.
  split.
  - do 2 eexists.
    assert (getOpenCLImageAccess ACCESS_READ 1
              (loaded_stale_on_second_device TYPE_FLOAT ramp) = Return ?[a] ?[i'])
      as Hcall by (vm_compute; reflexivity).
    split; [exact Hcall|].
    destruct (device_read_stages_through_host 1
                (loaded_stale_on_second_device TYPE_FLOAT ramp) _ _
                eq_refl eq_refl Hcall)
      as (src & image & format & old & target & host & host' & image' & _ & _ & _ & _ & _
          & _ & _ & _ & _ & _ & Himage & _ & _ & _ & Hup & _).
    split; [|exact Hup]. rewrite Himage. vm_compute in Himage. injection Himage as <-.
    reflexivity.
  - do 2 eexists.
    assert (getOpenCLImageAccess ACCESS_READ 1
              (loaded_stale_on_second_device TYPE_UINT8 counting) = Return ?[a] ?[i'])
      as Hcall by (vm_compute; reflexivity).
    destruct (device_read_stages_through_host 1
                (loaded_stale_on_second_device TYPE_UINT8 counting) _ _
                eq_refl eq_refl Hcall)
      as (src & image & format & old & target & host & host' & image' & _ & _ & _ & _ & _
          & _ & _ & _ & _ & _ & Himage & _).
    exists image'. split; [exact Hcall|]. split; [exact Himage|].
    vm_compute in Himage. injection Himage as <-. vm_compute. discriminate.
Defined.

Lemma first_true_insert_only (d : nat) (m : gmap nat bool) :
  (forall d', m !! d' <> Some true) ->
  first_true (map_to_list (<[d := true]> m)) = Some d.
Proof.
  intros Hnone. destruct (first_true _) as [src|] eqn:E.
  - apply first_true_map_Some in E.
    destruct (decide (src = d)) as [->|Hne]; [reflexivity|].
    rewrite lookup_insert_ne in E by congruence. destruct (Hnone src E).
  - rewrite first_true_map_None in E. destruct (E d). apply lookup_insert_eq.
Qed.

(** X7. The first read at a device never raises the coherence exception.
    When no location at all is marked up to date, the call creates the
    one-channel [float] image of the device, finds the new entry itself as
    the up-to-date source, reads the fresh image back into the host array
    and writes it to the device again: width*height*4 bytes each way.
    When the host array holds that many bytes the call returns and leaves
    the host and the device marked up to date, with every pixel of the
    image never written and the elements of the host array that the bytes
    reach overwritten with indeterminate ones. When the host array is
    shorter, the transfer writes past its end. *)
Theorem first_device_read_is_its_own_source (d : nat) (i : Image2D) (host : list cell) :
  ~ someUpToDate i -> mCLImagesIsUpToDate i !! d = None ->
  mHostData i = Some host ->
  ((regionSize i * 4 <= length host * sizeOf (mHostDataType i))%nat ->
   exists i',
     getOpenCLImageAccess ACCESS_READ d i =
       Return (mkOpenCLImageAccess2D d (Some (replicate (regionSize i) None))) i' /\
     upToDateAt i' Host /\ upToDateAt i' (OpenCLDevice d) /\
     mHostData i' =
       Some (replicate (regionSize i * 4 / sizeOf (mHostDataType i)) None ++
             drop (regionSize i * 4 / sizeOf (mHostDataType i)) host) /\
     mEvents i' =
       mEvents i ++ [NewCLImage d (mWidth i) (mHeight i);
                     EnqueueReadImage d; EnqueueWriteImage d]) /\
  ((length host * sizeOf (mHostDataType i) < regionSize i * 4)%nat ->
   getOpenCLImageAccess ACCESS_READ d i = Undefined).
Proof.
  intros [Hhost Hnone]%not_someUpToDate Hnew Hdata.
  rewrite first_true_map_None in Hnone.
  rewrite getOpenCLImageAccess_read.
  unfold updateOpenCLImageData. unfold_monad. simpl. rewrite Hnew.
  rewrite bool_decide_eq_false_2 by discriminate.
  rewrite bool_decide_eq_true_2 by reflexivity. simpl. rewrite Hhost.
  rewrite first_true_insert_only by exact Hnone.
  unfold transferCLImageToHost, transferCLImageFromHost. simpl.
  rewrite !lookup_insert_eq, Hdata.
  change (pixelSize (mkImageFormat TYPE_FLOAT 1)) with 4%nat.
  unfold regionSize. simpl. set (r := Z.to_nat (mWidth i * mHeight i)).
  set (T := mHostDataType i).
  pose proof (float_region_elements T r) as Hwhole.
  pose proof (sizeOf_pos T) as Hpos.
  split.
  - intros Hlen.
    assert (copyBytes TYPE_FLOAT T (r * 4) (replicate r None) host
            = Some (replicate (r * 4 / sizeOf T) None ++ drop (r * 4 / sizeOf T) host))
      as Hread.
    { rewrite Hwhole at 1. rewrite <- (app_nil_r (replicate r None)).
      apply copyBytes_unwritten; [simpl; lia|nia]. }
    rewrite Hread. simpl. rewrite !lookup_insert_eq. fold r. fold T.
    change (pixelSize (mkImageFormat TYPE_FLOAT 1)) with 4%nat. cbn [channelType].
    assert (copyBytes T TYPE_FLOAT (r * 4)
              (replicate (r * 4 / sizeOf T) None ++ drop (r * 4 / sizeOf T) host)
              (replicate r None)
            = Some (replicate r None)) as Hwrite.
    { change (r * 4)%nat with (r * sizeOf TYPE_FLOAT)%nat.
      rewrite copyBytes_unwritten
        by (rewrite ?length_replicate; simpl; lia).
      rewrite drop_replicate, Nat.sub_diag, app_nil_r. reflexivity. }
    rewrite Hwrite.
    erewrite accessor_of_image
      by (simpl; rewrite lookup_insert_eq; (reflexivity || (eexists; reflexivity))).
    simpl. rewrite !lookup_insert_eq. simpl.
    eexists. split; [reflexivity|]. simpl. rewrite !lookup_insert_eq.
    rewrite <- !app_assoc. auto 10.
  - intros Hshort.
    rewrite copyBytes_outside by (right; exact Hshort). reflexivity.
Qed.

Lemma first_device_read_is_its_own_source_witness :
  ~ someUpToDate created_on_host /\
  (exists i',
     getOpenCLImageAccess ACCESS_READ 0 created_on_host =
       Return (mkOpenCLImageAccess2D 0 (Some (replicate 16 None))) i' /\
     upToDateAt i' Host) /\
  getOpenCLImageAccess ACCESS_READ 0
    (state_after (createImage 4 4 TYPE_UINT8 1 Host Image2D_new) Image2D_new)
  = Undefined.
Proof.
  assert (forall T, ~ someUpToDate
            (state_after (createImage 4 4 T 1 Host Image2D_new) Image2D_new)) as Hnone.
  { intros T. apply not_someUpToDate. split; reflexivity. }
  split; [exact (Hnone TYPE_FLOAT)|]. split.
  - destruct (first_device_read_is_its_own_source 0 created_on_host (replicate 16 None)
                (Hnone TYPE_FLOAT) eq_refl eq_refl)
      as [Hfits _].
    destruct (Hfits ltac:(vm_compute; lia)) as (i' & Hcall & Hup & _).
    exists i'. split; [exact Hcall|exact Hup].
  - destruct (first_device_read_is_its_own_source 0
                (state_after (createImage 4 4 TYPE_UINT8 1 Host Image2D_new) Image2D_new)
                (replicate 16 None) (Hnone TYPE_UINT8) eq_refl eq_refl)
      as [_ Hshort].
    apply Hshort. vm_compute. lia.
Defined.

(** X8. A read at a location that is marked up to date costs nothing: at
    the host the object is left exactly as it was and the accessor gets
    the host array; at a device that has an image, the only change is that
    the device is marked as being accessed, and the accessor gets that
    image. No allocation or transfer is issued. *)
Theorem up_to_date_read_is_free (i : Image2D) :
  (mHostDataIsUpToDate i = true ->
   getImageAccess ACCESS_READ i = Return (mkImageAccess2D (mHostData i)) i) /\
  (forall d image,
     mCLImagesIsUpToDate i !! d = Some true -> mCLImages i !! d = Some image ->
     getOpenCLImageAccess ACCESS_READ d i =
       Return (mkOpenCLImageAccess2D d image)
         (set_mCLImagesAccess (<[d := true]> (mCLImagesAccess i)) i)).
Proof.
  split.
  - intros Hup. rewrite getImageAccess_read, updateHostData_up_to_date by exact Hup.
    reflexivity.
  - intros d image Hup Himage.
    rewrite getOpenCLImageAccess_read, updateOpenCLImageData_up_to_date by exact Hup.
    erewrite !index_mCLImages_present by exact Himage.
    erewrite !index_mCLImagesAccess_present by (simpl; apply lookup_insert_eq).
    simpl. rewrite Himage. reflexivity.
Qed.

Lemma up_to_date_read_is_free_witness :
  getImageAccess ACCESS_READ (written_at_host created_on_host) =
    Return (mkImageAccess2D (mHostData (written_at_host created_on_host)))
      (written_at_host created_on_host).
Proof.
  apply (up_to_date_read_is_free (written_at_host created_on_host)). reflexivity.
Defined.

Lemma write_refused_when_locked (i : Image2D) (target : ExecutionDevice) :
  someLocked i ->
  acquireAccess target ACCESS_READ_WRITE i = Throw concurrent_access_message i.
Proof.
  intros H%isAnyDataBeingAccessed_true. destruct target as [|d]; unfold acquireAccess, bind.
  - rewrite getImageAccess_write, H. reflexivity.
  - rewrite getOpenCLImageAccess_write, H. reflexivity.
Qed.

Lemma write_granted_when_free (i : Image2D) (target : ExecutionDevice) :
  ~ someLocked i ->
  exists a i', acquireAccess target ACCESS_READ_WRITE i = Return a i'.
Proof.
  intros H%isAnyDataBeingAccessed_false. destruct target as [|d]; unfold acquireAccess, bind.
  - rewrite getImageAccess_write, H. eauto.
  - rewrite getOpenCLImageAccess_write, H. eauto.
Qed.

Lemma updateOpenCLImageData_first_touch (d : nat) (i i' : Image2D) :
  mCLImagesIsUpToDate i !! d = None ->
  updateOpenCLImageData d i = Return tt i' -> upToDateAt i' (OpenCLDevice d).
Proof.
  intros Hnew. unfold updateOpenCLImageData. unfold_monad. rewrite Hnew.
  rewrite bool_decide_eq_false_2 by discriminate.
  rewrite bool_decide_eq_true_2 by reflexivity. simpl.
  destruct (mHostDataIsUpToDate i).
  - intros [_ H]%transferCLImageFromHost_flags. simpl in *. rewrite H.
    apply lookup_insert_eq.
  - destruct (first_true _) as [src|]; [|discriminate].
    match goal with |- context [transferCLImageToHost src ?s] =>
      destruct (transferCLImageToHost src s) as [[] i1| |] eqn:E1 end; try discriminate.
    destruct (transferCLImageFromHost d i1) as [[] i2| |] eqn:E2; try discriminate.
    intros [= <-].
    apply transferCLImageToHost_flags in E1 as [_ H1].
    apply transferCLImageFromHost_flags in E2 as [_ H2]. simpl in *.
    rewrite H2, H1. apply lookup_insert_eq.
Qed.

Lemma acquireAccess_throws_coherence (i i' : Image2D) target mode :
  acquireAccess target mode i = Throw coherence_message i' ->
  ~ someUpToDate i /\
  match target with
  | Host => (0 < size (mCLImages i))%nat
  | OpenCLDevice d => is_Some (mCLImagesIsUpToDate i !! d)
  end.
Proof.
  destruct mode, target as [|d]; unfold acquireAccess, bind.
  - rewrite getImageAccess_read.
    destruct (updateHostData i) as [[] i1|what i1|] eqn:E; try discriminate.
    intros [= -> ->]. apply updateHostData_throws in E as (_ & ? & ? & _). auto.
  - rewrite getOpenCLImageAccess_read.
    destruct (updateOpenCLImageData d _) as [[] i1|what i1|] eqn:E; try discriminate.
    intros [= -> ->]. apply updateOpenCLImageData_throws in E as (_ & Hnone & Hsome & _).
    split; [|exact Hsome]. intros [loc Hloc]. apply Hnone. exists loc.
    destruct loc; exact Hloc.
  - rewrite getImageAccess_write. destruct (isAnyDataBeingAccessed i); discriminate.
  - rewrite getOpenCLImageAccess_write. destruct (isAnyDataBeingAccessed i); discriminate.
Qed.

Lemma acquireAccess_untouched (i : Image2D) target mode :
  untouched i ->
  match acquireAccess target mode i with
  | Return _ i' => someUpToDate i' \/ untouched i'
  | Throw _ i' => untouched i'
  | Undefined => True
  end.
Proof.
  intros [Himages Hflags]. destruct mode, target as [|d]; unfold acquireAccess, bind.
  - rewrite getImageAccess_read. unfold updateHostData. unfold_monad.
    destruct (mHostDataIsUpToDate i); [right; split; assumption|].
    destruct (mHostHasData i); simpl; rewrite Himages, map_size_empty;
      rewrite bool_decide_eq_false_2 by lia; right; split; assumption.
  - rewrite getOpenCLImageAccess_read.
    destruct (updateOpenCLImageData d _) as [[] i1|what i1|] eqn:E; [| |exact I].
    + left. exists (OpenCLDevice d). apply upToDateAt_index.
      apply updateOpenCLImageData_first_touch in E; [exact E|].
      simpl. rewrite Hflags. apply lookup_empty.
    + apply updateOpenCLImageData_throws in E as (_ & _ & [b Hb] & _).
      simpl in Hb. rewrite Hflags, lookup_empty in Hb. discriminate.
  - rewrite getImageAccess_write. destruct (isAnyDataBeingAccessed i).
    + split; assumption.
    + left. exists Host. reflexivity.
  - rewrite getOpenCLImageAccess_write. destruct (isAnyDataBeingAccessed i).
    + split; assumption.
    + left. exists (OpenCLDevice d). apply upToDateAt_written_at_device. reflexivity.
Qed.

(** The state every request keeps: some location is up to date, or no
    device has an entry. *)
Lemma request_keeps_coherent (r : request) (i : Image2D) :
  someUpToDate i \/ untouched i ->
  match request_outcome r i with
  | Return _ i' => someUpToDate i' \/ untouched i'
  | Throw what i' => (someUpToDate i' \/ untouched i') /\ what <> coherence_message
  | Undefined => True
  end.
Proof.
  intros Hinv. destruct r as [w h t c dev|w h t c dev data|[target mode|a]]; simpl.
  - unfold createImage. unfold_monad.
    destruct (isInitialized i); [split; [exact Hinv|discriminate]|]. simpl.
    destruct dev as [|d]; simpl.
    + destruct Hinv as [[loc Hloc]|Hun]; [left; exists loc; destruct loc; exact Hloc|].
      right. exact Hun.
    + left. exists (OpenCLDevice d). simpl. apply lookup_insert_eq.
  - destruct (createImage_data w h t c dev data i) as [[] i1|what i1|] eqn:E; [| |exact I].
    + left. exists dev. exact (createImage_data_up_to_date _ _ _ _ _ _ _ _ E).
    + revert E. unfold createImage_data. unfold_monad.
      destruct (isInitialized i); [intros [= <- <-]; split; [exact Hinv|discriminate]|].
      simpl. destruct dev as [|d].
      * destruct (mHostData _); simpl; [|discriminate].
        destruct (copyBytes _ _ _ _ _); simpl; discriminate.
      * case_bool_decide; simpl; discriminate.
  - unfold bind, ret.
    destruct (acquireAccess target mode i) as [b i1|what i1|] eqn:E; [| |exact I].
    + destruct Hinv as [Hup|Hun].
      * left. pose proof (acquireAccess_keeps_someUpToDate i target mode Hup) as H.
        rewrite E in H. exact H.
      * pose proof (acquireAccess_untouched i target mode Hun) as H.
        rewrite E in H. exact H.
    + destruct Hinv as [Hup|Hun].
      * split.
        -- left. pose proof (acquireAccess_keeps_someUpToDate i target mode Hup) as H.
           rewrite E in H. exact H.
        -- intros ->. apply acquireAccess_throws_coherence in E as [Hnone _].
           exact (Hnone Hup).
      * split.
        -- right. pose proof (acquireAccess_untouched i target mode Hun) as H.
           rewrite E in H. exact H.
        -- intros ->. apply acquireAccess_throws_coherence in E as [_ Hentry].
           destruct Hun as [Himages Hflags]. destruct target as [|d].
           ++ rewrite Himages, map_size_empty in Hentry. lia.
           ++ rewrite Hflags, lookup_empty in Hentry. destruct Hentry. discriminate.
  - destruct Hinv as [[loc Hloc]|Hun].
    + destruct a; simpl; left; exists loc; destruct loc; exact Hloc.
    + destruct a; simpl; right; exact Hun.
Qed.

(** X9. The coherence exception cannot be reached through the methods of
    the class. Starting from a newly constructed object, whatever
    [createImage] calls, access requests and releases are made, in any
    order and whether they succeed or throw, no call throws "no data was
    marked as up to date": a device gets its entry only together with an
    up-to-date mark, and a mark is only removed by a write access, which
    sets another. *)
Theorem coherence_exception_unreachable (rs : list request) (whats : list string)
    (i' : Image2D) :
  requests_thrown rs Image2D_new = Some (whats, i') ->
  coherence_message ∉ whats.
Proof.
  assert (forall rs i whats i',
            someUpToDate i \/ untouched i ->
            requests_thrown rs i = Some (whats, i') ->
            coherence_message ∉ whats) as Hrun.
  { clear. induction rs as [|r rs IH]; intros i whats i' Hinv; simpl.
    - intros [= <- <-]. apply not_elem_of_nil.
    - pose proof (request_keeps_coherent r i Hinv) as Hstep.
      destruct (request_outcome r i) as [[] i1|what i1|]; [| |discriminate].
      + apply IH, Hstep.
      + destruct Hstep as [Hinv1 Hwhat].
        destruct (requests_thrown rs i1) as [[whats1 i2]|] eqn:E; [|discriminate].
        intros [= <- <-]. apply not_elem_of_cons. split; [congruence|].
        exact (IH _ _ _ Hinv1 E). }
  apply Hrun. right. split; reflexivity.
Qed.

Lemma coherence_exception_unreachable_witness :
  exists i',
    requests_thrown
      [CreateImage 4 4 TYPE_FLOAT 1 Host;
       Access (Acquire (OpenCLDevice 0) ACCESS_READ);
       CreateImage 4 4 TYPE_FLOAT 1 Host;
       Access (Acquire Host ACCESS_READ_WRITE);
       Access (Acquire (OpenCLDevice 1) ACCESS_READ_WRITE)] Image2D_new
    = Some ([already_initialized_message; concurrent_access_message;
            concurrent_access_message], i') /\
    coherence_message ∉ [already_initialized_message; concurrent_access_message;
                         concurrent_access_message].
Proof.
  eexists. 
  assert (requests_thrown
      [CreateImage 4 4 TYPE_FLOAT 1 Host;
       Access (Acquire (OpenCLDevice 0) ACCESS_READ);
       CreateImage 4 4 TYPE_FLOAT 1 Host;
       Access (Acquire Host ACCESS_READ_WRITE);
       Access (Acquire (OpenCLDevice 1) ACCESS_READ_WRITE)] Image2D_new
    = Some ([already_initialized_message; concurrent_access_message;
            concurrent_access_message], ?[i'])) as Hrun
    by (vm_compute; reflexivity).
  split; [exact Hrun|].
  exact (coherence_exception_unreachable _ _ _ Hrun).
Defined.

Lemma transferCLImageToHost_locks (d : nat) (i i' : Image2D) :
  transferCLImageToHost d i = Return tt i' ->
  mHostDataIsBeingAccessed i' = mHostDataIsBeingAccessed i /\
  mCLImagesAccess i' = mCLImagesAccess i /\ mHostHasData i' = mHostHasData i.
Proof.
  intros (image & format & host & result & _ & _ & _ & _ & ->)%transferCLImageToHost_Return.
  auto.
Qed.

Lemma transferCLImageFromHost_locks (d : nat) (i i' : Image2D) :
  transferCLImageFromHost d i = Return tt i' ->
  mHostDataIsBeingAccessed i' = mHostDataIsBeingAccessed i /\
  mCLImagesAccess i' = mCLImagesAccess i /\ mHostHasData i' = mHostHasData i.
Proof.
  intros (image & format & host & result & _ & _ & _ & _ & ->)%transferCLImageFromHost_Return.
  auto.
Qed.

Lemma updateHostData_locks (i i' : Image2D) :
  updateHostData i = Return tt i' ->
  mHostDataIsBeingAccessed i' = mHostDataIsBeingAccessed i /\
  mCLImagesAccess i' = mCLImagesAccess i /\ mHostHasData i' = mHostHasData i.
Proof.
  unfold updateHostData. unfold_monad.
  destruct (mHostDataIsUpToDate i); [intros [= <-]; auto|].
  destruct (mHostHasData i) eqn:Hhas; simpl;
    (case_bool_decide; [|intros [= <-]; auto]);
    (destruct (first_true _) as [src|]; [|discriminate]);
    intros (H1 & H2 & H3)%transferCLImageToHost_locks; simpl in *;
    repeat split; congruence.
Qed.

Lemma updateOpenCLImageData_locked (d : nat) (i i' : Image2D) :
  mCLImagesAccess i !! d = Some true ->
  updateOpenCLImageData d i = Return tt i' -> mCLImagesAccess i' !! d = Some true.
Proof.
  intros Hlocked. unfold updateOpenCLImageData. unfold_monad.
  case_bool_decide as Hd; [intros [= <-]; exact Hlocked|].
  case_bool_decide as Hnew; simpl;
    (destruct (mHostDataIsUpToDate i);
     [intros (_ & Hacc & _)%transferCLImageFromHost_locks; simpl in Hacc; rewrite Hacc;
      rewrite ?lookup_insert_eq; auto|]);
    (destruct (first_true _) as [src|]; [|discriminate]);
    match goal with |- context [transferCLImageToHost src ?s] =>
      destruct (transferCLImageToHost src s) as [[] i1| |] eqn:E1 end; try discriminate;
    (destruct (transferCLImageFromHost d i1) as [[] i2| |] eqn:E2; try discriminate);
    intros [= <-];
    apply transferCLImageToHost_locks in E1 as (_ & H1 & _);
    apply transferCLImageFromHost_locks in E2 as (_ & H2 & _); simpl in *;
    rewrite H2, H1, ?lookup_insert_eq; auto.
Qed.

(** X10. A reader at a device blocks writers: when a read access at a
    device is granted, the device is marked as being accessed, and until
    that mark is cleared every request for write access, at the host or at
    any device, is refused with the concurrent-access exception and changes
    nothing. *)
Theorem device_read_blocks_writers (d : nat) (i i' : Image2D)
    (a : OpenCLImageAccess2D) :
  getOpenCLImageAccess ACCESS_READ d i = Return a i' ->
  lockedAt i' (OpenCLDevice d) /\
  forall target,
    acquireAccess target ACCESS_READ_WRITE i' = Throw concurrent_access_message i'.
Proof.
  rewrite getOpenCLImageAccess_read.
  destruct (updateOpenCLImageData d _) as [[] i1| |] eqn:E; try discriminate.
  intros [= _ <-].
  apply updateOpenCLImageData_locked in E; [|simpl; apply lookup_insert_eq].
  assert (lockedAt (index_mCLImagesAccess d (index_mCLImages d i1)) (OpenCLDevice d))
    as Hlocked.
  { simpl. erewrite (index_mCLImagesAccess_present d (index_mCLImages d i1)).
    - unfold index_mCLImages. destruct (mCLImages i1 !! d); exact E.
    - unfold index_mCLImages. destruct (mCLImages i1 !! d); exact E. }
  split; [exact Hlocked|]. intros target. apply write_refused_when_locked.
  exists (OpenCLDevice d). exact Hlocked.
Qed.

Lemma device_read_blocks_writers_witness :
  exists a i',
    getOpenCLImageAccess ACCESS_READ 0 created_on_device = Return a i' /\
    acquireAccess Host ACCESS_READ_WRITE i' = Throw concurrent_access_message i'.
Proof.
  do 2 eexists.
  assert (getOpenCLImageAccess ACCESS_READ 0 created_on_device = Return ?[a] ?[i'])
    as Hcall by (vm_compute; reflexivity).
  split; [exact Hcall|].
  apply (device_read_blocks_writers 0 created_on_device _ _ Hcall).
Defined.

(** X11. A reader at the host blocks nobody: [getImageAccess(ACCESS_READ)]
    never marks any location as being accessed. If nothing was being
    accessed before the read, nothing is afterwards, and while the reader
    still holds its accessor a write access is granted at every
    location. *)
Theorem host_read_does_not_lock (i i' : Image2D) (a : ImageAccess2D) :
  getImageAccess ACCESS_READ i = Return a i' ->
  (forall loc, lockedAt i' loc <-> lockedAt i loc) /\
  (~ someLocked i ->
   forall target, exists b i'', acquireAccess target ACCESS_READ_WRITE i' = Return b i'').
Proof.
  rewrite getImageAccess_read.
  destruct (updateHostData i) as [[] i1| |] eqn:E; try discriminate.
  intros [= _ <-]. apply updateHostData_locks in E as (Hhost & Hdevices & _).
  assert (forall loc, lockedAt i1 loc <-> lockedAt i loc) as Hsame.
  { intros [|d]; simpl; rewrite ?Hhost, ?Hdevices; reflexivity. }
  split; [exact Hsame|]. intros Hfree target. apply write_granted_when_free.
  intros [loc Hloc]. apply Hfree. exists loc. apply Hsame, Hloc.
Qed.

Lemma host_read_does_not_lock_witness :
  exists a i' b i'',
    getImageAccess ACCESS_READ created_on_device = Return a i' /\
    acquireAccess (OpenCLDevice 0) ACCESS_READ_WRITE i' = Return b i''.
Proof.
  do 2 eexists.
  assert (getImageAccess ACCESS_READ created_on_device = Return ?[a] ?[i'])
    as Hcall by (vm_compute; reflexivity).
  destruct (proj2 (host_read_does_not_lock created_on_device _ _ Hcall)
              ltac:(apply isAnyDataBeingAccessed_false; reflexivity) (OpenCLDevice 0))
    as (b & i'' & Hwrite).
  exists b, i''. split; [exact Hcall|exact Hwrite].
Defined.

Lemma request_keeps_someUpToDate (r : request) (i : Image2D) :
  someUpToDate i ->
  match request_outcome r i with
  | Return _ i' => someUpToDate i'
  | Throw _ i' => someUpToDate i'
  | Undefined => True
  end.
Proof.
  intros Hup. pose proof (request_keeps_coherent r i (or_introl Hup)) as H.
  destruct r as [w h t c dev|w h t c dev data|[target mode|a]]; simpl in *.
  - revert H. unfold createImage. unfold_monad.
    destruct (isInitialized i); [intros _; exact Hup|]. simpl. intros _.
    destruct Hup as [loc Hloc]. destruct dev as [|d]; simpl.
    + exists loc. destruct loc; exact Hloc.
    + exists (OpenCLDevice d). simpl. apply lookup_insert_eq.
  - destruct (createImage_data w h t c dev data i) as [[] i1|what i1|] eqn:E; [| |exact I].
    + exists dev. exact (createImage_data_up_to_date _ _ _ _ _ _ _ _ E).
    + revert E. unfold createImage_data. unfold_monad.
      destruct (isInitialized i); [intros [= <- <-]; exact Hup|].
      simpl. destruct dev as [|d].
      * destruct (mHostData _); simpl; [|discriminate].
        destruct (copyBytes _ _ _ _ _); simpl; discriminate.
      * case_bool_decide; simpl; discriminate.
  - unfold bind, ret in *.
    pose proof (acquireAccess_keeps_someUpToDate i target mode Hup) as Hacq.
    destruct (acquireAccess target mode i); exact Hacq.
  - destruct Hup as [loc Hloc]. destruct a; simpl; exists loc; destruct loc; exact Hloc.
Qed.

(** X12. Once some location is marked up to date, one stays marked. From an
    object on which [createImage] with data has just returned, at the host
    or at a device, every run of [createImage] calls, access requests and
    releases, granted or refused, ends with some location up to date. *)
Theorem created_with_data_stays_up_to_date width height type nrOfComponents device data
    (rs : list request) (i i0 i' : Image2D) (whats : list string) :
  createImage_data width height type nrOfComponents device data i = Return tt i0 ->
  requests_thrown rs i0 = Some (whats, i') ->
  someUpToDate i'.
Proof.
  intros Hcreate%createImage_data_up_to_date.
  assert (someUpToDate i0) as Hup by (exists device; exact Hcreate).
  clear Hcreate. revert i0 whats Hup.
  induction rs as [|r rs IH]; intros i0 whats Hup; simpl.
  - intros [= _ <-]. exact Hup.
  - pose proof (request_keeps_someUpToDate r i0 Hup) as Hstep.
    destruct (request_outcome r i0) as [[] i1|what i1|]; [| |discriminate].
    + apply IH, Hstep.
    + destruct (requests_thrown rs i1) as [[whats1 i2]|] eqn:E; [|discriminate].
      intros [= _ <-]. exact (IH _ _ Hstep E).
Qed.

Lemma created_with_data_stays_up_to_date_witness :
  exists i',
    createImage_data 2 2 TYPE_FLOAT 1 (OpenCLDevice 0)
      (replicate 4 (PFloat F32.one)) Image2D_new = Return tt created_with_data /\
    requests_thrown
      [Access (Acquire Host ACCESS_READ);
       Access (Acquire (OpenCLDevice 1) ACCESS_READ);
       Access (Acquire Host ACCESS_READ_WRITE)] created_with_data
    = Some ([concurrent_access_message], i') /\
    someUpToDate i'.
Proof.
  eexists.
  split; [vm_compute; reflexivity|]. split; [vm_compute; reflexivity|].
  eapply (created_with_data_stays_up_to_date 2 2 TYPE_FLOAT 1 (OpenCLDevice 0)
            (replicate 4 (PFloat F32.one))
            [Access (Acquire Host ACCESS_READ);
             Access (Acquire (OpenCLDevice 1) ACCESS_READ);
             Access (Acquire Host ACCESS_READ_WRITE)] Image2D_new created_with_data);
    vm_compute; reflexivity.
Defined.

Lemma isDataModified_true (i : Image2D) :
  isDataModified i = true <->
  mHostDataIsUpToDate i = false \/ exists d, mCLImagesIsUpToDate i !! d = Some false.
Proof.
  unfold isDataModified. destruct (mHostDataIsUpToDate i); simpl.
  - rewrite existsb_exists. split.
    + intros [[d b] [Hin Hb]]. simpl in Hb. right. exists d.
      apply elem_of_map_to_list, list_elem_of_In. destruct b; [discriminate|exact Hin].
    + intros [?|[d Hd]]; [discriminate|]. exists (d, false). split; [|reflexivity].
      apply list_elem_of_In, elem_of_map_to_list, Hd.
  - split; auto.
Qed.

(** X13. [isDataModified] after a write: once a write access was granted at
    a device, [isDataModified] answers true, because the host is then
    marked stale whether or not it holds a copy; once it was granted at the
    host, it answers true exactly when the object has an entry for some
    device. *)
Theorem isDataModified_after_write (target : ExecutionDevice) (i i' : Image2D)
    (a : accessor) :
  acquireAccess target ACCESS_READ_WRITE i = Return a i' ->
  isDataModified i' = true <->
  target <> Host \/ exists d, is_Some (mCLImagesIsUpToDate i !! d).
Proof.
  destruct target as [|d]; unfold acquireAccess, bind.
  - rewrite getImageAccess_write. destruct (isAnyDataBeingAccessed i); [discriminate|].
    intros [= _ <-]. rewrite isDataModified_true. simpl. split.
    + intros [?|[d Hd]]; [discriminate|]. right. exists d.
      rewrite lookup_fmap in Hd. destruct (mCLImagesIsUpToDate i !! d); [eauto|discriminate].
    + intros [?|[d [b Hd]]]; [congruence|]. right. exists d.
      rewrite lookup_fmap, Hd. reflexivity.
  - rewrite getOpenCLImageAccess_write. destruct (isAnyDataBeingAccessed i); [discriminate|].
    intros [= _ <-]. rewrite isDataModified_true. split; [intros _; left; discriminate|].
    intros _. left. unfold written_at_device, index_mCLImagesAccess, index_mCLImages.
    simpl. destruct (mCLImages i !! d); simpl; rewrite lookup_insert_eq; reflexivity.
Qed.

Lemma isDataModified_after_write_witness :
  exists a i',
    acquireAccess Host ACCESS_READ_WRITE created_on_host = Return a i' /\
    isDataModified i' = false.
Proof.
  do 2 eexists.
  assert (acquireAccess Host ACCESS_READ_WRITE created_on_host = Return ?[a] ?[i'])
    as Hcall by (vm_compute; reflexivity).
  split; [exact Hcall|].
  pose proof (isDataModified_after_write Host created_on_host _ _ Hcall) as H.
  destruct (isDataModified _); [|reflexivity].
  destruct (proj1 H eq_refl) as [Hne|[d [b Hd]]]; [destruct (Hne eq_refl)|].
  vm_compute in Hd. discriminate Hd.
Defined.

(** X14. A read at the host of an object that was not created on the host
    allocates a new host array on every call: [getImageAccess] never sets
    [mHostHasData] and a read never marks the host up to date, so after the
    read the object is in the same situation as before it, and the array
    the previous read allocated and filled is dropped without being
    deleted. *)
Theorem host_read_allocates_every_time (i i' : Image2D) (a : ImageAccess2D) :
  mHostHasData i = false -> mHostDataIsUpToDate i = false ->
  getImageAccess ACCESS_READ i = Return a i' ->
  mHostHasData i' = false /\ mHostDataIsUpToDate i' = false /\
  exists rest,
    mEvents i' = mEvents i ++ NewHostArray (u32 (mWidth i * mHeight i)) :: rest.
Proof.
  intros Hhas Hstale Hcall.
  pose proof (host_read_marks_nothing _ _ _ Hcall) as [Hup _].
  revert Hcall. rewrite getImageAccess_read.
  destruct (updateHostData i) as [[] i1| |] eqn:E; try discriminate.
  intros [= _ <-]. pose proof (updateHostData_locks _ _ E) as (_ & _ & Hhas').
  split; [congruence|]. split; [congruence|].
  revert E. unfold updateHostData. unfold_monad. rewrite Hstale, Hhas. simpl.
  case_bool_decide.
  - destruct (first_true _) as [src|]; [|discriminate].
    intros (image & format & host & result & _ & _ & _ & _ & ->)
      %transferCLImageToHost_Return. simpl.
    rewrite <- app_assoc. eexists. reflexivity.
  - intros [= <-]. simpl. eexists. reflexivity.
Qed.

Lemma host_read_allocates_every_time_witness :
  exists a i',
    getImageAccess ACCESS_READ created_on_device = Return a i' /\
    mHostHasData i' = false /\ mHostDataIsUpToDate i' = false.
Proof.
  do 2 eexists.
  assert (getImageAccess ACCESS_READ created_on_device = Return ?[a] ?[i'])
    as Hcall by (vm_compute; reflexivity).
  split; [exact Hcall|].
  destruct (host_read_allocates_every_time created_on_device _ _ eq_refl eq_refl Hcall)
    as (Hhas & Hstale & _).
  split; assumption.
Defined.

(* ===================================================================== *)
(** ** The stage: parameters and caches *)
(* ===================================================================== *)

Lemma F32_leb_zero (f : spec_float) :
  F32.leb f (F32.of_int 0) = true <-> nonpositive f.
Proof.
  destruct f as [s|s| |s m e]; simpl; try destruct s; simpl;
    split; try reflexivity; try discriminate; try tauto; try (intros []).
Qed.

(** X15. What the parameter setters accept. [setMaskSize] accepts exactly
    the sizes whose remainder by 2 is 1, and [setStandardDeviation] accepts
    exactly the values that do not compare less than or equal to zero,
    which includes infinity and NaN; [setDevice] accepts every device. An
    accepted call stores the value, sets the modified flag and the
    recreate-mask flag, and changes nothing else: the kernel cache is
    kept, also when the device changes. *)
Theorem setters_accept (w : World) :
  (forall maskSize : Z,
      Z.rem maskSize 2 = 1 <->
      setMaskSize maskSize w = Return tt (parameter_set (set_mMaskSize maskSize) w)) /\
  (forall stdDev : spec_float,
      ~ nonpositive stdDev <->
      setStandardDeviation stdDev w = Return tt (parameter_set (set_mStdDev stdDev) w)) /\
  (forall device : ExecutionDevice,
      setDevice device w = Return tt (parameter_set (set_mDevice device) w)).
Proof.
  split; [|split].
  - intros maskSize. unfold setMaskSize. case_bool_decide as Hrem.
    + split; [intros; contradiction|discriminate].
    + split; [intros _; reflexivity|]. intros _.
      destruct (decide (Z.rem maskSize 2 = 1)); [assumption|contradiction].
  - intros stdDev. unfold setStandardDeviation.
    destruct (F32.leb stdDev (F32.of_int 0)) eqn:Hle.
    + apply F32_leb_zero in Hle. split; [intros; contradiction|discriminate].
    + split; [intros _; reflexivity|]. intros _ Hnon%F32_leb_zero. congruence.
  - intros device. reflexivity.
Qed.

Lemma setters_accept_witness :
  setMaskSize 5 (World_new Host)
  = Return tt (parameter_set (set_mMaskSize 5) (World_new Host)) /\
  setStandardDeviation S754_nan (World_new Host)
  = Return tt (parameter_set (set_mStdDev S754_nan) (World_new Host)).
Proof.
  split.
  - apply (proj1 (setters_accept (World_new Host))). reflexivity.
  - apply (proj1 (proj2 (setters_accept (World_new Host)))). intros [].
Defined.

Section StageCaches.

Variable expf : spec_float -> spec_float.
Variable FAST_ROOT_DIR : string.

(** X16. The kernel cache does not know the device. When a kernel has been
    compiled for the dimensionality and element type of the input and the
    stage is then moved to another device, [recompileOpenCLCode] still
    returns at once: nothing is compiled for the new device, and [mKernel]
    remains the kernel that was built in the context of the old one. *)
Theorem kernel_kept_across_devices (input : nat) (image : Image2D) (w : World)
    (device : ExecutionDevice) :
  imageAt input w = Return image w -> compiledFor image w ->
  exists w',
    setDevice device w = Return tt w' /\
    mDevice (stage w') = device /\
    recompileOpenCLCode FAST_ROOT_DIR input w' = Return tt w' /\
    mKernel (stage w') = mKernel (stage w).
Proof.
  intros Himage Hcompiled. eexists. split; [reflexivity|]. split; [reflexivity|].
  split; [|reflexivity].
  apply (recompileOpenCLCode_compiled FAST_ROOT_DIR input _ image).
  - apply (imageAt_heap input w); [reflexivity|exact Himage].
  - exact Hcompiled.
Qed.

(** What [createMask] leaves behind when it recomputes the mask: the mask
    array is allocated and every weight is written. *)
Lemma createMask_ready (input : nat) (w : World) (image : Image2D) :
  imageAt input w = Return image w ->
  getDimensions image = 2 \/ getDimensions image = 3 ->
  mRecreateMask (stage w) = true ->
  Z.odd (mMaskSize (stage w)) = true -> 1 <= mMaskSize (stage w) <= 255 ->
  exists w',
    createMask expf input w = Return tt w' /\
    mask_ready (mMaskSize (stage w) ^ getDimensions image)
      (fun index => index < mMaskSize (stage w) ^ getDimensions image) w' /\
    mRecreateMask (stage w') = false /\
    heap w' = heap w /\
    (forall d, mDevice (stage w) = OpenCLDevice d ->
               mCLMask (stage w') = mMask (stage w')).
Proof.
  intros Himage Hdims Hflag Hodd Hsize.
  apply Z.odd_spec in Hodd as [h Hh].
  assert (Z.quot (mMaskSize (stage w) - 1) 2 mod 256 = h) as Hhalf.
  { rewrite Hh. replace (2 * h + 1 - 1) with (h * 2) by lia.
    rewrite Z.quot_mul by lia. apply Z.mod_small. lia. }
  assert (0 <= h) as Hh0 by lia.
  unfold createMask. unfold_monad. rewrite Hflag. cbn [negb]. cbv beta iota.
  rewrite Himage, Hhalf. unfold modifyStage, log, modify.
  assert (forall (n : Z) (w1 w3 : World),
    heap w1 = heap w -> same_except_mask w1 w3 ->
    mask_ready n (fun index => index < n) w3 ->
    exists w',
      match
        match mDevice (stage w) with
        | Host => fun s => Return tt s
        | OpenCLDevice device => uploadMask device n
        end w3
      with
      | Return _ s' => Return tt (set_stage (set_mRecreateMask false (stage s')) s')
      | Throw what s' => Throw what s'
      | Undefined => Undefined
      end = Return tt w' /\
      mask_ready n (fun index => index < n) w' /\
      mRecreateMask (stage w') = false /\
      heap w' = heap w /\
      (forall d, mDevice (stage w) = OpenCLDevice d ->
                 mCLMask (stage w') = mMask (stage w')))
    as Hrest.
  { intros n w1 w3 Hheap (Hsame & _) (l & Hl & Hlen & Hcells).
    destruct (mDevice (stage w)) as [|device].
    - exists (set_stage (set_mRecreateMask false (stage w3)) w3). simpl.
      split; [reflexivity|]. split; [exists l; auto|].
      split; [reflexivity|]. split; [congruence|]. discriminate.
    - unfold uploadMask. unfold_monad. unfold modifyStage, log, modify.
      rewrite Hl. rewrite bool_decide_eq_true_2 by lia.
      eexists. split; [reflexivity|]. simpl.
      split; [exists l; auto|]. split; [reflexivity|]. split; [congruence|].
      intros d _. rewrite Hl, take_ge by lia. reflexivity. }
  destruct Hdims as [Hdims|Hdims].
  - rewrite bool_decide_eq_true_2 by exact Hdims.
    match goal with |- context [fillMask2D _ _ _ _ ?s] => set (w1 := s) end.
    destruct (fillMask2D_total expf _ h Hh0 Hh (mStdDev (stage w)) w1)
      as (sum & w2 & E2 & Hready2); [apply replicate_mask_ready; [nia|reflexivity]|].
    rewrite E2.
    destruct (normalizeMask_total _ sum w2 Hready2) as (w3 & E3 & Hready3).
    rewrite E3. rewrite Hdims.
    replace (mMaskSize (stage w) ^ 2) with (mMaskSize (stage w) * mMaskSize (stage w))
      by lia.
    apply (Hrest _ w1 w3 eq_refl); [|exact Hready3].
    eapply same_except_mask_trans;
      [eapply fillMask2D_same_except_mask, E2
      |eapply normalizeMask_same_except_mask, E3].
  - rewrite bool_decide_eq_false_2 by lia.
    rewrite bool_decide_eq_true_2 by exact Hdims.
    match goal with |- context [fillMask3D _ _ _ _ ?s] => set (w1 := s) end.
    destruct (fillMask3D_total expf _ h Hh0 Hh (mStdDev (stage w)) w1)
      as (sum & w2 & E2 & Hready2); [apply replicate_mask_ready; [nia|reflexivity]|].
    rewrite E2.
    destruct (normalizeMask_total _ sum w2 Hready2) as (w3 & E3 & Hready3).
    rewrite E3. rewrite Hdims.
    replace (mMaskSize (stage w) ^ 3)
      with (mMaskSize (stage w) * mMaskSize (stage w) * mMaskSize (stage w)) by lia.
    apply (Hrest _ w1 w3 eq_refl); [|exact Hready3].
    eapply same_except_mask_trans;
      [eapply fillMask3D_same_except_mask, E2
      |eapply normalizeMask_same_except_mask, E3].
Qed.

(** A mask that is ready, as an array all of whose cells are written. *)
Lemma mask_ready_written (n : Z) (w : World) :
  mask_ready n (fun index => index < n) w ->
  exists mask,
    mMask (stage w) = Some mask /\ Z.of_nat (length mask) = n /\
    forall index, (index < length mask)%nat -> exists v, mask !! index = Some (Some v).
Proof.
  intros (l & Hl & Hlen & Hcells). exists l. split; [exact Hl|]. split; [exact Hlen|].
  intros index Hindex.
  destruct (Hcells (Z.of_nat index)) as [v Hv]; [lia|lia|].
  rewrite Nat2Z.id in Hv. eauto.
Qed.

(** X17. [createMask] leaves no weight undefined. With the recreate flag
    set, a 2-D or 3-D input and an odd mask size between 1 and 255, the
    call returns; the mask then has size^2 resp. size^3 cells, every one of
    them written, the flag is cleared, the images are
    untouched, and on an OpenCL device the device buffer holds a copy of
    the whole mask. *)
Theorem createMask_fills_every_weight (input : nat) (w : World) (image : Image2D) :
  imageAt input w = Return image w ->
  getDimensions image = 2 \/ getDimensions image = 3 ->
  mRecreateMask (stage w) = true ->
  Z.odd (mMaskSize (stage w)) = true -> 1 <= mMaskSize (stage w) <= 255 ->
  exists w' mask,
    createMask expf input w = Return tt w' /\
    mMask (stage w') = Some mask /\
    Z.of_nat (length mask) = mMaskSize (stage w) ^ getDimensions image /\
    (forall index, (index < length mask)%nat -> exists v, mask !! index = Some (Some v)) /\
    mRecreateMask (stage w') = false /\
    heap w' = heap w /\
    (forall d, mDevice (stage w) = OpenCLDevice d -> mCLMask (stage w') = Some mask).
Proof.
  intros Himage Hdims Hflag Hodd Hsize.
  destruct (createMask_ready input w image Himage Hdims Hflag Hodd Hsize)
    as (w' & Hcall & Hready & Hclear & Hheap & Hupload).
  destruct (mask_ready_written _ _ Hready) as (mask & Hmask & Hlength & Hwritten).
  exists w', mask. split; [exact Hcall|]. split; [exact Hmask|].
  split; [exact Hlength|]. split; [exact Hwritten|]. split; [exact Hclear|].
  split; [exact Hheap|].
  intros d Hdevice. rewrite (Hupload d Hdevice). exact Hmask.
Qed.

End StageCaches.

Lemma kernel_kept_across_devices_witness :
  exists w',
    setDevice (OpenCLDevice 1) compiled_world = Return tt w' /\
    recompileOpenCLCode "" 0 w' = Return tt w' /\
    mKernel (stage w') = Some 0%nat.
Proof.
  destruct (kernel_kept_across_devices "" 0 created_on_device compiled_world
              (OpenCLDevice 1))
    as (w' & Hset & _ & Hcompile & Hkernel).
  - vm_compute. reflexivity.
  - vm_compute. split; reflexivity.
  - exists w'. split; [exact Hset|]. split; [exact Hcompile|].
    rewrite Hkernel. reflexivity.
Defined.

Lemma createMask_fills_every_weight_witness :
  exists w' mask,
    createMask (fun _ => F32.one) 0 device_world = Return tt w' /\
    mMask (stage w') = Some mask /\ length mask = 25%nat /\
    mCLMask (stage w') = Some mask.
Proof.
  destruct (createMask_fills_every_weight (fun _ => F32.one) 0 device_world
              created_on_device)
    as (w' & mask & Hcall & Hmask & Hlen & _ & _ & _ & Hbuffer).
  - vm_compute. reflexivity.
  - left. reflexivity.
  - reflexivity.
  - reflexivity.
  - vm_compute. split; discriminate.
  - exists w', mask. split; [exact Hcall|]. split; [exact Hmask|].
    split; [|apply (Hbuffer 0%nat); reflexivity].
    change (Z.of_nat (length mask) = 25) in Hlen. lia.
Defined.

(* ===================================================================== *)
(** ** What a call keeps *)
(* ===================================================================== *)

Section Keeps.

Context {S : Type} (R : S -> S -> Prop).
Hypothesis R_refl : forall s, R s s.
Hypothesis R_trans : forall s1 s2 s3, R s1 s2 -> R s2 s3 -> R s1 s3.

Lemma keeps_ret {A} (a : A) : keeps R (ret a).
Proof. intros s. apply R_refl. Qed.

Lemma keeps_throw {A} (what : string) : keeps R (throw (A := A) what).
Proof. intros s. apply R_refl. Qed.

Lemma keeps_undefined {A} : keeps R (undefined (A := A)).
Proof. intros s. exact I. Qed.

Lemma keeps_get : keeps R get.
Proof. intros s. apply R_refl. Qed.

Lemma keeps_modify (f : S -> S) : (forall s, R s (f s)) -> keeps R (modify f).
Proof. intros H s. apply H. Qed.

Lemma keeps_bind {A B} (m : M S A) (k : A -> M S B) :
  keeps R m -> (forall a, keeps R (k a)) -> keeps R (bind m k).
Proof.
  intros Hm Hk s. unfold bind. specialize (Hm s).
  destruct (m s) as [a s1|what s1|]; [|exact Hm|exact I].
  specialize (Hk a s1). destruct (k a s1); try exact I; eapply R_trans; eassumption.
Qed.

Lemma keeps_when (c : bool) (m : M S unit) : keeps R m -> keeps R (when c m).
Proof. intros H. destruct c; [exact H|apply keeps_ret]. Qed.

Lemma keeps_for_each {I} (l : list I) (body : I -> M S unit) :
  (forall i, keeps R (body i)) -> keeps R (for_each l body).
Proof.
  intros H. induction l as [|i l IH]; simpl; [apply keeps_ret|].
  apply keeps_bind; [apply H|intros _; exact IH].
Qed.

Lemma keeps_for_fold {I A} (l : list I) (body : I -> A -> M S A) (a : A) :
  (forall i a, keeps R (body i a)) -> keeps R (for_fold l body a).
Proof.
  intros H. revert a. induction l as [|i l IH]; intros a; simpl; [apply keeps_ret|].
  apply keeps_bind; [apply H|intros a'; apply IH].
Qed.

Lemma keeps_finally {A} (m : M S A) (cleanup : M S unit) :
  keeps R m -> keeps R cleanup -> keeps R (finally m cleanup).
Proof.
  intros Hm Hc s. unfold finally. specialize (Hm s).
  destruct (m s) as [a s1|what s1|]; [| |exact I]; specialize (Hc s1);
    destruct (cleanup s1); try exact I; eapply R_trans; eassumption.
Qed.

Lemma keeps_read_cell {A} (array : option (list (option A))) (index : Z) :
  keeps R (read_cell (S := S) array index).
Proof.
  unfold read_cell. destruct array as [l|]; [|apply keeps_undefined].
  case_bool_decide; [|apply keeps_undefined].
  destruct (l !! Z.to_nat index) as [[v|]|];
    [apply keeps_ret|apply keeps_undefined|apply keeps_undefined].
Qed.

End Keeps.

Lemma same_ports_and_parameters_refl (w : World) : same_ports_and_parameters w w.
Proof. repeat split. Qed.

Lemma same_ports_and_parameters_trans (w1 w2 w3 : World) :
  same_ports_and_parameters w1 w2 -> same_ports_and_parameters w2 w3 ->
  same_ports_and_parameters w1 w3.
Proof.
  intros (A1 & B1 & C1 & D1 & E1 & F1 & G1 & H1) (A2 & B2 & C2 & D2 & E2 & F2 & G2 & H2).
  repeat split; congruence.
Qed.

(** A call that touches the heap, the log or the program counter only. *)
Lemma keeps_ports_same_stage {A} (m : M World A) :
  (forall w, match m w with
             | Return _ w' => stage w' = stage w
             | Throw _ w' => stage w' = stage w
             | Undefined => True
             end) ->
  keeps same_ports_and_parameters m.
Proof.
  intros H w. specialize (H w).
  destruct (m w); try exact I; unfold same_ports_and_parameters; rewrite H;
    repeat split.
Qed.

Lemma keeps_ports_onObject {A} (p : nat) (m : M ImageData A) :
  keeps same_ports_and_parameters (onObject p m).
Proof.
  apply keeps_ports_same_stage. intros w. unfold onObject.
  destruct (heap w !! p); [|exact I]. destruct (m i); reflexivity || exact I.
Qed.

Lemma keeps_ports_imageAt (p : nat) : keeps same_ports_and_parameters (imageAt p).
Proof.
  apply keeps_ports_same_stage. intros w. unfold imageAt.
  destruct (heap w !! p) as [o|]; [|exact I]. destruct (payload o); reflexivity || exact I.
Qed.

Lemma keeps_ports_objectAt (p : nat) : keeps same_ports_and_parameters (objectAt p).
Proof.
  apply keeps_ports_same_stage. intros w. unfold objectAt.
  destruct (heap w !! p) as [o|]; reflexivity || exact I.
Qed.

Lemma keeps_ports_log (e : event) : keeps same_ports_and_parameters (log e).
Proof. apply keeps_ports_same_stage. intros w. reflexivity. Qed.

Lemma keeps_ports_New (content : ImagePayload) :
  keeps same_ports_and_parameters (New content).
Proof. apply keeps_ports_same_stage. intros w. reflexivity. Qed.

Ltac keeps_ports_step :=
  first
    [ apply keeps_ports_onObject
    | apply keeps_ports_imageAt
    | apply keeps_ports_objectAt
    | apply keeps_ports_log
    | apply keeps_ports_New
    | apply keeps_ret; apply same_ports_and_parameters_refl
    | apply keeps_throw; apply same_ports_and_parameters_refl
    | apply keeps_undefined
    | apply keeps_get; apply same_ports_and_parameters_refl
    | apply keeps_read_cell; apply same_ports_and_parameters_refl
    | apply keeps_bind; [apply same_ports_and_parameters_trans| |intros ?]
    | apply keeps_when; [apply same_ports_and_parameters_refl|]
    | apply keeps_finally; [apply same_ports_and_parameters_trans| |]
    | apply keeps_for_each;
      [apply same_ports_and_parameters_refl
      |apply same_ports_and_parameters_trans|intros ?]
    | apply keeps_for_fold;
      [apply same_ports_and_parameters_refl
      |apply same_ports_and_parameters_trans|intros ? ?] ].

Lemma keeps_ports_modifyStage (f : GaussianSmoothingFilter -> GaussianSmoothingFilter) :
  (forall g, mInput (f g) = mInput g /\ mTempOutput (f g) = mTempOutput g /\
             mOutput (f g) = mOutput g /\ mParents (f g) = mParents g /\
             mDevice (f g) = mDevice g /\ mStdDev (f g) = mStdDev g /\
             mMaskSize (f g) = mMaskSize g /\ mIsModified (f g) = mIsModified g) ->
  keeps same_ports_and_parameters (modifyStage f).
Proof. intros H w. apply (H (stage w)). Qed.

Ltac keeps_ports_stage := apply keeps_ports_modifyStage; intros ?; repeat split.

Ltac keeps_ports_auto :=
  repeat first
    [ keeps_ports_step
    | keeps_ports_stage
    | apply keeps_ports_same_stage; intros ?; reflexivity
    | match goal with
      | |- keeps _ (match ?x with _ => _ end) => destruct x
      end ].

Section ExecuteKeeps.

Variable expf : spec_float -> spec_float.
Variable FAST_ROOT_DIR : string.
Variable getDepth : Image2D -> Z.
Variable create3DImage :
  Z -> Z -> Z -> DataType -> Z -> ExecutionDevice -> M Image2D unit.
Variable getOpenCLImageAccess3D : accessType -> nat -> M Image2D OpenCLImageAccess2D.

Lemma keeps_ports_createMask (input : nat) :
  keeps same_ports_and_parameters (createMask expf input).
Proof.
  unfold createMask, fillMask2D, fillMask3D, normalizeMask, uploadMask, storeMask.
  keeps_ports_auto.
Qed.

Lemma keeps_ports_recompileOpenCLCode (input : nat) :
  keeps same_ports_and_parameters (recompileOpenCLCode FAST_ROOT_DIR input).
Proof. unfold recompileOpenCLCode. keeps_ports_auto. Qed.

Lemma keeps_ports_executeAlgorithmOnHost (T : DataType) (input output : nat)
    (mask : option (list (option spec_float))) (maskSize : Z) :
  keeps same_ports_and_parameters
    (executeAlgorithmOnHost getDepth T input output mask maskSize).
Proof.
  unfold executeAlgorithmOnHost, readInput, writeOutput, onImage. keeps_ports_auto.
Qed.

(** X18. [execute] changes neither the ports nor the parameters of the
    stage, and it never clears the modified flag: whether the call returns
    or throws, [mInput], [mTempOutput], [mOutput], the parents, the device,
    the standard deviation, the mask size and [mIsModified] are what they
    were before it. *)
Theorem execute_keeps_ports_and_parameters (w : World) :
  match execute expf FAST_ROOT_DIR getDepth create3DImage getOpenCLImageAccess3D w with
  | Return _ w' => same_ports_and_parameters w w'
  | Throw _ w' => same_ports_and_parameters w w'
  | Undefined => True
  end.
Proof.
  revert w. change (keeps same_ports_and_parameters
    (execute expf FAST_ROOT_DIR getDepth create3DImage getOpenCLImageAccess3D)).
  unfold execute, onImage, setArgImage.
  repeat first
    [ apply keeps_ports_createMask
    | apply keeps_ports_recompileOpenCLCode
    | apply keeps_ports_executeAlgorithmOnHost
    | keeps_ports_step
    | match goal with
      | |- keeps _ (match ?x with _ => _ end) => destruct x
      end ].
Qed.

End ExecuteKeeps.

(* ===================================================================== *)
(** ** [execute] on a static input *)
(* ===================================================================== *)

Lemma image_kept_refl (i : Image2D) : image_kept i i.
Proof. repeat split; auto. Qed.

Lemma image_kept_trans (i1 i2 i3 : Image2D) :
  image_kept i1 i2 -> image_kept i2 i3 -> image_kept i1 i3.
Proof.
  intros (A1 & B1 & C1) (A2 & B2 & C2). repeat split; [congruence|auto|auto].
Qed.

Lemma image_kept_initialized (i i' : Image2D) :
  image_kept i i' -> isInitialized i = true -> isInitialized i' = true.
Proof.
  intros (_ & Hhost & Hdevices). unfold isInitialized.
  intros [Hsize|Hhas]%orb_true_iff; apply orb_true_iff; [left|right; auto].
  apply bool_decide_eq_true in Hsize. apply bool_decide_eq_true.
  destruct (decide (size (mCLImages i') = 0%nat)) as [Hzero|]; [|lia].
  apply map_size_empty_iff in Hzero.
  destruct (decide (mCLImages i = ∅)) as [Hempty|Hne].
  - rewrite Hempty, map_size_empty in Hsize. lia.
  - apply map_choose in Hne as (d & image & Hd).
    destruct (Hdevices d) as [image' Hd']; [eauto|].
    rewrite Hzero, lookup_empty in Hd'. discriminate.
Qed.

Lemma object_kept_refl (o : ImageData) : object_kept o o.
Proof. unfold object_kept. destruct (payload o); [apply image_kept_refl|exact I]. Qed.

Lemma object_kept_trans (o1 o2 o3 : ImageData) :
  object_kept o1 o2 -> object_kept o2 o3 -> object_kept o1 o3.
Proof.
  unfold object_kept.
  destruct (payload o1), (payload o2), (payload o3); try tauto.
  apply image_kept_trans.
Qed.

Lemma objects_kept_refl (w : World) : objects_kept w w.
Proof. intros p o Hp. exists o. split; [exact Hp|apply object_kept_refl]. Qed.

Lemma objects_kept_trans (w1 w2 w3 : World) :
  objects_kept w1 w2 -> objects_kept w2 w3 -> objects_kept w1 w3.
Proof.
  intros H12 H23 p o1 Hp. destruct (H12 p o1 Hp) as (o2 & Hp2 & Hk12).
  destruct (H23 p o2 Hp2) as (o3 & Hp3 & Hk23).
  exists o3. split; [exact Hp3|eapply object_kept_trans; eassumption].
Qed.

(** *** The methods of the image class *)

Lemma image_kept_insert (i i' : Image2D) (d : nat) (v : option (list cell)) :
  mDimensions i' = mDimensions i -> mHostHasData i' = mHostHasData i ->
  mCLImages i' = <[d := v]> (mCLImages i) -> image_kept i i'.
Proof.
  intros Hdims Hhas Himages. split; [exact Hdims|]. split; [congruence|].
  intros d' Hd'. rewrite Himages. destruct (decide (d = d')) as [->|Hne].
  - rewrite lookup_insert_eq. eauto.
  - rewrite lookup_insert_ne by exact Hne. exact Hd'.
Qed.

Lemma image_kept_same (i i' : Image2D) :
  mDimensions i' = mDimensions i -> mHostHasData i' = mHostHasData i ->
  mCLImages i' = mCLImages i -> image_kept i i'.
Proof. intros Hdims Hhas Himages. split; [exact Hdims|]. rewrite Hhas, Himages. auto. Qed.

Lemma keeps_image_transferCLImageFromHost (d : nat) :
  keeps image_kept (transferCLImageFromHost d).
Proof.
  intros i. unfold transferCLImageFromHost.
  destruct (mCLImages i !! d) as [[image|]|] eqn:E; try exact I.
  destruct (mCLImageFormats i !! d); [|exact I].
  destruct (mHostData i); [|exact I]. destruct (copyBytes _ _ _ _ _); [|exact I].
  eapply image_kept_insert; reflexivity.
Qed.

Lemma keeps_image_transferCLImageToHost (d : nat) :
  keeps image_kept (transferCLImageToHost d).
Proof.
  intros i. unfold transferCLImageToHost.
  destruct (mCLImages i !! d) as [[image|]|] eqn:E; try exact I.
  destruct (mCLImageFormats i !! d); [|exact I].
  destruct (mHostData i); [|exact I]. destruct (copyBytes _ _ _ _ _); [|exact I].
  apply image_kept_same; reflexivity.
Qed.

Ltac image_kept_base :=
  first
    [ apply keeps_modify; intros ?;
      first [ apply image_kept_same; reflexivity
            | eapply image_kept_insert; reflexivity ]
    | apply keeps_ret; apply image_kept_refl
    | apply keeps_throw; apply image_kept_refl
    | apply keeps_undefined
    | apply keeps_get; apply image_kept_refl
    | apply keeps_bind; [apply image_kept_trans| |intros ?]
    | apply keeps_when; [apply image_kept_refl|] ].

Ltac image_kept_step :=
  first
    [ apply keeps_image_transferCLImageToHost
    | apply keeps_image_transferCLImageFromHost
    | image_kept_base
    | match goal with
      | |- keeps _ (match ?x with _ => _ end) => destruct x
      end ].

Lemma keeps_image_updateHostData : keeps image_kept updateHostData.
Proof.
  unfold updateHostData. repeat image_kept_step.
Qed.

Lemma keeps_image_updateOpenCLImageData (d : nat) :
  keeps image_kept (updateOpenCLImageData d).
Proof.
  unfold updateOpenCLImageData. repeat image_kept_step.
Qed.

Lemma keeps_image_index_mCLImages (d : nat) :
  keeps image_kept (modify (index_mCLImages d)).
Proof.
  apply keeps_modify. intros i. unfold index_mCLImages.
  destruct (mCLImages i !! d);
    [apply image_kept_refl|eapply image_kept_insert; reflexivity].
Qed.

Lemma keeps_image_index_mCLImagesAccess (d : nat) :
  keeps image_kept (modify (index_mCLImagesAccess d)).
Proof.
  apply keeps_modify. intros i. unfold index_mCLImagesAccess.
  destruct (mCLImagesAccess i !! d);
    [apply image_kept_refl|apply image_kept_same; reflexivity].
Qed.

Lemma keeps_image_getImageAccess (type : accessType) :
  keeps image_kept (getImageAccess type).
Proof.
  unfold getImageAccess, setAllDataToOutOfDate.
  repeat first [apply keeps_image_updateHostData | image_kept_step].
Qed.

Lemma keeps_image_getOpenCLImageAccess (type : accessType) (d : nat) :
  keeps image_kept (getOpenCLImageAccess type d).
Proof.
  unfold getOpenCLImageAccess, setAllDataToOutOfDate.
  repeat first
    [ apply keeps_image_updateOpenCLImageData
    | apply keeps_image_index_mCLImages
    | apply keeps_image_index_mCLImagesAccess
    | image_kept_step ].
Qed.

Lemma keeps_image_createImage width height type nrOfComponents device :
  keeps image_kept (createImage width height type nrOfComponents device).
Proof.
  intros i. unfold createImage. unfold_monad.
  destruct (isInitialized i) eqn:Hinit; [apply image_kept_refl|]. simpl.
  apply orb_false_iff in Hinit as [_ Hhas].
  destruct device as [|d]; simpl.
  - split; [reflexivity|]. split; [reflexivity|]. auto.
  - eapply image_kept_insert; reflexivity.
Qed.

(** *** From the image to the world *)

Lemma keeps_objects_same_heap {A} (m : M World A) :
  (forall w, match m w with
             | Return _ w' => heap w' = heap w
             | Throw _ w' => heap w' = heap w
             | Undefined => True
             end) ->
  keeps objects_kept m.
Proof.
  intros H w. specialize (H w).
  destruct (m w) as [a w'|what w'|]; try exact I;
    intros p o Hp; exists o; rewrite H; (split; [exact Hp|apply object_kept_refl]).
Qed.

Lemma keeps_objects_onObject {A} (p : nat) (m : M ImageData A) :
  keeps object_kept m -> keeps objects_kept (onObject p m).
Proof.
  intros Hm w. unfold onObject. destruct (heap w !! p) as [o|] eqn:Hp; [|exact I].
  specialize (Hm o).
  destruct (m o) as [a o'|what o'|]; try exact I;
    intros q oq Hq; simpl;
    (destruct (decide (p = q)) as [<-|Hne];
     [rewrite lookup_insert_eq; exists o'; split; [reflexivity|congruence]
     |rewrite lookup_insert_ne by exact Hne; exists oq;
      split; [exact Hq|apply object_kept_refl]]).
Qed.

Lemma keeps_object_asImage {A} (m : M Image2D A) :
  keeps image_kept m -> keeps object_kept (asImage m).
Proof.
  intros Hm o. unfold asImage, object_kept.
  destruct (payload o) as [image|frames next] eqn:Hpayload; [|exact I].
  specialize (Hm image). destruct (m image); try exact I; simpl; exact Hm.
Qed.

Lemma keeps_objects_onImage {A} (p : nat) (m : M Image2D A) :
  keeps image_kept m -> keeps objects_kept (onImage p m).
Proof. intros H. apply keeps_objects_onObject, keeps_object_asImage, H. Qed.

Lemma keeps_object_same_payload (f : ImageData -> ImageData) :
  (forall o, payload (f o) = payload o) -> keeps object_kept (modify f).
Proof.
  intros H o. unfold modify, object_kept. rewrite H.
  destruct (payload o); [apply image_kept_refl|exact I].
Qed.

Lemma kept_refl (w : World) : kept w w.
Proof. split; [apply same_ports_and_parameters_refl|apply objects_kept_refl]. Qed.

Lemma kept_trans (w1 w2 w3 : World) : kept w1 w2 -> kept w2 w3 -> kept w1 w3.
Proof.
  intros [A1 B1] [A2 B2].
  split; [eapply same_ports_and_parameters_trans|eapply objects_kept_trans]; eassumption.
Qed.

Lemma keeps_conj {S A} (R1 R2 : S -> S -> Prop) (m : M S A) :
  keeps R1 m -> keeps R2 m -> keeps (fun s s' => R1 s s' /\ R2 s s') m.
Proof.
  intros H1 H2 s. specialize (H1 s). specialize (H2 s).
  destruct (m s); try exact I; split; assumption.
Qed.

Lemma keeps_kept_onImage {A} (p : nat) (m : M Image2D A) :
  keeps image_kept m -> keeps kept (onImage p m).
Proof.
  intros H. apply keeps_conj; [apply keeps_ports_onObject|apply keeps_objects_onImage, H].
Qed.

Lemma keeps_kept_onObject_same_payload (p : nat) (f : ImageData -> ImageData) :
  (forall o, payload (f o) = payload o) -> keeps kept (onObject p (modify f)).
Proof.
  intros H. apply keeps_conj;
    [apply keeps_ports_onObject
    |apply keeps_objects_onObject, keeps_object_same_payload, H].
Qed.

Lemma keeps_kept_same_heap {A} (m : M World A) :
  keeps same_ports_and_parameters m ->
  (forall w, match m w with
             | Return _ w' => heap w' = heap w
             | Throw _ w' => heap w' = heap w
             | Undefined => True
             end) ->
  keeps kept m.
Proof. intros H1 H2. apply keeps_conj; [exact H1|apply keeps_objects_same_heap, H2]. Qed.

Lemma keeps_kept_imageAt (p : nat) : keeps kept (imageAt p).
Proof.
  apply keeps_kept_same_heap; [apply keeps_ports_imageAt|].
  intros w. unfold imageAt. destruct (heap w !! p) as [o|]; [|exact I].
  destruct (payload o); reflexivity || exact I.
Qed.

Lemma keeps_kept_log (e : event) : keeps kept (log e).
Proof. apply keeps_kept_same_heap; [apply keeps_ports_log|]. intros w. reflexivity. Qed.

Ltac kept_step :=
  first
    [ apply keeps_kept_imageAt
    | apply keeps_kept_log
    | apply keeps_ret; apply kept_refl
    | apply keeps_throw; apply kept_refl
    | apply keeps_undefined
    | apply keeps_get; apply kept_refl
    | apply keeps_read_cell; apply kept_refl
    | apply keeps_bind; [apply kept_trans| |intros ?]
    | apply keeps_when; [apply kept_refl|]
    | apply keeps_finally; [apply kept_trans| |]
    | apply keeps_for_each; [apply kept_refl|apply kept_trans|intros ?]
    | apply keeps_for_fold; [apply kept_refl|apply kept_trans|intros ? ?]
    | match goal with
      | |- keeps _ (match ?x with _ => _ end) => destruct x
      end ].

Section ExecuteOnce.

Variable expf : spec_float -> spec_float.
Variable FAST_ROOT_DIR : string.
Variable getDepth : Image2D -> Z.
Variable create3DImage :
  Z -> Z -> Z -> DataType -> Z -> ExecutionDevice -> M Image2D unit.
Variable getOpenCLImageAccess3D : accessType -> nat -> M Image2D OpenCLImageAccess2D.

Lemma same_heap_bind {A B} (m : M World A) (k : A -> M World B) :
  keeps (fun w w' => heap w' = heap w) m ->
  (forall a, keeps (fun w w' => heap w' = heap w) (k a)) ->
  keeps (fun w w' => heap w' = heap w) (bind m k).
Proof. apply keeps_bind. intros; congruence. Qed.

Ltac same_heap_auto :=
  repeat first
    [ apply keeps_modify; intros ?; reflexivity
    | apply keeps_ret; reflexivity
    | apply keeps_throw; reflexivity
    | apply keeps_undefined
    | apply keeps_get; reflexivity
    | apply keeps_read_cell; reflexivity
    | apply keeps_bind; [intros; congruence| |intros ?]
    | apply keeps_for_each; [reflexivity|intros; congruence|intros ?]
    | apply keeps_for_fold; [reflexivity|intros; congruence|intros ? ?]
    | match goal with
      | |- keeps _ (imageAt ?p) =>
          let w := fresh "w" in
          intros w; unfold imageAt; destruct (heap w !! p) as [[[] ? ? ? ?]|];
          simpl; reflexivity || exact I
      | |- keeps _ (match ?x with _ => _ end) => destruct x
      end ].

Lemma keeps_kept_createMask (input : nat) : keeps kept (createMask expf input).
Proof.
  apply keeps_kept_same_heap; [apply keeps_ports_createMask|].
  change (keeps (fun w w' => heap w' = heap w) (createMask expf input)).
  unfold createMask, fillMask2D, fillMask3D, normalizeMask, uploadMask, storeMask,
    modifyStage, log.
  same_heap_auto.
Qed.

Lemma keeps_kept_recompileOpenCLCode (input : nat) :
  keeps kept (recompileOpenCLCode FAST_ROOT_DIR input).
Proof.
  apply keeps_kept_same_heap; [apply keeps_ports_recompileOpenCLCode|].
  change (keeps (fun w w' => heap w' = heap w) (recompileOpenCLCode FAST_ROOT_DIR input)).
  unfold recompileOpenCLCode, modifyStage, log.
  same_heap_auto.
Qed.

Lemma keeps_kept_executeAlgorithmOnHost (T : DataType) (input output : nat)
    (mask : option (list (option spec_float))) (maskSize : Z) :
  keeps kept (executeAlgorithmOnHost getDepth T input output mask maskSize).
Proof.
  unfold executeAlgorithmOnHost, readInput, writeOutput.
  repeat first
    [ apply keeps_kept_onImage;
      first [ apply keeps_image_getImageAccess
            | apply keeps_modify; intros ?; apply image_kept_same; reflexivity ]
    | kept_step ].
Qed.

Lemma execute_initialized_output (w : World) (pIn pOut : nat) :
  mInput (stage w) = Some pIn -> lock (mOutput (stage w)) w = Some pOut ->
  static2DAt pIn w -> initializedAt pOut w ->
  execute expf FAST_ROOT_DIR getDepth create3DImage getOpenCLImageAccess3D w
  = Throw already_initialized_message w.
Proof.
  intros Hin Hlock (oIn & image & HpIn & HoIn & Hdims)
    (oOut & out & HpOut & HoOut & Hinit).
  unfold execute. unfold_monad. rewrite Hin, Hlock.
  unfold objectAt, imageAt, isDynamicData.
  repeat first [rewrite HpIn | rewrite HoIn | progress cbv beta iota].
  rewrite bool_decide_eq_true_2 by exact Hdims.
  unfold onImage, onObject, asImage, create2DImage. rewrite HpOut. cbv beta iota.
  rewrite HoOut. cbv beta iota.
  rewrite createImage_initialized by exact Hinit.
  f_equal. destruct w as [h n f t k], oOut as [content parent time retained count].
  simpl in *. subst content. unfold set_heap, set_payload. simpl.
  rewrite insert_id by exact HpOut. reflexivity.
Qed.

Lemma kept_static2DAt (w w' : World) (p : nat) :
  kept w w' -> static2DAt p w -> static2DAt p w'.
Proof.
  intros [_ Hobjects] (o & image & Hp & Ho & Hdims).
  destruct (Hobjects p o Hp) as (o' & Hp' & Hkept).
  unfold object_kept in Hkept. rewrite Ho in Hkept.
  destruct (payload o') as [image'|] eqn:Ho'; [|destruct Hkept].
  exists o', image'. split; [exact Hp'|]. split; [exact Ho'|].
  destruct Hkept as (Hd & _). unfold getDimensions in *. congruence.
Qed.

Lemma kept_initializedAt (w w' : World) (p : nat) :
  kept w w' -> initializedAt p w -> initializedAt p w'.
Proof.
  intros [_ Hobjects] (o & image & Hp & Ho & Hinit).
  destruct (Hobjects p o Hp) as (o' & Hp' & Hkept).
  unfold object_kept in Hkept. rewrite Ho in Hkept.
  destruct (payload o') as [image'|] eqn:Ho'; [|destruct Hkept].
  exists o', image'. split; [exact Hp'|]. split; [exact Ho'|].
  eapply image_kept_initialized; eassumption.
Qed.

Lemma keeps_kept_release_accessors (p : nat) (a : OpenCLImageAccess2D) :
  keeps kept (onImage p (releaseOpenCLImageAccess a)).
Proof.
  apply keeps_kept_onImage. apply keeps_modify. intros i.
  apply image_kept_same; reflexivity.
Qed.

Lemma keeps_at_bind {S A B} (R : S -> S -> Prop) (m : M S A) (k : A -> M S B) (s : S) :
  (forall s1 s2 s3, R s1 s2 -> R s2 s3 -> R s1 s3) ->
  keeps_at R m s ->
  (forall a s1, m s = Return a s1 -> keeps_at R (k a) s1) ->
  keeps_at R (bind m k) s.
Proof.
  intros Htrans Hm Hk. unfold keeps_at, bind in *.
  destruct (m s) as [a s1|what s1|]; [|exact Hm|exact I].
  specialize (Hk a s1 eq_refl).
  destruct (k a s1); try exact I; eapply Htrans; eassumption.
Qed.

(** The OpenCL branch of [execute] for a static 2-D input. *)
Lemma device_branch_kept (pIn pOut d : nat) (w : World) :
  static2DAt pIn w ->
  keeps_at kept
    (recompileOpenCLCode FAST_ROOT_DIR pIn >>
     let* image := imageAt pIn in
     let access :=
       if bool_decide (getDimensions image = 2) then getOpenCLImageAccess2D
       else getOpenCLImageAccess3D in
     let globalSize :=
       if bool_decide (getDimensions image = 2)
       then [getWidth image; getHeight image]
       else [getWidth image; getHeight image; getDepth image] in
     (let* inputAccess := onImage pIn (access ACCESS_READ d) in
      finally
        (let* outputAccess := onImage pOut (access ACCESS_READ_WRITE d) in
         finally
           (setArgImage inputAccess >> setArgImage outputAccess)
           (onImage pOut (releaseOpenCLImageAccess outputAccess)))
        (onImage pIn (releaseOpenCLImageAccess inputAccess))) >>
     log (EnqueueNDRangeKernel d globalSize)) w.
Proof.
  intros Hstatic.
  apply keeps_at_bind; [apply kept_trans|apply keeps_kept_recompileOpenCLCode|].
  intros [] w1 Hcompile.
  pose proof (keeps_kept_recompileOpenCLCode pIn w) as K. rewrite Hcompile in K.
  destruct (kept_static2DAt _ _ _ K Hstatic) as (o & image & Hp & Ho & Hdims).
  apply keeps_at_bind; [apply kept_trans|apply keeps_kept_imageAt|].
  intros image1 w2. unfold imageAt. rewrite Hp, Ho. intros [= <- <-].
  cbv zeta. rewrite !bool_decide_eq_true_2 by exact Hdims.
  assert (keeps kept
    ((let* inputAccess := onImage pIn (getOpenCLImageAccess2D ACCESS_READ d) in
      finally
        (let* outputAccess := onImage pOut (getOpenCLImageAccess2D ACCESS_READ_WRITE d) in
         finally
           (setArgImage inputAccess >> setArgImage outputAccess)
           (onImage pOut (releaseOpenCLImageAccess outputAccess)))
        (onImage pIn (releaseOpenCLImageAccess inputAccess))) >>
     log (EnqueueNDRangeKernel d [getWidth image; getHeight image]))) as K2.
  { unfold setArgImage, getOpenCLImageAccess2D.
    repeat first
      [ apply keeps_kept_release_accessors
      | apply keeps_kept_onImage; apply keeps_image_getOpenCLImageAccess
      | kept_step ]. }
  exact (K2 w1).
Qed.

(** [execute] from the creation of the output image on, for a static 2-D
    input. *)
Lemma execute_from_creation_kept (pIn pOut : nat) (image : Image2D)
    (device : ExecutionDevice) (w : World) :
  static2DAt pIn w ->
  match
    (onImage pOut
       (create2DImage (getWidth image) (getHeight image) (getDataType image)
          (getNrOfComponents image) device) >>
     createMask expf pIn >>
     (match device with
      | Host =>
          let* w := get in
          let* image := imageAt pIn in
          executeAlgorithmOnHost getDepth (getDataType image) pIn pOut
            (mMask (stage w)) (mMaskSize (stage w))
      | OpenCLDevice device =>
          recompileOpenCLCode FAST_ROOT_DIR pIn >>
          let* image := imageAt pIn in
          let access :=
            if bool_decide (getDimensions image = 2) then getOpenCLImageAccess2D
            else getOpenCLImageAccess3D in
          let globalSize :=
            if bool_decide (getDimensions image = 2)
            then [getWidth image; getHeight image]
            else [getWidth image; getHeight image; getDepth image] in
          (let* inputAccess := onImage pIn (access ACCESS_READ device) in
           finally
             (let* outputAccess := onImage pOut (access ACCESS_READ_WRITE device) in
              finally
                (setArgImage inputAccess >> setArgImage outputAccess)
                (onImage pOut (releaseOpenCLImageAccess outputAccess)))
             (onImage pIn (releaseOpenCLImageAccess inputAccess))) >>
          log (EnqueueNDRangeKernel device globalSize)
      end) >>
     when (negb false) (onObject pIn (release device)) >>
     onObject pOut updateModifiedTimestamp) w
  with
  | Return _ w' => kept w w' /\ initializedAt pOut w'
  | Throw _ w' => kept w w' /\ initializedAt pOut w'
  | Undefined => True
  end.
Proof.
  intros Hstatic.
  pose proof (keeps_kept_onImage pOut _
                (keeps_image_createImage (getWidth image) (getHeight image)
                   (getDataType image) (getNrOfComponents image) device) w) as K0.
  assert (match
            onImage pOut
              (create2DImage (getWidth image) (getHeight image) (getDataType image)
                 (getNrOfComponents image) device) w
          with
          | Return _ w' => initializedAt pOut w'
          | Throw _ w' => initializedAt pOut w'
          | Undefined => True
          end) as Hinit.
  { unfold onImage, onObject, asImage, create2DImage.
    destruct (heap w !! pOut) as [oOut|]; [|exact I].
    destruct (payload oOut) as [out|]; [|exact I].
    destruct (isInitialized out) eqn:Hinit.
    - rewrite createImage_initialized by exact Hinit.
      eexists _, out. simpl. rewrite lookup_insert_eq. auto.
    - destruct (createImage_returns out (getWidth image) (getHeight image)
                  (getDataType image) (getNrOfComponents image) device Hinit)
        as (out' & Hcall & _ & _ & _ & _ & _ & Hinit').
      rewrite Hcall. eexists _, out'. simpl. rewrite lookup_insert_eq. auto. }
  unfold create2DImage in *. unfold bind at 1.
  destruct (onImage pOut _ w) as [[] wa|what wa|]; [|auto|exact I].
  assert (keeps_at kept
    (createMask expf pIn >>
     (match device with
      | Host =>
          let* w := get in
          let* image := imageAt pIn in
          executeAlgorithmOnHost getDepth (getDataType image) pIn pOut
            (mMask (stage w)) (mMaskSize (stage w))
      | OpenCLDevice device =>
          recompileOpenCLCode FAST_ROOT_DIR pIn >>
          let* image := imageAt pIn in
          let access :=
            if bool_decide (getDimensions image = 2) then getOpenCLImageAccess2D
            else getOpenCLImageAccess3D in
          let globalSize :=
            if bool_decide (getDimensions image = 2)
            then [getWidth image; getHeight image]
            else [getWidth image; getHeight image; getDepth image] in
          (let* inputAccess := onImage pIn (access ACCESS_READ device) in
           finally
             (let* outputAccess := onImage pOut (access ACCESS_READ_WRITE device) in
              finally
                (setArgImage inputAccess >> setArgImage outputAccess)
                (onImage pOut (releaseOpenCLImageAccess outputAccess)))
             (onImage pIn (releaseOpenCLImageAccess inputAccess))) >>
          log (EnqueueNDRangeKernel device globalSize)
      end) >>
     when (negb false) (onObject pIn (release device)) >>
     onObject pOut updateModifiedTimestamp) wa) as Hrest.
  { apply keeps_at_bind; [apply kept_trans|apply keeps_kept_createMask|].
    intros [] wb Hmask.
    pose proof (keeps_kept_createMask pIn wa) as K1. rewrite Hmask in K1.
    apply keeps_at_bind; [apply kept_trans| |].
    - destruct device as [|d].
      + assert (keeps kept
                  (let* w := get in
                   let* image := imageAt pIn in
                   executeAlgorithmOnHost getDepth (getDataType image) pIn pOut
                     (mMask (stage w)) (mMaskSize (stage w)))) as K.
        { repeat first [apply keeps_kept_executeAlgorithmOnHost | kept_step]. }
        exact (K wb).
      + apply device_branch_kept.
        apply (kept_static2DAt wa); [exact K1|].
        apply (kept_static2DAt w); [exact K0|exact Hstatic].
    - intros [] wc _.
      assert (keeps kept
                (when (negb false) (onObject pIn (release device)) >>
                 onObject pOut updateModifiedTimestamp)) as K.
      { unfold release, updateModifiedTimestamp.
        repeat first
          [ apply keeps_kept_onObject_same_payload; intros ?; reflexivity
          | kept_step ]. }
      exact (K wc). }
  unfold keeps_at in Hrest.
  match goal with
  | |- match ?m wa with _ => _ end =>
      destruct (m wa) as [[] w'|what' w'|]
  end; try exact I;
    (split; [eapply kept_trans; eassumption|eapply kept_initializedAt; eassumption]).
Qed.

(** A call of [execute] on a static 2-D input, whether it returns or
    throws, keeps the ports and the objects and leaves the output
    initialised. *)
Lemma execute_initializes_output (w : World) (pIn pOut : nat) :
  mInput (stage w) = Some pIn -> lock (mOutput (stage w)) w = Some pOut ->
  static2DAt pIn w ->
  match execute expf FAST_ROOT_DIR getDepth create3DImage getOpenCLImageAccess3D w with
  | Return _ w1 => kept w w1 /\ initializedAt pOut w1
  | Throw _ w1 => kept w w1 /\ initializedAt pOut w1
  | Undefined => True
  end.
Proof.
  intros Hin Hlock (oIn & image & HpIn & HoIn & Hdims).
  pose proof (execute_from_creation_kept pIn pOut image (mDevice (stage w)) w) as H.
  unfold execute. unfold bind at 1. unfold get at 1. rewrite Hin, Hlock.
  unfold bind at 1. unfold objectAt at 1. rewrite HpIn.
  unfold isDynamicData. rewrite HoIn.
  unfold bind at 1. unfold ret at 1. unfold bind at 1. unfold ret at 1.
  unfold bind at 1. unfold imageAt at 1. rewrite HpIn, HoIn.
  rewrite bool_decide_eq_true_2 by exact Hdims.
  apply H. exists oIn, image. auto.
Qed.

(** On a world that a call of [execute] has left with the output
    initialised, the next call throws from [createImage]. *)
Lemma execute_after_execute (w w1 : World) (pIn pOut : nat) :
  mInput (stage w) = Some pIn -> lock (mOutput (stage w)) w = Some pOut ->
  static2DAt pIn w -> kept w w1 -> initializedAt pOut w1 ->
  execute expf FAST_ROOT_DIR getDepth create3DImage getOpenCLImageAccess3D w1
  = Throw already_initialized_message w1.
Proof.
  intros Hin Hlock Hstatic Hkept Hinit.
  pose proof Hkept as [(HmInput & _ & HmOutput & _) _].
  apply (execute_initialized_output w1 pIn pOut).
  - congruence.
  - rewrite HmOutput. revert Hlock. unfold lock.
    destruct (mOutput (stage w)) as [q|]; [|discriminate].
    case_bool_decide; [|discriminate]. intros [= ->].
    destruct Hinit as (o & out & Hp & _).
    rewrite bool_decide_eq_true_2 by (rewrite Hp; eauto). reflexivity.
  - eapply kept_static2DAt; eassumption.
  - exact Hinit.
Qed.

(** X19. A stage with a static input can be executed once. For a static
    2-D input whose output is still referenced, a call of [execute] that
    returns, and equally one that throws, leaves the output initialised,
    and the next call tries to create the output again: it throws "already
    initialized" from [createImage] and changes nothing. *)
Theorem execute_only_once_on_static_input (w : World) (pIn pOut : nat) :
  mInput (stage w) = Some pIn -> lock (mOutput (stage w)) w = Some pOut ->
  static2DAt pIn w ->
  match execute expf FAST_ROOT_DIR getDepth create3DImage getOpenCLImageAccess3D w with
  | Return _ w1 =>
      execute expf FAST_ROOT_DIR getDepth create3DImage getOpenCLImageAccess3D w1
      = Throw already_initialized_message w1
  | Throw _ w1 =>
      execute expf FAST_ROOT_DIR getDepth create3DImage getOpenCLImageAccess3D w1
      = Throw already_initialized_message w1
  | Undefined => True
  end.
Proof.
  intros Hin Hlock Hstatic.
  pose proof (execute_initializes_output w pIn pOut Hin Hlock Hstatic) as Hmain.
  destruct (execute _ _ _ _ _ w) as [[] w1|what w1|]; [| |exact I];
    destruct Hmain as [Hkept Hinit];
    exact (execute_after_execute w w1 pIn pOut Hin Hlock Hstatic Hkept Hinit).
Qed.

End ExecuteOnce.

Lemma execute_only_once_on_static_input_witness :
  exists w1,
    execute (fun _ => F32.one) "" (fun _ => 1)
      (fun _ _ _ _ _ _ => undefined) (fun _ _ => undefined) example_before_pull
    = Return tt w1 /\
    execute (fun _ => F32.one) "" (fun _ => 1)
      (fun _ _ _ _ _ _ => undefined) (fun _ _ => undefined) w1
    = Throw already_initialized_message w1.
Proof.
  eexists. split; [vm_compute; reflexivity|].
  match goal with
  | |- execute _ _ _ _ _ ?w1 = _ =>
      assert (execute (fun _ => F32.one) "" (fun _ => 1)
                (fun _ _ _ _ _ _ => undefined) (fun _ _ => undefined) example_before_pull
              = Return tt w1) as Hexec by (vm_compute; reflexivity)
  end.
  pose proof (execute_only_once_on_static_input (fun _ => F32.one) "" (fun _ => 1)
                (fun _ _ _ _ _ _ => undefined) (fun _ _ => undefined)
                example_before_pull 0%nat 1%nat eq_refl eq_refl) as H.
  rewrite Hexec in H. apply H.
  eexists _, _. split; [vm_compute; reflexivity|]. split; reflexivity.
Defined.

(* ===================================================================== *)
(** ** Each cache is refreshed once *)
(* ===================================================================== *)

Lemma onObject_Return {A} (p : nat) (m : M ImageData A) (w : World)
    (o o' : ImageData) (a : A) :
  heap w !! p = Some o -> m o = Return a o' ->
  onObject p m w = Return a (set_heap (<[p := o']> (heap w)) w).
Proof. intros Hp Hm. unfold onObject. rewrite Hp, Hm. reflexivity. Qed.

Lemma onImage_Return {A} (p : nat) (m : M Image2D A) (w : World) (o : ImageData)
    (i i' : Image2D) (a : A) :
  heap w !! p = Some o -> payload o = StaticData i -> m i = Return a i' ->
  onImage p m w
  = Return a (set_heap (<[p := set_payload (StaticData i') o]> (heap w)) w).
Proof.
  intros Hp Ho Hm. unfold onImage. apply onObject_Return with o; [exact Hp|].
  unfold asImage. rewrite Ho, Hm. reflexivity.
Qed.

(** A read at a device that holds an up-to-date copy marks the device as
    being accessed and changes nothing else. *)
Lemma device_read_resident (d : nat) (i : Image2D) (v : option (list cell)) :
  mCLImagesIsUpToDate i !! d = Some true -> mCLImages i !! d = Some v ->
  getOpenCLImageAccess ACCESS_READ d i
  = Return (mkOpenCLImageAccess2D d v)
      (set_mCLImagesAccess (<[d := true]> (mCLImagesAccess i)) i).
Proof.
  intros Hup Himage. rewrite getOpenCLImageAccess_read.
  rewrite updateOpenCLImageData_up_to_date by exact Hup.
  unfold index_mCLImagesAccess, index_mCLImages. simpl. rewrite Himage. simpl.
  rewrite lookup_insert_eq. simpl. rewrite Himage. reflexivity.
Qed.

(** [createImage] on a device, on an object that is not initialised and
    not being accessed. *)
Lemma createImage_on_device (i : Image2D) width height type nrOfComponents d :
  isInitialized i = false -> isAnyDataBeingAccessed i = false ->
  exists i' buffer,
    createImage width height type nrOfComponents (OpenCLDevice d) i = Return tt i' /\
    isInitialized i' = true /\ isAnyDataBeingAccessed i' = false /\
    mCLImages i' !! d = Some (Some buffer).
Proof.
  intros Hinit Hfree. unfold createImage. unfold_monad. rewrite Hinit. simpl.
  eexists _, _. split; [reflexivity|]. split; [|split].
  - unfold isInitialized. simpl.
    rewrite bool_decide_eq_true_2 by apply size_insert_pos. reflexivity.
  - apply isAnyDataBeingAccessed_false. apply isAnyDataBeingAccessed_false in Hfree.
    intros [[|d'] Hloc]; simpl in Hloc.
    + apply Hfree. exists Host. exact Hloc.
    + destruct (decide (d = d')) as [->|Hne].
      * rewrite lookup_insert_eq in Hloc. discriminate.
      * rewrite lookup_insert_ne in Hloc by exact Hne.
        apply Hfree. exists (OpenCLDevice d'). exact Hloc.
  - simpl. apply lookup_insert_eq.
Qed.

(** Once a pull throws and changes nothing, so does every later pull. *)
Lemma pulls_stuck (exec : M World unit) (what : string) (w : World) (n : nat) :
  exec w = Throw what w -> pulls exec n w = Some w.
Proof. intros H. induction n as [|n IH]; simpl; [reflexivity|]. rewrite H. exact IH. Qed.

Ltac solve_lookup :=
  repeat first [ rewrite lookup_insert_eq
               | rewrite lookup_insert_ne by congruence
               | progress simpl ];
  first [reflexivity | eassumption].

Ltac step_onImage :=
  match goal with
  | |- context [onImage ?p ?m ?w] =>
      erewrite (onImage_Return p m w) by first [solve_lookup | reflexivity]
  end.

Ltac step_onObject :=
  match goal with
  | |- context [onObject ?p ?m ?w] =>
      erewrite (onObject_Return p m w) by first [solve_lookup | reflexivity]
  end.

Section CachesOnce.

Variable expf : spec_float -> spec_float.
Variable FAST_ROOT_DIR : string.
Variable getDepth : Image2D -> Z.
Variable create3DImage :
  Z -> Z -> Z -> DataType -> Z -> ExecutionDevice -> M Image2D unit.
Variable getOpenCLImageAccess3D : accessType -> nat -> M Image2D OpenCLImageAccess2D.

Local Abbreviation pull :=
  (execute expf FAST_ROOT_DIR getDepth create3DImage getOpenCLImageAccess3D)
  (only parsing).

(** The first pull on a device after a parameter change. *)
Lemma first_pull_on_device (d pIn pOut : nat) (image : Image2D) (w : World) :
  device_pull_ready d pIn pOut image w ->
  mRecreateMask (stage w) = true ->
  Z.odd (mMaskSize (stage w)) = true -> 1 <= mMaskSize (stage w) <= 255 ->
  (getDimensions image = mDimensionCLCodeCompiledFor (stage w) ->
   mTypeCLCodeCompiledFor (stage w) <> None) ->
  exists w1 mask,
    pull w = Return tt w1 /\
    masksCreated w1 = S (masksCreated w) /\
    kernelsCompiled w1
    = (kernelsCompiled w + if decide (compiledFor image w) then 0 else 1)%nat /\
    mRecreateMask (stage w1) = false /\
    compiledFor image w1 /\
    mMask (stage w1) = Some mask /\
    Z.of_nat (length mask) = mMaskSize (stage w) ^ 2 /\
    (forall index, (index < length mask)%nat -> exists v, mask !! index = Some (Some v)) /\
    mCLMask (stage w1) = Some mask.
Proof.
  intros (Hdev & Hin & Hlock & Hne & (oIn & HpIn & HoIn) & Hdims & (buffer & Hbuffer)
          & Hup & (oOut & out & HpOut & HoOut & Hinit & Hfree))
    Hflag Hodd Hsize Htype.
  (* the output is created on the device *)
  destruct (createImage_on_device out (getWidth image) (getHeight image)
              (getDataType image) (getNrOfComponents image) d Hinit Hfree)
    as (out1 & target & Hcreate & Hinit1 & Hfree1 & Htarget).
  set (wa := set_heap (<[pOut := set_payload (StaticData out1) oOut]> (heap w)) w).
  assert (onImage pOut
            (create2DImage (getWidth image) (getHeight image) (getDataType image)
               (getNrOfComponents image) (OpenCLDevice d)) w = Return tt wa) as Ha
    by (apply onImage_Return with out; assumption).
  assert (stage wa = stage w) as Hstage_a by reflexivity.
  assert (trace wa = trace w) as Htrace_a by reflexivity.
  assert (imageAt pIn wa = Return image wa) as Himage_a.
  { unfold imageAt. simpl. rewrite lookup_insert_ne by congruence.
    rewrite HpIn, HoIn. reflexivity. }
  (* the mask *)
  destruct (createMask_ready expf pIn wa image Himage_a (or_introl Hdims) Hflag Hodd
              Hsize)
    as (wb & Hb & Hready_b & Hflag_b & Hheap_b & Hupload).
  destruct (mask_ready_written _ _ Hready_b) as (mask & Hmask & Hlength & Hwritten).
  destruct (createMask_recreates expf pIn wa wb image Himage_a (or_introl Hdims) Hflag Hb)
    as (_ & Hmasks_b & Hkernels_b & _ & Hdev_b & Hdims_b & Htype_b).
  pose proof (imageAt_heap _ _ _ _ Hheap_b Himage_a) as Himage_b.
  (* the kernel *)
  destruct (recompileOpenCLCode_total FAST_ROOT_DIR pIn wb image d Himage_b)
    as (wc & Hc); [congruence|rewrite Hdims_b, Htype_b, Hstage_a; exact Htype|].
  destruct (recompileOpenCLCode_effect FAST_ROOT_DIR _ _ _ _ Himage_b Hc)
    as (Hheap_c & Hmasks_c & Hflag_c & Hcompiled_c & Hkernels_c).
  destruct (recompileOpenCLCode_stage FAST_ROOT_DIR _ _ _ Hc)
    as (_ & _ & _ & Hmask_c & Hclmask_c).
  pose proof (imageAt_heap _ _ _ _ Hheap_c Himage_b) as Himage_c.
  assert (heap wc = heap wa) as Hheap by congruence.
  assert (heap wc !! pIn = Some oIn) as Hin_c
    by (rewrite Hheap; simpl; rewrite lookup_insert_ne by congruence; exact HpIn).
  assert (heap wc !! pOut = Some (set_payload (StaticData out1) oOut)) as Hout_c
    by (rewrite Hheap; simpl; apply lookup_insert_eq).
  (* the two accessors *)
  set (image_r := set_mCLImagesAccess (<[d := true]> (mCLImagesAccess image)) image).
  set (wd := set_heap (<[pIn := set_payload (StaticData image_r) oIn]> (heap wc)) wc).
  assert (onImage pIn (getOpenCLImageAccess2D ACCESS_READ d) wc
          = Return (mkOpenCLImageAccess2D d (Some buffer)) wd) as Hd.
  { apply onImage_Return with image.
    - rewrite Hheap. simpl. rewrite lookup_insert_ne by congruence. exact HpIn.
    - exact HoIn.
    - apply device_read_resident; assumption. }
  set (oOut1 := set_payload (StaticData out1) oOut).
  set (we := set_heap
               (<[pOut := set_payload (StaticData (written_at_device d out1)) oOut1]>
                  (heap wd)) wd).
  assert (onImage pOut (getOpenCLImageAccess2D ACCESS_READ_WRITE d) wd
          = Return (mkOpenCLImageAccess2D d (Some target)) we) as He.
  { apply onImage_Return with out1.
    - simpl. rewrite lookup_insert_ne by congruence. rewrite Hheap. simpl.
      apply lookup_insert_eq.
    - reflexivity.
    - unfold getOpenCLImageAccess2D. rewrite getOpenCLImageAccess_write, Hfree1.
      rewrite Htarget. reflexivity. }
  (* the call *)
  eexists _, mask. split.
  { unfold execute. unfold_monad. rewrite Hin, Hlock.
    unfold objectAt at 1. rewrite HpIn. unfold isDynamicData. rewrite HoIn.
    cbv beta iota. unfold imageAt at 1. rewrite HpIn, HoIn.
    rewrite bool_decide_eq_true_2 by exact Hdims.
    rewrite Hdev, Ha, Hb, Hc, Himage_c.
    rewrite bool_decide_eq_true_2 by exact Hdims.
    unfold finally. rewrite Hd, He.
    unfold setArgImage. cbn [cl_access_image negb]. unfold ret. cbv beta iota.
    do 2 step_onImage. unfold log, modify. cbv beta iota. do 2 step_onObject.
    reflexivity. }
  unfold masksCreated, kernelsCompiled, compiledFor in *. simpl.
  rewrite !List.filter_app, !length_app. simpl. rewrite !Nat.add_0_r.
  split; [congruence|]. split.
  { rewrite Hkernels_c, Hkernels_b.
    destruct (decide _) as [Hyes|Hno], (decide _) as [Hyes'|Hno']; try reflexivity;
      exfalso; rewrite ?Hdims_b, ?Htype_b in *; tauto. }
  split; [congruence|]. split; [exact Hcompiled_c|].
  split; [congruence|].
  split; [rewrite Hdims, Hstage_a in Hlength; exact Hlength|].
  split; [exact Hwritten|].
  rewrite Hclmask_c, (Hupload d) by (rewrite Hstage_a; exact Hdev). exact Hmask.
Qed.


End CachesOnce.



(* ===================================================================== *)
(** ** The host algorithm *)
(* ===================================================================== *)

(** *** Loops *)

Lemma for_each_ext {S I} (l : list I) (b1 b2 : I -> M S unit) :
  (forall i s, i ∈ l -> b1 i s = b2 i s) ->
  forall s, for_each l b1 s = for_each l b2 s.
Proof.
  induction l as [|i l IH]; intros Hb s; simpl; [reflexivity|].
  unfold bind. rewrite Hb by left.
  destruct (b2 i s); try reflexivity. apply IH. intros j t Hj. apply Hb. right. exact Hj.
Qed.

Lemma for_each_app {S I} (l1 l2 : list I) (body : I -> M S unit) (s : S) :
  for_each (l1 ++ l2) body s = (for_each l1 body >> for_each l2 body) s.
Proof.
  revert s. induction l1 as [|i l1 IH]; intros s; simpl; [reflexivity|].
  unfold bind. destruct (body i s) as [[] s1| |]; try reflexivity.
  rewrite IH. reflexivity.
Qed.

Lemma for_each_map {S I J} (g : I -> J) (l : list I) (body : J -> M S unit) (s : S) :
  for_each (map g l) body s = for_each l (fun i => body (g i)) s.
Proof.
  revert s. induction l as [|i l IH]; intros s; simpl; [reflexivity|].
  unfold bind. destruct (body (g i) s); try reflexivity. apply IH.
Qed.

(** Two nested loops are one loop over the pairs. *)
Lemma for_each_nested {S I J} (l1 : list I) (l2 : list J) (body : I -> J -> M S unit)
    (s : S) :
  for_each l1 (fun i => for_each l2 (body i)) s
  = for_each (flat_map (fun i => map (fun j => (i, j)) l2) l1)
      (fun ij => body (fst ij) (snd ij)) s.
Proof.
  revert s. induction l1 as [|i l1 IH]; intros s; simpl; [reflexivity|].
  rewrite for_each_app. unfold bind. rewrite for_each_map. simpl.
  destruct (for_each l2 _ s); try reflexivity. apply IH.
Qed.

Lemma for_fold_app {S I A} (l1 l2 : list I) (body : I -> A -> M S A) (a : A) (s : S) :
  for_fold (l1 ++ l2) body a s
  = (let* a' := for_fold l1 body a in for_fold l2 body a') s.
Proof.
  revert a s. induction l1 as [|i l1 IH]; intros a s; simpl; [reflexivity|].
  unfold bind. destruct (body i a s) as [a1 s1| |]; try reflexivity.
  rewrite IH. reflexivity.
Qed.

Lemma for_fold_map {S I J A} (g : I -> J) (l : list I) (body : J -> A -> M S A)
    (a : A) (s : S) :
  for_fold (map g l) body a s = for_fold l (fun i => body (g i)) a s.
Proof.
  revert a s. induction l as [|i l IH]; intros a s; simpl; [reflexivity|].
  unfold bind. destruct (body (g i) a s); try reflexivity. apply IH.
Qed.

Lemma for_fold_nested {S I J A} (l1 : list I) (l2 : list J)
    (body : I -> J -> A -> M S A) (a : A) (s : S) :
  for_fold l1 (fun i a => for_fold l2 (body i) a) a s
  = for_fold (flat_map (fun i => map (fun j => (i, j)) l2) l1)
      (fun ij => body (fst ij) (snd ij)) a s.
Proof.
  revert a s. induction l1 as [|i l1 IH]; intros a s; simpl; [reflexivity|].
  rewrite for_fold_app. unfold bind. rewrite for_fold_map. simpl.
  destruct (for_fold l2 _ a s); try reflexivity. apply IH.
Qed.

(** A loop whose body only computes. *)
Lemma for_fold_pure {S I A} (l : list I) (body : I -> A -> M S A)
    (f : A -> I -> option A) (s : S) :
  (forall i a, i ∈ l ->
     body i a s = match f a i with Some a' => Return a' s | None => Undefined end) ->
  forall a,
    for_fold l body a s
    = match foldl (fun acc i => match acc with Some a => f a i | None => None end)
              (Some a) l with
      | Some r => Return r s
      | None => Undefined
      end.
Proof.
  induction l as [|i l IH]; intros Hb a; simpl; [reflexivity|].
  unfold bind. rewrite Hb by left. destruct (f a i) as [a1|].
  - apply IH. intros j b Hj. apply Hb. right. exact Hj.
  - clear. induction l as [|j l IH]; [reflexivity|exact IH].
Qed.

(** A loop whose body updates one component [d] of the state. *)
Lemma for_each_update {S I D} (st : D -> S) (upd : D -> I -> option D) (l : list I)
    (body : I -> M S unit) :
  (forall i d, i ∈ l ->
     body i (st d)
     = match upd d i with Some d' => Return tt (st d') | None => Undefined end) ->
  forall d,
    for_each l body (st d)
    = match foldl (fun acc i => match acc with Some d => upd d i | None => None end)
              (Some d) l with
      | Some d' => Return tt (st d')
      | None => Undefined
      end.
Proof.
  induction l as [|i l IH]; intros Hb d; simpl; [reflexivity|].
  unfold bind. rewrite Hb by left. destruct (upd d i) as [d1|].
  - apply IH. intros j b Hj. apply Hb. right. exact Hj.
  - clear. induction l as [|j l IH]; [reflexivity|exact IH].
Qed.

Lemma read_cell_cell_at {S A} (array : list (option A)) (index : Z) (s : S) :
  read_cell (Some array) index s
  = match cell_at array index with Some v => Return v s | None => Undefined end.
Proof.
  unfold read_cell, cell_at. case_bool_decide; [|reflexivity].
  destruct (array !! Z.to_nat index) as [[v|]|]; reflexivity.
Qed.

(** *** The call as a function of the buffers *)

Lemma set_mHostData_same (i : Image2D) (data : option (list cell)) :
  mHostData i = data -> set_mHostData data i = i.
Proof. destruct i. simpl. intros <-. reflexivity. Qed.

Section HostAlgorithm.

Variable getDepth : Image2D -> Z.

Variables (T : DataType) (input output : nat) (mask : list (option spec_float))
  (maskSize : Z) (w : World) (oIn oOut : ImageData) (inImage outImage : Image2D)
  (inputData outputData : list cell).

Hypothesis distinct : input <> output.
Hypothesis input_object : heap w !! input = Some oIn.
Hypothesis input_static : payload oIn = StaticData inImage.
Hypothesis output_object : heap w !! output = Some oOut.
Hypothesis output_static : payload oOut = StaticData outImage.
Hypothesis one_component : getNrOfComponents inImage = 1.
Hypothesis two_dimensions : getDimensions inImage <> 3.
Hypothesis input_up_to_date : mHostDataIsUpToDate inImage = true.
Hypothesis input_data : mHostData inImage = Some inputData.
Hypothesis output_free : ~ someLocked outImage.
Hypothesis output_data : mHostData outImage = Some outputData.

Local Abbreviation held :=
  (host_held_world input output oIn oOut inImage outImage w) (only parsing).

Lemma held_input (data : list cell) : imageAt input (held data) = Return inImage (held data).
Proof.
  unfold imageAt, host_held_world. simpl.
  rewrite lookup_insert_ne by congruence. rewrite lookup_insert_eq. reflexivity.
Qed.

Lemma held_output (data : list cell) :
  imageAt output (held data)
  = Return (set_mHostData (Some data) (written_at_host outImage)) (held data).
Proof. unfold imageAt, host_held_world. simpl. rewrite lookup_insert_eq. reflexivity. Qed.

Lemma held_write (data data' : list cell) :
  onImage output (modify (set_mHostData (Some data'))) (held data)
  = Return tt (held data').
Proof.
  unfold onImage, onObject, asImage, modify, host_held_world. simpl.
  rewrite lookup_insert_eq. simpl. rewrite insert_insert_eq. reflexivity.
Qed.

Lemma held_sum (halfSize width x y : Z) (data : list cell) :
  for_fold (range (- halfSize) (halfSize + 1)) (fun b sum =>
  for_fold (range (- halfSize) (halfSize + 1)) (fun a sum =>
    let* m := read_cell (Some mask) (a + halfSize + (b + halfSize) * maskSize) in
    let* v := readInput T input (u32 (x + a + (y + b) * width)) in
    ret (F64.add sum (double_of_float (F32.mul m v)))) sum) F64.zero (held data)
  = match weightedSum T mask inputData maskSize halfSize width x y with
    | Some sum => Return sum (held data)
    | None => Undefined
    end.
Proof.
  rewrite (for_fold_nested (range (- halfSize) (halfSize + 1))
             (range (- halfSize) (halfSize + 1))
             (fun b a sum =>
                let* m := read_cell (Some mask) (a + halfSize + (b + halfSize) * maskSize) in
                let* v := readInput T input (u32 (x + a + (y + b) * width)) in
                ret (F64.add sum (double_of_float (F32.mul m v))))).
  apply (for_fold_pure _ _
           (addTap T mask inputData maskSize halfSize width x y)).
  intros [b a] sum _. cbn [fst snd addTap]. unfold bind at 1.
  rewrite read_cell_cell_at.
  destruct (cell_at mask _) as [m|]; [|reflexivity].
  unfold bind at 1. unfold readInput, bind. rewrite held_input, input_data.
  rewrite (read_cell_cell_at (A := pixel) inputData).
  destruct (cell_at inputData _) as [p|]; [|reflexivity].
  destruct (float_of_pixel T p); reflexivity.
Qed.

Lemma held_pixel (halfSize width : Z) (data : list cell) (yx : Z * Z) :
  (let* sum :=
     for_fold (range (- halfSize) (halfSize + 1)) (fun b sum =>
     for_fold (range (- halfSize) (halfSize + 1)) (fun a sum =>
       let* m := read_cell (Some mask) (a + halfSize + (b + halfSize) * maskSize) in
       let* v := readInput T input (u32 (fst (snd yx, fst yx) + a
                                         + (snd (snd yx, fst yx) + b) * width)) in
       ret (F64.add sum (double_of_float (F32.mul m v)))) sum) F64.zero in
   match pixel_of_double T sum with
   | Some v => writeOutput output (u32 (snd yx + fst yx * width)) v
   | None => undefined
   end) (held data)
  = match storePixel T mask inputData maskSize halfSize width data yx with
    | Some data' => Return tt (held data')
    | None => Undefined
    end.
Proof.
  destruct yx as [y x]. simpl. unfold bind at 1.
  rewrite held_sum. unfold storePixel, smoothedPixel.
  destruct (weightedSum _ _ _ _ _ _ _ _) as [sum|]; [|reflexivity].
  destruct (pixel_of_double T sum) as [v|]; [|reflexivity].
  unfold writeOutput, bind. rewrite held_output.
  change (mHostData (set_mHostData (Some data) (written_at_host outImage)))
    with (Some data).
  unfold storePixel, smoothedPixel.
  unfold write_cell. case_bool_decide; [apply held_write|reflexivity].
Qed.

Lemma executeAlgorithmOnHost_2D :
  executeAlgorithmOnHost getDepth T input output (Some mask) maskSize w
  = match smoothed T mask inputData maskSize (Z.quot (maskSize - 1) 2 mod 256)
            (getWidth inImage) (getHeight inImage) outputData with
    | Some data =>
        Return tt (host_smoothed_world input output oIn oOut inImage outImage data w)
    | None => Undefined
    end.
Proof.
  unfold executeAlgorithmOnHost. unfold bind at 1. unfold imageAt at 1.
  rewrite input_object, input_static.
  rewrite bool_decide_eq_false_2 by (intros H; apply H; exact one_component).
  unfold bind at 1. unfold onImage at 1, onObject, asImage.
  rewrite input_object, input_static.
  rewrite (proj1 (up_to_date_read_is_free inImage) input_up_to_date).
  unfold finally at 1. unfold bind at 1. unfold onImage at 1, onObject, asImage.
  simpl heap. rewrite lookup_insert_ne by congruence.
  rewrite output_object, output_static.
  rewrite getImageAccess_write.
  rewrite (proj2 (isAnyDataBeingAccessed_false outImage) output_free).
  match goal with
  | |- context [set_heap ?h (set_heap ?h' w)] =>
      change (set_heap h (set_heap h' w)) with (set_heap h w)
  end.
  rewrite <- (set_mHostData_same (written_at_host outImage) (Some outputData))
    by exact output_data.
  fold (host_held_world input output oIn oOut inImage outImage w outputData).
  unfold finally at 1. unfold bind at 1. rewrite held_input.
  rewrite bool_decide_eq_false_2 by exact two_dimensions.
  set (halfSize := Z.quot (maskSize - 1) 2 mod 256).
  rewrite (for_each_nested (range halfSize (u32 (getHeight inImage - halfSize)))
             (range halfSize (u32 (getWidth inImage - halfSize)))).
  fold (interior halfSize (getWidth inImage) (getHeight inImage)).
  rewrite (for_each_update held
             (storePixel T mask inputData maskSize halfSize (getWidth inImage)))
    by (intros yx data _; apply held_pixel).
  fold (smoothed T mask inputData maskSize halfSize (getWidth inImage)
          (getHeight inImage) outputData).
  destruct (smoothed _ _ _ _ _ _ _ _) as [data|]; [|reflexivity].
  unfold onImage, onObject, asImage, releaseImageAccess, modify, host_held_world. simpl.
  rewrite lookup_insert_eq. simpl.
  rewrite lookup_insert_ne by congruence. rewrite lookup_insert_ne by congruence.
  rewrite lookup_insert_eq. simpl.
  unfold host_smoothed_world, set_heap. simpl. f_equal. f_equal.
  rewrite insert_insert_eq.
  rewrite (insert_insert_ne _ output input) by congruence.
  rewrite insert_insert_eq. reflexivity.
Qed.

End HostAlgorithm.

(** *** The function of the buffers *)

Lemma elem_of_grid {I J} (l1 : list I) (l2 : list J) (i : I) (j : J) :
  (i, j) ∈ flat_map (fun i => map (fun j => (i, j)) l2) l1 <-> i ∈ l1 /\ j ∈ l2.
Proof.
  rewrite list_elem_of_In, in_flat_map. split.
  - intros (i' & Hi & Hij). apply in_map_iff in Hij as (j' & [= <- <-] & Hj).
    split; apply list_elem_of_In; assumption.
  - intros [Hi Hj]. exists i. split; [apply list_elem_of_In, Hi|].
    apply in_map_iff. exists j. split; [reflexivity|apply list_elem_of_In, Hj].
Qed.

Lemma elem_of_range (lo hi x : Z) : x ∈ range lo hi <-> lo <= x < hi.
Proof. unfold range. rewrite elem_of_seqZ. lia. Qed.

Lemma foldl_option_total {I A} (f : A -> I -> option A) (l : list I) :
  (forall a i, i ∈ l -> is_Some (f a i)) ->
  forall a,
    is_Some (foldl (fun acc i => match acc with Some a => f a i | None => None end)
               (Some a) l).
Proof.
  induction l as [|i l IH]; intros Hf a; simpl; [eauto|].
  destruct (Hf a i) as [a' Ha']; [left|]. rewrite Ha'.
  apply IH. intros b j Hj. apply Hf. right. exact Hj.
Qed.

(** A run of writes [array[key i] = val i]: the cells that are not
    written keep their value, and a cell that is written holds the value
    of the writes to it when they all agree. *)
Lemma writes_run {I A} (key : I -> nat) (val : I -> option A)
    (step : list (option A) -> I -> option (list (option A))) (l : list I) :
  (forall d i v, i ∈ l -> val i = Some v -> (key i < length d)%nat ->
                 step d i = Some (<[key i := Some v]> d)) ->
  forall d,
    (forall i, i ∈ l -> is_Some (val i) /\ (key i < length d)%nat) ->
    exists d',
      foldl (fun acc i => match acc with Some d => step d i | None => None end)
        (Some d) l = Some d' /\
      length d' = length d /\
      (forall n, (forall i, i ∈ l -> key i <> n) -> d' !! n = d !! n) /\
      (forall i v, i ∈ l -> val i = Some v ->
                   (forall j, j ∈ l -> key j = key i -> val j = val i) ->
                   d' !! key i = Some (Some v)).
Proof.
  induction l as [|i0 l IH] using rev_ind; intros Hstep d Hok.
  - exists d. split; [reflexivity|]. split; [reflexivity|]. split; [reflexivity|].
    intros i v Hi. inversion Hi.
  - destruct (IH (fun d i v Hi =>
                    Hstep d i v (proj2 (elem_of_app l [i0] i) (or_introl Hi))) d)
      as (d1 & Hrun & Hlen & Hframe & Hvalue).
    { intros i Hi. apply Hok, elem_of_app. left. exact Hi. }
    destruct (Hok i0) as [[v0 Hv0] Hk0]; [apply elem_of_app; right; left|].
    rewrite foldl_snoc, Hrun.
    rewrite (Hstep d1 i0 v0) by (try (apply elem_of_app; right; left); congruence || lia).
    eexists. split; [reflexivity|]. split; [rewrite length_insert; exact Hlen|]. split.
    + intros n Hn. rewrite list_lookup_insert_ne.
      * apply Hframe. intros i Hi. apply Hn, elem_of_app. left. exact Hi.
      * apply Hn, elem_of_app. right. left.
    + intros i v Hi Hv Hagree.
      destruct (decide (key i = key i0)) as [Heq|Hne].
      * rewrite Heq, list_lookup_insert_eq by lia.
        assert (val i0 = val i) as Hsame
          by (apply Hagree; [apply elem_of_app; right; left|congruence]).
        congruence.
      * rewrite list_lookup_insert_ne by congruence.
        apply elem_of_app in Hi as [Hi|Hi].
        -- apply Hvalue; [exact Hi|exact Hv|].
           intros j Hj. apply Hagree, elem_of_app. left. exact Hj.
        -- apply list_elem_of_singleton in Hi. congruence.
Qed.

Lemma row_major_inj (width x y x' y' : Z) :
  0 <= x < width -> 0 <= x' < width ->
  x + y * width = x' + y' * width -> y = y' /\ x = x'.
Proof.
  intros Hx Hx' Heq.
  assert (y = y') as ->.
  { destruct (Z.lt_trichotomy y y') as [Hlt|[Heq'|Hgt]]; [exfalso|exact Heq'|exfalso].
    - assert ((y + 1) * width <= y' * width) by (apply Z.mul_le_mono_nonneg_r; lia). lia.
    - assert ((y' + 1) * width <= y * width) by (apply Z.mul_le_mono_nonneg_r; lia). lia. }
  split; [reflexivity|lia].
Qed.

Section Buffers.

Variables (T : DataType) (mask : list (option spec_float)) (maskSize halfSize : Z)
  (width height : Z) (inputData outputData : list cell).

(** What the buffers have to satisfy: the mask is the one of the mask
    size, the image is at least as large as the half mask in both
    directions, the output array holds the image, and every pixel of the input
    is a written element of type [T]. *)
Hypothesis odd_mask : maskSize = 2 * halfSize + 1.
Hypothesis half_mask : 0 <= halfSize <= 127.
Hypothesis wide : halfSize <= width < 2 ^ 32.
Hypothesis high : halfSize <= height < 2 ^ 32.
Hypothesis addressable : width * height <= 2 ^ 32.
Hypothesis output_holds : width * height <= Z.of_nat (length outputData).
Hypothesis mask_written :
  forall n, 0 <= n < maskSize * maskSize -> is_Some (cell_at mask n).
Hypothesis input_written :
  forall n, 0 <= n < width * height ->
            exists p, cell_at inputData n = Some p /\ is_Some (float_of_pixel T p).

Lemma elem_of_taps (b a : Z) :
  (b, a) ∈ taps halfSize <-> (- halfSize <= b <= halfSize) /\ (- halfSize <= a <= halfSize).
Proof. unfold taps. rewrite elem_of_grid, !elem_of_range. lia. Qed.

Lemma elem_of_interior (y x : Z) :
  (y, x) ∈ interior halfSize width height
  <-> (halfSize <= y < height - halfSize) /\ (halfSize <= x < width - halfSize).
Proof.
  unfold interior, u32. rewrite elem_of_grid, !elem_of_range.
  rewrite !Z.mod_small by lia. lia.
Qed.

Lemma pixel_index (y x : Z) :
  0 <= y < height -> 0 <= x < width ->
  0 <= x + y * width < width * height /\ u32 (x + y * width) = x + y * width.
Proof.
  intros Hy Hx.
  assert (0 <= x + y * width < width * height) as Hin.
  { assert (0 <= y * width) by (apply Z.mul_nonneg_nonneg; lia).
    assert ((y + 1) * width <= height * width) by (apply Z.mul_le_mono_nonneg_r; lia).
    lia. }
  split; [exact Hin|]. unfold u32. apply Z.mod_small. lia.
Qed.

Lemma weightedSum_total (y x : Z) :
  (y, x) ∈ interior halfSize width height ->
  is_Some (weightedSum T mask inputData maskSize halfSize width x y).
Proof.
  intros [Hy Hx]%elem_of_interior. unfold weightedSum.
  apply foldl_option_total. intros sum [b a] [Hb Ha]%elem_of_taps. unfold addTap.
  destruct (mask_written (a + halfSize + (b + halfSize) * maskSize)) as [m ->]; [nia|].
  destruct (pixel_index (y + b) (x + a)) as [Hin Hu32]; [lia|lia|].
  replace (x + a + (y + b) * width) with (x + a + (y + b) * width) by reflexivity.
  rewrite Hu32. destruct (input_written _ Hin) as (p & -> & [v ->]). eauto.
Qed.

Lemma pixel_key_inj (y x y' x' : Z) :
  (y, x) ∈ interior halfSize width height ->
  (y', x') ∈ interior halfSize width height ->
  Z.to_nat (u32 (x + y * width)) = Z.to_nat (u32 (x' + y' * width)) ->
  (y, x) = (y', x').
Proof.
  intros [Hy Hx]%elem_of_interior [Hy' Hx']%elem_of_interior.
  destruct (pixel_index y x) as [Hin ->]; [lia|lia|].
  destruct (pixel_index y' x') as [Hin' ->]; [lia|lia|].
  intros Hkey. assert (x + y * width = x' + y' * width) as Heq by lia.
  destruct (row_major_inj width x y x' y') as [-> ->]; [lia|lia|exact Heq|reflexivity].
Qed.

(** With such buffers, and if every sum can be cast to [T], the function
    is defined; it gives every interior pixel its sum cast to [T] and
    leaves the other cells of the output array as they were. *)
Lemma smoothed_total :
  (forall y x sum,
     (y, x) ∈ interior halfSize width height ->
     weightedSum T mask inputData maskSize halfSize width x y = Some sum ->
     is_Some (pixel_of_double T sum)) ->
  exists data,
    smoothed T mask inputData maskSize halfSize width height outputData = Some data /\
    length data = length outputData /\
    (forall y x,
       halfSize <= y < height - halfSize -> halfSize <= x < width - halfSize ->
       exists sum v,
         weightedSum T mask inputData maskSize halfSize width x y = Some sum /\
         pixel_of_double T sum = Some v /\
         data !! Z.to_nat (x + y * width) = Some (Some v)) /\
    (forall n,
       (forall y x,
          halfSize <= y < height - halfSize -> halfSize <= x < width - halfSize ->
          n <> Z.to_nat (x + y * width)) ->
       data !! n = outputData !! n).
Proof.
  intros Hcast.
  assert (forall yx, yx ∈ interior halfSize width height ->
            is_Some (smoothedPixel T mask inputData maskSize halfSize width
                       (snd yx) (fst yx))) as Hval.
  { intros [y x] Hyx. unfold smoothedPixel. simpl.
    destruct (weightedSum_total y x Hyx) as [sum Hsum]. rewrite Hsum.
    exact (Hcast y x sum Hyx Hsum). }
  destruct (writes_run
              (fun yx => Z.to_nat (u32 (snd yx + fst yx * width)))
              (fun yx => smoothedPixel T mask inputData maskSize halfSize width
                           (snd yx) (fst yx))
              (storePixel T mask inputData maskSize halfSize width)
              (interior halfSize width height)) with (d := outputData)
    as (data & Hrun & Hlen & Hframe & Hvalue).
  - intros d [y x] v Hyx Hv Hkey. unfold storePixel. simpl in *. rewrite Hv.
    unfold write_cell. rewrite bool_decide_eq_true_2; [reflexivity|].
    apply elem_of_interior in Hyx as [Hy Hx].
    destruct (pixel_index y x) as [Hin Hu]; [lia|lia|]. rewrite Hu in *. lia.
  - intros [y x] Hyx. split; [apply Hval, Hyx|]. simpl.
    apply elem_of_interior in Hyx as [Hy Hx].
    destruct (pixel_index y x) as [Hin ->]; [lia|lia|].
    pose proof output_holds as Hholds. unfold cell in Hholds. lia.
  - exists data. split; [exact Hrun|]. split; [exact Hlen|]. split.
    + intros y x Hy Hx.
      assert ((y, x) ∈ interior halfSize width height) as Hyx
        by (apply elem_of_interior; lia).
      destruct (weightedSum_total y x Hyx) as [sum Hsum].
      destruct (Hcast y x sum Hyx Hsum) as [v Hv].
      exists sum, v. split; [exact Hsum|]. split; [exact Hv|].
      specialize (Hvalue (y, x) v Hyx). simpl in Hvalue.
      destruct (pixel_index y x) as [Hin Hu]; [lia|lia|]. rewrite Hu in Hvalue.
      apply Hvalue.
      * unfold smoothedPixel. rewrite Hsum. exact Hv.
      * intros [y' x'] Hyx' Hkey. simpl in Hkey.
        rewrite <- Hu in Hkey.
        apply (pixel_key_inj y' x' y x Hyx' Hyx) in Hkey. injection Hkey as -> ->.
        reflexivity.
    + intros n Hn. apply Hframe. intros [y x] [Hy Hx]%elem_of_interior. simpl.
      destruct (pixel_index y x) as [Hin ->]; [lia|lia|].
      intros Heq. exact (Hn y x Hy Hx (eq_sym Heq)).
Qed.

End Buffers.

(** *** What the call computes *)

Lemma forallb_lookup {A} (f : A -> bool) (l : list A) (n : nat) (x : A) :
  forallb f l = true -> l !! n = Some x -> f x = true.
Proof.
  intros Hall Hx. rewrite forallb_forall in Hall.
  apply Hall, list_elem_of_In, (list_elem_of_lookup_2 _ n), Hx.
Qed.

Lemma buffers_fit_mask T mask maskSize halfSize width height inputData outputData n :
  buffers_fit T mask maskSize halfSize width height inputData outputData ->
  0 <= n < maskSize * maskSize -> is_Some (cell_at mask n).
Proof.
  intros (_ & _ & _ & _ & _ & _ & _ & Hlen & Hall & _) Hn. unfold cell_at.
  rewrite bool_decide_eq_true_2 by lia.
  destruct (mask !! Z.to_nat n) as [c|] eqn:Hc.
  - pose proof (forallb_lookup _ _ _ _ Hall Hc) as Hsome.
    apply bool_decide_eq_true in Hsome as [v ->]. eauto.
  - apply lookup_ge_None in Hc. lia.
Qed.

Lemma buffers_fit_input T mask maskSize halfSize width height inputData outputData n :
  buffers_fit T mask maskSize halfSize width height inputData outputData ->
  0 <= n < width * height ->
  exists p, cell_at inputData n = Some p /\ is_Some (float_of_pixel T p).
Proof.
  intros (_ & _ & _ & _ & _ & Hlen & _ & _ & _ & Hall) Hn. unfold cell_at.
  rewrite bool_decide_eq_true_2 by lia. unfold cell in *.
  destruct (inputData !! Z.to_nat n) as [c|] eqn:Hc.
  - assert (take (Z.to_nat (width * height)) inputData !! Z.to_nat n = Some c) as Hc'
      by (rewrite lookup_take_lt by lia; exact Hc).
    pose proof (forallb_lookup _ _ _ _ Hall Hc') as Helement.
    destruct c as [p|]; [|discriminate]. apply bool_decide_eq_true in Helement.
    exists p. split; [reflexivity|exact Helement].
  - apply lookup_ge_None in Hc. lia.
Qed.

Section HostSmoothing.

Variable getDepth : Image2D -> Z.

Variables (T : DataType) (input output : nat) (mask : list (option spec_float))
  (maskSize halfSize : Z) (w : World) (oIn oOut : ImageData)
  (inImage outImage : Image2D) (inputData outputData : list cell).

Lemma halfSize_of_maskSize :
  maskSize = 2 * halfSize + 1 -> 0 <= halfSize <= 127 ->
  Z.quot (maskSize - 1) 2 mod 256 = halfSize.
Proof.
  intros -> Hhalf. replace (2 * halfSize + 1 - 1) with (halfSize * 2) by lia.
  rewrite Z.quot_mul by lia. apply Z.mod_small. lia.
Qed.

(** X20. What [executeAlgorithmOnHost] computes for a 2-D image. When the
    buffers fit the image and every sum can be cast to [T], the call
    returns, and every pixel [(x, y)] that is at least [halfSize] away from
    the four borders holds the cast to [T] of the [double] sum, taken over
    the mask row by row, of the [float] products
    [mask[a+halfSize+(b+halfSize)*maskSize] * input[x+a+(y+b)*width]]. *)
Theorem host_smoothing_computes_weighted_sums :
  host_ready input output w oIn oOut inImage outImage inputData outputData ->
  buffers_fit T mask maskSize halfSize (getWidth inImage) (getHeight inImage)
    inputData outputData ->
  (forall y x sum,
     (y, x) ∈ interior halfSize (getWidth inImage) (getHeight inImage) ->
     weightedSum T mask inputData maskSize halfSize (getWidth inImage) x y = Some sum ->
     is_Some (pixel_of_double T sum)) ->
  exists data,
    executeAlgorithmOnHost getDepth T input output (Some mask) maskSize w
    = Return tt (host_smoothed_world input output oIn oOut inImage outImage data w) /\
    forall y x,
      halfSize <= y < getHeight inImage - halfSize ->
      halfSize <= x < getWidth inImage - halfSize ->
      exists sum v,
        weightedSum T mask inputData maskSize halfSize (getWidth inImage) x y
        = Some sum /\
        pixel_of_double T sum = Some v /\
        data !! Z.to_nat (x + y * getWidth inImage) = Some (Some v).
Proof.
  intros (H1 & H2 & H3 & H4 & H5 & H6 & H7 & H8 & H9 & H10 & H11) Hfit Hcast.
  pose proof Hfit as (F1 & F2 & F3 & F4 & F5 & F6 & F7 & _).
  rewrite (executeAlgorithmOnHost_2D getDepth T input output mask maskSize w oIn oOut
             inImage outImage inputData outputData) by assumption.
  rewrite (halfSize_of_maskSize F1 F2).
  destruct (smoothed_total T mask maskSize halfSize (getWidth inImage)
              (getHeight inImage) inputData outputData F1 F2 F3 F4 F5 F7)
    as (data & -> & _ & Hvalues & _).
  - intros n. eapply buffers_fit_mask, Hfit.
  - intros n. eapply buffers_fit_input, Hfit.
  - exact Hcast.
  - exists data. split; [reflexivity|exact Hvalues].
Qed.

(** X21. What [executeAlgorithmOnHost] leaves alone. Under the same
    conditions the output array keeps its length, and every cell that is
    not an interior pixel, the border of [halfSize] pixels in particular,
    is what it was before the call: never written if the array is fresh.
    The input array is not modified. When the call has returned, both
    accessors are released, and the output is marked up to date at the
    host and nowhere else. *)
Theorem host_smoothing_leaves_border :
  host_ready input output w oIn oOut inImage outImage inputData outputData ->
  buffers_fit T mask maskSize halfSize (getWidth inImage) (getHeight inImage)
    inputData outputData ->
  (forall y x sum,
     (y, x) ∈ interior halfSize (getWidth inImage) (getHeight inImage) ->
     weightedSum T mask inputData maskSize halfSize (getWidth inImage) x y = Some sum ->
     is_Some (pixel_of_double T sum)) ->
  exists w' data inImage' outImage',
    executeAlgorithmOnHost getDepth T input output (Some mask) maskSize w
    = Return tt w' /\
    imageAt input w' = Return inImage' w' /\
    imageAt output w' = Return outImage' w' /\
    mHostData inImage' = Some inputData /\
    mHostData outImage' = Some data /\
    length data = length outputData /\
    (forall n,
       (forall y x,
          halfSize <= y < getHeight inImage - halfSize ->
          halfSize <= x < getWidth inImage - halfSize ->
          n <> Z.to_nat (x + y * getWidth inImage)) ->
       data !! n = outputData !! n) /\
    ~ lockedAt inImage' Host /\ ~ lockedAt outImage' Host /\
    (forall loc, upToDateAt outImage' loc <-> loc = Host).
Proof.
  intros (H1 & H2 & H3 & H4 & H5 & H6 & H7 & H8 & H9 & H10 & H11) Hfit Hcast.
  pose proof Hfit as (F1 & F2 & F3 & F4 & F5 & F6 & F7 & _).
  rewrite (executeAlgorithmOnHost_2D getDepth T input output mask maskSize w oIn oOut
             inImage outImage inputData outputData) by assumption.
  rewrite (halfSize_of_maskSize F1 F2).
  destruct (smoothed_total T mask maskSize halfSize (getWidth inImage)
              (getHeight inImage) inputData outputData F1 F2 F3 F4 F5 F7)
    as (data & -> & Hlen & _ & Hframe).
  - intros n. eapply buffers_fit_mask, Hfit.
  - intros n. eapply buffers_fit_input, Hfit.
  - exact Hcast.
  - eexists _, data, _, _. split; [reflexivity|].
    unfold imageAt, host_smoothed_world. simpl.
    rewrite lookup_insert_eq. simpl. split; [reflexivity|].
    rewrite lookup_insert_ne by congruence. rewrite lookup_insert_eq. simpl.
    split; [reflexivity|]. simpl.
    split; [exact H9|]. split; [reflexivity|]. split; [exact Hlen|].
    split; [exact Hframe|]. split; [discriminate|]. split; [discriminate|].
    intros loc. apply (upToDateAt_written_at_host outImage loc).
Qed.

End HostSmoothing.

Lemma example_host_ready :
  exists oIn oOut inImage outImage inputData outputData,
    host_ready 0 1 example_before_host_algorithm oIn oOut inImage outImage
      inputData outputData /\
    buffers_fit TYPE_FLOAT example_mask 3 1 (getWidth inImage) (getHeight inImage)
      inputData outputData /\
    getWidth inImage = 4 /\ getHeight inImage = 4 /\ outputData !! 0%nat = Some None.
Proof.
  let o := eval vm_compute in (heap example_before_host_algorithm !! 0%nat) in
  match o with
  | Some ?oIn =>
      exists oIn;
      match oIn with
      | {| payload := StaticData ?inImage |} =>
          let o' := eval vm_compute in (heap example_before_host_algorithm !! 1%nat) in
          match o' with
          | Some ?oOut =>
              exists oOut;
              match oOut with
              | {| payload := StaticData ?outImage |} =>
                  exists inImage, outImage;
                  match inImage with
                  | {| mHostData := Some ?inputData |} =>
                      match outImage with
                      | {| mHostData := Some ?outputData |} =>
                          exists inputData, outputData
                      end
                  end
              end
          end
      end
  end.
  split; [|split; [|repeat split; reflexivity]].
  - split; [discriminate|].
    split; [vm_compute; reflexivity|]. split; [vm_compute; reflexivity|].
    split; [vm_compute; reflexivity|]. split; [vm_compute; reflexivity|].
    split; [vm_compute; reflexivity|]. split; [vm_compute; discriminate|].
    split; [vm_compute; reflexivity|]. split; [vm_compute; reflexivity|].
    split; [|vm_compute; reflexivity].
    apply isAnyDataBeingAccessed_false. vm_compute. reflexivity.
  - split; [vm_compute; reflexivity|]. split; [lia|].
    split; [vm_compute; split; [discriminate|reflexivity]|].
    split; [vm_compute; split; [discriminate|reflexivity]|].
    split; [vm_compute; discriminate|]. split; [vm_compute; discriminate|].
    split; [vm_compute; discriminate|]. split; [vm_compute; discriminate|].
    split; vm_compute; reflexivity.
Qed.

Lemma host_smoothing_computes_weighted_sums_witness :
  exists w' data v,
    executeAlgorithmOnHost (fun _ => 1) TYPE_FLOAT 0 1 (Some example_mask) 3
      example_before_host_algorithm = Return tt w' /\
    (let* image := imageAt 1 in ret (mHostData image)) w' = Return (Some data) w' /\
    data !! 5%nat = Some (Some v).
Proof.
  destruct example_host_ready
    as (oIn & oOut & inImage & outImage & inputData & outputData & Hready & Hfit & Hw & Hh & Hcell).
  destruct (host_smoothing_computes_weighted_sums (fun _ => 1) TYPE_FLOAT 0 1
              example_mask 3 1 example_before_host_algorithm oIn oOut inImage outImage
              inputData outputData Hready Hfit)
    as (data & Hcall & Hvalues).
  - intros y x sum _ _. eexists. reflexivity.
  - destruct (Hvalues 1 1) as (sum & v & _ & _ & Hv); [lia|lia|].
    rewrite Hw in Hv. eexists. exists data, v.
    split; [exact Hcall|]. split; [|exact Hv].
    unfold host_smoothed_world, bind, imageAt. cbn [heap set_heap].
    rewrite lookup_insert_ne by discriminate. rewrite lookup_insert_eq. reflexivity.
Defined.

Lemma host_smoothing_leaves_border_witness :
  exists w' image data,
    executeAlgorithmOnHost (fun _ => 1) TYPE_FLOAT 0 1 (Some example_mask) 3
      example_before_host_algorithm = Return tt w' /\
    imageAt 1 w' = Return image w' /\ mHostData image = Some data /\
    data !! 0%nat = Some None /\ upToDateAt image Host.
Proof.
  destruct example_host_ready
    as (oIn & oOut & inImage & outImage & inputData & outputData & Hready & Hfit & Hw & Hh & Hcell).
  destruct (host_smoothing_leaves_border (fun _ => 1) TYPE_FLOAT 0 1
              example_mask 3 1 example_before_host_algorithm oIn oOut inImage outImage
              inputData outputData Hready Hfit)
    as (w' & data & inImage' & outImage' & Hcall & _ & Hout & _ & Hdata & _ & Hborder & _ & _ & Hup).
  - intros y x sum _ _. eexists. reflexivity.
  - exists w', outImage', data. split; [exact Hcall|]. split; [exact Hout|].
    split; [exact Hdata|]. split; [|apply Hup; reflexivity].
    rewrite <- Hcell. apply Hborder. intros y x Hy Hx. rewrite Hw in *. lia.
Defined.

Lemma foldl_option_none {I A} (f : A -> I -> option A) (l : list I) :
  foldl (fun acc i => match acc with Some a => f a i | None => None end) None l = None.
Proof. induction l as [|i l IH]; simpl; [reflexivity|exact IH]. Qed.

Lemma foldl_option_fails {I A} (f : A -> I -> option A) (l : list I) (i : I) :
  i ∈ l -> (forall a, f a i = None) ->
  forall acc,
    foldl (fun acc i => match acc with Some a => f a i | None => None end) acc l = None.
Proof.
  intros Hi Hf. induction l as [|j l IH]; intros acc; [inversion Hi|].
  simpl. apply elem_of_cons in Hi as [<-|Hi].
  - destruct acc as [a|]; [rewrite Hf|]; apply foldl_option_none.
  - apply IH, Hi.
Qed.

Lemma u32_negative (z : Z) : - 2 ^ 32 <= z < 0 -> u32 z = z + 2 ^ 32.
Proof.
  intros Hz. unfold u32. symmetry. apply (Z.mod_unique _ _ (-1)); lia.
Qed.

Section LowImage.

Variable getDepth : Image2D -> Z.

Variables (T : DataType) (input output : nat) (mask : list (option spec_float))
  (maskSize halfSize : Z) (w : World) (oIn oOut : ImageData)
  (inImage outImage : Image2D) (inputData outputData : list cell).

(** X22. An image that is lower than the mask radius is read out of
    bounds. The loop bound [height-halfSize] is computed in [unsigned int]
    and wraps around, so the loops are entered although the image has no
    interior pixel; for the first pixel, [(halfSize, halfSize)], the sum
    reaches the tap [a = -halfSize], [b = height-halfSize], which is the
    element [width*height] of the input array, one past its end. For every
    image of a width above [2*halfSize] and a height below [halfSize] the
    call has undefined behaviour. *)
Theorem host_smoothing_reads_past_low_image :
  host_ready input output w oIn oOut inImage outImage inputData outputData ->
  maskSize = 2 * halfSize + 1 -> 0 <= halfSize <= 127 ->
  0 <= getHeight inImage < halfSize ->
  2 * halfSize < getWidth inImage < 2 ^ 32 ->
  getWidth inImage * getHeight inImage < 2 ^ 32 ->
  Z.of_nat (length inputData) <= getWidth inImage * getHeight inImage ->
  executeAlgorithmOnHost getDepth T input output (Some mask) maskSize w = Undefined.
Proof.
  intros (H1 & H2 & H3 & H4 & H5 & H6 & H7 & H8 & H9 & H10 & H11)
    Hsize Hhalf Hheight Hwidth Hfits Hlength.
  rewrite (executeAlgorithmOnHost_2D getDepth T input output mask maskSize w oIn oOut
             inImage outImage inputData outputData) by assumption.
  rewrite (halfSize_of_maskSize maskSize halfSize Hsize Hhalf).
  set (width := getWidth inImage) in *. set (height := getHeight inImage) in *.
  assert (smoothed T mask inputData maskSize halfSize width height outputData = None)
    as ->; [|reflexivity].
  unfold smoothed.
  apply (foldl_option_fails
           (fun data yx => storePixel T mask inputData maskSize halfSize width data yx)
           _ (halfSize, halfSize)).
  - unfold interior. apply elem_of_grid. rewrite !elem_of_range.
    rewrite (u32_negative (height - halfSize)) by lia.
    unfold u32. rewrite (Z.mod_small (width - halfSize)) by lia. lia.
  - intros data. unfold storePixel, smoothedPixel.
    assert (weightedSum T mask inputData maskSize halfSize width halfSize halfSize = None)
      as ->; [|reflexivity].
    unfold weightedSum.
    apply (foldl_option_fails
             (fun sum tap => addTap T mask inputData maskSize halfSize width
                               halfSize halfSize sum tap)
             _ (height - halfSize, - halfSize)).
    + unfold taps. apply elem_of_grid. rewrite !elem_of_range. lia.
    + intros sum. unfold addTap.
      replace (halfSize + - halfSize + (halfSize + (height - halfSize)) * width)
        with (width * height) by lia.
      assert (cell_at inputData (u32 (width * height)) = None) as ->.
      { unfold u32. rewrite Z.mod_small by nia. unfold cell_at.
        case_bool_decide; [|reflexivity].
        rewrite (proj2 (lookup_ge_None inputData _)); [reflexivity|].
        pose proof Hlength as Hl. unfold cell in *. lia. }
      destruct (cell_at mask _); reflexivity.
Qed.

End LowImage.

Lemma host_smoothing_reads_past_low_image_witness :
  executeAlgorithmOnHost (fun _ => 1) TYPE_FLOAT 0 1 (Some (replicate 25 (Some F32.one))) 5
    flat_world = Undefined.
Proof.
  eapply (host_smoothing_reads_past_low_image (fun _ => 1) TYPE_FLOAT 0 1
            (replicate 25 (Some F32.one)) 5 2 flat_world).
  - split; [discriminate|].
    split; [vm_compute; reflexivity|]. split; [vm_compute; reflexivity|].
    split; [vm_compute; reflexivity|]. split; [vm_compute; reflexivity|].
    split; [vm_compute; reflexivity|]. split; [vm_compute; discriminate|].
    split; [vm_compute; reflexivity|]. split; [vm_compute; reflexivity|].
    split; [|vm_compute; reflexivity].
    apply isAnyDataBeingAccessed_false. vm_compute. reflexivity.
  - reflexivity.
  - lia.
  - vm_compute. split; [discriminate|reflexivity].
  - vm_compute. split; reflexivity.
  - vm_compute. reflexivity.
  - vm_compute. discriminate.
Defined.

(* ===================================================================== *)
(** ** The kernel [FilteringLocalMemory] *)
(* ===================================================================== *)

Lemma int_small {S} (z : Z) (s : S) : - 2 ^ 31 <= z < 2 ^ 31 -> int z s = Return z s.
Proof. intros H. unfold int. rewrite bool_decide_eq_true_2 by exact H. reflexivity. Qed.

Lemma mul_small (a b : Z) :
  0 <= a <= 2 ^ 14 -> 0 <= b <= 2 ^ 14 -> 0 <= a * b <= 2 ^ 28.
Proof.
  intros Ha Hb. split; [apply Z.mul_nonneg_nonneg; lia|].
  change (2 ^ 28) with (2 ^ 14 * 2 ^ 14). apply Z.mul_le_mono_nonneg; lia.
Qed.

Lemma foldl_option_flat_map {I J D} (upd : D -> J -> option D) (f : I -> list J)
    (l : list I) (acc : option D) :
  foldl (fun acc j => match acc with Some d => upd d j | None => None end) acc
    (flat_map f l)
  = foldl (fun acc i =>
             match acc with
             | Some d =>
                 foldl (fun acc j => match acc with Some d => upd d j | None => None end)
                   (Some d) (f i)
             | None => None
             end) acc l.
Proof.
  revert acc. induction l as [|i l IH]; intros acc; simpl; [reflexivity|].
  rewrite foldl_app, IH. f_equal.
  destruct acc as [d|]; [reflexivity|apply foldl_option_none].
Qed.

(** A loop whose body writes a run of cells. *)
Lemma for_each_rows {S I J D} (st : D -> S) (upd : D -> J -> option D) (f : I -> list J)
    (l : list I) (body : I -> M S unit) :
  (forall i d, i ∈ l ->
     body i (st d)
     = match foldl (fun acc j => match acc with Some d => upd d j | None => None end)
               (Some d) (f i) with
       | Some d' => Return tt (st d')
       | None => Undefined
       end) ->
  forall d,
    for_each l body (st d)
    = match foldl (fun acc j => match acc with Some d => upd d j | None => None end)
              (Some d) (flat_map f l) with
      | Some d' => Return tt (st d')
      | None => Undefined
      end.
Proof.
  intros Hb d. rewrite foldl_option_flat_map.
  apply (for_each_update st
           (fun d i =>
              foldl (fun acc j => match acc with Some d => upd d j | None => None end)
                (Some d) (f i))).
  exact Hb.
Qed.

Lemma elem_of_work_items (o : BuildOptions) (origin : Z * Z) (item : WorkItem) :
  item ∈ work_items o origin <->
  exists localX localY,
    0 <= localX < LOCAL_SIZE_X o /\ 0 <= localY < LOCAL_SIZE_Y o /\
    item = mkWorkItem (fst origin + localX, snd origin + localY) (localX, localY).
Proof.
  unfold work_items. rewrite list_elem_of_In, in_flat_map. split.
  - intros (localY & Hy & Hitem). apply in_map_iff in Hitem as (localX & <- & Hx).
    apply list_elem_of_In, elem_of_range in Hy, Hx.
    exists localX, localY. repeat split; lia.
  - intros (localX & localY & Hx & Hy & ->). exists localY.
    split; [apply list_elem_of_In, elem_of_range; lia|].
    apply in_map_iff. exists localX.
    split; [reflexivity|apply list_elem_of_In, elem_of_range; lia].
Qed.

Lemma elem_of_columns (o : BuildOptions) (localX x y : Z) :
  x ∈ columns o localX y <->
  (x = (if bool_decide (y < LOCAL_SIZE_Y o) then localX + LOCAL_SIZE_X o else localX)
     \/
   x = (if bool_decide (y < LOCAL_SIZE_Y o) then localX + LOCAL_SIZE_X o else localX)
       + LOCAL_SIZE_X o) /\
  x < LOCAL_WIDTH o.
Proof.
  unfold columns.
  set (x0 := if bool_decide (y < LOCAL_SIZE_Y o) then localX + LOCAL_SIZE_X o else localX).
  rewrite elem_of_app.
  do 2 case_bool_decide; rewrite ?elem_of_nil, ?list_elem_of_singleton; lia.
Qed.

Lemma elem_of_cells (o : BuildOptions) (item : WorkItem) (x y : Z) :
  (x, y) ∈ cells o item <->
  (x, y) = local_id item \/
  (snd (local_id item) = 0 /\ 0 <= y < LOCAL_HEIGHT o /\
   x ∈ columns o (fst (local_id item)) y).
Proof.
  unfold cells. rewrite elem_of_cons. apply or_iff_compat_l.
  case_bool_decide as Hfirst.
  - rewrite list_elem_of_In, in_flat_map. split.
    + intros (y' & Hy' & Hin). apply in_map_iff in Hin as (x' & [= <- <-] & Hx').
      apply list_elem_of_In, elem_of_range in Hy'. apply list_elem_of_In in Hx'.
      repeat split; (lia || assumption).
    + intros (_ & Hy & Hx). exists y. split; [apply list_elem_of_In, elem_of_range; lia|].
      apply in_map_iff. exists x. split; [reflexivity|apply list_elem_of_In, Hx].
  - rewrite elem_of_nil. tauto.
Qed.

Lemma cells_in_tile (o : BuildOptions) (origin : Z * Z) (item : WorkItem) (c : Z * Z) :
  tile_fits o -> item ∈ work_items o origin -> c ∈ cells o item ->
  0 <= fst c < LOCAL_WIDTH o /\ 0 <= snd c < LOCAL_HEIGHT o.
Proof.
  intros (F1 & F2 & F3 & F4 & F5 & F6) (localX & localY & Hx & Hy & ->)%elem_of_work_items.
  destruct c as [x y]. rewrite elem_of_cells. cbn [local_id fst snd].
  intros [[= -> ->]|(_ & Hrow & Hcol%elem_of_columns)]; [lia|].
  destruct (bool_decide (y < LOCAL_SIZE_Y o)); lia.
Qed.

Lemma cells_cover (o : BuildOptions) (origin : Z * Z) (x y : Z) :
  tile_fits o -> 0 <= x < LOCAL_WIDTH o -> x < 2 * LOCAL_SIZE_X o ->
  0 <= y < LOCAL_HEIGHT o ->
  exists item, item ∈ work_items o origin /\ (x, y) ∈ cells o item.
Proof.
  intros (F1 & F2 & F3 & F4 & F5 & F6) Hx Hwide Hy.
  destruct (decide (x < LOCAL_SIZE_X o)) as [Hleft|Hright].
  - destruct (decide (y < LOCAL_SIZE_Y o)) as [Htop|Hbottom].
    + exists (mkWorkItem (fst origin + x, snd origin + y) (x, y)).
      split; [apply elem_of_work_items; exists x, y; repeat split; lia|].
      apply elem_of_cells. left. reflexivity.
    + exists (mkWorkItem (fst origin + x, snd origin + 0) (x, 0)).
      split; [apply elem_of_work_items; exists x, 0; repeat split; lia|].
      apply elem_of_cells. right. cbn [local_id fst snd].
      split; [reflexivity|]. split; [lia|]. apply elem_of_columns.
      rewrite bool_decide_eq_false_2 by lia. lia.
  - exists (mkWorkItem (fst origin + (x - LOCAL_SIZE_X o), snd origin + 0)
              (x - LOCAL_SIZE_X o, 0)).
    split; [apply elem_of_work_items; exists (x - LOCAL_SIZE_X o), 0; repeat split; lia|].
    apply elem_of_cells. right. cbn [local_id fst snd].
    split; [reflexivity|]. split; [lia|]. apply elem_of_columns.
    destruct (bool_decide (y < LOCAL_SIZE_Y o)); lia.
Qed.

Lemma cell_key_inj (o : BuildOptions) (c c' : Z * Z) :
  0 <= fst c < LOCAL_WIDTH o -> 0 <= fst c' < LOCAL_WIDTH o ->
  0 <= snd c -> 0 <= snd c' ->
  Z.to_nat (fst c + snd c * LOCAL_WIDTH o) = Z.to_nat (fst c' + snd c' * LOCAL_WIDTH o) ->
  c = c'.
Proof.
  intros Hx Hx' Hy Hy' Hkey.
  assert (0 <= snd c * LOCAL_WIDTH o) by (apply Z.mul_nonneg_nonneg; lia).
  assert (0 <= snd c' * LOCAL_WIDTH o) by (apply Z.mul_nonneg_nonneg; lia).
  destruct (row_major_inj (LOCAL_WIDTH o) (fst c) (snd c) (fst c') (snd c'))
    as [Hrow Hcol]; [lia|lia|lia|].
  destruct c, c'. simpl in *. congruence.
Qed.

Lemma cell_key_bound (o : BuildOptions) (c : Z * Z) :
  0 <= fst c < LOCAL_WIDTH o -> 0 <= snd c < LOCAL_HEIGHT o ->
  0 <= fst c + snd c * LOCAL_WIDTH o < LOCAL_WIDTH o * LOCAL_HEIGHT o.
Proof.
  intros Hx Hy.
  assert (0 <= snd c * LOCAL_WIDTH o) by (apply Z.mul_nonneg_nonneg; lia).
  assert ((snd c + 1) * LOCAL_WIDTH o <= LOCAL_HEIGHT o * LOCAL_WIDTH o)
    by (apply Z.mul_le_mono_nonneg_r; lia).
  lia.
Qed.

Section Tile.

Variables (o : BuildOptions) (input : image2d_t) (origin : Z * Z) (g : WorkGroup).

Hypothesis fits : tile_fits o.
Hypothesis origin_x : 0 <= fst origin < 2 ^ 30.
Hypothesis origin_y : 0 <= snd origin < 2 ^ 30.

Lemma fetch_into_fill (d : list (option spec_float)) (x y : Z) :
  0 <= x <= 2 ^ 15 -> 0 <= y <= 2 ^ 14 ->
  fetch_into o input (fst origin - HALF_FILTER_SIZE o, snd origin - HALF_FILTER_SIZE o)
    x y (set_sharedMem d g)
  = match fill_cell o input origin d (x, y) with
    | Some d' => Return tt (set_sharedMem d' g)
    | None => Undefined
    end.
Proof.
  intros Hx Hy. destruct fits as (F1 & F2 & F3 & F4 & F5 & F6).
  pose proof (mul_small y (LOCAL_WIDTH o)) as Hrows.
  unfold fetch_into. cbn [fst snd].
  unfold bind at 1. rewrite int_small by lia.
  unfold bind at 1. rewrite int_small by lia.
  unfold bind at 1. rewrite int_small by lia.
  unfold bind at 1. rewrite int_small by lia.
  unfold fill_cell, tile. cbn [fst snd].
  unfold bind. destruct (fetch o input _) as [v|]; [|reflexivity]. simpl.
  unfold store_local, write_cell. simpl. case_bool_decide; reflexivity.
Qed.

Lemma before_barrier_cells (item : WorkItem) (d : list (option spec_float)) :
  item ∈ work_items o origin ->
  before_barrier o input item (set_sharedMem d g)
  = match foldl (fun acc c =>
                   match acc with
                   | Some d => fill_cell o input origin d c
                   | None => None
                   end) (Some d) (cells o item) with
    | Some d' => Return tt (set_sharedMem d' g)
    | None => Undefined
    end.
Proof.
  intros (localX & localY & Hx & Hy & ->)%elem_of_work_items.
  pose proof fits as (F1 & F2 & F3 & F4 & F5 & F6).
  pose proof (mul_small localY (LOCAL_WIDTH o)) as Hrows.
  unfold before_barrier, cells. cbn [global_id local_id fst snd].
  do 8 (unfold bind at 1; rewrite int_small by lia).
  cbn [foldl]. unfold fill_cell at 2, tile. cbn [fst snd].
  replace (fst origin - HALF_FILTER_SIZE o + localX)
    with (fst origin + localX - HALF_FILTER_SIZE o) by lia.
  replace (snd origin - HALF_FILTER_SIZE o + localY)
    with (snd origin + localY - HALF_FILTER_SIZE o) by lia.
  unfold bind at 1. destruct (fetch o input _) as [v|]; cbn [defined ret];
    [|rewrite foldl_option_none; reflexivity].
  unfold bind at 1. unfold store_local at 1. cbn [sharedMem set_sharedMem].
  destruct (write_cell (Some d) _ v) as [d1|];
    [|rewrite foldl_option_none; reflexivity].
  change (set_sharedMem d1 (set_sharedMem d g)) with (set_sharedMem d1 g).
  case_bool_decide as Hfirst; cbn [when]; [|reflexivity].
  do 4 (unfold bind at 1; rewrite int_small by lia).
  replace (fst origin + localX - localX - HALF_FILTER_SIZE o)
    with (fst origin - HALF_FILTER_SIZE o) by lia.
  replace (snd origin + localY - localY - HALF_FILTER_SIZE o)
    with (snd origin - HALF_FILTER_SIZE o) by lia.
  apply (for_each_rows (fun d => set_sharedMem d g) (fill_cell o input origin)
           (fun y => map (fun x => (x, y)) (columns o localX y))).
  intros y d2 Hrow%elem_of_range. unfold columns.
  case_bool_decide as Htop.
  - unfold bind at 1. rewrite int_small by lia.
    unfold bind at 1.
    case_bool_decide as Hfits1; cbn [when app map foldl].
    + rewrite fetch_into_fill by lia.
      destruct (fill_cell o input origin d2 _) as [d3|].
      * unfold bind at 1. rewrite int_small by lia.
        case_bool_decide as Hfits2; cbn [when app map foldl]; [|reflexivity].
        unfold bind at 1. rewrite int_small by lia.
        rewrite fetch_into_fill by lia. reflexivity.
      * case_bool_decide; cbn [app map foldl]; reflexivity.
    + cbn [ret]. unfold bind at 1. rewrite int_small by lia.
      case_bool_decide as Hfits2; cbn [when app map foldl]; [|reflexivity].
      unfold bind at 1. rewrite int_small by lia.
      rewrite fetch_into_fill by lia. reflexivity.
  - unfold bind at 1. cbn [ret]. unfold bind at 1.
    case_bool_decide as Hfits1; cbn [when app map foldl].
    + rewrite fetch_into_fill by lia.
      destruct (fill_cell o input origin d2 _) as [d3|].
      * unfold bind at 1. rewrite int_small by lia.
        case_bool_decide as Hfits2; cbn [when app map foldl]; [|reflexivity].
        unfold bind at 1. rewrite int_small by lia.
        rewrite fetch_into_fill by lia. reflexivity.
      * case_bool_decide; cbn [app map foldl]; reflexivity.
    + cbn [ret]. unfold bind at 1. rewrite int_small by lia.
      case_bool_decide as Hfits2; cbn [when app map foldl]; [|reflexivity].
      unfold bind at 1. rewrite int_small by lia.
      rewrite fetch_into_fill by lia. reflexivity.
Qed.

Lemma fetch_phase (items : list WorkItem) (d : list (option spec_float)) :
  (forall item, item ∈ items -> item ∈ work_items o origin) ->
  for_each items (before_barrier o input) (set_sharedMem d g)
  = match foldl (fun acc c =>
                   match acc with
                   | Some d => fill_cell o input origin d c
                   | None => None
                   end) (Some d) (flat_map (cells o) items) with
    | Some d' => Return tt (set_sharedMem d' g)
    | None => Undefined
    end.
Proof.
  intros Hitems.
  apply (for_each_rows (fun d => set_sharedMem d g) (fill_cell o input origin) (cells o)).
  intros item d1 Hitem. apply before_barrier_cells, Hitems, Hitem.
Qed.

End Tile.

Lemma set_sharedMem_same (g : WorkGroup) : set_sharedMem (sharedMem g) g = g.
Proof. destruct g. reflexivity. Qed.

Lemma fill_cell_insert (o : BuildOptions) (input : image2d_t) (origin : Z * Z)
    (d : list (option spec_float)) (c : Z * Z) (v : spec_float) :
  0 <= fst c + snd c * LOCAL_WIDTH o ->
  tile o input origin c = Some v ->
  (Z.to_nat (fst c + snd c * LOCAL_WIDTH o) < length d)%nat ->
  fill_cell o input origin d c
  = Some (<[Z.to_nat (fst c + snd c * LOCAL_WIDTH o) := Some v]> d).
Proof.
  intros Hkey Hv Hlen. unfold fill_cell, write_cell. rewrite Hv.
  rewrite bool_decide_eq_true_2 by lia. reflexivity.
Qed.

Lemma barrier_tile (o : BuildOptions) (input : image2d_t)
    (origin : Z * Z) (items : list WorkItem) (g : WorkGroup) :
  tile_fits o -> group_ready o origin items g -> readable o input ->
  exists mem,
    for_each items (before_barrier o input) g = Return tt (set_sharedMem mem g) /\
    length mem = length (sharedMem g) /\
    (forall x y,
       0 <= x < LOCAL_WIDTH o -> x < 2 * LOCAL_SIZE_X o -> 0 <= y < LOCAL_HEIGHT o ->
       exists v,
         fetch o input (fst origin - HALF_FILTER_SIZE o + x,
                        snd origin - HALF_FILTER_SIZE o + y) = Some v /\
         mem !! Z.to_nat (x + y * LOCAL_WIDTH o) = Some (Some v)) /\
    (forall n, LOCAL_WIDTH o * LOCAL_HEIGHT o <= Z.of_nat n ->
               mem !! n = sharedMem g !! n).
Proof.
  intros Hfits (Hitems & Hox & Hoy & Hmem) Hread.
  assert (forall item, item ∈ items <-> item ∈ work_items o origin) as Hin
    by (intros item; rewrite Hitems; reflexivity).
  pose proof (fetch_phase o input origin g Hfits Hox Hoy items (sharedMem g)
                (fun item => proj1 (Hin item))) as Hrun.
  rewrite set_sharedMem_same in Hrun. rewrite Hrun. clear Hrun.
  assert (forall c, c ∈ flat_map (cells o) items ->
                    0 <= fst c < LOCAL_WIDTH o /\ 0 <= snd c < LOCAL_HEIGHT o) as Htile.
  { intros c (item & Hitem & Hc)%list_elem_of_In%in_flat_map.
    apply (cells_in_tile o origin item c Hfits);
      [apply Hin, list_elem_of_In, Hitem|apply list_elem_of_In, Hc]. }
  destruct (writes_run (fun c => Z.to_nat (fst c + snd c * LOCAL_WIDTH o))
              (tile o input origin) (fill_cell o input origin)
              (flat_map (cells o) items)) with (d := sharedMem g)
    as (mem & -> & Hlen & Hframe & Hvalue).
  - intros d c v Hc Hv Hkey. apply fill_cell_insert; [|exact Hv|exact Hkey].
    pose proof (cell_key_bound o c) as Hbound. destruct (Htile c Hc). lia.
  - intros c Hc. split; [apply Hread|].
    pose proof (cell_key_bound o c) as Hbound. destruct (Htile c Hc). lia.
  - exists mem. split; [reflexivity|]. split; [exact Hlen|]. split.
    + intros x y Hx Hwide Hy.
      destruct (Hread (fst origin - HALF_FILTER_SIZE o + x,
                       snd origin - HALF_FILTER_SIZE o + y)) as [v Hv].
      exists v. split; [exact Hv|].
      destruct (cells_cover o origin x y Hfits Hx Hwide Hy) as (item & Hitem & Hcell).
      apply (Hvalue (x, y) v).
      * apply list_elem_of_In, in_flat_map. exists item.
        split; apply list_elem_of_In; [apply Hin, Hitem|exact Hcell].
      * exact Hv.
      * intros c Hc Hkey. destruct (Htile c Hc).
        rewrite (cell_key_inj o c (x, y)); [reflexivity|simpl; lia..|exact Hkey].
    + intros n Hn. apply Hframe. intros c Hc.
      pose proof (cell_key_bound o c) as Hbound. destruct (Htile c Hc). lia.
Qed.

(** *** From the barrier on *)

Lemma foldl_ext_in {A I} (f1 f2 : A -> I -> A) (l : list I) :
  (forall a i, i ∈ l -> f1 a i = f2 a i) ->
  forall a, foldl f1 a l = foldl f2 a l.
Proof.
  induction l as [|i l IH]; intros Hf a; simpl; [reflexivity|].
  rewrite Hf by left. apply IH. intros b j Hj. apply Hf. right. exact Hj.
Qed.

Lemma foldl_map {A I J} (f : A -> J -> A) (h : I -> J) (l : list I) (a : A) :
  foldl f a (map h l) = foldl (fun a i => f a (h i)) a l.
Proof. revert a. induction l as [|i l IH]; intros a; simpl; [reflexivity|apply IH]. Qed.

Lemma addRow_none (mad : spec_float -> spec_float -> spec_float -> spec_float)
    (mem mask : list (option spec_float)) (base weights : Z) (l : list Z) :
  foldl (addRow mad mem mask base weights) None l = None.
Proof. induction l as [|x l IH]; simpl; [reflexivity|exact IH]. Qed.

Lemma addRows_none (o : BuildOptions)
    (mad : spec_float -> spec_float -> spec_float -> spec_float)
    (mem mask : list (option spec_float)) (first weights : Z) (l : list Z) :
  foldl (addRows o mad mem mask first weights) None l = None.
Proof.
  induction l as [|y l IH]; simpl; [reflexivity|].
  unfold addRows at 2. rewrite addRow_none. exact IH.
Qed.

Lemma local_sum_rows (o : BuildOptions)
    (mad : spec_float -> spec_float -> spec_float -> spec_float)
    (mem mask : list (option spec_float)) (index : Z) :
  local_sum o mad mem mask index
  = foldl (addRows o mad mem mask (index + HALF_FILTER_SIZE o * LOCAL_WIDTH o)
             (HALF_FILTER_SIZE o * FILTER_SIZE o))
      (Some F32.zero) (range (- HALF_FILTER_SIZE o) (HALF_FILTER_SIZE o + 1)).
Proof.
  unfold local_sum, taps. rewrite foldl_option_flat_map.
  apply foldl_ext_in. intros acc y _. unfold addRows.
  destruct acc as [sum|]; [|rewrite addRow_none; reflexivity].
  rewrite foldl_map. apply foldl_ext_in. intros [sum'|] x _; [|reflexivity].
  unfold addLocal, addRow.
  replace (index + HALF_FILTER_SIZE o * LOCAL_WIDTH o + y * LOCAL_WIDTH o
           + HALF_FILTER_SIZE o + x)
    with (index + (x + HALF_FILTER_SIZE o) + (y + HALF_FILTER_SIZE o) * LOCAL_WIDTH o)
    by lia.
  replace (HALF_FILTER_SIZE o * FILTER_SIZE o + y * FILTER_SIZE o + HALF_FILTER_SIZE o + x)
    with (x + HALF_FILTER_SIZE o + (y + HALF_FILTER_SIZE o) * FILTER_SIZE o) by lia.
  reflexivity.
Qed.

Section Sum.

Variables (o : BuildOptions) (mad : spec_float -> spec_float -> spec_float -> spec_float)
  (mask : list (option spec_float)) (g : WorkGroup).

Lemma accumulate_pure (sum : spec_float) (index ySizeAdd : Z) :
  - 2 ^ 31 <= index + 1 < 2 ^ 31 -> - 2 ^ 31 <= ySizeAdd + 1 < 2 ^ 31 ->
  accumulate mad mask (sum, index, ySizeAdd) g
  = match cell_at (sharedMem g) index, cell_at mask ySizeAdd with
    | Some a, Some b => Return (mad sum a b, index + 1, ySizeAdd + 1) g
    | _, _ => Undefined
    end.
Proof.
  intros Hindex Hweights. unfold accumulate.
  unfold bind at 1. unfold get at 1.
  unfold bind at 1. rewrite read_cell_cell_at.
  destruct (cell_at (sharedMem g) index) as [a|]; [|reflexivity].
  unfold bind at 1. rewrite int_small by exact Hindex.
  unfold bind at 1. rewrite read_cell_cell_at.
  destruct (cell_at mask ySizeAdd) as [b|]; [|reflexivity].
  unfold bind at 1. rewrite int_small by exact Hweights. reflexivity.
Qed.

Lemma row_sum (k : nat) :
  forall (n lo base weights : Z) (sum : spec_float),
    Z.to_nat n = k -> 0 <= n ->
    - 2 ^ 31 <= base + lo -> base + lo + n < 2 ^ 31 ->
    - 2 ^ 31 <= weights + lo -> weights + lo + n < 2 ^ 31 ->
    for_fold (seqZ lo n) (fun x locals => accumulate mad mask locals)
      (sum, base + lo, weights + lo) g
    = match foldl (addRow mad (sharedMem g) mask base weights) (Some sum) (seqZ lo n) with
      | Some sum' => Return (sum', base + lo + n, weights + lo + n) g
      | None => Undefined
      end.
Proof.
  induction k as [|k IH]; intros n lo base weights sum Hk Hn Hb1 Hb2 Hw1 Hw2.
  - assert (n = 0) as -> by lia. rewrite !Z.add_0_r. reflexivity.
  - rewrite seqZ_cons by lia. cbn [for_fold foldl]. unfold bind at 1.
    rewrite accumulate_pure by lia. unfold addRow at 2.
    destruct (cell_at (sharedMem g) (base + lo)) as [a|]; [|rewrite addRow_none; reflexivity].
    destruct (cell_at mask (weights + lo)) as [b|]; [|rewrite addRow_none; reflexivity].
    replace (base + lo + 1) with (base + Z.succ lo) by lia.
    replace (weights + lo + 1) with (weights + Z.succ lo) by lia.
    rewrite (IH (Z.pred n)) by lia.
    replace (base + Z.succ lo + Z.pred n) with (base + lo + n) by lia.
    replace (weights + Z.succ lo + Z.pred n) with (weights + lo + n) by lia.
    reflexivity.
Qed.

Hypothesis half : 0 <= HALF_FILTER_SIZE o.
Hypothesis size : FILTER_SIZE o = 2 * HALF_FILTER_SIZE o + 1.
Hypothesis width : FILTER_SIZE o <= LOCAL_WIDTH o <= 2 ^ 14.

Lemma rows_sum (k : nat) :
  forall (n lo first weights : Z) (sum : spec_float),
    Z.to_nat n = k -> 0 <= n ->
    (forall y, lo <= y <= lo + n ->
               0 <= first + y * LOCAL_WIDTH o <= 2 ^ 30 /\
               0 <= weights + y * FILTER_SIZE o <= 2 ^ 30) ->
    for_fold (seqZ lo n)
      (fun y locals => filter_row o mad mask (HALF_FILTER_SIZE o + 1) locals)
      (sum, first + lo * LOCAL_WIDTH o, weights + lo * FILTER_SIZE o) g
    = match foldl (addRows o mad (sharedMem g) mask first weights) (Some sum) (seqZ lo n) with
      | Some sum' =>
          Return (sum', first + (lo + n) * LOCAL_WIDTH o,
                  weights + (lo + n) * FILTER_SIZE o) g
      | None => Undefined
      end.
Proof.
  induction k as [|k IH]; intros n lo first weights sum Hk Hn Hrows.
  - assert (n = 0) as -> by lia. rewrite !Z.add_0_r. reflexivity.
  - rewrite seqZ_cons by lia. cbn [for_fold foldl]. unfold bind at 1.
    unfold filter_row at 1. unfold bind at 1.
    destruct (Hrows lo) as [Hfirst Hweights]; [lia|].
    destruct (Hrows (Z.succ lo)) as [Hfirst' Hweights']; [lia|].
    pose proof (row_sum (Z.to_nat (HALF_FILTER_SIZE o + 1 - - HALF_FILTER_SIZE o))
                  (HALF_FILTER_SIZE o + 1 - - HALF_FILTER_SIZE o)
                  (- HALF_FILTER_SIZE o)
                  (first + lo * LOCAL_WIDTH o + HALF_FILTER_SIZE o)
                  (weights + lo * FILTER_SIZE o + HALF_FILTER_SIZE o) sum eq_refl) as Hrow.
    replace (first + lo * LOCAL_WIDTH o + HALF_FILTER_SIZE o + - HALF_FILTER_SIZE o)
      with (first + lo * LOCAL_WIDTH o) in Hrow by lia.
    replace (weights + lo * FILTER_SIZE o + HALF_FILTER_SIZE o + - HALF_FILTER_SIZE o)
      with (weights + lo * FILTER_SIZE o) in Hrow by lia.
    unfold range at 1. rewrite Hrow by lia. clear Hrow.
    unfold addRows at 2. unfold range.
    destruct (foldl (addRow _ _ _ _ _) (Some sum) _) as [sum1|]; [|rewrite addRows_none; reflexivity].
    unfold bind at 1. rewrite int_small by lia.
    unfold bind at 1. rewrite int_small by lia.
    cbn [ret].
    replace (first + lo * LOCAL_WIDTH o
             + (HALF_FILTER_SIZE o + 1 - - HALF_FILTER_SIZE o)
             + (LOCAL_WIDTH o - FILTER_SIZE o))
      with (first + Z.succ lo * LOCAL_WIDTH o) by lia.
    replace (weights + lo * FILTER_SIZE o + (HALF_FILTER_SIZE o + 1 - - HALF_FILTER_SIZE o))
      with (weights + Z.succ lo * FILTER_SIZE o) by lia.
    rewrite (IH (Z.pred n)) by (try lia; intros y Hy; apply Hrows; lia).
    replace (Z.succ lo + Z.pred n) with (lo + n) by lia. reflexivity.
Qed.

End Sum.

Lemma after_barrier_sum (o : BuildOptions)
    (mad : spec_float -> spec_float -> spec_float -> spec_float)
    (mask : list (option spec_float)) (origin : Z * Z) (localX localY : Z)
    (g : WorkGroup) :
  tile_fits o -> 0 <= fst origin < 2 ^ 30 -> 0 <= snd origin < 2 ^ 30 ->
  0 <= localX < LOCAL_SIZE_X o -> 0 <= localY < LOCAL_SIZE_Y o ->
  after_barrier o mad mask
    (mkWorkItem (fst origin + localX, snd origin + localY) (localX, localY)) g
  = match local_sum o mad (sharedMem g) mask (localX + localY * LOCAL_WIDTH o) with
    | Some sum =>
        when (bool_decide (IMAGE_WIDTH o > fst origin + localX /\
                           IMAGE_HEIGHT o > snd origin + localY))
          (write_sum o (fst origin + localX, snd origin + localY) sum) g
    | None => Undefined
    end.
Proof.
  intros (F1 & F2 & F3 & F4 & F5 & F6) Hox Hoy Hx Hy.
  pose proof (mul_small localY (LOCAL_WIDTH o)) as Hrows.
  unfold after_barrier. cbn [global_id local_id fst snd].
  do 7 (unfold bind at 1; rewrite int_small by lia).
  rewrite local_sum_rows.
  pose proof (rows_sum o mad mask g F1 F2 ltac:(lia)
                (Z.to_nat (HALF_FILTER_SIZE o + 1 - - HALF_FILTER_SIZE o))
                (HALF_FILTER_SIZE o + 1 - - HALF_FILTER_SIZE o)
                (- HALF_FILTER_SIZE o)
                (localX + localY * LOCAL_WIDTH o + HALF_FILTER_SIZE o * LOCAL_WIDTH o)
                (HALF_FILTER_SIZE o * FILTER_SIZE o) F32.zero eq_refl) as Hsum.
  replace (localX + localY * LOCAL_WIDTH o + HALF_FILTER_SIZE o * LOCAL_WIDTH o
           + - HALF_FILTER_SIZE o * LOCAL_WIDTH o)
    with (localX + localY * LOCAL_WIDTH o) in Hsum by lia.
  replace (HALF_FILTER_SIZE o * FILTER_SIZE o + - HALF_FILTER_SIZE o * FILTER_SIZE o)
    with 0 in Hsum by lia.
  unfold bind at 1. unfold range at 1. rewrite Hsum; [unfold range|lia|].
  - destruct (foldl _ _ _) as [sum|]; reflexivity.
  - intros y Hrow.
    pose proof (mul_small (HALF_FILTER_SIZE o + y) (LOCAL_WIDTH o)) as Hm1.
    pose proof (mul_small (HALF_FILTER_SIZE o + y) (FILTER_SIZE o)) as Hm2.
    lia.
Qed.

Lemma write_sum_color (o : BuildOptions) (pos : Z * Z) (sum : spec_float) (g : WorkGroup) :
  write_sum o pos sum g
  = match color o sum with
    | Some c => write_image pos c g
    | None => Undefined
    end.
Proof.
  unfold write_sum, color. cbv zeta.
  case_bool_decide; [reflexivity|]. case_bool_decide.
  - unfold bind. destruct (round sum) as [n|]; [|reflexivity]. cbn [defined ret].
    case_bool_decide; reflexivity.
  - unfold bind. destruct (round sum) as [n|]; [|reflexivity]. cbn [defined ret].
    unfold int. case_bool_decide; reflexivity.
Qed.

Lemma local_sum_filtered (o : BuildOptions)
    (mad : spec_float -> spec_float -> spec_float -> spec_float)
    (input : image2d_t) (mask mem : list (option spec_float)) (origin : Z * Z)
    (localX localY : Z) :
  tile_fits o -> 2 * HALF_FILTER_SIZE o <= LOCAL_SIZE_X o ->
  (forall x y,
     0 <= x < LOCAL_WIDTH o -> x < 2 * LOCAL_SIZE_X o -> 0 <= y < LOCAL_HEIGHT o ->
     exists v,
       fetch o input (fst origin - HALF_FILTER_SIZE o + x,
                      snd origin - HALF_FILTER_SIZE o + y) = Some v /\
       mem !! Z.to_nat (x + y * LOCAL_WIDTH o) = Some (Some v)) ->
  0 <= localX < LOCAL_SIZE_X o -> 0 <= localY < LOCAL_SIZE_Y o ->
  local_sum o mad mem mask (localX + localY * LOCAL_WIDTH o)
  = filtered o mad input mask (fst origin + localX, snd origin + localY).
Proof.
  intros (F1 & F2 & F3 & F4 & F5 & F6) Hnarrow Htile Hx Hy. unfold local_sum, filtered.
  apply foldl_ext_in. intros [sum|] [y x] Htap; [|reflexivity].
  unfold taps in Htap. apply elem_of_grid in Htap as [Hy' Hx'].
  apply elem_of_range in Hy', Hx'.
  unfold addLocal, addWeighted. cbn [fst snd].
  destruct (Htile (localX + x + HALF_FILTER_SIZE o) (localY + y + HALF_FILTER_SIZE o))
    as (v & Hv & Hcell); [lia|lia|lia|].
  replace (fst origin - HALF_FILTER_SIZE o + (localX + x + HALF_FILTER_SIZE o))
    with (fst origin + localX + x) in Hv by lia.
  replace (snd origin - HALF_FILTER_SIZE o + (localY + y + HALF_FILTER_SIZE o))
    with (snd origin + localY + y) in Hv by lia.
  rewrite Hv.
  replace (localX + localY * LOCAL_WIDTH o + (x + HALF_FILTER_SIZE o)
           + (y + HALF_FILTER_SIZE o) * LOCAL_WIDTH o)
    with (localX + x + HALF_FILTER_SIZE o
          + (localY + y + HALF_FILTER_SIZE o) * LOCAL_WIDTH o) by lia.
  unfold cell_at at 1. rewrite Hcell.
  rewrite bool_decide_eq_true_2; [reflexivity|].
  pose proof (cell_key_bound o (localX + x + HALF_FILTER_SIZE o,
                                localY + y + HALF_FILTER_SIZE o)) as Hbound.
  cbn [fst snd] in Hbound. lia.
Qed.

Lemma filtered_total (o : BuildOptions)
    (mad : spec_float -> spec_float -> spec_float -> spec_float)
    (input : image2d_t) (mask : list (option spec_float)) (pos : Z * Z) :
  0 <= HALF_FILTER_SIZE o -> FILTER_SIZE o = 2 * HALF_FILTER_SIZE o + 1 ->
  readable o input ->
  (forall k, 0 <= k < FILTER_SIZE o * FILTER_SIZE o -> is_Some (cell_at mask k)) ->
  is_Some (filtered o mad input mask pos).
Proof.
  intros Hhalf Hsize Hread Hmask. unfold filtered.
  apply (foldl_option_total (addWeighted o mad input mask pos)).
  intros sum [y x] Htap. unfold taps in Htap. apply elem_of_grid in Htap as [Hy Hx].
  apply elem_of_range in Hy, Hx. unfold addWeighted.
  destruct (Hread (fst pos + x, snd pos + y)) as [a ->].
  destruct (Hmask (x + HALF_FILTER_SIZE o + (y + HALF_FILTER_SIZE o) * FILTER_SIZE o))
    as [b ->]; [|eauto].
  assert (0 <= (y + HALF_FILTER_SIZE o) * FILTER_SIZE o)
    by (apply Z.mul_nonneg_nonneg; lia).
  assert ((y + HALF_FILTER_SIZE o + 1) * FILTER_SIZE o <= FILTER_SIZE o * FILTER_SIZE o)
    by (apply Z.mul_le_mono_nonneg_r; lia).
  lia.
Qed.

(** A loop with an invariant over the iterations that are done. *)
Lemma for_each_invariant {S I} (Inv : list I -> S -> Prop) (l : list I)
    (body : I -> M S unit) :
  (forall done i s, Inv done s -> i ∈ l ->
                    exists s', body i s = Return tt s' /\ Inv (done ++ [i]) s') ->
  forall s, Inv [] s -> exists s', for_each l body s = Return tt s' /\ Inv l s'.
Proof.
  intros Hbody.
  assert (forall rest done s,
            (forall i, i ∈ rest -> i ∈ l) -> Inv done s ->
            exists s', for_each rest body s = Return tt s' /\ Inv (done ++ rest) s')
    as Hgen.
  { induction rest as [|i rest IH]; intros done s Hrest Hinv.
    - exists s. rewrite app_nil_r. split; [reflexivity|exact Hinv].
    - destruct (Hbody done i s Hinv) as (s1 & Hrun & Hinv1); [apply Hrest; left|].
      destruct (IH (done ++ [i]) s1) as (s' & Hrun' & Hinv');
        [intros j Hj; apply Hrest; right; exact Hj|exact Hinv1|].
      exists s'. simpl. unfold bind. rewrite Hrun.
      split; [exact Hrun'|]. rewrite <- app_assoc in Hinv'. exact Hinv'. }
  intros s Hinv. apply (Hgen l [] s); [auto|exact Hinv].
Qed.

(** X23. What the work-group has in local memory at the barrier. When the
    local memory holds the tile and the image can be read as [DATA_TYPE]
    says, the work items reach the barrier in whatever order they run, and
    then, in every row [y] of the tile, the cell [x + y * LOCAL_WIDTH] of
    each of the first [2 * LOCAL_SIZE_X] columns [x] holds the pixel
    [origin - HALF_FILTER_SIZE + (x, y)] of the image, with the coordinates
    clamped to the border of the image; the local memory past the tile and
    the output image are untouched. *)
Theorem tile_holds_clamped_image (o : BuildOptions) (input : image2d_t)
    (origin : Z * Z) (items : list WorkItem) (g : WorkGroup) :
  tile_fits o -> group_ready o origin items g -> readable o input ->
  exists g',
    for_each items (before_barrier o input) g = Return tt g' /\
    output g' = output g /\
    length (sharedMem g') = length (sharedMem g) /\
    (forall x y,
       0 <= x < LOCAL_WIDTH o -> x < 2 * LOCAL_SIZE_X o -> 0 <= y < LOCAL_HEIGHT o ->
       exists v,
         fetch o input (fst origin - HALF_FILTER_SIZE o + x,
                        snd origin - HALF_FILTER_SIZE o + y) = Some v /\
         sharedMem g' !! Z.to_nat (x + y * LOCAL_WIDTH o) = Some (Some v)) /\
    (forall n, LOCAL_WIDTH o * LOCAL_HEIGHT o <= Z.of_nat n ->
               sharedMem g' !! n = sharedMem g !! n).
Proof.
  intros Hfits Hready Hread.
  destruct (barrier_tile o input origin items g Hfits Hready Hread)
    as (mem & Hrun & Hlen & Htile & Hrest).
  exists (set_sharedMem mem g). split; [exact Hrun|]. split; [reflexivity|].
  split; [exact Hlen|]. split; [exact Htile|exact Hrest].
Qed.

(** X24. What one work-group writes. When [2 * HALF_FILTER_SIZE] is at most
    [LOCAL_SIZE_X], with a mask whose weights are written and an output
    image that is at least [IMAGE_WIDTH] by [IMAGE_HEIGHT], the kernel
    returns for every order of
    the work items, and every work item whose global id is inside
    [IMAGE_WIDTH] by [IMAGE_HEIGHT] has written, at its global id, the sum
    over the mask, row by row, of the products of the image pixel at
    [id + (x, y)], clamped to the border, and the weight
    [mask[x + HALF + (y + HALF) * FILTER_SIZE]]; every other pixel of the
    output is as it was. *)
Theorem kernel_filters_clamped_image (o : BuildOptions)
    (mad : spec_float -> spec_float -> spec_float -> spec_float)
    (input : image2d_t) (mask : list (option spec_float)) (origin : Z * Z)
    (items : list WorkItem) (g : WorkGroup) :
  tile_fits o -> 2 * HALF_FILTER_SIZE o <= LOCAL_SIZE_X o ->
  group_ready o origin items g -> readable o input -> mask_written o mask ->
  IMAGE_WIDTH o <= output_width g -> IMAGE_HEIGHT o <= output_height g ->
  (forall pos sum, filtered o mad input mask pos = Some sum -> is_Some (color o sum)) ->
  exists g',
    FilteringLocalMemory o mad input mask items g = Return tt g' /\
    (forall localX localY,
       0 <= localX < LOCAL_SIZE_X o -> 0 <= localY < LOCAL_SIZE_Y o ->
       inside o (fst origin + localX, snd origin + localY) ->
       exists sum c,
         filtered o mad input mask (fst origin + localX, snd origin + localY) = Some sum /\
         color o sum = Some c /\
         output g' !! (fst origin + localX, snd origin + localY) = Some c) /\
    (forall pos,
       (forall localX localY,
          0 <= localX < LOCAL_SIZE_X o -> 0 <= localY < LOCAL_SIZE_Y o ->
          inside o (fst origin + localX, snd origin + localY) ->
          pos <> (fst origin + localX, snd origin + localY)) ->
       output g' !! pos = output g !! pos).
Proof.
  intros Hfits Hnarrow Hready Hread Hmask Hwidth Hheight Hcast.
  destruct (barrier_tile o input origin items g Hfits Hready Hread)
    as (mem & Hrun & _ & Htile & _).
  destruct Hready as (Hitems & Hox & Hoy & _).
  assert (forall item, item ∈ items <-> item ∈ work_items o origin) as Hin
    by (intros item; rewrite Hitems; reflexivity).
  unfold FilteringLocalMemory. unfold bind at 1. rewrite Hrun.
  destruct (for_each_invariant
              (fun done s =>
                 sharedMem s = mem /\ output_width s = output_width g /\
                 output_height s = output_height g /\
                 (forall item, item ∈ done -> inside o (global_id item) ->
                    exists sum c,
                      filtered o mad input mask (global_id item) = Some sum /\
                      color o sum = Some c /\
                      output s !! global_id item = Some c) /\
                 (forall pos,
                    (forall item, item ∈ done -> inside o (global_id item) ->
                                  pos <> global_id item) ->
                    output s !! pos = output g !! pos))
              items (after_barrier o mad mask)) with (s := set_sharedMem mem g)
    as (g' & Hrun' & _ & _ & _ & Hwritten & Hframe).
  - intros done item s (Hmem & Hw & Hh & Hdone & Hothers) Hitem.
    apply Hin, elem_of_work_items in Hitem as (localX & localY & Hx & Hy & ->).
    rewrite (after_barrier_sum o mad mask origin localX localY s Hfits Hox Hoy Hx Hy).
    rewrite Hmem, (local_sum_filtered o mad input mask mem origin localX localY
                     Hfits Hnarrow Htile Hx Hy).
    pose proof Hfits as (F1 & F2 & _).
    destruct (filtered_total o mad input mask (fst origin + localX, snd origin + localY)
                F1 F2 Hread Hmask) as [sum Hsum].
    rewrite Hsum. case_bool_decide as Hinside; cbn [when].
    + rewrite write_sum_color. destruct (Hcast _ _ Hsum) as [c Hc]. rewrite Hc.
      unfold write_image. cbn [fst snd]. rewrite bool_decide_eq_true_2 by lia.
      eexists. split; [reflexivity|]. cbn [sharedMem output_width output_height output
                                           set_output].
      split; [exact Hmem|]. split; [exact Hw|]. split; [exact Hh|]. split.
      * intros item [Hold| ->%list_elem_of_singleton]%elem_of_app Hin'.
        -- destruct (Hdone item Hold Hin') as (sum' & c' & Hsum' & Hc' & Hout).
           destruct (decide (global_id item = (fst origin + localX, snd origin + localY)))
             as [Hsame|Hother].
           ++ exists sum, c. rewrite Hsame. split; [exact Hsum|]. split; [exact Hc|].
              apply lookup_insert_eq.
           ++ exists sum', c'. split; [exact Hsum'|]. split; [exact Hc'|].
              rewrite lookup_insert_ne by congruence. exact Hout.
        -- exists sum, c. cbn [global_id]. split; [exact Hsum|]. split; [exact Hc|].
           apply lookup_insert_eq.
      * intros pos Hpos. rewrite lookup_insert_ne.
        -- apply Hothers. intros item Hold. apply Hpos, elem_of_app. left. exact Hold.
        -- intros <-. apply (Hpos (mkWorkItem (fst origin + localX, snd origin + localY)
                                     (localX, localY))); [|exact Hinside|reflexivity].
           apply elem_of_app. right. left.
    + unfold ret. exists s. split; [reflexivity|].
      split; [exact Hmem|]. split; [exact Hw|]. split; [exact Hh|]. split.
      * intros item [Hold| ->%list_elem_of_singleton]%elem_of_app Hin'.
        -- apply Hdone; assumption.
        -- contradiction.
      * intros pos Hpos. apply Hothers. intros item Hold. apply Hpos, elem_of_app.
        left. exact Hold.
  - cbn [sharedMem output_width output_height output set_sharedMem].
    repeat split; try reflexivity. intros item Hitem. inversion Hitem.
  - exists g'. split; [exact Hrun'|]. split.
    + intros localX localY Hx Hy Hinside.
      apply (Hwritten (mkWorkItem (fst origin + localX, snd origin + localY)
                         (localX, localY))); [|exact Hinside].
      apply Hin, elem_of_work_items. exists localX, localY. repeat split; lia.
    + intros pos Hpos. apply Hframe. intros item Hitem Hinside.
      apply Hin, elem_of_work_items in Hitem as (localX & localY & Hx & Hy & ->).
      apply Hpos; assumption.
Qed.

(** *** A filter that is wider than the work-group *)

Lemma fill_cell_frame (o : BuildOptions) (input : image2d_t) (origin : Z * Z)
    (l : list (Z * Z)) (n : nat) :
  forall d d',
    foldl (fun acc c =>
             match acc with
             | Some d => fill_cell o input origin d c
             | None => None
             end) (Some d) l = Some d' ->
    (forall c, c ∈ l -> Z.to_nat (fst c + snd c * LOCAL_WIDTH o) <> n) ->
    d' !! n = d !! n.
Proof.
  induction l as [|c l IH]; intros d d' Hrun Hkeys; simpl in Hrun.
  - congruence.
  - destruct (fill_cell o input origin d c) as [d1|] eqn:Hfill;
      [|rewrite foldl_option_none in Hrun; discriminate].
    rewrite (IH d1 d' Hrun) by (intros c' Hc'; apply Hkeys; right; exact Hc').
    unfold fill_cell, write_cell in Hfill.
    destruct (tile o input origin c) as [v|]; [|discriminate].
    case_bool_decide; [|discriminate]. injection Hfill as <-.
    apply list_lookup_insert_ne, Hkeys. left.
Qed.

Lemma for_each_reaches {S I} (P : S -> Prop) (l : list I) (body : I -> M S unit) (i : I) :
  i ∈ l ->
  (forall j s, j ∈ l -> P s ->
     match body j s with
     | Return _ s' => P s'
     | Throw _ _ => False
     | Undefined => True
     end) ->
  (forall s, P s -> body i s = Undefined) ->
  forall s, P s -> for_each l body s = Undefined.
Proof.
  intros Hi Hkeep Hfail. induction l as [|j l IH]; intros s Hs; [inversion Hi|].
  simpl. unfold bind.
  apply elem_of_cons in Hi as [<-|Hi]; [rewrite Hfail by exact Hs; reflexivity|].
  pose proof (Hkeep j s ltac:(left) Hs) as Hj.
  destruct (body j s) as [[] s1|what s1|]; [|contradiction|reflexivity].
  apply IH; [exact Hi| |exact Hj].
  intros j' s' Hj'. apply Hkeep. right. exact Hj'.
Qed.

(** X25. A filter wider than the work-group reads local memory that no
    work item has written. A work item of the first row fetches at most two
    cells in each of the rows of the tile below the work-group, so of those
    rows only the first [2 * LOCAL_SIZE_X] columns are filled. When
    [2 * HALF_FILTER_SIZE] exceeds [LOCAL_SIZE_X], the cell in column
    [2 * LOCAL_SIZE_X] of the row [LOCAL_SIZE_Y] is inside the tile and is
    not written before the barrier, and the last work item of the group
    reads it in its sum: on a local memory that did not hold a value
    there, the kernel has undefined behaviour for every image, every mask
    and every order of the work items. *)
Theorem kernel_reads_unwritten_local_memory (o : BuildOptions)
    (mad : spec_float -> spec_float -> spec_float -> spec_float)
    (input : image2d_t) (mask : list (option spec_float)) (origin : Z * Z)
    (items : list WorkItem) (g : WorkGroup) :
  tile_fits o -> LOCAL_SIZE_X o < 2 * HALF_FILTER_SIZE o ->
  group_ready o origin items g ->
  cell_at (sharedMem g) (2 * LOCAL_SIZE_X o + LOCAL_SIZE_Y o * LOCAL_WIDTH o) = None ->
  FilteringLocalMemory o mad input mask items g = Undefined.
Proof.
  intros Hfits Hwider (Hitems & Hox & Hoy & Hmem) Hfresh.
  pose proof Hfits as (F1 & F2 & F3 & F4 & F5 & F6).
  assert (forall item, item ∈ items <-> item ∈ work_items o origin) as Hin
    by (intros item; rewrite Hitems; reflexivity).
  assert (0 <= LOCAL_SIZE_Y o * LOCAL_WIDTH o) as Hrows
    by (apply Z.mul_nonneg_nonneg; lia).
  unfold FilteringLocalMemory. unfold bind at 1.
  pose proof (fetch_phase o input origin g Hfits Hox Hoy items (sharedMem g)
                (fun item => proj1 (Hin item))) as Hrun.
  rewrite set_sharedMem_same in Hrun. rewrite Hrun. clear Hrun.
  destruct (foldl _ (Some (sharedMem g)) _) as [mem|] eqn:Hfill; [|reflexivity].
  assert (cell_at mem (2 * LOCAL_SIZE_X o + LOCAL_SIZE_Y o * LOCAL_WIDTH o) = None)
    as Hcell.
  { unfold cell_at in *.
    rewrite (fill_cell_frame o input origin _ _ _ _ Hfill); [exact Hfresh|].
    intros c (item & Hitem & Hc)%list_elem_of_In%in_flat_map Hkey.
    apply list_elem_of_In in Hitem, Hc. apply Hin in Hitem.
    destruct (cells_in_tile o origin item c Hfits Hitem Hc) as [Hcx Hcy].
    apply (cell_key_inj o c (2 * LOCAL_SIZE_X o, LOCAL_SIZE_Y o)) in Hkey;
      [|cbn [fst snd]; lia..].
    subst c.
    apply elem_of_work_items in Hitem as (localX & localY & Hx & Hy & ->).
    apply elem_of_cells in Hc as [[= Hc1 Hc2]|(_ & _ & Hcol%elem_of_columns)].
    - lia.
    - cbn [local_id fst snd] in Hcol.
      rewrite bool_decide_eq_false_2 in Hcol by lia. lia. }
  apply (for_each_reaches (fun s => sharedMem s = mem) items (after_barrier o mad mask)
           (mkWorkItem (fst origin + (LOCAL_SIZE_X o - 1),
                        snd origin + (LOCAL_SIZE_Y o - 1))
              (LOCAL_SIZE_X o - 1, LOCAL_SIZE_Y o - 1))).
  - apply Hin, elem_of_work_items.
    exists (LOCAL_SIZE_X o - 1), (LOCAL_SIZE_Y o - 1). repeat split; lia.
  - intros item s Hitem Hs.
    apply Hin, elem_of_work_items in Hitem as (localX & localY & Hx & Hy & ->).
    rewrite (after_barrier_sum o mad mask origin localX localY s Hfits Hox Hoy Hx Hy).
    destruct (local_sum _ _ _ _ _) as [sum|]; [|exact I].
    case_bool_decide; cbn [when]; [|exact Hs].
    rewrite write_sum_color. destruct (color o sum) as [c|]; [|exact I].
    unfold write_image. case_bool_decide; [exact Hs|exact I].
  - intros s Hs.
    rewrite (after_barrier_sum o mad mask origin (LOCAL_SIZE_X o - 1)
               (LOCAL_SIZE_Y o - 1) s Hfits Hox Hoy) by lia.
    rewrite Hs.
    assert (local_sum o mad mem mask
              (LOCAL_SIZE_X o - 1 + (LOCAL_SIZE_Y o - 1) * LOCAL_WIDTH o) = None) as ->;
      [|reflexivity].
    unfold local_sum.
    apply (foldl_option_fails (addLocal o mad mem mask _) _
             (1 - HALF_FILTER_SIZE o, LOCAL_SIZE_X o + 1 - HALF_FILTER_SIZE o)).
    + unfold taps. apply elem_of_grid. rewrite !elem_of_range. lia.
    + intros sum. unfold addLocal.
      replace (LOCAL_SIZE_X o - 1 + (LOCAL_SIZE_Y o - 1) * LOCAL_WIDTH o
               + (LOCAL_SIZE_X o + 1 - HALF_FILTER_SIZE o + HALF_FILTER_SIZE o)
               + (1 - HALF_FILTER_SIZE o + HALF_FILTER_SIZE o) * LOCAL_WIDTH o)
        with (2 * LOCAL_SIZE_X o + LOCAL_SIZE_Y o * LOCAL_WIDTH o) by lia.
      rewrite Hcell. reflexivity.
  - reflexivity.
Qed.

Lemma small_filter_fits :
  tile_fits small_filter /\
  group_ready small_filter (2, 2) (work_items small_filter (2, 2)) (fresh_group 16) /\
  readable small_filter ramp_image.
Proof.
  split; [|split].
  - unfold tile_fits. simpl. lia.
  - split; [reflexivity|]. simpl. lia.
  - intros coord. eexists. reflexivity.
Qed.

Lemma ones_written : mask_written small_filter (replicate 9 (Some F32.one)).
Proof.
  intros k Hk. simpl in Hk. unfold cell_at. rewrite bool_decide_eq_true_2 by lia.
  rewrite lookup_replicate_2 by lia. eexists. reflexivity.
Qed.

Lemma tile_holds_clamped_image_witness :
  exists g',
    for_each (work_items small_filter (2, 2)) (before_barrier small_filter ramp_image)
      (fresh_group 16) = Return tt g' /\
    sharedMem g' !! 15%nat = Some (Some (F32.of_int 15)).
Proof.
  destruct small_filter_fits as (Hfits & Hready & Hread).
  destruct (tile_holds_clamped_image small_filter ramp_image (2, 2)
              (work_items small_filter (2, 2)) (fresh_group 16) Hfits Hready Hread)
    as (g' & Hrun & _ & _ & Htile & _).
  exists g'. split; [exact Hrun|].
  destruct (Htile 3 3) as (v & Hv & Hcell); [simpl; lia..|].
  vm_compute in Hv. injection Hv as <-. exact Hcell.
Defined.

Lemma kernel_filters_clamped_image_witness :
  exists g' sum,
    FilteringLocalMemory small_filter multiply_add ramp_image (replicate 9 (Some F32.one))
      (work_items small_filter (2, 2)) (fresh_group 16) = Return tt g' /\
    filtered small_filter multiply_add ramp_image (replicate 9 (Some F32.one)) (3, 3)
    = Some sum /\
    output g' !! (3, 3) = Some (TFloat sum).
Proof.
  destruct small_filter_fits as (Hfits & Hready & Hread).
  destruct (kernel_filters_clamped_image small_filter multiply_add ramp_image
              (replicate 9 (Some F32.one)) (2, 2) (work_items small_filter (2, 2))
              (fresh_group 16) Hfits)
    as (g' & Hrun & Hwritten & _);
    [simpl; lia|exact Hready|exact Hread|exact ones_written|simpl; lia|simpl; lia| |].
  - intros pos sum _. eexists. reflexivity.
  - destruct (Hwritten 1 1) as (sum & c & Hsum & Hc & Hout);
      [simpl; lia|simpl; lia|split; simpl; lia|].
    exists g', sum. split; [exact Hrun|]. split; [exact Hsum|].
    injection Hc as <-. exact Hout.
Defined.

Lemma kernel_reads_unwritten_local_memory_witness :
  FilteringLocalMemory wide_filter multiply_add ramp_image (replicate 25 (Some F32.one))
    (work_items wide_filter (0, 0)) (fresh_group 36) = Undefined.
Proof.
  apply (kernel_reads_unwritten_local_memory wide_filter multiply_add ramp_image
           (replicate 25 (Some F32.one)) (0, 0)).
  - unfold tile_fits. simpl. lia.
  - simpl. lia.
  - split; [reflexivity|]. simpl. lia.
  - reflexivity.
Defined.
